(** * Dexie's Promise engine (src/Promise.js): a shallow embedding

    The engine is a single-threaded, stateful, higher-order program.  Its
    module-level variables and the objects it allocates (promises, zones)
    become one explicit [State] record that every operation threads through;
    a JavaScript completion is either a normal value or a thrown one, so
    operations live in a small state-and-exception monad [M].

    Functions are first-class in the source.  Every closure and every named
    function that the source passes around as a value has one constructor
    in [Fn]; the functions the *application* supplies (executors, handlers,
    thenables) are [FUser] closures whose bodies are interaction programs
    ([Prog]) over the public surface of the module.  Calls through function
    values may not terminate, so the call relation is a function of a fuel
    argument. *)

From Stdlib Require Import ZArith Lia.
From stdpp Require Import base option list strings.

Open Scope Z_scope.

(** ** Values *)

(** Error constructors.  [ECustom n] stands for an application-defined
    subclass of [Error]. *)
Inductive ErrClass :=
| EError | ETypeError | ERangeError | EReferenceError | ESyntaxError
| ECustom (n : nat).

Definition errclass_eqb (a b : ErrClass) : bool :=
  match a, b with
  | EError, EError | ETypeError, ETypeError | ERangeError, ERangeError
  | EReferenceError, EReferenceError | ESyntaxError, ESyntaxError => true
  | ECustom n, ECustom m => Nat.eqb n m
  | _, _ => false
  end.

(** [c] is [k] or derives from it (every error class derives from [Error]). *)
Definition subclass (c k : ErrClass) : bool :=
  errclass_eqb c k || errclass_eqb k EError.

Definition class_name (c : ErrClass) : string :=
  match c with
  | EError => "Error" | ETypeError => "TypeError" | ERangeError => "RangeError"
  | EReferenceError => "ReferenceError" | ESyntaxError => "SyntaxError"
  | ECustom _ => "Error"
  end.

(** JavaScript values.  Objects carry an identity [id]; [===] on objects
    compares identities only.  [VObj] is an immutable object with an
    optional error prototype, an optional own [name] property and a
    [message]; [VThenable] is a foreign object whose [then] property is the
    given function.  The numbers are those with an integer literal,
    [VNum n] being the double nearest to [n], and NaN. *)
Inductive Value :=
| VUndefined
| VNull
| VBool (b : bool)
| VNum (n : Z)
| VNaN
| VStr (s : string)
| VObj (id : nat) (proto : option ErrClass) (name : option string) (message : string)
| VThenable (id : nat) (thenFn : Fn)
| VPromise (p : nat)
| VZone (z : nat)
| VClass (c : ErrClass)
| VListener (l : Listener)
| VFn (f : Fn)

(** Function values: the closures of Promise.js, by creation site. *)
with Fn :=
| FUser (id : nat) (env : list Value)      (* application code *)
| FResolve (promise : nat)                 (* value => {...} in executePromiseTask *)
| FReject (promise : nat)                  (* handleRejection.bind(null, promise) *)
| FAdopt (value : Value)                   (* (resolve, reject) => value ... ._then / .then *)
| FThenExec (this : nat) (onFulfilled onRejected : Value)  (* executor in then *)
| FCatchType (type handler : Value)        (* err => err instanceof type ? ... *)
| FCatchName (type handler : Value)        (* err => err && err.name === type ? ... *)
| FFinallyOk (onFinally : Value)           (* value => { onFinally(); return value; } *)
| FFinallyErr (onFinally : Value)          (* err => { onFinally(); return PromiseReject(err); } *)
| FResolveThenable (value : Value)         (* executor in Promise.resolve *)
| FRaceExec (values : list Value)          (* executor in Promise.race *)
| FTickDec                                 (* ()=>{ if (--numScheduledCalls === 0) finalizePhysicalTick(); } *)
| FCallListener                            (* callListener *)
| FPhysicalTick                            (* physicalTick *)
| FWrapped (fn errorCatcher : Value) (psd : nat)            (* function returned by wrap *)
| FZoneWrap (fn : Value) (zone : nat) (possibleAwait : bool) (* nativeAwaitCompatibleWrap *)
| FNativeEnter (zone : nat)                (* ()=>{ switchToZone(zone); } *)
| FNativeLeave (zone : nat)                (* ()=>{ switchToZone(globalPSD); --zone.ref || zone.finalize(); } *)
| FFinalize (zone : nat)                   (* zone.finalize, bound to its zone *)

(** function Listener(onFulfilled, onRejected, resolve, reject, zone) *)
with Listener :=
| mkListener (onFulfilled onRejected resolve reject : Value) (psd : nat).

Definition l_onFulfilled (l : Listener) := let 'mkListener a _ _ _ _ := l in a.
Definition l_onRejected (l : Listener) := let 'mkListener _ a _ _ _ := l in a.
Definition l_resolve (l : Listener) := let 'mkListener _ _ a _ _ := l in a.
Definition l_reject (l : Listener) := let 'mkListener _ _ _ a _ := l in a.
Definition l_psd (l : Listener) := let 'mkListener _ _ _ _ a := l in a.

(** typeof v === 'function' *)
Definition is_function (v : Value) : bool :=
  match v with VFn _ | VClass _ => true | _ => false end.

(** ToBoolean *)
Definition truthy (v : Value) : bool :=
  match v with
  | VUndefined | VNull => false
  | VBool b => b
  | VNum n => negb (n =? 0)
  | VNaN => false
  | VStr s => negb (String.eqb s "")
  | _ => true
  end.

(** value && typeof value.then === 'function'.  A core promise inherits
    [then] from its prototype. *)
Definition is_thenable (v : Value) : bool :=
  match v with VPromise _ | VThenable _ _ => true | _ => false end.

(** v instanceof Promise *)
Definition is_promise (v : Value) : bool :=
  match v with VPromise _ => true | _ => false end.

Definition option_string_eqb (a b : option string) : bool :=
  match a, b with
  | Some x, Some y => String.eqb x y
  | None, None => true
  | _, _ => false
  end.

(** The double nearest to the integer [n] (ties to even), as the value of
    the literal [n]; 2^1024 stands for Infinity. *)
Definition to_double (n : Z) : Z :=
  let a := Z.abs n in
  if a <? 2 ^ 53 then n
  else
    let e := Z.log2 a - 52 in
    let q := Z.shiftr a e in
    let r := a - Z.shiftl q e in
    let half := Z.shiftl 1 (e - 1) in
    let q' := if (half <? r) || ((r =? half) && Z.odd q) then q + 1 else q in
    let m := Z.shiftl q' e in
    Z.sgn n * (if 2 ^ 1024 <=? m then 2 ^ 1024 else m).

(** The same value: the same primitive (NaN is NaN) or the same object.
    Objects, thenables, promises and zones carry their identity.  A
    function value or a listener stands for the object made at its creation
    site with its captured values, so two of them are the same when site
    and captured values are; where the source makes several objects at one
    site with the same captured values, the model does not tell them
    apart, and the properties that depend on [===] are stated for values
    that are no function values. *)
Fixpoint same_value (a b : Value) {struct a} : bool :=
  match a, b with
  | VUndefined, VUndefined => true
  | VNull, VNull => true
  | VBool x, VBool y => Bool.eqb x y
  | VNum x, VNum y => to_double x =? to_double y
  | VNaN, VNaN => true
  | VStr x, VStr y => String.eqb x y
  | VObj i _ _ _, VObj j _ _ _ => Nat.eqb i j
  | VThenable i _, VThenable j _ => Nat.eqb i j
  | VPromise p, VPromise q => Nat.eqb p q
  | VZone p, VZone q => Nat.eqb p q
  | VClass c, VClass d => errclass_eqb c d
  | VListener l, VListener m => listener_eq l m
  | VFn f, VFn g => fn_eq f g
  | _, _ => false
  end
with fn_eq (f g : Fn) {struct f} : bool :=
  let fix list_eq (xs ys : list Value) {struct xs} : bool :=
    match xs, ys with
    | [], [] => true
    | x :: xs', y :: ys' => same_value x y && list_eq xs' ys'
    | _, _ => false
    end in
  match f, g with
  | FUser i e, FUser j e' => Nat.eqb i j && list_eq e e'
  | FResolve p, FResolve q => Nat.eqb p q
  | FReject p, FReject q => Nat.eqb p q
  | FAdopt v, FAdopt w => same_value v w
  | FThenExec p a b, FThenExec q a' b' => Nat.eqb p q && same_value a a' && same_value b b'
  | FCatchType a b, FCatchType a' b' => same_value a a' && same_value b b'
  | FCatchName a b, FCatchName a' b' => same_value a a' && same_value b b'
  | FFinallyOk a, FFinallyOk a' => same_value a a'
  | FFinallyErr a, FFinallyErr a' => same_value a a'
  | FResolveThenable a, FResolveThenable a' => same_value a a'
  | FRaceExec e, FRaceExec e' => list_eq e e'
  | FTickDec, FTickDec => true
  | FCallListener, FCallListener => true
  | FPhysicalTick, FPhysicalTick => true
  | FWrapped a b z, FWrapped a' b' z' => same_value a a' && same_value b b' && Nat.eqb z z'
  | FZoneWrap a z w, FZoneWrap a' z' w' => same_value a a' && Nat.eqb z z' && Bool.eqb w w'
  | FNativeEnter z, FNativeEnter z' => Nat.eqb z z'
  | FNativeLeave z, FNativeLeave z' => Nat.eqb z z'
  | FFinalize z, FFinalize z' => Nat.eqb z z'
  | _, _ => false
  end
with listener_eq (l m : Listener) {struct l} : bool :=
  match l, m with
  | mkListener a b c d z, mkListener a' b' c' d' z' =>
      same_value a a' && same_value b b' && same_value c c' && same_value d d' && Nat.eqb z z'
  end.

(** Strict equality [===]: the same value, except that NaN is not equal to
    itself. *)
Definition strict_eq (a b : Value) : bool :=
  match a with
  | VNaN => false
  | _ => same_value a b
  end.

(** The values on which [===] is decided by the value itself: everything
    but function values and listeners. *)
Definition by_value (v : Value) : bool :=
  match v with
  | VFn _ | VListener _ => false
  | _ => true
  end.

(** The outcome of  err instanceof type. *)
Inductive InstanceOf :=
| IsInstance (b : bool)
| InstanceTypeError        (* the evaluation throws a TypeError *)
| InstanceUnknown.         (* depends on what the model does not record *)

(** Whether the function has a [prototype] property that is an object:
    yes for a function declaration or a function expression, no for an
    arrow function; a bound function stands for its target
    (handleRejection, a declaration).  For a function of the application
    the model does not record it. *)
Definition has_prototype (f : Fn) : option bool :=
  match f with
  | FUser _ _ => None
  | FReject _ | FCallListener | FPhysicalTick | FWrapped _ _ _ | FZoneWrap _ _ _
  | FFinalize _ => Some true
  | _ => Some false
  end.

(** Type(v) is Object *)
Definition is_object (v : Value) : bool :=
  match v with
  | VObj _ _ _ _ | VThenable _ _ | VPromise _ | VZone _ | VClass _ | VListener _
  | VFn _ => true
  | _ => false
  end.

(** err instanceof type.  An error constructor has the error objects of
    its class and of the classes derived from it as instances.  No
    modelled value is an instance of a function of the module; with a
    primitive on the left the answer is false before the prototype is
    looked at, otherwise a function without a prototype object, or a right
    operand that is no function, makes the evaluation throw. *)
Definition instanceOf (err type : Value) : InstanceOf :=
  match type with
  | VClass k =>
      IsInstance (match err with
                  | VObj _ (Some c) _ _ => subclass c k
                  | _ => false
                  end)
  | VFn f =>
      if is_object err then
        match has_prototype f with
        | Some true => IsInstance false
        | Some false => InstanceTypeError
        | None => InstanceUnknown
        end
      else IsInstance false
  | _ => InstanceTypeError
  end.

(** The [name] property of a function value: "" for the anonymous
    functions (the arrow functions and the function expressions that are
    returned or assigned to a property), the name of a declaration, "bound
    handleRejection" for the reject capability, "finalize" for
    globalPSD.finalize, defined in an object literal.  The model does not
    record the names of the application's functions. *)
Definition fn_name (f : Fn) : option string :=
  match f with
  | FUser _ _ => None
  | FReject _ => Some "bound handleRejection"
  | FCallListener => Some "callListener"
  | FPhysicalTick => Some "physicalTick"
  | FFinalize z => Some (if Nat.eqb z 0 then "finalize" else "")
  | _ => Some ""
  end.

(** The [name] property as read by [err.name], for a value other than
    undefined and null: the own property if any, else the one inherited
    from the error prototype; [VUndefined] when the value has none.
    [None]: the name is one the model does not record (a function or a
    class of the application). *)
Definition name_of (v : Value) : option Value :=
  match v with
  | VObj _ _ (Some n) _ => Some (VStr n)
  | VObj _ (Some c) None _ => Some (VStr (class_name c))
  | VClass (ECustom _) => None
  | VClass c => Some (VStr (class_name c))
  | VFn f => option_map VStr (fn_name f)
  | _ => Some VUndefined
  end.

(** rejectingErrors.indexOf(value) === -1 *)
Definition not_in_values (v : Value) (l : list Value) : bool :=
  negb (existsb (strict_eq v) l).

(** ** Application code *)

(** The public surface of the module, as seen from application code. *)
Inductive Op :=
| ONew (fn : Value)                          (* new Promise(fn) *)
| OThen (this onFulfilled onRejected : Value) (* this.then(onFulfilled, onRejected) *)
| OCatch (this : Value) (args : list Value)  (* this.catch(...args) *)
| OFinally (this onFinally : Value)          (* this.finally(onFinally) *)
| OResolve (value : Value)                   (* Promise.resolve(value) *)
| OReject (reason : Value)                   (* Promise.reject(reason) *)
| ORace (values : list Value)                (* Promise.race(values) *)
| OCall (f : Value) (args : list Value)      (* f(...args) *)
| ONewScope (fn a1 a2 : Value)               (* newScope(fn, undefined, a1, a2) *)
| OUsePSD (psd fn a1 a2 a3 : Value)          (* usePSD(psd, fn, a1, a2, a3) *)
| OGetPSD                                    (* Promise.PSD *)
| OWrap (fn errorCatcher : Value)            (* wrap(fn, errorCatcher) *)
| OSetLib (promise : Value) (b : bool)       (* promise._lib = b *)
| ONewError (c : ErrClass) (message : string) (* new c(message) *)
| ONewObject (name : option string)          (* a plain object, with or without a name *)
| ONewThenable (thenFn : Fn)                 (* { then: thenFn } *)
| OGet (x : nat)                             (* read an application variable *)
| OSet (x : nat) (v : Value).                (* write it *)

(** A function body of the application: it returns, throws, performs an
    operation of the surface and goes on with its result, or guards a block
    with try/catch. *)
Inductive Prog :=
| Ret (v : Value)
| Throw (v : Value)
| Do (o : Op) (k : Value -> Prog)
| Try (body : Prog) (handler : Value -> Prog) (k : Value -> Prog).

(** ** State *)

(** Promise.prototype.then is reassigned by switchToZone; a zone's
    [env.dthen] is getPatchedPromiseThen(origThen, zone). *)
Inductive ThenImpl :=
| ThenOrig
| ThenPatched (origThen : ThenImpl) (zone : nat).

(** A promise object.  _state: null (=pending), false (=rejected) or true
    (=resolved).  The fields of the debug build (_stackHolder, _prev,
    _numPrev) only feed the rendering of long stacks and are left out with
    it. *)
Record PromiseRec := mkPromise {
  _listeners : list Listener;
  _lib : bool;
  _PSD : nat;
  _state : option bool;
  _value : Value
}.

(** A zone.  Zone 0 is globalPSD.  [finalize] is determined by [global]:
    globalPSD.finalize for the global zone, the function assigned in
    newScope otherwise; [onunhandled] is inherited from globalPSD through
    the prototype chain by every zone newScope creates. *)
Record ZoneRec := mkZone {
  parent : option nat;
  ref : Z;
  global : bool;
  env_dthen : ThenImpl
}.

Record State := mkState {
  (* heap *)
  promises : list PromiseRec;
  zones : list ZoneRec;
  (* module variables *)
  PSD : nat;
  protoThen : ThenImpl;                       (* Promise.prototype.then *)
  microtickQueue : list (Fn * list Value);
  numScheduledCalls : Z;
  tickFinalizers : list Fn;
  isOutsideMicroTick : bool;
  needsNewPhysicalTick : bool;
  unhandledErrors : list nat;
  rejectingErrors : list Value;
  currentFulfiller : option nat;
  nativePromiseThen : bool;                   (* whether the host has a native Promise *)
  unhandleds : list (Value * nat);            (* globalPSD.unhandleds *)
  (* host *)
  physicalTicksRequested : nat;               (* calls of the host's scheduling primitive *)
  nativeMicrotasks : list Fn;                 (* jobs given to the host's own promise queue *)
  hostEvents : list (Value * nat);            (* unhandledrejection events dispatched *)
  (* application *)
  uvars : list (nat * Value);
  nextObjId : nat;
  (* history, for stating properties *)
  finalizeLog : list nat;                     (* zones whose finalize was entered, oldest first *)
  callLog : list (nat * list Value * list Value) (* application functions entered *)
}.

Definition set_promises f st := mkState (f (promises st)) (zones st) (PSD st) (protoThen st) (microtickQueue st) (numScheduledCalls st) (tickFinalizers st) (isOutsideMicroTick st) (needsNewPhysicalTick st) (unhandledErrors st) (rejectingErrors st) (currentFulfiller st) (nativePromiseThen st) (unhandleds st) (physicalTicksRequested st) (nativeMicrotasks st) (hostEvents st) (uvars st) (nextObjId st) (finalizeLog st) (callLog st).
Definition set_zones f st := mkState (promises st) (f (zones st)) (PSD st) (protoThen st) (microtickQueue st) (numScheduledCalls st) (tickFinalizers st) (isOutsideMicroTick st) (needsNewPhysicalTick st) (unhandledErrors st) (rejectingErrors st) (currentFulfiller st) (nativePromiseThen st) (unhandleds st) (physicalTicksRequested st) (nativeMicrotasks st) (hostEvents st) (uvars st) (nextObjId st) (finalizeLog st) (callLog st).
Definition set_PSD f st := mkState (promises st) (zones st) (f (PSD st)) (protoThen st) (microtickQueue st) (numScheduledCalls st) (tickFinalizers st) (isOutsideMicroTick st) (needsNewPhysicalTick st) (unhandledErrors st) (rejectingErrors st) (currentFulfiller st) (nativePromiseThen st) (unhandleds st) (physicalTicksRequested st) (nativeMicrotasks st) (hostEvents st) (uvars st) (nextObjId st) (finalizeLog st) (callLog st).
Definition set_protoThen f st := mkState (promises st) (zones st) (PSD st) (f (protoThen st)) (microtickQueue st) (numScheduledCalls st) (tickFinalizers st) (isOutsideMicroTick st) (needsNewPhysicalTick st) (unhandledErrors st) (rejectingErrors st) (currentFulfiller st) (nativePromiseThen st) (unhandleds st) (physicalTicksRequested st) (nativeMicrotasks st) (hostEvents st) (uvars st) (nextObjId st) (finalizeLog st) (callLog st).
Definition set_microtickQueue f st := mkState (promises st) (zones st) (PSD st) (protoThen st) (f (microtickQueue st)) (numScheduledCalls st) (tickFinalizers st) (isOutsideMicroTick st) (needsNewPhysicalTick st) (unhandledErrors st) (rejectingErrors st) (currentFulfiller st) (nativePromiseThen st) (unhandleds st) (physicalTicksRequested st) (nativeMicrotasks st) (hostEvents st) (uvars st) (nextObjId st) (finalizeLog st) (callLog st).
Definition set_numScheduledCalls f st := mkState (promises st) (zones st) (PSD st) (protoThen st) (microtickQueue st) (f (numScheduledCalls st)) (tickFinalizers st) (isOutsideMicroTick st) (needsNewPhysicalTick st) (unhandledErrors st) (rejectingErrors st) (currentFulfiller st) (nativePromiseThen st) (unhandleds st) (physicalTicksRequested st) (nativeMicrotasks st) (hostEvents st) (uvars st) (nextObjId st) (finalizeLog st) (callLog st).
Definition set_isOutsideMicroTick f st := mkState (promises st) (zones st) (PSD st) (protoThen st) (microtickQueue st) (numScheduledCalls st) (tickFinalizers st) (f (isOutsideMicroTick st)) (needsNewPhysicalTick st) (unhandledErrors st) (rejectingErrors st) (currentFulfiller st) (nativePromiseThen st) (unhandleds st) (physicalTicksRequested st) (nativeMicrotasks st) (hostEvents st) (uvars st) (nextObjId st) (finalizeLog st) (callLog st).
Definition set_needsNewPhysicalTick f st := mkState (promises st) (zones st) (PSD st) (protoThen st) (microtickQueue st) (numScheduledCalls st) (tickFinalizers st) (isOutsideMicroTick st) (f (needsNewPhysicalTick st)) (unhandledErrors st) (rejectingErrors st) (currentFulfiller st) (nativePromiseThen st) (unhandleds st) (physicalTicksRequested st) (nativeMicrotasks st) (hostEvents st) (uvars st) (nextObjId st) (finalizeLog st) (callLog st).
Definition set_unhandledErrors f st := mkState (promises st) (zones st) (PSD st) (protoThen st) (microtickQueue st) (numScheduledCalls st) (tickFinalizers st) (isOutsideMicroTick st) (needsNewPhysicalTick st) (f (unhandledErrors st)) (rejectingErrors st) (currentFulfiller st) (nativePromiseThen st) (unhandleds st) (physicalTicksRequested st) (nativeMicrotasks st) (hostEvents st) (uvars st) (nextObjId st) (finalizeLog st) (callLog st).
Definition set_rejectingErrors f st := mkState (promises st) (zones st) (PSD st) (protoThen st) (microtickQueue st) (numScheduledCalls st) (tickFinalizers st) (isOutsideMicroTick st) (needsNewPhysicalTick st) (unhandledErrors st) (f (rejectingErrors st)) (currentFulfiller st) (nativePromiseThen st) (unhandleds st) (physicalTicksRequested st) (nativeMicrotasks st) (hostEvents st) (uvars st) (nextObjId st) (finalizeLog st) (callLog st).
Definition set_currentFulfiller f st := mkState (promises st) (zones st) (PSD st) (protoThen st) (microtickQueue st) (numScheduledCalls st) (tickFinalizers st) (isOutsideMicroTick st) (needsNewPhysicalTick st) (unhandledErrors st) (rejectingErrors st) (f (currentFulfiller st)) (nativePromiseThen st) (unhandleds st) (physicalTicksRequested st) (nativeMicrotasks st) (hostEvents st) (uvars st) (nextObjId st) (finalizeLog st) (callLog st).
Definition set_physicalTicksRequested f st := mkState (promises st) (zones st) (PSD st) (protoThen st) (microtickQueue st) (numScheduledCalls st) (tickFinalizers st) (isOutsideMicroTick st) (needsNewPhysicalTick st) (unhandledErrors st) (rejectingErrors st) (currentFulfiller st) (nativePromiseThen st) (unhandleds st) (f (physicalTicksRequested st)) (nativeMicrotasks st) (hostEvents st) (uvars st) (nextObjId st) (finalizeLog st) (callLog st).
Definition set_nativeMicrotasks f st := mkState (promises st) (zones st) (PSD st) (protoThen st) (microtickQueue st) (numScheduledCalls st) (tickFinalizers st) (isOutsideMicroTick st) (needsNewPhysicalTick st) (unhandledErrors st) (rejectingErrors st) (currentFulfiller st) (nativePromiseThen st) (unhandleds st) (physicalTicksRequested st) (f (nativeMicrotasks st)) (hostEvents st) (uvars st) (nextObjId st) (finalizeLog st) (callLog st).
Definition set_hostEvents f st := mkState (promises st) (zones st) (PSD st) (protoThen st) (microtickQueue st) (numScheduledCalls st) (tickFinalizers st) (isOutsideMicroTick st) (needsNewPhysicalTick st) (unhandledErrors st) (rejectingErrors st) (currentFulfiller st) (nativePromiseThen st) (unhandleds st) (physicalTicksRequested st) (nativeMicrotasks st) (f (hostEvents st)) (uvars st) (nextObjId st) (finalizeLog st) (callLog st).
Definition set_uvars f st := mkState (promises st) (zones st) (PSD st) (protoThen st) (microtickQueue st) (numScheduledCalls st) (tickFinalizers st) (isOutsideMicroTick st) (needsNewPhysicalTick st) (unhandledErrors st) (rejectingErrors st) (currentFulfiller st) (nativePromiseThen st) (unhandleds st) (physicalTicksRequested st) (nativeMicrotasks st) (hostEvents st) (f (uvars st)) (nextObjId st) (finalizeLog st) (callLog st).
Definition set_nextObjId f st := mkState (promises st) (zones st) (PSD st) (protoThen st) (microtickQueue st) (numScheduledCalls st) (tickFinalizers st) (isOutsideMicroTick st) (needsNewPhysicalTick st) (unhandledErrors st) (rejectingErrors st) (currentFulfiller st) (nativePromiseThen st) (unhandleds st) (physicalTicksRequested st) (nativeMicrotasks st) (hostEvents st) (uvars st) (f (nextObjId st)) (finalizeLog st) (callLog st).
Definition set_finalizeLog f st := mkState (promises st) (zones st) (PSD st) (protoThen st) (microtickQueue st) (numScheduledCalls st) (tickFinalizers st) (isOutsideMicroTick st) (needsNewPhysicalTick st) (unhandledErrors st) (rejectingErrors st) (currentFulfiller st) (nativePromiseThen st) (unhandleds st) (physicalTicksRequested st) (nativeMicrotasks st) (hostEvents st) (uvars st) (nextObjId st) (f (finalizeLog st)) (callLog st).
Definition set_callLog f st := mkState (promises st) (zones st) (PSD st) (protoThen st) (microtickQueue st) (numScheduledCalls st) (tickFinalizers st) (isOutsideMicroTick st) (needsNewPhysicalTick st) (unhandledErrors st) (rejectingErrors st) (currentFulfiller st) (nativePromiseThen st) (unhandleds st) (physicalTicksRequested st) (nativeMicrotasks st) (hostEvents st) (uvars st) (nextObjId st) (finalizeLog st) (f (callLog st)).

(** The state right after the module is loaded. *)
Definition globalPSD : ZoneRec :=
  {| parent := None; ref := 0; global := true; env_dthen := ThenOrig |}.

Definition initial : State :=
  {| promises := []; zones := [globalPSD]; PSD := 0%nat; protoThen := ThenOrig;
     microtickQueue := []; numScheduledCalls := 0; tickFinalizers := [];
     isOutsideMicroTick := true; needsNewPhysicalTick := true;
     unhandledErrors := []; rejectingErrors := []; currentFulfiller := None;
     nativePromiseThen := true; unhandleds := [];
     physicalTicksRequested := 0%nat; nativeMicrotasks := []; hostEvents := [];
     uvars := []; nextObjId := 0%nat; finalizeLog := []; callLog := [] |}.

(** ** The monad of engine operations *)

Inductive Outcome (A : Type) :=
| Normal (a : A)
| Throws (e : Value).
Arguments Normal {A} a.
Arguments Throws {A} e.

(** [None]: no completion (the fuel ran out, or a reference does not denote
    an object of the heap). *)
Definition M (A : Type) : Type := State -> option (Outcome A * State).

Definition ret {A} (a : A) : M A := fun st => Some (Normal a, st).
Definition throw {A} (e : Value) : M A := fun st => Some (Throws e, st).
Definition stuck {A} : M A := fun _ => None.
Definition bind {A B} (m : M A) (k : A -> M B) : M B :=
  fun st =>
    match m st with
    | Some (Normal a, st') => k a st'
    | Some (Throws e, st') => Some (Throws e, st')
    | None => None
    end.
Definition gets {A} (f : State -> A) : M A := fun st => Some (Normal (f st), st).
Definition modify (f : State -> State) : M unit := fun st => Some (Normal tt, f st).

(** try { m } catch (e) { h e } *)
Definition try_catch {A} (m : M A) (h : Value -> M A) : M A :=
  fun st =>
    match m st with
    | Some (Throws e, st') => h e st'
    | r => r
    end.

(** try { m } finally { fin }: the completion of [m] stands unless [fin]
    throws. *)
Definition try_finally {A} (m : M A) (fin : M unit) : M A :=
  fun st =>
    match m st with
    | Some (o, st') =>
        match fin st' with
        | Some (Normal _, st'') => Some (o, st'')
        | Some (Throws e, st'') => Some (Throws e, st'')
        | None => None
        end
    | None => None
    end.

Declare Scope eng_scope.
Delimit Scope eng_scope with eng.
Notation "x <- m ;; k" := (bind m (fun x => k))
  (at level 100, m at next level, right associativity) : eng_scope.
Notation "m ;;; k" := (bind m (fun _ => k))
  (at level 100, right associativity) : eng_scope.
Open Scope eng_scope.

Definition when (b : bool) (m : M unit) : M unit := if b then m else ret tt.

(** for (...) body(x) over a list; a throw ends the loop. *)
Fixpoint forEach {A} (l : list A) (body : A -> M unit) : M unit :=
  match l with
  | [] => ret tt
  | x :: l' => body x ;;; forEach l' body
  end.

(** ** Heap access *)

Definition getPromise (p : nat) : M PromiseRec :=
  fun st => match promises st !! p with
            | Some r => Some (Normal r, st)
            | None => None
            end.

Definition getZone (z : nat) : M ZoneRec :=
  fun st => match zones st !! z with
            | Some r => Some (Normal r, st)
            | None => None
            end.

Definition update_promise (p : nat) (f : PromiseRec -> PromiseRec) (st : State) : State :=
  set_promises (fun ps => match ps !! p with
                          | Some r => <[p := f r]> ps
                          | None => ps
                          end) st.

Definition update_zone (z : nat) (f : ZoneRec -> ZoneRec) (st : State) : State :=
  set_zones (fun zs => match zs !! z with
                       | Some r => <[z := f r]> zs
                       | None => zs
                       end) st.

Definition with_listeners (ls : list Listener) (r : PromiseRec) : PromiseRec :=
  mkPromise ls (_lib r) (_PSD r) (_state r) (_value r).
Definition with_lib (b : bool) (r : PromiseRec) : PromiseRec :=
  mkPromise (_listeners r) b (_PSD r) (_state r) (_value r).
Definition with_settled (s : bool) (v : Value) (r : PromiseRec) : PromiseRec :=
  mkPromise (_listeners r) (_lib r) (_PSD r) (Some s) v.

Definition with_ref (f : Z -> Z) (r : ZoneRec) : ZoneRec :=
  mkZone (parent r) (f (ref r)) (global r) (env_dthen r).
Definition with_dthen (t : ThenImpl) (r : ZoneRec) : ZoneRec :=
  mkZone (parent r) (ref r) (global r) t.

(** The object behind [this] in a constructor call. *)
Definition allocPromise (r : PromiseRec) : M nat :=
  fun st => Some (Normal (length (promises st)), set_promises (fun ps => ps ++ [r]) st).

Definition allocZone (r : ZoneRec) : M nat :=
  fun st => Some (Normal (length (zones st)), set_zones (fun zs => zs ++ [r]) st).

(** new c(message) *)
Definition newError (c : ErrClass) (message : string) : M Value :=
  fun st => Some (Normal (VObj (nextObjId st) (Some c) None message),
                  set_nextObjId S st).

Definition throwNew {A} (c : ErrClass) (message : string) : M A :=
  e <- newError c message ;; throw e.

(** ** The engine *)

(** Modelled from the spec: [mirror], the default rejection mapper, is
    imported from './chaining-functions', which is not part of the
    sources; the spec has the mapper as "identity by default".  The
    accessor that installs another mapper (like the one that installs
    another scheduler) is outside the model. *)
Definition mirror (v : Value) : Value := v.
Definition rejectionMapper : Value -> Value := mirror.

Definition incRef (z : nat) : M unit := modify (update_zone z (with_ref Z.succ)).

(** function switchToZone (targetZone).  Of the environment it swaps, the
    model keeps Promise.prototype.then; the snapshot on leaving the global
    zone is taken when the host has a Promise. *)
Definition switchToZone (targetZone : nat) : M unit :=
  currentZone <- gets PSD ;;
  if Nat.eqb targetZone currentZone then ret tt
  else
    target <- getZone targetZone ;;
    modify (set_PSD (fun _ => targetZone)) ;;;
    hasPromise <- gets nativePromiseThen ;;
    when (Nat.eqb currentZone 0 && hasPromise)
         (modify (fun st => update_zone 0 (with_dthen (protoThen st)) st)) ;;;
    modify (set_protoThen (fun _ => env_dthen target)).

(** schedulePhysicalTick, in its first form:
    usePSD(globalPSD, () => { resolvedGlobalPromise.then(physicalTick); }) *)
Definition schedulePhysicalTick : M unit :=
  outerScope <- gets PSD ;;
  switchToZone 0 ;;;
  modify (set_physicalTicksRequested S) ;;;
  switchToZone outerScope.

(** var asap = function (callback, args) *)
Definition asap (callback : Fn) (args : list Value) : M unit :=
  modify (set_microtickQueue (fun q => q ++ [(callback, args)])) ;;;
  need <- gets needsNewPhysicalTick ;;
  when need
       (schedulePhysicalTick ;;;
        modify (set_needsNewPhysicalTick (fun _ => false))).

(** function beginMicroTickScope() *)
Definition beginMicroTickScope : M bool :=
  wasRootExec <- gets isOutsideMicroTick ;;
  modify (set_isOutsideMicroTick (fun _ => false)) ;;;
  modify (set_needsNewPhysicalTick (fun _ => false)) ;;;
  ret wasRootExec.

(** function addPossiblyUnhandledError(promise) *)
Definition same_reason (st : State) (v : Value) (q : nat) : bool :=
  match promises st !! q with
  | Some r => strict_eq (_value r) v
  | None => false
  end.

Definition addPossiblyUnhandledError (promise : nat) : M unit :=
  r <- getPromise promise ;;
  st <- gets id ;;
  when (negb (existsb (same_reason st (_value r)) (unhandledErrors st)))
       (modify (set_unhandledErrors (fun l => l ++ [promise]))).

(** The loop of markErrorAsHandled: from the end of the list, remove the
    first entry whose value is the given one. *)
Fixpoint remove_last_match (f : nat -> bool) (l : list nat) : option (list nat) :=
  match l with
  | [] => None
  | q :: l' =>
      match remove_last_match f l' with
      | Some l'' => Some (q :: l'')
      | None => if f q then Some l' else None
      end
  end.

(** function markErrorAsHandled(promise) *)
Definition markErrorAsHandled (promise : nat) : M unit :=
  r <- getPromise promise ;;
  st <- gets id ;;
  match remove_last_match (same_reason st (_value r)) (unhandledErrors st) with
  | Some l => modify (set_unhandledErrors (fun _ => l))
  | None => ret tt
  end.

(** function globalError(err, promise): the default [onuncatched] is a
    no-op and the dispatch of the 'unhandledrejection' event belongs to
    the host; the event is recorded.  Nothing escapes its try blocks. *)
Definition globalError (err : Value) (promise : nat) : M unit :=
  modify (set_hostEvents (fun l => l ++ [(err, promise)])).

Section Engine.

(** Calls through function values, and the bound on the drain loop. *)
Variable call : Fn -> list Value -> M Value.
Variable fuel : nat.

Definition arg (i : nat) (args : list Value) : Value :=
  default VUndefined (args !! i).

(** f(...args) for an arbitrary value [f] *)
Definition callValue (f : Value) (args : list Value) : M Value :=
  match f with
  | VFn fn => call fn args
  | VClass c =>
      newError c (match arg 0 args with VStr s => s | _ => "" end)
  | _ => throwNew ETypeError "not a function"
  end.

(** --psd.ref || psd.finalize() *)
Definition releaseRef (psd : nat) : M unit :=
  modify (update_zone psd (with_ref Z.pred)) ;;;
  z <- getZone psd ;;
  if ref z =? 0 then callValue (VFn (FFinalize psd)) [] ;;; ret tt
  else ret tt.

(** function endMicroTickScope() *)
Fixpoint drain (k : nat) : M unit :=
  match k with
  | O => stuck
  | S k' =>
      callbacks <- gets microtickQueue ;;
      match callbacks with
      | [] => ret tt
      | _ =>
          modify (set_microtickQueue (fun _ => [])) ;;;
          forEach callbacks (fun item => callValue (VFn (fst item)) (snd item) ;;; ret tt) ;;;
          drain k'
      end
  end.

Definition endMicroTickScope : M unit :=
  drain fuel ;;;
  modify (set_isOutsideMicroTick (fun _ => true)) ;;;
  modify (set_needsNewPhysicalTick (fun _ => true)).

(** function physicalTick() *)
Definition physicalTick : M Value :=
  wasRootExec <- beginMicroTickScope ;;
  when wasRootExec endMicroTickScope ;;;
  ret VUndefined.

(** function finalizePhysicalTick() *)
Definition finalizePhysicalTick : M unit :=
  unhandledErrs <- gets unhandledErrors ;;
  modify (set_unhandledErrors (fun _ => [])) ;;;
  forEach unhandledErrs
          (fun p => r <- getPromise p ;; globalError (_value r) p) ;;;
  finalizers <- gets tickFinalizers ;;
  forEach (rev finalizers) (fun f => callValue (VFn f) [] ;;; ret tt).

(** function propagateToListener(promise, listener) *)
Definition propagateToListener (promise : nat) (listener : Listener) : M Value :=
  r <- getPromise promise ;;
  match _state r with
  | None =>
      modify (update_promise promise
                (fun r => with_listeners (_listeners r ++ [listener]) r)) ;;;
      ret VUndefined
  | Some s =>
      let cb := if s then l_onFulfilled listener else l_onRejected listener in
      if strict_eq cb VNull then
        callValue (if s then l_resolve listener else l_reject listener) [_value r]
      else
        incRef (l_psd listener) ;;;
        modify (set_numScheduledCalls Z.succ) ;;;
        asap FCallListener [cb; VPromise promise; VListener listener] ;;;
        ret VUndefined
  end.

(** function propagateAllListeners (promise) *)
Definition propagateAllListeners (promise : nat) : M unit :=
  r <- getPromise promise ;;
  let listeners := _listeners r in
  modify (update_promise promise (with_listeners [])) ;;;
  forEach listeners (fun l => propagateToListener promise l ;;; ret tt) ;;;
  releaseRef (_PSD r) ;;;
  n <- gets numScheduledCalls ;;
  when (n =? 0)
       (modify (set_numScheduledCalls Z.succ) ;;;
        asap FTickDec []).

(** function handleRejection (promise, reason).  The debug build's patch
    of reason.stack is left out with the long stacks. *)
Definition handleRejection (promise : nat) (reason : Value) : M unit :=
  modify (set_rejectingErrors (fun l => l ++ [reason])) ;;;
  r <- getPromise promise ;;
  match _state r with
  | Some _ => ret tt
  | None =>
      shouldExecuteTick <- (if _lib r then beginMicroTickScope else ret false) ;;
      let reason := rejectionMapper reason in
      modify (update_promise promise (with_settled false reason)) ;;;
      addPossiblyUnhandledError promise ;;;
      propagateAllListeners promise ;;;
      when shouldExecuteTick endMicroTickScope
  end.

(** function executePromiseTask (promise, fn) *)
Definition executePromiseTask (promise : nat) (fn : Value) : M unit :=
  try_catch
    (callValue fn [VFn (FResolve promise); VFn (FReject promise)] ;;; ret tt)
    (fun ex => handleRejection promise ex).

(** The resolving function handed to the executor by executePromiseTask. *)
Definition resolveFn (promise : nat) (value : Value) : M Value :=
  r <- getPromise promise ;;
  match _state r with
  | Some _ => ret VUndefined
  | None =>
      if strict_eq value (VPromise promise)
      then throwNew ETypeError "A promise cannot be resolved with itself."
      else
        shouldExecuteTick <- (if _lib r then beginMicroTickScope else ret false) ;;
        (if is_thenable value then
           executePromiseTask promise (VFn (FAdopt value))
         else
           modify (update_promise promise (with_settled true value)) ;;;
           propagateAllListeners promise) ;;;
        when shouldExecuteTick endMicroTickScope ;;;
        ret VUndefined
  end.

(** function Listener(...): handlers that are not functions become null. *)
Definition newListener (onFulfilled onRejected resolve reject : Value) (zone : nat)
  : Listener :=
  mkListener (if is_function onFulfilled then onFulfilled else VNull)
             (if is_function onRejected then onRejected else VNull)
             resolve reject zone.

(** Promise.prototype._then *)
Definition _then (this : nat) (onFulfilled onRejected : Value) : M Value :=
  psd <- gets PSD ;;
  propagateToListener this (newListener VNull VNull onFulfilled onRejected psd).

(** The executor  (resolve, reject) => { value instanceof Promise ?
    value._then(resolve, reject) : value.then(resolve, reject); } *)
Definition adopt (value resolve reject : Value) : M Value :=
  match value with
  | VPromise q => _then q resolve reject ;;; ret VUndefined
  | VThenable _ thenFn => call thenFn [resolve; reject] ;;; ret VUndefined
  | _ => throwNew ETypeError "value.then is not a function"
  end.

(** export default function Promise(fn), called with new and a
    function [fn] or anything else but the private token.  The debug
    build's linkToPreviousPromise is left out with the long stacks. *)
Definition newPromise (fn : Value) : M nat :=
  psd <- gets PSD ;;
  this <- allocPromise (mkPromise [] false psd None VNull) ;;
  if negb (is_function fn) then throwNew ETypeError "Not a function"
  else
    incRef psd ;;;
    executePromiseTask this fn ;;;
    ret this.

(** new Promise(INTERNAL, state, value) *)
Definition newPromiseInternal (state : bool) (value : Value) : M nat :=
  psd <- gets PSD ;;
  this <- allocPromise (mkPromise [] false psd (Some state) value) ;;
  when (negb state) (handleRejection this value) ;;;
  ret this.

(** function PromiseReject (reason) *)
Definition PromiseReject (reason : Value) : M Value :=
  p <- newPromiseInternal false reason ;; ret (VPromise p).

(** then: function (onFulfilled, onRejected) *)
Definition then_ (this : nat) (onFulfilled onRejected : Value) : M Value :=
  rv <- newPromise (VFn (FThenExec this onFulfilled onRejected)) ;;
  ret (VPromise rv).

(** function nativeAwaitCompatibleWrap(fn, zone, possibleAwait) *)
Definition nativeAwaitCompatibleWrap (fn : Value) (zone : nat) (possibleAwait : bool)
  : Value :=
  if is_function fn then VFn (FZoneWrap fn zone possibleAwait) else fn.

(** this.then(onResolved, onRejected) through Promise.prototype.then,
    which is [then] itself or a function made by getPatchedPromiseThen. *)
Fixpoint applyThen (impl : ThenImpl) (this : nat) (onResolved onRejected : Value)
  : M Value :=
  match impl with
  | ThenOrig => then_ this onResolved onRejected
  | ThenPatched origThen zone =>
      psd <- gets PSD ;;
      native <- gets nativePromiseThen ;;
      let possibleAwait := negb (Nat.eqb zone psd) && native in
      applyThen origThen this
                (nativeAwaitCompatibleWrap onResolved zone possibleAwait)
                (nativeAwaitCompatibleWrap onRejected zone possibleAwait)
  end.

Definition invokeThen (this : nat) (onFulfilled onRejected : Value) : M Value :=
  impl <- gets protoThen ;;
  applyThen impl this onFulfilled onRejected.

(** value.then(a, b) for an arbitrary [value] *)
Definition methodThen (value a b : Value) : M Value :=
  match value with
  | VPromise q => invokeThen q a b
  | VThenable _ thenFn => call thenFn [a; b]
  | _ => throwNew ETypeError "value.then is not a function"
  end.

(** function enqueueNativeMicroTask (job) *)
Definition enqueueNativeMicroTask (job : Fn) : M unit :=
  modify (set_nativeMicrotasks (fun q => q ++ [job])).

(** The function returned by nativeAwaitCompatibleWrap. *)
Definition zoneWrapped (fn : Value) (zone : nat) (possibleAwait : bool)
           (args : list Value) : M Value :=
  outerZone <- gets PSD ;;
  switchToZone zone ;;;
  when possibleAwait
       (incRef zone ;;; enqueueNativeMicroTask (FNativeEnter zone)) ;;;
  try_finally
    (callValue fn args)
    (switchToZone outerZone ;;;
     when possibleAwait (enqueueNativeMicroTask (FNativeLeave zone))).

(** catch: function (onRejected) *)
Definition catch_ (this : nat) (args : list Value) : M Value :=
  match args with
  | [onRejected] => invokeThen this VNull onRejected
  | _ =>
      let type := arg 0 args in
      let handler := arg 1 args in
      if is_function type
      then invokeThen this VNull (VFn (FCatchType type handler))
      else invokeThen this VNull (VFn (FCatchName type handler))
  end.

(** err => err instanceof type ? handler(err) : PromiseReject(err) *)
Definition catchType (type handler err : Value) : M Value :=
  match instanceOf err type with
  | IsInstance true => callValue handler [err]
  | IsInstance false => PromiseReject err
  | InstanceTypeError =>
      throwNew ETypeError "Function has non-object prototype 'undefined' in instanceof check"
  | InstanceUnknown => stuck
  end.

(** err => err && err.name === type ? handler(err) : PromiseReject(err) *)
Definition catchName (type handler err : Value) : M Value :=
  if truthy err then
    match name_of err with
    | Some name =>
        if strict_eq name type then callValue handler [err] else PromiseReject err
    | None => stuck
    end
  else PromiseReject err.

(** finally: function (onFinally) *)
Definition finally_ (this : nat) (onFinally : Value) : M Value :=
  invokeThen this (VFn (FFinallyOk onFinally)) (VFn (FFinallyErr onFinally)).

(** value => { onFinally(); return value; } *)
Definition finallyOk (onFinally value : Value) : M Value :=
  callValue onFinally [] ;;; ret value.

(** err => { onFinally(); return PromiseReject(err); } *)
Definition finallyErr (onFinally err : Value) : M Value :=
  callValue onFinally [] ;;; PromiseReject err.

(** Promise.resolve *)
Definition PromiseResolve (value : Value) : M Value :=
  if is_promise value then ret value
  else if is_thenable value then
    p <- newPromise (VFn (FResolveThenable value)) ;; ret (VPromise p)
  else
    p <- newPromiseInternal true value ;; ret (VPromise p).

(** Promise.race; [values] is what getArrayOf made of the arguments. *)
Definition race (values : list Value) : M Value :=
  p <- newPromise (VFn (FRaceExec values)) ;; ret (VPromise p).

Definition raceExec (values : list Value) (resolve reject : Value) : M Value :=
  forEach values
          (fun value => p <- PromiseResolve value ;;
                        methodThen p resolve reject ;;; ret tt) ;;;
  ret VUndefined.

(** function callListener (cb, promise, listener) *)
Definition callListener (cb : Value) (promise : nat) (listener : Listener) : M unit :=
  try_finally
    (try_catch
       (modify (set_currentFulfiller (fun _ => Some promise)) ;;;
        r <- getPromise promise ;;
        let value := _value r in
        ret_ <- match _state r with
                | Some true => callValue cb [value]
                | _ =>
                    modify (set_rejectingErrors (fun _ => [])) ;;;
                    ret_ <- callValue cb [value] ;;
                    rejecting <- gets rejectingErrors ;;
                    when (not_in_values value rejecting)
                         (markErrorAsHandled promise) ;;;
                    ret ret_
                end ;;
        callValue (l_resolve listener) [ret_] ;;; ret tt)
       (fun e => callValue (l_reject listener) [e] ;;; ret tt))
    (modify (set_currentFulfiller (fun _ => None)) ;;;
     modify (set_numScheduledCalls Z.pred) ;;;
     n <- gets numScheduledCalls ;;
     when (n =? 0) finalizePhysicalTick ;;;
     releaseRef (l_psd listener)).

(** ()=>{ if (--numScheduledCalls === 0) finalizePhysicalTick(); } *)
Definition tickDec : M Value :=
  modify (set_numScheduledCalls Z.pred) ;;;
  n <- gets numScheduledCalls ;;
  when (n =? 0) finalizePhysicalTick ;;;
  ret VUndefined.

(** zone.finalize(): globalPSD.finalize for the global zone, and for a
    zone made by newScope
      function () { --this.parent.ref || this.parent.finalize(); } *)
Definition zoneFinalize (zone : nat) : M Value :=
  modify (set_finalizeLog (fun l => l ++ [zone])) ;;;
  z <- getZone zone ;;
  (if global z then
     uhs <- gets unhandleds ;;
     forEach uhs (fun uh => globalError (fst uh) (snd uh))
   else
     match parent z with
     | Some q => releaseRef q
     | None => stuck
     end) ;;;
  ret VUndefined.

(** export function usePSD (psd, fn, a1, a2, a3) *)
Definition usePSD (psd : nat) (fn : Value) (args : list Value) : M Value :=
  outerScope <- gets PSD ;;
  try_finally
    (switchToZone psd ;;; callValue fn args)
    (switchToZone outerScope).

(** export function newScope (fn, props, a1, a2), without props *)
Definition newScope (fn a1 a2 : Value) : M Value :=
  parent_ <- gets PSD ;;
  globalZone <- getZone 0 ;;
  st <- gets id ;;
  let psd := length (zones st) in
  allocZone (mkZone (Some parent_) 0 false
                    (ThenPatched (env_dthen globalZone) psd)) ;;;
  incRef parent_ ;;;
  rv <- usePSD psd fn [a1; a2; VUndefined] ;;
  z <- getZone psd ;;
  when (ref z =? 0) (callValue (VFn (FFinalize psd)) [] ;;; ret tt) ;;;
  ret rv.

(** export function wrap (fn, errorCatcher) *)
Definition wrap (fn errorCatcher : Value) : M Value :=
  psd <- gets PSD ;;
  ret (VFn (FWrapped fn errorCatcher psd)).

(** The function returned by wrap. *)
Definition wrapped (fn errorCatcher : Value) (psd : nat) (args : list Value)
  : M Value :=
  wasRootExec <- beginMicroTickScope ;;
  outerScope <- gets PSD ;;
  try_finally
    (try_catch
       (switchToZone psd ;;; callValue fn args)
       (fun e =>
          (if truthy errorCatcher then callValue errorCatcher [e] ;;; ret tt
           else ret tt) ;;;
          ret VUndefined))
    (switchToZone outerScope ;;;
     when wasRootExec endMicroTickScope).

(** *** Application code against the engine *)

(** The bodies of the application's functions: [ufun id env args] is the
    body of closure [id] with captured values [env], applied to [args]. *)
Variable ufun : nat -> list Value -> list Value -> Prog.

Definition lookup_var (x : nat) (vars : list (nat * Value)) : Value :=
  match find (fun kv => Nat.eqb (fst kv) x) vars with
  | Some kv => snd kv
  | None => VUndefined
  end.

Definition newObject {A} (mk : nat -> A) : M A :=
  fun st => Some (Normal (mk (nextObjId st)), set_nextObjId S st).

Definition doOp (o : Op) : M Value :=
  match o with
  | ONew fn => p <- newPromise fn ;; ret (VPromise p)
  | OThen this onFulfilled onRejected => methodThen this onFulfilled onRejected
  | OCatch (VPromise p) args => catch_ p args
  | OFinally (VPromise p) onFinally => finally_ p onFinally
  | OCatch _ _ | OFinally _ _ => throwNew ETypeError "not a function"
  | OResolve value => PromiseResolve value
  | OReject reason => PromiseReject reason
  | ORace values => race values
  | OCall f args => callValue f args
  | ONewScope fn a1 a2 => newScope fn a1 a2
  | OUsePSD (VZone z) fn a1 a2 a3 => usePSD z fn [a1; a2; a3]
  | OUsePSD _ _ _ _ _ => throwNew ETypeError "not a zone"
  | OGetPSD => z <- gets PSD ;; ret (VZone z)
  | OWrap fn errorCatcher => wrap fn errorCatcher
  | OSetLib (VPromise p) b =>
      getPromise p ;;; modify (update_promise p (with_lib b)) ;;; ret VUndefined
  | OSetLib _ _ => ret VUndefined
  | ONewError c message => newError c message
  | ONewObject name => newObject (fun i => VObj i None name "")
  | ONewThenable thenFn => newObject (fun i => VThenable i thenFn)
  | OGet x => vars <- gets uvars ;; ret (lookup_var x vars)
  | OSet x v => modify (set_uvars (fun vars => (x, v) :: vars)) ;;; ret VUndefined
  end.

Fixpoint run (p : Prog) : M Value :=
  match p with
  | Ret v => ret v
  | Throw v => throw v
  | Do o k => v <- doOp o ;; run (k v)
  | Try body handler k =>
      v <- try_catch (run body) (fun e => run (handler e)) ;;
      run (k v)
  end.

(** f(...args), by creation site of [f]. *)
Definition dispatch (f : Fn) (args : list Value) : M Value :=
  match f with
  | FUser i env =>
      modify (set_callLog (fun l => l ++ [(i, env, args)])) ;;;
      run (ufun i env args)
  | FResolve promise => resolveFn promise (arg 0 args)
  | FReject promise => handleRejection promise (arg 0 args) ;;; ret VUndefined
  | FAdopt value => adopt value (arg 0 args) (arg 1 args)
  | FThenExec this onFulfilled onRejected =>
      psd <- gets PSD ;;
      propagateToListener this
        (newListener onFulfilled onRejected (arg 0 args) (arg 1 args) psd) ;;;
      ret VUndefined
  | FCatchType type handler => catchType type handler (arg 0 args)
  | FCatchName type handler => catchName type handler (arg 0 args)
  | FFinallyOk onFinally => finallyOk onFinally (arg 0 args)
  | FFinallyErr onFinally => finallyErr onFinally (arg 0 args)
  | FResolveThenable value =>
      methodThen value (arg 0 args) (arg 1 args) ;;; ret VUndefined
  | FRaceExec values => raceExec values (arg 0 args) (arg 1 args)
  | FTickDec => tickDec
  | FCallListener =>
      match args with
      | [cb; VPromise promise; VListener listener] =>
          callListener cb promise listener ;;; ret VUndefined
      | _ => stuck
      end
  | FPhysicalTick => physicalTick
  | FWrapped fn errorCatcher psd => wrapped fn errorCatcher psd args
  | FZoneWrap fn zone possibleAwait => zoneWrapped fn zone possibleAwait args
  | FNativeEnter zone => switchToZone zone ;;; ret VUndefined
  | FNativeLeave zone => switchToZone 0 ;;; releaseRef zone ;;; ret VUndefined
  | FFinalize zone => zoneFinalize zone
  end.

End Engine.

(** Calls through function values, by fuel. *)
Fixpoint call (ufun : nat -> list Value -> list Value -> Prog)
         (n : nat) (f : Fn) (args : list Value) {struct n} : M Value :=
  match n with
  | O => stuck
  | S n' => dispatch (call ufun n') n' ufun f args
  end.

(** * Properties *)

(** ** Relations that every engine step respects

    [pres R m]: whenever [m] completes (normally or by a throw), the states
    before and after are related by [R].  For a preorder [R] that the
    elementary updates of the heap and of the unhandled-rejection list
    respect, every call through a function value respects [R], whatever
    the application code does.  The engine allocates and fulfils promises
    with values that are no thenables only, so [R] has to respect those
    allocations and settlements alone. *)

Definition pres (R : State -> State -> Prop) {A} (m : M A) : Prop :=
  forall st o st', m st = Some (o, st') -> R st st'.

Lemma bind_inv {A B} (m : M A) (k : A -> M B) st o st' :
  bind m k st = Some (o, st') ->
  (exists a st1, m st = Some (Normal a, st1) /\ k a st1 = Some (o, st')) \/
  (exists e, m st = Some (Throws e, st') /\ o = Throws e).
Proof.
  unfold bind. destruct (m st) as [[[a|e] st1]|] eqn:E; intros H.
  - left. eauto.
  - right. inversion H; subst. eauto.
  - discriminate.
Qed.

Create HintDb pres.

Section Preservation.

Variable R : State -> State -> Prop.
Hypothesis R_refl : forall st, R st st.
Hypothesis R_trans : forall a b c, R a b -> R b c -> R a c.
Hypothesis R_frame : forall st st',
    promises st' = promises st ->
    unhandledErrors st' = unhandledErrors st -> R st st'.
Hypothesis R_alloc : forall st r,
    (_state r = Some true -> is_thenable (_value r) = false) ->
    R st (set_promises (fun ps => ps ++ [r]) st).
Hypothesis R_keep : forall st p f,
    (forall r, _state (f r) = _state r /\ _value (f r) = _value r) ->
    R st (update_promise p f st).
Hypothesis R_settle : forall st p r s v,
    promises st !! p = Some r -> _state r = None ->
    (s = true -> is_thenable v = false) ->
    R st (update_promise p (with_settled s v) st).
Hypothesis R_add : forall st p r,
    promises st !! p = Some r -> _state r <> None ->
    existsb (same_reason st (_value r)) (unhandledErrors st) = false ->
    R st (set_unhandledErrors (fun l => l ++ [p]) st).
Hypothesis R_remove : forall st f l,
    remove_last_match f (unhandledErrors st) = Some l ->
    R st (set_unhandledErrors (fun _ => l) st).
Hypothesis R_clear : forall st, R st (set_unhandledErrors (fun _ => []) st).

Local Abbreviation pres := (pres R).

Lemma pres_ret {A} (a : A) : pres (ret a).
Proof. intros st o st' H. inversion H; subst. apply R_refl. Qed.

Lemma pres_throw {A} e : pres (@throw A e).
Proof. intros st o st' H. inversion H; subst. apply R_refl. Qed.

Lemma pres_stuck {A} : pres (@stuck A).
Proof. intros st o st' H. discriminate. Qed.

Lemma pres_gets {A} (f : State -> A) : pres (gets f).
Proof. intros st o st' H. inversion H; subst. apply R_refl. Qed.

Lemma pres_bind {A B} (m : M A) (k : A -> M B) :
  pres m -> (forall a, pres (k a)) -> pres (bind m k).
Proof.
  intros Hm Hk st o st' H.
  destruct (bind_inv _ _ _ _ _ H) as [(a & st1 & H1 & H2)|(e & H1 & _)].
  - eapply R_trans; [eapply Hm | eapply Hk]; eauto.
  - eapply Hm; eauto.
Qed.

Lemma pres_try_catch {A} (m : M A) h :
  pres m -> (forall e, pres (h e)) -> pres (try_catch m h).
Proof.
  intros Hm Hh st o st' H. unfold try_catch in H.
  destruct (m st) as [[[a|e] st1]|] eqn:E.
  - inversion H; subst. eapply Hm; eauto.
  - eapply R_trans; [eapply Hm | eapply Hh]; eauto.
  - discriminate.
Qed.

Lemma pres_try_finally {A} (m : M A) fin :
  pres m -> pres fin -> pres (try_finally m fin).
Proof.
  intros Hm Hf st o st' H. unfold try_finally in H.
  destruct (m st) as [[o1 st1]|] eqn:E; [|discriminate].
  destruct (fin st1) as [[[[]|e] st2]|] eqn:E2; inversion H; subst;
    (eapply R_trans; [eapply Hm | eapply Hf]; eauto).
Qed.

Lemma pres_when b m : pres m -> pres (when b m).
Proof. destruct b; simpl; auto using @pres_ret. Qed.

Lemma pres_forEach {A} (l : list A) body :
  (forall x, pres (body x)) -> pres (forEach l body).
Proof.
  intros Hb. induction l as [|x l IH]; simpl.
  - apply pres_ret.
  - apply pres_bind; auto.
Qed.

Lemma pres_modify_frame f :
  (forall st, promises (f st) = promises st) ->
  (forall st, unhandledErrors (f st) = unhandledErrors st) ->
  pres (modify f).
Proof. intros H1 H2 st o st' H. inversion H; subst. apply R_frame; auto. Qed.

Lemma pres_getPromise p : pres (getPromise p).
Proof.
  intros st o st' H. unfold getPromise in H.
  destruct (promises st !! p); inversion H; subst. apply R_refl.
Qed.

Lemma pres_getZone z : pres (getZone z).
Proof.
  intros st o st' H. unfold getZone in H.
  destruct (zones st !! z); inversion H; subst. apply R_refl.
Qed.

Lemma pres_allocPromise r :
  (_state r = Some true -> is_thenable (_value r) = false) ->
  pres (allocPromise r).
Proof. intros Hr st o st' H. inversion H; subst. apply R_alloc, Hr. Qed.

Lemma pres_allocZone r : pres (allocZone r).
Proof. intros st o st' H. inversion H; subst. apply R_frame; reflexivity. Qed.

Lemma pres_newError c m : pres (newError c m).
Proof. intros st o st' H. inversion H; subst. apply R_frame; reflexivity. Qed.

Lemma pres_newObject {A} (mk : nat -> A) : pres (newObject mk).
Proof. intros st o st' H. inversion H; subst. apply R_frame; reflexivity. Qed.

Lemma pres_keep p f :
  (forall r, _state (f r) = _state r /\ _value (f r) = _value r) ->
  pres (modify (update_promise p f)).
Proof. intros Hf st o st' H. inversion H; subst. apply R_keep, Hf. Qed.

Hint Resolve @pres_ret @pres_throw @pres_stuck @pres_gets @pres_getPromise
     @pres_getZone @pres_allocZone @pres_newError
     @pres_newObject : pres.

(** One step of the structural argument. *)
Ltac pres_step :=
  first
    [ solve [eauto with pres]
    | apply pres_bind; [|intros]
    | apply pres_try_catch; [|intros]
    | apply pres_try_finally
    | apply pres_when
    | apply pres_forEach; intros
    | apply pres_modify_frame; reflexivity
    | apply pres_keep; intros; split; reflexivity
    | apply pres_allocPromise; simpl; solve [discriminate | intros [= ->]; auto]
    | match goal with
      | |- pres (match ?x with _ => _ end) => destruct x
      | |- pres (if ?b then _ else _) => destruct b
      | |- pres (let _ := _ in _) => cbv zeta
      end ].
Ltac pres_go := repeat pres_step.

Lemma pres_throwNew {A} c m : pres (@throwNew A c m).
Proof. unfold throwNew. pres_go. Qed.
Hint Resolve @pres_throwNew : pres.

Lemma pres_incRef z : pres (incRef z).
Proof. unfold incRef. pres_go. Qed.

Lemma pres_switchToZone z : pres (switchToZone z).
Proof. unfold switchToZone. pres_go. Qed.
Hint Resolve pres_incRef pres_switchToZone : pres.

Lemma pres_schedulePhysicalTick : pres schedulePhysicalTick.
Proof. unfold schedulePhysicalTick. pres_go. Qed.
Hint Resolve pres_schedulePhysicalTick : pres.

Lemma pres_asap f a : pres (asap f a).
Proof. unfold asap. pres_go. Qed.

Lemma pres_beginMicroTickScope : pres beginMicroTickScope.
Proof. unfold beginMicroTickScope. pres_go. Qed.

Lemma pres_globalError e p : pres (globalError e p).
Proof. unfold globalError. pres_go. Qed.
Hint Resolve pres_asap pres_beginMicroTickScope pres_globalError : pres.

Lemma pres_markErrorAsHandled p : pres (markErrorAsHandled p).
Proof.
  intros st o st' H. unfold markErrorAsHandled, bind, getPromise, gets in H.
  destruct (promises st !! p) as [r|]; [|discriminate]. simpl in H.
  destruct (remove_last_match _ _) eqn:E; inversion H; subst.
  - eapply R_remove; eauto.
  - apply R_refl.
Qed.
Hint Resolve pres_markErrorAsHandled : pres.

(** The two writes of a rejection: the settlement, then the entry in the
    unhandled list. *)
Lemma pres_settle_add p r v :
  forall st o st',
    promises st !! p = Some r -> _state r = None ->
    (modify (update_promise p (with_settled false v)) ;;;
     addPossiblyUnhandledError p) st = Some (o, st') ->
    R st st'.
Proof.
  intros st o st' Hp Hs H.
  apply R_trans with (update_promise p (with_settled false v) st);
    [eapply R_settle; [exact Hp|exact Hs|discriminate]|].
  unfold bind, modify in H.
  set (st1 := update_promise p (with_settled false v) st) in *.
  assert (Hp1 : promises st1 !! p = Some (with_settled false v r)).
  { unfold st1, update_promise. simpl. rewrite Hp.
    apply list_lookup_insert_eq. eapply lookup_lt_Some; eauto. }
  unfold addPossiblyUnhandledError, bind, getPromise, gets in H.
  rewrite Hp1 in H. simpl in H.
  destruct (existsb _ _) eqn:E; simpl in H; inversion H; subst.
  - apply R_refl.
  - eapply R_add; eauto.
Qed.

Section Calls.

Variable call : Fn -> list Value -> M Value.
Variable fuel : nat.
Hypothesis pres_call : forall f args, pres (call f args).
Hint Resolve pres_call : pres.

Lemma pres_callValue f args : pres (callValue call f args).
Proof. unfold callValue. pres_go. Qed.
Hint Resolve pres_callValue : pres.

Lemma pres_releaseRef z : pres (releaseRef call z).
Proof. unfold releaseRef. pres_go. Qed.
Hint Resolve pres_releaseRef : pres.

Lemma pres_drain k : pres (drain call k).
Proof. induction k as [|k IH]; simpl; pres_go. Qed.
Hint Resolve pres_drain : pres.

Lemma pres_endMicroTickScope : pres (endMicroTickScope call fuel).
Proof. unfold endMicroTickScope. pres_go. Qed.
Hint Resolve pres_endMicroTickScope : pres.

Lemma pres_physicalTick : pres (physicalTick call fuel).
Proof. unfold physicalTick. pres_go. Qed.

Lemma pres_finalizePhysicalTick : pres (finalizePhysicalTick call).
Proof.
  unfold finalizePhysicalTick. pres_step; [pres_go|].
  pres_step; [|pres_go].
  intros st o st' H. inversion H; subst. apply R_clear.
Qed.
Hint Resolve pres_physicalTick pres_finalizePhysicalTick : pres.

Lemma pres_propagateToListener p l : pres (propagateToListener call p l).
Proof. unfold propagateToListener. pres_go. Qed.
Hint Resolve pres_propagateToListener : pres.

Lemma pres_propagateAllListeners p : pres (propagateAllListeners call p).
Proof. unfold propagateAllListeners. pres_go. Qed.
Hint Resolve pres_propagateAllListeners : pres.

Lemma pres_handleRejection p reason : pres (handleRejection call fuel p reason).
Proof.
  intros st o st' H. unfold handleRejection in H.
  apply bind_inv in H as [(? & st1 & H1 & H)|(e & H1 & _)];
    [|inversion H1].
  inversion H1; subst; clear H1.
  apply R_trans with (set_rejectingErrors (fun l => l ++ [reason]) st);
    [apply R_frame; reflexivity|].
  set (st1 := set_rejectingErrors _ st) in *. clearbody st1. clear st.
  apply bind_inv in H as [(r & st2 & H1 & H)|(e & H1 & _)];
    [|eapply pres_getPromise; eauto].
  unfold getPromise in H1.
  destruct (promises st1 !! p) as [r'|] eqn:Hp; inversion H1; subst; clear H1.
  destruct (_state r) eqn:Hs.
  { inversion H; subst. apply R_refl. }
  apply bind_inv in H as [(b & st3 & H1 & H)|(e & H1 & _)].
  2:{ destruct (_lib r); [eapply pres_beginMicroTickScope; eauto|inversion H1]. }
  assert (Hp3 : promises st3 !! p = Some r).
  { destruct (_lib r); inversion H1; subst; auto. }
  eapply R_trans.
  { destruct (_lib r); [eapply pres_beginMicroTickScope; eauto|].
    inversion H1; subst. apply R_refl. }
  clear H1 Hp. unfold rejectionMapper, mirror in H.
  change (bind (modify (update_promise p (with_settled false reason)))
            (fun _ => bind (addPossiblyUnhandledError p)
               (fun _ => bind (propagateAllListeners call p)
                  (fun _ => when b (endMicroTickScope call fuel)))) st3
          = Some (o, st')) in H.
  unfold bind at 1 2 in H. cbn [modify] in H.
  destruct (addPossiblyUnhandledError p _) as [[[[]|e] st4]|] eqn:Ha;
    [| |discriminate].
  - eapply R_trans.
    + eapply (pres_settle_add p r reason st3 (Normal tt) st4); eauto;
        unfold bind, modify; rewrite Ha; reflexivity.
    + assert (Hrest : pres (propagateAllListeners call p ;;;
                             when b (endMicroTickScope call fuel)))
        by pres_go.
      exact (Hrest _ _ _ H).
  - inversion H; subst.
    eapply (pres_settle_add p r reason st3 (Throws e) st'); eauto;
      unfold bind, modify; rewrite Ha; reflexivity.
Qed.
Hint Resolve pres_handleRejection : pres.

Lemma pres_executePromiseTask p fn : pres (executePromiseTask call fuel p fn).
Proof. unfold executePromiseTask. pres_go. Qed.
Hint Resolve pres_executePromiseTask : pres.

Lemma pres_resolveFn p value : pres (resolveFn call fuel p value).
Proof.
  intros st o st' H. unfold resolveFn in H.
  apply bind_inv in H as [(r & st2 & H1 & H)|(e & H1 & _)];
    [|eapply pres_getPromise; eauto].
  unfold getPromise in H1.
  destruct (promises st !! p) as [r'|] eqn:Hp; inversion H1; subst; clear H1.
  destruct (_state r) eqn:Hs.
  { inversion H; subst. apply R_refl. }
  destruct (strict_eq value (VPromise p)).
  { eapply pres_throwNew; eauto. }
  apply bind_inv in H as [(b & st3 & H1 & H)|(e & H1 & _)].
  2:{ destruct (_lib r); [eapply pres_beginMicroTickScope; eauto|inversion H1]. }
  assert (Hp3 : promises st3 !! p = Some r).
  { destruct (_lib r); inversion H1; subst; auto. }
  eapply R_trans.
  { destruct (_lib r); [eapply pres_beginMicroTickScope; eauto|].
    inversion H1; subst. apply R_refl. }
  clear H1 Hp.
  destruct (is_thenable value) eqn:Hth.
  - assert (Hrest : pres (executePromiseTask call fuel p (VFn (FAdopt value)) ;;;
                           when b (endMicroTickScope call fuel) ;;;
                           ret VUndefined)) by pres_go.
    exact (Hrest _ _ _ H).
  - apply bind_inv in H as [(? & st4 & H1 & H)|(e & H1 & _)].
    + apply bind_inv in H1 as [(? & st5 & H1 & H2)|(e & H1 & _)];
        [|inversion H1].
      inversion H1; subst; clear H1.
      eapply R_trans; [eapply (R_settle _ _ _ true value); eauto|].
      eapply R_trans; [eapply pres_propagateAllListeners; eauto|].
      assert (Hrest : pres (when b (endMicroTickScope call fuel) ;;;
                             ret VUndefined)) by pres_go.
      exact (Hrest _ _ _ H).
    + apply bind_inv in H1 as [(? & st5 & H1 & H2)|(e' & H1 & _)];
        [|inversion H1].
      inversion H1; subst; clear H1.
      eapply R_trans; [eapply (R_settle _ _ _ true value); eauto|].
      eapply pres_propagateAllListeners; eauto.
Qed.
Hint Resolve pres_resolveFn : pres.

Lemma pres__then p a b : pres (_then call p a b).
Proof. unfold _then. pres_go. Qed.
Hint Resolve pres__then : pres.

Lemma pres_adopt v a b : pres (adopt call v a b).
Proof. unfold adopt. pres_go. Qed.

Lemma pres_newPromise fn : pres (newPromise call fuel fn).
Proof. unfold newPromise. pres_go. Qed.

Lemma pres_newPromiseInternal s v :
  (s = true -> is_thenable v = false) ->
  pres (newPromiseInternal call fuel s v).
Proof. intros Hv. unfold newPromiseInternal. pres_go. Qed.
Hint Resolve pres_adopt pres_newPromise : pres.

Lemma pres_PromiseReject v : pres (PromiseReject call fuel v).
Proof.
  unfold PromiseReject. pres_step; [|pres_go].
  apply pres_newPromiseInternal. discriminate.
Qed.

Lemma pres_then_ p a b : pres (then_ call fuel p a b).
Proof. unfold then_. pres_go. Qed.
Hint Resolve pres_PromiseReject pres_then_ : pres.

Lemma pres_applyThen impl : forall p a b, pres (applyThen call fuel impl p a b).
Proof. induction impl as [|impl IH z]; intros; simpl; pres_go. Qed.
Hint Resolve pres_applyThen : pres.

Lemma pres_invokeThen p a b : pres (invokeThen call fuel p a b).
Proof. unfold invokeThen. pres_go. Qed.
Hint Resolve pres_invokeThen : pres.

Lemma pres_methodThen v a b : pres (methodThen call fuel v a b).
Proof. unfold methodThen. pres_go. Qed.

Lemma pres_zoneWrapped fn z w args : pres (zoneWrapped call fn z w args).
Proof. unfold zoneWrapped, enqueueNativeMicroTask. pres_go. Qed.

Lemma pres_catch_ p args : pres (catch_ call fuel p args).
Proof. unfold catch_. pres_go. Qed.

Lemma pres_catchType t h e : pres (catchType call fuel t h e).
Proof. unfold catchType. pres_go. Qed.

Lemma pres_catchName t h e : pres (catchName call fuel t h e).
Proof. unfold catchName. pres_go. Qed.

Lemma pres_finally_ p f : pres (finally_ call fuel p f).
Proof. unfold finally_. pres_go. Qed.

Lemma pres_finallyOk f v : pres (finallyOk call f v).
Proof. unfold finallyOk. pres_go. Qed.

Lemma pres_finallyErr f v : pres (finallyErr call fuel f v).
Proof. unfold finallyErr. pres_go. Qed.

Lemma pres_PromiseResolve v : pres (PromiseResolve call fuel v).
Proof.
  unfold PromiseResolve. destruct (is_promise v); [pres_go|].
  destruct (is_thenable v) eqn:Hth; [pres_go|].
  pres_step; [|pres_go]. apply pres_newPromiseInternal. auto.
Qed.
Hint Resolve pres_methodThen pres_zoneWrapped pres_catch_ pres_catchType
     pres_catchName pres_finally_ pres_finallyOk pres_finallyErr
     pres_PromiseResolve : pres.

Lemma pres_race vs : pres (race call fuel vs).
Proof. unfold race. pres_go. Qed.

Lemma pres_raceExec vs a b : pres (raceExec call fuel vs a b).
Proof. unfold raceExec. pres_go. Qed.

Lemma pres_callListener cb p l : pres (callListener call cb p l).
Proof. unfold callListener. pres_go. Qed.

Lemma pres_tickDec : pres (tickDec call).
Proof. unfold tickDec. pres_go. Qed.

Lemma pres_zoneFinalize z : pres (zoneFinalize call z).
Proof. unfold zoneFinalize. pres_go. Qed.

Lemma pres_usePSD z fn args : pres (usePSD call z fn args).
Proof. unfold usePSD. pres_go. Qed.
Hint Resolve pres_race pres_raceExec pres_callListener pres_tickDec
     pres_zoneFinalize pres_usePSD : pres.

Lemma pres_newScope fn a1 a2 : pres (newScope call fn a1 a2).
Proof. unfold newScope. pres_go. Qed.

Lemma pres_wrap fn c : pres (wrap fn c).
Proof. unfold wrap. pres_go. Qed.

Lemma pres_wrapped fn c z args : pres (wrapped call fuel fn c z args).
Proof. unfold wrapped. pres_go. Qed.
Hint Resolve pres_newScope pres_wrap pres_wrapped : pres.

Lemma pres_doOp o : pres (doOp call fuel o).
Proof. destruct o; simpl; pres_go. Qed.
Hint Resolve pres_doOp : pres.

Lemma pres_run prog : pres (run call fuel prog).
Proof. induction prog; simpl; pres_go. Qed.
Hint Resolve pres_run : pres.

Lemma pres_dispatch ufun f args : pres (dispatch call fuel ufun f args).
Proof. destruct f; simpl; pres_go. Qed.

End Calls.

(** Every call respects [R]. *)
Lemma pres_call_plain ufun n : forall f args, pres (call ufun n f args).
Proof.
  induction n as [|n IH]; intros f args; simpl.
  - apply pres_stuck.
  - apply pres_dispatch. exact IH.
Qed.

End Preservation.

(** The same for a relation that respects every allocation and every
    settlement. *)
Lemma pres_call_fuel (R : State -> State -> Prop) :
  (forall st, R st st) ->
  (forall a b c, R a b -> R b c -> R a c) ->
  (forall st st',
      promises st' = promises st ->
      unhandledErrors st' = unhandledErrors st -> R st st') ->
  (forall st r, R st (set_promises (fun ps => ps ++ [r]) st)) ->
  (forall st p f,
      (forall r, _state (f r) = _state r /\ _value (f r) = _value r) ->
      R st (update_promise p f st)) ->
  (forall st p r s v,
      promises st !! p = Some r -> _state r = None ->
      R st (update_promise p (with_settled s v) st)) ->
  (forall st p r,
      promises st !! p = Some r -> _state r <> None ->
      existsb (same_reason st (_value r)) (unhandledErrors st) = false ->
      R st (set_unhandledErrors (fun l => l ++ [p]) st)) ->
  (forall st f l,
      remove_last_match f (unhandledErrors st) = Some l ->
      R st (set_unhandledErrors (fun _ => l) st)) ->
  (forall st, R st (set_unhandledErrors (fun _ => []) st)) ->
  forall ufun n f args, pres R (call ufun n f args).
Proof.
  intros Hrefl Htrans Hframe Halloc Hkeep Hsettle Hadd Hremove Hclear.
  apply pres_call_plain; eauto.
Qed.

(** ** Heap lemmas *)

Lemma lookup_update_promise p f st q :
  promises (update_promise p f st) !! q =
  if decide (p = q) then f <$> promises st !! q else promises st !! q.
Proof.
  unfold update_promise. simpl.
  destruct (promises st !! p) as [r|] eqn:E.
  - destruct (decide (p = q)) as [->|Hne].
    + rewrite E. simpl. apply list_lookup_insert_eq. eapply lookup_lt_Some; eauto.
    + apply list_lookup_insert_ne; auto.
  - destruct (decide (p = q)) as [->|Hne]; auto. rewrite E. reflexivity.
Qed.

Lemma lookup_update_promise_eq p f st r :
  promises st !! p = Some r ->
  promises (update_promise p f st) !! p = Some (f r).
Proof. intros H. rewrite lookup_update_promise, decide_True, H by auto. reflexivity. Qed.

Lemma lookup_update_promise_ne p f st q :
  p <> q -> promises (update_promise p f st) !! q = promises st !! q.
Proof. intros H. rewrite lookup_update_promise, decide_False by auto. reflexivity. Qed.

Lemma length_update_promise p f st :
  length (promises (update_promise p f st)) = length (promises st).
Proof.
  unfold update_promise. simpl.
  destruct (promises st !! p); auto. apply length_insert.
Qed.

(** ** C1: a promise settles once *)

(** What is settled in [st] is settled the same way in [st']. *)
Definition settled_stable (st st' : State) : Prop :=
  forall p r,
    promises st !! p = Some r -> _state r <> None ->
    exists r', promises st' !! p = Some r' /\
               _state r' = _state r /\ _value r' = _value r.

Lemma settled_stable_refl st : settled_stable st st.
Proof. intros p r H1 H2. eauto. Qed.

Lemma settled_stable_trans a b c :
  settled_stable a b -> settled_stable b c -> settled_stable a c.
Proof.
  intros Hab Hbc p r H1 H2.
  destruct (Hab p r H1 H2) as (r1 & Hb & Hs & Hv).
  destruct (Hbc p r1 Hb) as (r2 & Hc & Hs2 & Hv2); [congruence|].
  exists r2. repeat split; congruence.
Qed.

Lemma settled_stable_frame st st' :
  promises st' = promises st -> settled_stable st st'.
Proof. intros E p r H1 H2. rewrite E. eauto. Qed.

Lemma settled_stable_alloc st r :
  settled_stable st (set_promises (fun ps => ps ++ [r]) st).
Proof.
  intros p r0 H1 H2. exists r0. simpl. split; [|auto].
  rewrite lookup_app_l; [auto | eapply lookup_lt_Some; eauto].
Qed.

Lemma settled_stable_keep st p f :
  (forall r, _state (f r) = _state r /\ _value (f r) = _value r) ->
  settled_stable st (update_promise p f st).
Proof.
  intros Hf q r H1 H2. rewrite lookup_update_promise.
  destruct (decide (p = q)) as [->|]; [|eauto].
  rewrite H1. simpl. exists (f r). destruct (Hf r). auto.
Qed.

Lemma settled_stable_settle st p r s v :
  promises st !! p = Some r -> _state r = None ->
  settled_stable st (update_promise p (with_settled s v) st).
Proof.
  intros Hp Hs q r0 H1 H2. rewrite lookup_update_promise.
  destruct (decide (p = q)) as [->|]; [|eauto].
  congruence.
Qed.

(** C1.  For every promise p, p's state transitions at most once, only from
    pending to fulfilled or from pending to rejected, never reversed, and
    after the transition its value never changes: whatever function value
    is called (the resolve and reject capabilities of p among them, and any
    application code, with any arguments), if p was settled before the call
    then p has the same state and the same value after it. *)
Theorem settle_once ufun n f args st o st' p r :
  call ufun n f args st = Some (o, st') ->
  promises st !! p = Some r ->
  _state r <> None ->
  exists r', promises st' !! p = Some r' /\
             _state r' = _state r /\ _value r' = _value r.
Proof.
  intros Hcall Hp Hs.
  refine (pres_call_fuel settled_stable settled_stable_refl settled_stable_trans
            _ settled_stable_alloc settled_stable_keep settled_stable_settle
            _ _ _ ufun n f args st o st' Hcall p r Hp Hs).
  - intros; apply settled_stable_frame; auto.
  - intros; apply settled_stable_frame; reflexivity.
  - intros; apply settled_stable_frame; reflexivity.
  - intros; apply settled_stable_frame; reflexivity.
Qed.

(** ** C5: one entry per reason in the unhandled-rejection list *)

(** The reason recorded for an entry of the list. *)
Definition reason_at (st : State) (q : nat) : Value :=
  match promises st !! q with
  | Some r => _value r
  | None => VUndefined
  end.

(** [a === b], for an [a] on which [===] is decided by the value. *)
Definition eq_by_value (a b : Value) : bool := by_value a && strict_eq a b.

(** No entry that is no function value is [===] to a later one. *)
Fixpoint distinct (vs : list Value) : Prop :=
  match vs with
  | [] => True
  | v :: vs' => Forall (fun w => eq_by_value v w = false) vs' /\ distinct vs'
  end.

(** The promises of the list are settled promises of the heap. *)
Definition listed_settled (st : State) : Prop :=
  Forall (fun q => exists r, promises st !! q = Some r /\ _state r <> None)
         (unhandledErrors st).

(** The list holds settled promises of the heap, at most one per reason
    (for the reasons that are no function values). *)
Definition unhandled_ok (st : State) : Prop :=
  listed_settled st /\
  distinct (map (reason_at st) (unhandledErrors st)).

(** Being the same value is reflexive and symmetric; so is [===], NaN
    apart. *)
Lemma errclass_eqb_refl c : errclass_eqb c c = true.
Proof. destruct c; simpl; auto. apply Nat.eqb_refl. Qed.

Fixpoint same_value_refl (v : Value) : same_value v v = true
with fn_eq_refl (f : Fn) : fn_eq f f = true
with listener_eq_refl (l : Listener) : listener_eq l l = true.
Proof.
  - destruct v; simpl; auto using Nat.eqb_refl, Z.eqb_refl, String.eqb_refl, errclass_eqb_refl.
    + destruct b; reflexivity.
  - assert (Hl : forall xs : list Value,
               (fix list_eq (xs ys : list Value) {struct xs} : bool :=
                  match xs, ys with
                  | [], [] => true
                  | x :: xs', y :: ys' => same_value x y && list_eq xs' ys'
                  | _, _ => false
                  end) xs xs = true).
    { fix IH 1. intros [|x xs]; [reflexivity|]. rewrite same_value_refl, IH. reflexivity. }
    destruct f; simpl; rewrite ?Nat.eqb_refl, ?same_value_refl, ?Hl; auto.
    destruct possibleAwait; reflexivity.
  - destruct l; simpl. rewrite !same_value_refl, Nat.eqb_refl. reflexivity.
Qed.

Lemma errclass_eqb_sym c d : errclass_eqb c d = errclass_eqb d c.
Proof. destruct c, d; simpl; auto. apply Nat.eqb_sym. Qed.

Lemma bool_eqb_sym (a b : bool) : Bool.eqb a b = Bool.eqb b a.
Proof. destruct a, b; reflexivity. Qed.

Fixpoint same_value_sym (a b : Value) {struct a} : same_value a b = same_value b a
with fn_eq_sym (f g : Fn) {struct f} : fn_eq f g = fn_eq g f
with listener_eq_sym (l m : Listener) {struct l} : listener_eq l m = listener_eq m l.
Proof.
  - destruct a, b; simpl; try reflexivity;
      auto using Nat.eqb_sym, Z.eqb_sym, String.eqb_sym, errclass_eqb_sym, bool_eqb_sym.
  - assert (Hl : forall xs ys : list Value,
               (fix list_eq (xs ys : list Value) {struct xs} : bool :=
                  match xs, ys with
                  | [], [] => true
                  | x :: xs', y :: ys' => same_value x y && list_eq xs' ys'
                  | _, _ => false
                  end) xs ys =
               (fix list_eq (xs ys : list Value) {struct xs} : bool :=
                  match xs, ys with
                  | [], [] => true
                  | x :: xs', y :: ys' => same_value x y && list_eq xs' ys'
                  | _, _ => false
                  end) ys xs).
    { fix IH 1. intros [|x xs] [|y ys]; try reflexivity.
      rewrite (same_value_sym x y), (IH xs ys). reflexivity. }
    destruct f, g; simpl; try reflexivity;
      repeat first [ apply Nat.eqb_sym | apply bool_eqb_sym | apply same_value_sym
                   | apply Hl | apply (f_equal2 andb) ].
  - destruct l, m; simpl.
    repeat first [ apply Nat.eqb_sym | apply same_value_sym | apply (f_equal2 andb) ].
Qed.

Lemma strict_eq_same a b : a <> VNaN -> strict_eq a b = same_value a b.
Proof. destruct a; intros H; try reflexivity. contradiction. Qed.

Lemma strict_eq_refl v : v <> VNaN -> strict_eq v v = true.
Proof. intros H. rewrite strict_eq_same by exact H. apply same_value_refl. Qed.

Lemma strict_eq_sym a b : strict_eq a b = strict_eq b a.
Proof.
  destruct a, b; try reflexivity; unfold strict_eq; apply same_value_sym.
Qed.

Lemma same_value_by_value a b : same_value a b = true -> by_value a = by_value b.
Proof. destruct a, b; cbn; try discriminate; reflexivity. Qed.

Lemma strict_eq_by_value a b : strict_eq a b = true -> by_value a = by_value b.
Proof.
  intros H. apply same_value_by_value. destruct a; try exact H. discriminate.
Qed.



Lemma eq_by_value_strict a b :
  eq_by_value a b = false -> by_value a = true -> strict_eq a b = false.
Proof. unfold eq_by_value. intros H Ha. rewrite Ha in H. exact H. Qed.




Lemma remove_last_match_split f l l' :
  remove_last_match f l = Some l' ->
  exists l1 x l2, l = l1 ++ x :: l2 /\ l' = l1 ++ l2.
Proof.
  revert l'. induction l as [|q l IH]; simpl; intros l' H; [discriminate|].
  destruct (remove_last_match f l) as [l''|] eqn:E.
  - inversion H; subst. destruct (IH l'' eq_refl) as (l1 & x & l2 & -> & ->).
    exists (q :: l1), x, l2. auto.
  - destruct (f q); inversion H; subst. exists [], q, l'. auto.
Qed.








(** ** Well-formed engine states

    What the symbolic runs below rely on: the zones form a tree under
    globalPSD, Promise.prototype.then is the [then] of the active zone,
    references held by the engine denote objects of the heap, and no tick
    finalizer is registered (none of the modelled operations registers
    one).  Checked by a boolean function, so that it can be evaluated on a
    concrete state. *)

Fixpoint thenimpl_eqb (a b : ThenImpl) : bool :=
  match a, b with
  | ThenOrig, ThenOrig => true
  | ThenPatched a' z, ThenPatched b' z' => thenimpl_eqb a' b' && Nat.eqb z z'
  | _, _ => false
  end.

Definition zone_okb (z : nat) (r : ZoneRec) : bool :=
  (global r || match parent r with Some q => Nat.ltb q z | None => false end)
  && (thenimpl_eqb (env_dthen r) ThenOrig
      || thenimpl_eqb (env_dthen r) (ThenPatched ThenOrig z)).

Fixpoint zones_okb (i : nat) (zs : list ZoneRec) : bool :=
  match zs with
  | [] => true
  | r :: zs' => zone_okb i r && zones_okb (S i) zs'
  end.

Definition proto_okb (st : State) : bool :=
  match zones st !! PSD st with
  | Some r => thenimpl_eqb (protoThen st) (env_dthen r)
  | None => false
  end.

Definition is_nil {A} (l : list A) : bool :=
  match l with [] => true | _ => false end.

Definition wfb (st : State) : bool :=
  Nat.ltb 0 (length (zones st))
  && proto_okb st
  && zones_okb 0 (zones st)
  && is_nil (tickFinalizers st)
  && forallb (fun q => Nat.ltb q (length (promises st))) (unhandledErrors st)
  && forallb (fun r => Nat.ltb (_PSD r) (length (zones st))) (promises st).

Record wf (st : State) : Prop := {
  wf_zone0 : exists r, zones st !! 0%nat = Some r;
  wf_proto : exists r, zones st !! PSD st = Some r /\ protoThen st = env_dthen r;
  wf_parents : forall z r, zones st !! z = Some r ->
                           global r = true \/
                           exists q, parent r = Some q /\ (q < z)%nat;
  wf_env : forall z r, zones st !! z = Some r ->
                       env_dthen r = ThenOrig \/
                       env_dthen r = ThenPatched ThenOrig z;
  wf_fin : tickFinalizers st = [];
  wf_unh : forall q, q ∈ unhandledErrors st -> (q < length (promises st))%nat;
  wf_psd : forall p r, promises st !! p = Some r ->
                       (_PSD r < length (zones st))%nat
}.

Lemma thenimpl_eqb_eq a b : thenimpl_eqb a b = true -> a = b.
Proof.
  revert b. induction a as [|a IH z]; intros [|b z']; simpl; try discriminate; auto.
  intros H. apply andb_true_iff in H as [H1 H2].
  apply Nat.eqb_eq in H2. f_equal; auto.
Qed.

Lemma zones_okb_lookup zs : forall i z r,
    zones_okb i zs = true -> zs !! z = Some r -> zone_okb (i + z) r = true.
Proof.
  induction zs as [|r0 zs IH]; intros i z r H Hz; [discriminate|].
  simpl in H. apply andb_true_iff in H as [H1 H2].
  destruct z as [|z]; simpl in Hz.
  - inversion Hz; subst. rewrite Nat.add_0_r. exact H1.
  - replace (i + S z)%nat with (S i + z)%nat by lia. eapply IH; eauto.
Qed.

Lemma wfb_sound st : wfb st = true -> wf st.
Proof.
  unfold wfb. intros H.
  repeat (apply andb_true_iff in H as [H ?]).
  constructor.
  - apply lookup_lt_is_Some_2. apply Nat.ltb_lt in H. exact H.
  - unfold proto_okb in *. destruct (zones st !! PSD st) as [r|]; [|discriminate].
    exists r. split; auto. apply thenimpl_eqb_eq. auto.
  - intros z r Hz. pose proof (zones_okb_lookup _ 0 z r ltac:(eassumption) Hz) as Hk.
    simpl in Hk. unfold zone_okb in Hk. apply andb_true_iff in Hk as [Hk _].
    apply orb_true_iff in Hk as [Hk|Hk]; [auto|].
    right. destruct (parent r) as [q|]; [|discriminate].
    exists q. split; auto. apply Nat.ltb_lt. exact Hk.
  - intros z r Hz. pose proof (zones_okb_lookup _ 0 z r ltac:(eassumption) Hz) as Hk.
    simpl in Hk. unfold zone_okb in Hk. apply andb_true_iff in Hk as [_ Hk].
    apply orb_true_iff in Hk as [Hk|Hk]; apply thenimpl_eqb_eq in Hk; auto.
  - destruct (tickFinalizers st); [auto|discriminate].
  - intros q Hq. rewrite forallb_forall in H1.
    apply Nat.ltb_lt. apply H1. apply list_elem_of_In. exact Hq.
  - intros p r Hp. rewrite forallb_forall in H0.
    apply Nat.ltb_lt. apply H0. apply list_elem_of_In.
    eapply list_elem_of_lookup_2; eauto.
Qed.

(** Split conjunctions only. *)
Ltac conjs := repeat match goal with |- _ /\ _ => split end.

(** ** Running straight-line engine code *)

Lemma run_bind {A B} (m : M A) (k : A -> M B) st a st1 :
  m st = Some (Normal a, st1) -> bind m k st = k a st1.
Proof. unfold bind. intros ->. reflexivity. Qed.

Lemma run_bind_throws {A B} (m : M A) (k : A -> M B) st e st1 :
  m st = Some (Throws e, st1) -> bind m k st = Some (Throws e, st1).
Proof. unfold bind. intros ->. reflexivity. Qed.

Lemma run_modify {B} f (k : unit -> M B) st : bind (modify f) k st = k tt (f st).
Proof. reflexivity. Qed.

Lemma run_gets {A B} (f : State -> A) (k : A -> M B) st :
  bind (gets f) k st = k (f st) st.
Proof. reflexivity. Qed.

Lemma run_ret {A B} (a : A) (k : A -> M B) st : bind (ret a) k st = k a st.
Proof. reflexivity. Qed.

Lemma run_getPromise p st r :
  promises st !! p = Some r -> getPromise p st = Some (Normal r, st).
Proof. unfold getPromise. intros ->. reflexivity. Qed.

Lemma run_getZone z st r :
  zones st !! z = Some r -> getZone z st = Some (Normal r, st).
Proof. unfold getZone. intros ->. reflexivity. Qed.

Lemma with_dthen_id r : with_dthen (env_dthen r) r = r.
Proof. destruct r; reflexivity. Qed.

Lemma update_zone_id z f st r :
  zones st !! z = Some r -> f r = r -> update_zone z f st = st.
Proof.
  intros Hz Hf. unfold update_zone, set_zones. rewrite Hz, Hf.
  rewrite list_insert_id by exact Hz. destruct st; reflexivity.
Qed.

(** switchToZone, in a state whose prototype [then] is the active zone's. *)
Lemma run_switchToZone st target tr :
  wf st -> zones st !! target = Some tr ->
  switchToZone target st =
  Some (Normal tt, set_protoThen (fun _ => env_dthen tr) (set_PSD (fun _ => target) st)).
Proof.
  intros Hwf Ht. destruct (wf_proto _ Hwf) as (cr & Hc & Hp).
  unfold switchToZone. unfold bind at 1. unfold gets at 1.
  destruct (Nat.eqb target (PSD st)) eqn:E.
  - apply Nat.eqb_eq in E. subst target. rewrite Hc in Ht. inversion Ht; subst.
    unfold ret. rewrite <- Hp. destruct st; reflexivity.
  - rewrite (run_bind _ _ _ _ _ (run_getZone _ _ _ Ht)).
    unfold bind, modify, gets, when. simpl.
    destruct (Nat.eqb (PSD st) 0 && nativePromiseThen st) eqn:E2; simpl; [|reflexivity].
    apply andb_true_iff in E2 as [E2 _]. apply Nat.eqb_eq in E2.
    rewrite E2 in Hc. rewrite Hp.
    rewrite (update_zone_id _ _ _ cr); [reflexivity| exact Hc |apply with_dthen_id].
Qed.

Lemma wf_switch st target tr :
  wf st -> zones st !! target = Some tr ->
  wf (set_protoThen (fun _ => env_dthen tr) (set_PSD (fun _ => target) st)).
Proof.
  intros [H1 H2 H3 He H4 H5 H6] Ht. constructor; simpl; eauto.
Qed.

Lemma run_schedulePhysicalTick st :
  wf st ->
  schedulePhysicalTick st = Some (Normal tt, set_physicalTicksRequested S st).
Proof.
  intros Hwf. destruct (wf_zone0 _ Hwf) as (z0 & H0).
  destruct (wf_proto _ Hwf) as (cr & Hc & Hp).
  unfold schedulePhysicalTick. unfold bind at 1. unfold gets at 1.
  rewrite (run_bind _ _ _ _ _ (run_switchToZone _ _ _ Hwf H0)).
  unfold bind at 1. unfold modify at 1.
  rewrite (run_switchToZone _ (PSD st) cr).
  - simpl. rewrite <- Hp. destruct st; reflexivity.
  - apply (wf_switch _ _ _ Hwf) in H0. destruct H0. constructor; simpl in *; eauto.
  - simpl. exact Hc.
Qed.

Definition asap_state (callback : Fn) (args : list Value) (st : State) : State :=
  let st1 := set_microtickQueue (fun q => q ++ [(callback, args)]) st in
  if needsNewPhysicalTick st
  then set_needsNewPhysicalTick (fun _ => false) (set_physicalTicksRequested S st1)
  else st1.

Lemma run_asap st callback args :
  wf st -> asap callback args st = Some (Normal tt, asap_state callback args st).
Proof.
  intros Hwf. unfold asap, asap_state. rewrite run_modify, run_gets.
  cbn [needsNewPhysicalTick set_microtickQueue].
  destruct (needsNewPhysicalTick st); unfold when; [|reflexivity].
  erewrite run_bind; [reflexivity|].
  apply run_schedulePhysicalTick. destruct Hwf; constructor; simpl; eauto.
Qed.

Lemma wf_asap st callback args : wf st -> wf (asap_state callback args st).
Proof.
  intros [H1 H2 H3 He H4 H5 H6]. unfold asap_state.
  destruct (needsNewPhysicalTick st); constructor; simpl; eauto.
Qed.

(** A zone without its count. *)
Definition zone_view (r : ZoneRec) : option nat * bool * ThenImpl :=
  (parent r, global r, env_dthen r).

Lemma lookup_update_zone z f st q :
  zones (update_zone z f st) !! q =
  if decide (z = q) then f <$> zones st !! q else zones st !! q.
Proof.
  unfold update_zone, set_zones. cbn [zones].
  destruct (zones st !! z) as [r|] eqn:E.
  - destruct (decide (z = q)) as [->|Hne].
    + rewrite E. simpl. apply list_lookup_insert_eq. eapply lookup_lt_Some; eauto.
    + apply list_lookup_insert_ne; auto.
  - destruct (decide (z = q)) as [->|Hne]; auto. rewrite E. reflexivity.
Qed.

Lemma length_update_zone z f st :
  length (zones (update_zone z f st)) = length (zones st).
Proof.
  unfold update_zone, set_zones. cbn [zones].
  destruct (zones st !! z); auto. apply length_insert.
Qed.

Lemma zone_view_update_zone z f st :
  (forall r, zone_view (f r) = zone_view r) ->
  map zone_view (zones (update_zone z f st)) = map zone_view (zones st).
Proof.
  intros Hf. apply list_eq. intros i. rewrite !list_lookup_fmap.
  rewrite lookup_update_zone. destruct (decide (z = i)) as [->|]; auto.
  destruct (zones st !! i); simpl; auto. rewrite Hf. reflexivity.
Qed.

Lemma zone_view_lookup zs zs' z r' :
  map zone_view zs' = map zone_view zs -> zs' !! z = Some r' ->
  exists r, zs !! z = Some r /\ zone_view r = zone_view r'.
Proof.
  intros E Hz. assert (H : map zone_view zs !! z = Some (zone_view r')).
  { rewrite <- E. rewrite list_lookup_fmap, Hz. reflexivity. }
  rewrite list_lookup_fmap in H. destruct (zs !! z) as [r|]; [|discriminate].
  exists r. split; [reflexivity|]. simpl in H. congruence.
Qed.

(** Well-formedness only depends on the views of the zones, the active
    zone, the prototype [then], the finalizers, the unhandled list and the
    zone of each promise. *)
Lemma wf_frame st st' :
  wf st ->
  map zone_view (zones st') = map zone_view (zones st) ->
  PSD st' = PSD st -> protoThen st' = protoThen st ->
  tickFinalizers st' = tickFinalizers st ->
  (forall q, q ∈ unhandledErrors st' -> (q < length (promises st'))%nat) ->
  (forall p r, promises st' !! p = Some r -> (_PSD r < length (zones st))%nat) ->
  wf st'.
Proof.
  intros [H1 H2 H3 Henv H4 H5 H6] Ez Ep Et Ef Hu Hp.
  assert (Hlen : length (zones st') = length (zones st)).
  { rewrite <- (length_map zone_view (zones st')), Ez. apply length_map. }
  assert (Hback : forall z r, zones st !! z = Some r ->
                              exists r', zones st' !! z = Some r' /\
                                         zone_view r' = zone_view r).
  { intros z r Hz. eapply zone_view_lookup; [symmetry; exact Ez | exact Hz]. }
  constructor.
  - destruct H1 as (r & Hr). destruct (Hback _ _ Hr) as (r' & Hr' & _). eauto.
  - destruct H2 as (r & Hr & He). rewrite Ep, Et.
    destruct (Hback _ _ Hr) as (r' & Hr' & Hv). exists r'. split; auto.
    unfold zone_view in Hv. inversion Hv. congruence.
  - intros z r' Hz. destruct (zone_view_lookup _ _ _ _ Ez Hz) as (r & Hr & Hv).
    unfold zone_view in Hv. inversion Hv as [[Ea Eb Ec]].
    try rewrite <- Ea; try rewrite <- Eb; eauto.
  - intros z r' Hz. destruct (zone_view_lookup _ _ _ _ Ez Hz) as (r & Hr & Hv).
    unfold zone_view in Hv. inversion Hv as [[Ea Eb Ec]].
    try rewrite <- Ec; eauto.
  - congruence.
  - exact Hu.
  - intros p r Hr. rewrite Hlen. eauto.
Qed.

Lemma wf_update_ref st z f : wf st -> wf (update_zone z (with_ref f) st).
Proof.
  intros Hwf. apply (wf_frame st); auto.
  - apply zone_view_update_zone. intros r. reflexivity.
  - intros q Hq. apply (wf_unh _ Hwf). exact Hq.
  - intros p r Hp. apply (wf_psd _ Hwf p). exact Hp.
Qed.

Lemma wf_alloc st r :
  wf st -> (_PSD r < length (zones st))%nat ->
  wf (set_promises (fun ps => ps ++ [r]) st).
Proof.
  intros Hwf Hr. apply (wf_frame st); auto.
  - intros q Hq. cbn. rewrite length_app. cbn. pose proof (wf_unh _ Hwf q Hq). lia.
  - intros p r0 Hp. cbn in Hp.
    destruct (decide (p < length (promises st))%nat).
    + rewrite lookup_app_l in Hp by auto. eapply (wf_psd _ Hwf); eauto.
    + rewrite lookup_app_r in Hp by lia.
      destruct (p - length (promises st))%nat; [|discriminate].
      inversion Hp; subst. exact Hr.
Qed.

Lemma wf_update_promise st p f :
  wf st -> (forall r, _PSD (f r) = _PSD r) -> wf (update_promise p f st).
Proof.
  intros Hwf Hf. apply (wf_frame st); auto.
  - intros q Hq. rewrite length_update_promise. apply (wf_unh _ Hwf). exact Hq.
  - intros q r Hq. rewrite lookup_update_promise in Hq.
    destruct (decide (p = q)) as [->|].
    + destruct (promises st !! q) as [r0|] eqn:E; [|discriminate].
      inversion Hq; subst. rewrite Hf. eapply (wf_psd _ Hwf); eauto.
    + eapply (wf_psd _ Hwf); eauto.
Qed.

Lemma wf_PSD_lt st : wf st -> (PSD st < length (zones st))%nat.
Proof. intros Hwf. destruct (wf_proto _ Hwf) as (r & Hr & _). eapply lookup_lt_Some; eauto. Qed.

Lemma is_function_not_null v : is_function v = true -> strict_eq v VNull = false.
Proof. destruct v; simpl; auto; discriminate. Qed.

(** propagateToListener on a settled promise, towards a handler: the call
    of the listener is queued. *)
Lemma run_propagateToListener_schedule call st promise listener r s :
  wf st ->
  promises st !! promise = Some r -> _state r = Some s ->
  strict_eq (if s then l_onFulfilled listener else l_onRejected listener) VNull = false ->
  propagateToListener call promise listener st =
  Some (Normal VUndefined,
        asap_state FCallListener
          [if s then l_onFulfilled listener else l_onRejected listener;
           VPromise promise; VListener listener]
          (set_numScheduledCalls Z.succ
             (update_zone (l_psd listener) (with_ref Z.succ) st))).
Proof.
  intros Hwf Hp Hs Hf. unfold propagateToListener.
  rewrite (run_bind _ _ _ _ _ (run_getPromise _ _ _ Hp)). rewrite Hs.
  rewrite Hf.
  unfold incRef. rewrite !run_modify.
  erewrite run_bind; [reflexivity|].
  apply run_asap.
  apply (wf_frame (update_zone (l_psd listener) (with_ref Z.succ) st));
    [apply wf_update_ref; exact Hwf|reflexivity..| |].
  - apply (wf_unh _ (wf_update_ref _ (l_psd listener) Z.succ Hwf)).
  - apply (wf_psd _ (wf_update_ref _ (l_psd listener) Z.succ Hwf)).
Qed.

Lemma run_propagateToListener_handler call st promise listener r s :
  wf st ->
  promises st !! promise = Some r -> _state r = Some s ->
  is_function (if s then l_onFulfilled listener else l_onRejected listener) = true ->
  propagateToListener call promise listener st =
  Some (Normal VUndefined,
        asap_state FCallListener
          [if s then l_onFulfilled listener else l_onRejected listener;
           VPromise promise; VListener listener]
          (set_numScheduledCalls Z.succ
             (update_zone (l_psd listener) (with_ref Z.succ) st))).
Proof.
  intros Hwf Hp Hs Hf.
  apply (run_propagateToListener_schedule call st promise listener r s Hwf Hp Hs).
  apply is_function_not_null, Hf.
Qed.

Lemma run_allocPromise {B} r (k : nat -> M B) st :
  bind (allocPromise r) k st =
  k (length (promises st)) (set_promises (fun ps => ps ++ [r]) st).
Proof. reflexivity. Qed.

Lemma run_try_catch_normal {A} (m : M A) h st a st' :
  m st = Some (Normal a, st') -> try_catch m h st = Some (Normal a, st').
Proof. unfold try_catch. intros ->. reflexivity. Qed.

Lemma run_try_catch_throws {A} (m : M A) h st e st' :
  m st = Some (Throws e, st') -> try_catch m h st = h e st'.
Proof. unfold try_catch. intros ->. reflexivity. Qed.

Lemma run_try_finally {A} (m : M A) fin st o st1 st2 :
  m st = Some (o, st1) -> fin st1 = Some (Normal tt, st2) ->
  try_finally m fin st = Some (o, st2).
Proof. unfold try_finally. intros -> ->. reflexivity. Qed.

Lemma call_S ufun n f args :
  call ufun (S n) f args = dispatch (call ufun n) n ufun f args.
Proof. reflexivity. Qed.

Lemma arg_0 a l : arg 0 (a :: l) = a.
Proof. reflexivity. Qed.

Lemma arg_1 a b l : arg 1 (a :: b :: l) = b.
Proof. reflexivity. Qed.

(** ** C2: what [then] leaves behind on a settled promise *)

(** The state after this.then(onFulfilled, onRejected) when [this] is
    settled (fulfilled iff [s]) and the handler for that outcome is a
    function: a fresh pending promise, two more references on the active
    zone (one for the promise, one for the scheduled call), one more
    scheduled call, and the call of the handler on the microtask queue. *)
Definition then_state (this : nat) (s : bool) (onFulfilled onRejected : Value)
           (st : State) : State :=
  let rv := length (promises st) in
  let psd := PSD st in
  let l := newListener onFulfilled onRejected (VFn (FResolve rv)) (VFn (FReject rv)) psd in
  asap_state FCallListener
    [if s then l_onFulfilled l else l_onRejected l; VPromise this; VListener l]
    (set_numScheduledCalls Z.succ
       (update_zone psd (with_ref Z.succ)
          (update_zone psd (with_ref Z.succ)
             (set_promises (fun ps => ps ++ [mkPromise [] false psd None VNull]) st)))).

(** The handlers as [then] receives them through the patched
    Promise.prototype.then of a zone. *)
Fixpoint wrapHandler (impl : ThenImpl) (psd : nat) (native : bool) (h : Value) : Value :=
  match impl with
  | ThenOrig => h
  | ThenPatched origThen zone =>
      wrapHandler origThen psd native
        (nativeAwaitCompatibleWrap h zone (negb (Nat.eqb zone psd) && native))
  end.

Lemma is_function_wrapHandler impl psd native h :
  is_function (wrapHandler impl psd native h) = is_function h.
Proof.
  revert h. induction impl as [|impl IH z]; intros h; simpl; [reflexivity|].
  rewrite IH. unfold nativeAwaitCompatibleWrap.
  destruct (is_function h) eqn:E; [reflexivity | exact E].
Qed.

Lemma newListener_handler (s : bool) onFulfilled onRejected a b z :
  is_function (if s then onFulfilled else onRejected) = true ->
  (if s then l_onFulfilled (newListener onFulfilled onRejected a b z)
   else l_onRejected (newListener onFulfilled onRejected a b z))
  = (if s then onFulfilled else onRejected).
Proof. unfold newListener. destruct s; cbn; intros ->; reflexivity. Qed.

Lemma run_newPromise_thenExec ufun n fuel st this r s onFulfilled onRejected :
  wf st ->
  promises st !! this = Some r -> _state r = Some s ->
  is_function (if s then onFulfilled else onRejected) = true ->
  newPromise (call ufun (S n)) fuel (VFn (FThenExec this onFulfilled onRejected)) st =
  Some (Normal (length (promises st)),
        then_state this s onFulfilled onRejected st).
Proof.
  intros Hwf Hp Hs Hf. unfold newPromise.
  rewrite run_gets, run_allocPromise. cbn [is_function negb].
  unfold incRef. rewrite run_modify. unfold executePromiseTask.
  set (rv := length (promises st)).
  set (st1 := update_zone (PSD st) (with_ref Z.succ)
                (set_promises (fun ps => ps ++ [mkPromise [] false (PSD st) None VNull]) st)).
  assert (Hwf1 : wf st1).
  { apply wf_update_ref, wf_alloc; [exact Hwf|]. apply wf_PSD_lt, Hwf. }
  assert (Hp1 : promises st1 !! this = Some r).
  { unfold st1. cbn. rewrite lookup_app_l; [exact Hp | eapply lookup_lt_Some; eauto]. }
  erewrite run_bind; [reflexivity|].
  apply run_try_catch_normal.
  erewrite run_bind; [reflexivity|].
  unfold callValue. rewrite call_S. cbn [dispatch].
  rewrite run_gets.
  erewrite run_bind; [reflexivity|].
  rewrite (run_propagateToListener_handler _ st1 this _ r s Hwf1 Hp1 Hs).
  - reflexivity.
  - rewrite newListener_handler; auto.
Qed.

Lemma run_then_handler ufun n fuel st this r s onFulfilled onRejected :
  wf st ->
  promises st !! this = Some r -> _state r = Some s ->
  is_function (if s then onFulfilled else onRejected) = true ->
  then_ (call ufun (S n)) fuel this onFulfilled onRejected st =
  Some (Normal (VPromise (length (promises st))),
        then_state this s onFulfilled onRejected st).
Proof.
  intros Hwf Hp Hs Hf. unfold then_.
  erewrite run_bind; [reflexivity|].
  eapply run_newPromise_thenExec; eauto.
Qed.

Lemma run_applyThen_handler ufun n fuel st this r s impl :
  forall onFulfilled onRejected,
    wf st ->
    promises st !! this = Some r -> _state r = Some s ->
    is_function (if s then onFulfilled else onRejected) = true ->
    applyThen (call ufun (S n)) fuel impl this onFulfilled onRejected st =
    Some (Normal (VPromise (length (promises st))),
          then_state this s
            (wrapHandler impl (PSD st) (nativePromiseThen st) onFulfilled)
            (wrapHandler impl (PSD st) (nativePromiseThen st) onRejected) st).
Proof.
  induction impl as [|impl IH z]; intros onF onR Hwf Hp Hs Hf.
  - apply (run_then_handler _ _ _ _ _ r); auto.
  - cbn [applyThen wrapHandler]. rewrite !run_gets. apply IH; auto.
    unfold nativeAwaitCompatibleWrap.
    destruct s; rewrite Hf; reflexivity.
Qed.

(** A heap with one promise, fulfilled with 1: what Promise.resolve(1)
    makes of the initial state. *)
Definition st_fulfilled : State :=
  set_promises (fun _ => [mkPromise [] false 0 (Some true) (VNum 1)]) initial.

(** An application without functions of its own. *)
Definition no_ufun (i : nat) (env args : list Value) : Prog := Ret VUndefined.

(** C2, as stated, fails: Promise.resolve(1).then(null, null) returns a
    promise that is already fulfilled when [then] returns, because
    propagateToListener settles the downstream promise on the spot when the
    listener has no handler for the outcome. *)
Lemma then_without_handler_settles_at_once :
  exists st' r,
    invokeThen (call no_ufun 5) 5 0 VNull VNull st_fulfilled
    = Some (Normal (VPromise 1), st') /\
    promises st' !! 1%nat = Some r /\
    _state r = Some true /\ _value r = VNum 1.
Proof. vm_compute. eexists _, _. repeat split. Qed.

(** ** C4: releasing a zone *)

(** A state that differs from [st] in the zones, the log of finalize calls
    and the host's events only. *)
Definition zone_step (zs : list ZoneRec) (log : list nat) (events : list (Value * nat))
           (st : State) : State :=
  set_hostEvents (fun _ => events)
    (set_finalizeLog (fun _ => log) (set_zones (fun _ => zs) st)).

Lemma zone_step_id st : zone_step (zones st) (finalizeLog st) (hostEvents st) st = st.
Proof. destruct st; reflexivity. Qed.

Lemma zone_step_zone_step zs l h zs' l' h' st :
  zone_step zs' l' h' (zone_step zs l h st) = zone_step zs' l' h' st.
Proof. reflexivity. Qed.

Lemma wf_zone_step st zs l h :
  wf st -> map zone_view zs = map zone_view (zones st) -> wf (zone_step zs l h st).
Proof.
  intros Hwf Hz. apply (wf_frame st); auto.
  - apply (wf_unh _ Hwf).
  - apply (wf_psd _ Hwf).
Qed.

Lemma run_forEach_globalError uhs st :
  exists h,
    forEach uhs (fun uh => globalError (fst uh) (snd uh)) st =
    Some (Normal tt, set_hostEvents (fun _ => h) st).
Proof.
  revert st. induction uhs as [|uh uhs IH]; intros st; cbn [forEach].
  - exists (hostEvents st). destruct st; reflexivity.
  - unfold globalError at 1. rewrite run_modify.
    destruct (IH (set_hostEvents (fun l => l ++ [(fst uh, snd uh)]) st)) as (h & Hh).
    exists h. rewrite Hh. reflexivity.
Qed.

(** --psd.ref || psd.finalize(), with enough fuel for the chain of parents:
    it returns; it only touches the counts of [z] and of its ancestors;
    finalize is entered for [z], once, exactly when the count of [z]
    reaches 0, and whatever else is entered is entered after it and is an
    ancestor, the parent first.  Every zone whose finalize is entered had
    the count 1 and has the count 0 afterwards; the finalize of [z] takes
    one from the count of its parent, whose finalize is entered exactly
    when that was its last one. *)
Lemma release_full ufun n : forall z st r,
    wf st -> zones st !! z = Some r -> (z < n)%nat ->
    exists zs' chain h,
      releaseRef (call ufun n) z st =
        Some (Normal tt, zone_step zs' (finalizeLog st ++ chain) h st) /\
      map zone_view zs' = map zone_view (zones st) /\
      zs' !! z = Some (with_ref Z.pred r) /\
      (forall y, (z < y)%nat -> zs' !! y = zones st !! y) /\
      (if ref r =? 1
       then exists chain',
           chain = z :: chain' /\
           (forall a, a ∈ chain' -> (a < z)%nat) /\
           match chain' with [] => True | a :: _ => parent r = Some a end
       else chain = []) /\
      (forall a, a ∈ chain ->
                 exists ra, zones st !! a = Some ra /\ ref ra = 1 /\
                            zs' !! a = Some (with_ref Z.pred ra)) /\
      (ref r <> 1 -> forall y, y <> z -> zs' !! y = zones st !! y) /\
      (ref r = 1 -> global r = true -> chain = [z]) /\
      (ref r = 1 -> global r = false ->
       forall q rq, parent r = Some q -> zones st !! q = Some rq ->
                    zs' !! q = Some (with_ref Z.pred rq) /\
                    (ref rq <> 1 -> chain = [z]) /\
                    (ref rq = 1 -> exists chain'', chain = z :: q :: chain'')).
Proof.
  induction n as [|n IH]; intros z st r Hwf Hz Hn; [lia|].
  set (st1 := update_zone z (with_ref Z.pred) st).
  assert (Hwf1 : wf st1) by (apply wf_update_ref; exact Hwf).
  assert (Hz1 : zones st1 !! z = Some (with_ref Z.pred r)).
  { unfold st1. rewrite lookup_update_zone, decide_True, Hz by auto. reflexivity. }
  assert (Hv1 : map zone_view (zones st1) = map zone_view (zones st)).
  { apply zone_view_update_zone. reflexivity. }
  assert (Hy1 : forall y, z <> y -> zones st1 !! y = zones st !! y).
  { intros y Hy. unfold st1. rewrite lookup_update_zone, decide_False by auto. reflexivity. }
  set (st2 := set_finalizeLog (fun l => l ++ [z]) st1).
  assert (Hwf2 : wf st2) by (destruct Hwf1; constructor; auto).
  assert (Hstep : releaseRef (call ufun (S n)) z st =
                  if ref r =? 1
                  then bind (bind (if global r then
                                     uhs <- gets unhandleds ;;
                                     forEach uhs (fun uh => globalError (fst uh) (snd uh))
                                   else
                                     match parent r with
                                     | Some q => releaseRef (call ufun n) q
                                     | None => stuck
                                     end)
                                  (fun _ => ret VUndefined))
                            (fun _ => ret tt) st2
                  else Some (Normal tt, st1)).
  { unfold releaseRef at 1. rewrite run_modify. fold st1.
    rewrite (run_bind _ _ _ _ _ (run_getZone _ _ _ Hz1)).
    replace (ref (with_ref Z.pred r) =? 0) with (ref r =? 1)
      by (cbn; destruct (Z.eqb_spec (ref r) 1), (Z.eqb_spec (Z.pred (ref r)) 0); lia).
    destruct (ref r =? 1); [|reflexivity].
    unfold callValue. rewrite call_S. cbn [dispatch]. unfold zoneFinalize.
    unfold bind at 1 2. cbn [modify]. fold st2.
    rewrite (run_bind _ _ st2 _ _ (run_getZone z st2 _ Hz1)).
    cbn [global parent with_ref]. reflexivity. }
  rewrite Hstep. clear Hstep.
  destruct (Z.eqb_spec (ref r) 1) as [Eref|Eref].
  2:{ exists (zones st1), [], (hostEvents st). rewrite app_nil_r.
      split; [destruct st; reflexivity|]. split; [exact Hv1|]. split; [exact Hz1|].
      split; [intros y Hy; apply Hy1; lia|]. split; [reflexivity|].
      split; [intros a Ha; inversion Ha|].
      split; [intros _ y Hy; apply Hy1; congruence|].
      split; intros E; contradiction. }
  destruct (global r) eqn:Eg.
  - destruct (run_forEach_globalError (unhandleds st2) st2) as (h & Hh).
    exists (zones st1), [z], h.
    split; [|split; [exact Hv1|split; [exact Hz1|split; [|split; [|split; [|split; [|split]]]]]]].
    + erewrite run_bind;
        [|erewrite run_bind; [reflexivity|rewrite run_gets; exact Hh]].
      destruct st; reflexivity.
    + intros y Hy. apply Hy1. lia.
    + exists []. split; [reflexivity|]. split; [|exact I].
      intros a Ha. inversion Ha.
    + intros a Ha. apply list_elem_of_singleton in Ha. subst a. eauto.
    + intros Hne. contradiction.
    + reflexivity.
    + intros _ Hg. discriminate.
  - destruct (wf_parents _ Hwf z r Hz) as [Hg|(q & Hq & Hlt)]; [congruence|].
    rewrite Hq.
    assert (Hqz : exists rq, zones st2 !! q = Some rq).
    { apply lookup_lt_is_Some_2. change (zones st2) with (zones st1).
      rewrite <- (length_map zone_view), Hv1, length_map.
      apply lookup_lt_Some in Hz. lia. }
    destruct Hqz as (rq & Hrq).
    assert (Hrq0 : zones st !! q = Some rq).
    { rewrite <- (Hy1 q) by lia. exact Hrq. }
    destruct (IH q st2 rq Hwf2 Hrq ltac:(lia))
      as (zs' & chain & h & Hrun & Hv & Hzq & Hy & Hchain & Hall & _ & _ & _).
    assert (Hbelow : forall a, a ∈ chain -> (a < z)%nat).
    { intros a Ha. destruct (ref rq =? 1).
      - destruct Hchain as (chain' & -> & Hlt' & _).
        apply elem_of_cons in Ha as [->|Ha]; [exact Hlt|].
        specialize (Hlt' a Ha). lia.
      - subst chain. inversion Ha. }
    exists zs', (z :: chain), h.
    split; [|split; [|split; [|split; [|split; [|split; [|split; [|split]]]]]]].
    + erewrite run_bind; [|erewrite run_bind; [reflexivity|exact Hrun]].
      cbn -[zone_step]. unfold st2, st1. unfold zone_step. cbn.
      rewrite <- app_assoc. reflexivity.
    + rewrite Hv. exact Hv1.
    + rewrite (Hy z Hlt). exact Hz1.
    + intros y Hzy. rewrite (Hy y ltac:(lia)). apply Hy1. lia.
    + exists chain. split; [reflexivity|]. split; [exact Hbelow|].
      destruct (ref rq =? 1).
      * destruct Hchain as (chain' & -> & _ & _). reflexivity.
      * subst chain. exact I.
    + intros a Ha. apply elem_of_cons in Ha as [->|Ha].
      * exists r. split; [exact Hz|]. split; [exact Eref|].
        rewrite (Hy z Hlt). exact Hz1.
      * destruct (Hall a Ha) as (ra & Hra & Href & Hra').
        exists ra. split; [|split; [exact Href|exact Hra']].
        rewrite <- (Hy1 a); [exact Hra|]. specialize (Hbelow a Ha). lia.
    + intros Hne. contradiction.
    + intros _ Hg. discriminate.
    + intros _ _ q' rq' Hq' Hrq'.
      assert (q' = q) by congruence. subst q'.
      assert (rq' = rq) by congruence. subst rq'.
      split; [exact Hzq|]. split.
      * intros Hne. replace (ref rq =? 1) with false in Hchain
          by (symmetry; apply Z.eqb_neq; exact Hne).
        subst chain. reflexivity.
      * intros He. rewrite He in Hchain. cbn in Hchain.
        destruct Hchain as (chain' & -> & _ & _). eauto.
Qed.

Lemma release_spec ufun n : forall z st r,
    wf st -> zones st !! z = Some r -> (z < n)%nat ->
    exists zs' chain h,
      releaseRef (call ufun n) z st =
        Some (Normal tt, zone_step zs' (finalizeLog st ++ chain) h st) /\
      map zone_view zs' = map zone_view (zones st) /\
      zs' !! z = Some (with_ref Z.pred r) /\
      (forall y, (z < y)%nat -> zs' !! y = zones st !! y) /\
      (if ref r =? 1
       then exists chain',
           chain = z :: chain' /\
           (forall a, a ∈ chain' -> (a < z)%nat) /\
           match chain' with [] => True | a :: _ => parent r = Some a end
       else chain = []).
Proof.
  intros z st r Hwf Hz Hn.
  destruct (release_full ufun n z st r Hwf Hz Hn)
    as (zs' & chain & h & H1 & H2 & H3 & H4 & H5 & _).
  exists zs', chain, h. auto.
Qed.




(** No decrement is needed for that: in
<<
    newScope(() => { new Promise(r => { r(1); }); });
>>
    the promise settles inside fn, which brings the count of the new zone
    (zone 1) to 0 and enters its finalize, and with it the finalize of the
    global zone; after fn, newScope finds the count at 0 and enters the
    finalize of zone 1 once more, which brings the count of the global zone
    to -1. *)
Definition scope_app (i : nat) (env args : list Value) : Prog :=
  match i with
  | 0%nat => Do (OCall (arg 0 args) [VNum 1]) (fun _ => Ret VUndefined)
  | 1%nat => Do (ONew (VFn (FUser 0 []))) (fun _ => Ret VUndefined)
  | _ => Ret VUndefined
  end.

Definition scope_main : Prog :=
  Do (ONewScope (VFn (FUser 1 [])) VUndefined VUndefined) (fun _ => Ret VUndefined).

Lemma zone_finalized_again_by_newScope :
  exists st',
    run (call scope_app 10) 10 scope_main initial = Some (Normal VUndefined, st') /\
    finalizeLog st' = [1; 0; 1]%nat /\
    map ref (zones st') = [-1; 0].
Proof. vm_compute. eexists. repeat split. Qed.


(** ** Settling a promise that others wait for *)

Definition is_pending (r : PromiseRec) : bool :=
  match _state r with None => true | Some _ => false end.

(** The number of pending promises. *)
Fixpoint pending (ps : list PromiseRec) : nat :=
  match ps with
  | [] => 0%nat
  | r :: ps' => ((if is_pending r then 1 else 0) + pending ps')%nat
  end.

(** A listener as [then] and [_then] make them: its capabilities are the
    resolving functions of promises of the heap. *)
Definition listener_okb (len : nat) (l : Listener) : bool :=
  match l_resolve l, l_reject l with
  | VFn (FResolve d), VFn (FReject d') => Nat.ltb d len && Nat.ltb d' len
  | _, _ => false
  end.

Definition promise_okb (len : nat) (r : PromiseRec) : bool :=
  negb (_lib r)
  && forallb (listener_okb len) (_listeners r)
  && match _state r with
     | Some true => negb (is_thenable (_value r))
     | _ => true
     end.

(** A heap whose promises carry no lib flag, wait with listeners of the
    engine only, and are fulfilled with values that are not thenables. *)
Definition heap_okb (st : State) : bool :=
  forallb (promise_okb (length (promises st))) (promises st).

Definition listener_ok (len : nat) (l : Listener) : Prop :=
  exists d d', l_resolve l = VFn (FResolve d) /\ l_reject l = VFn (FReject d') /\
               (d < len)%nat /\ (d' < len)%nat.

Record promise_ok (len : nat) (r : PromiseRec) : Prop := {
  ok_lib : _lib r = false;
  ok_listeners : forall l, l ∈ _listeners r -> listener_ok len l;
  ok_value : _state r = Some true -> is_thenable (_value r) = false
}.

Definition heap_ok (st : State) : Prop :=
  forall p r, promises st !! p = Some r -> promise_ok (length (promises st)) r.

Lemma listener_okb_sound len l : listener_okb len l = true -> listener_ok len l.
Proof.
  unfold listener_okb, listener_ok. intros H.
  destruct (l_resolve l) as [| | | | | | | | | | | |[]]; try discriminate.
  destruct (l_reject l) as [| | | | | | | | | | | |[]]; try discriminate.
  apply andb_true_iff in H as [H1 H2]. apply Nat.ltb_lt in H1, H2. eauto 10.
Qed.

Lemma heap_okb_sound st : heap_okb st = true -> heap_ok st.
Proof.
  unfold heap_okb. intros H p r Hp. rewrite forallb_forall in H.
  specialize (H r). unfold promise_okb in H.
  assert (Hin : In r (promises st)).
  { apply list_elem_of_In. eapply list_elem_of_lookup_2; eauto. }
  apply H in Hin. apply andb_true_iff in Hin as [Hin H3].
  apply andb_true_iff in Hin as [H1 H2]. constructor.
  - destruct (_lib r); [discriminate|reflexivity].
  - intros l Hl. apply listener_okb_sound. rewrite forallb_forall in H2.
    apply H2. apply list_elem_of_In. exact Hl.
  - intros Hs. rewrite Hs in H3. destruct (is_thenable _); [discriminate|reflexivity].
Qed.

Lemma pending_insert ps : forall q r r',
    ps !! q = Some r ->
    (pending (<[q := r']> ps) + (if is_pending r then 1 else 0)
     = pending ps + (if is_pending r' then 1 else 0))%nat.
Proof.
  induction ps as [|r0 ps IH]; intros q r r' Hq; [discriminate|].
  destruct q as [|q].
  - change (<[0%nat := r']> (r0 :: ps)) with (r' :: ps).
    assert (r0 = r) by (cbn in Hq; congruence). subst r0.
    cbn [pending]. lia.
  - change (<[S q := r']> (r0 :: ps)) with (r0 :: <[q := r']> ps).
    specialize (IH q r r' Hq). cbn [pending]. lia.
Qed.

Lemma pending_update_promise st q f r :
  promises st !! q = Some r ->
  (pending (promises (update_promise q f st)) + (if is_pending r then 1 else 0)
   = pending (promises st) + (if is_pending (f r) then 1 else 0))%nat.
Proof.
  intros Hq. unfold update_promise. cbn. rewrite Hq. apply pending_insert. exact Hq.
Qed.

Lemma pending_le_length ps : (pending ps <= length ps)%nat.
Proof. induction ps as [|r ps IH]; cbn -[is_pending]; [lia|]. destruct (is_pending r); lia. Qed.

Lemma listener_ok_mono len len' l :
  (len <= len')%nat -> listener_ok len l -> listener_ok len' l.
Proof. intros Hle (d & d' & H1 & H2 & H3 & H4). exists d, d'. conjs; auto; lia. Qed.

Lemma promise_ok_mono len len' r :
  (len <= len')%nat -> promise_ok len r -> promise_ok len' r.
Proof.
  intros Hle [H1 H2 H3]. constructor; auto.
  intros l Hl. eapply listener_ok_mono; eauto.
Qed.

Lemma heap_ok_frame st st' :
  promises st' = promises st -> heap_ok st -> heap_ok st'.
Proof. intros E H p r. rewrite E. apply H. Qed.

Lemma heap_ok_update_promise st q f :
  heap_ok st ->
  (forall r, promises st !! q = Some r ->
             promise_ok (length (promises st)) r ->
             promise_ok (length (promises st)) (f r)) ->
  heap_ok (update_promise q f st).
Proof.
  intros H Hf p r. rewrite length_update_promise, lookup_update_promise.
  destruct (decide (q = p)) as [->|]; [|apply H].
  destruct (promises st !! p) as [r0|] eqn:E; [|discriminate].
  cbn. intros [= <-]. apply Hf; [reflexivity|]. eapply H; eauto.
Qed.

Lemma heap_ok_snoc st st' r :
  heap_ok st -> promises st' = promises st ++ [r] ->
  promise_ok (S (length (promises st))) r -> heap_ok st'.
Proof.
  intros H E Hr p r0. rewrite E, length_app. cbn. rewrite Nat.add_1_r. intros Hp.
  destruct (decide (p < length (promises st))%nat).
  - rewrite lookup_app_l in Hp by auto.
    eapply promise_ok_mono; [|eapply H; eauto]. lia.
  - rewrite lookup_app_r in Hp by lia.
    destruct (p - length (promises st))%nat; [|discriminate].
    inversion Hp; subst. exact Hr.
Qed.

Lemma promise_ok_rejected len psd reason :
  promise_ok len (mkPromise [] false psd (Some false) reason).
Proof. constructor; cbn; [reflexivity| |discriminate]. intros l Hl. inversion Hl. Qed.

(** What a settlement and the settlements it triggers leave in place. *)
Record cascade (st st' : State) : Prop := {
  c_wf : wf st';
  c_heap : heap_ok st';
  c_stable : settled_stable st st';
  c_pending : (pending (promises st') <= pending (promises st))%nat;
  c_length : length (promises st') = length (promises st);
  c_callLog : callLog st' = callLog st;
  c_zones : length (zones st') = length (zones st)
}.

Lemma cascade_refl st : wf st -> heap_ok st -> cascade st st.
Proof. intros. constructor; auto. apply settled_stable_refl. Qed.

Lemma cascade_trans a b c : cascade a b -> cascade b c -> cascade a c.
Proof.
  intros [] []. constructor; auto; try congruence; try lia.
  eapply settled_stable_trans; eauto.
Qed.

Lemma cascade_frame st st' :
  wf st' -> heap_ok st -> promises st' = promises st -> callLog st' = callLog st ->
  length (zones st') = length (zones st) -> cascade st st'.
Proof.
  intros Hwf Hh Ep Ec Ez. constructor; auto.
  - eapply heap_ok_frame; eauto.
  - apply settled_stable_frame. exact Ep.
  - rewrite Ep. lia.
  - rewrite Ep. reflexivity.
Qed.

Lemma wf_schedule st z cb args :
  wf st ->
  wf (asap_state cb args (set_numScheduledCalls Z.succ (update_zone z (with_ref Z.succ) st))).
Proof.
  intros Hwf. apply wf_asap.
  apply (wf_frame (update_zone z (with_ref Z.succ) st));
    [apply wf_update_ref; exact Hwf|reflexivity..| |].
  - apply (wf_unh _ (wf_update_ref _ z Z.succ Hwf)).
  - apply (wf_psd _ (wf_update_ref _ z Z.succ Hwf)).
Qed.

Lemma same_asap_state cb args st :
  promises (asap_state cb args st) = promises st /\
  callLog (asap_state cb args st) = callLog st /\
  zones (asap_state cb args st) = zones st.
Proof. unfold asap_state. destruct (needsNewPhysicalTick st); auto. Qed.

Lemma unhandled_asap_state cb args st :
  unhandledErrors (asap_state cb args st) = unhandledErrors st.
Proof. unfold asap_state. destruct (needsNewPhysicalTick st); reflexivity. Qed.

(** The statement of the induction: with [k] promises pending at most, a
    call of a capability of [q] returns, and settles [q] when it was
    pending. *)
Definition settles (ufun : nat -> list Value -> list Value -> Prog) (k : nat) : Prop :=
  forall n st q (s : bool) v,
    wf st -> heap_ok st -> (pending (promises st) <= k)%nat ->
    (q < length (promises st))%nat ->
    (s = true -> is_thenable v = false) ->
    (k + length (zones st) <= n)%nat ->
    exists st',
      call ufun (S n) (if s then FResolve q else FReject q) [v] st
      = Some (Normal VUndefined, st') /\
      cascade st st' /\
      (forall r, promises st !! q = Some r -> _state r = None ->
                 exists r', promises st' !! q = Some r' /\
                            _state r' = Some s /\ _value r' = v).

Lemma cascade_forEach ufun k n q (s : bool) v :
  settles ufun k ->
  (s = true -> is_thenable v = false) ->
  forall ls st,
    (forall l, l ∈ ls -> listener_ok (length (promises st)) l) ->
    wf st -> heap_ok st -> (pending (promises st) <= k)%nat ->
    (exists r, promises st !! q = Some r /\ _state r = Some s /\ _value r = v) ->
    (S k + length (zones st) <= n)%nat ->
    exists st',
      forEach ls (fun l => propagateToListener (call ufun n) q l ;;; ret tt) st
      = Some (Normal tt, st') /\
      cascade st st'.
Proof.
  intros IH Hv. induction ls as [|l ls IHls]; intros st Hls Hwf Hh Hk Hq Hn.
  - exists st. split; [reflexivity|]. apply cascade_refl; auto.
  - destruct Hq as (r & Hq & Hs & Hval).
    assert (Hstep : exists st1,
               propagateToListener (call ufun n) q l st = Some (Normal VUndefined, st1) /\
               cascade st st1).
    { destruct (strict_eq (if s then l_onFulfilled l else l_onRejected l) VNull) eqn:Ecb.
      - unfold propagateToListener.
        rewrite (run_bind _ _ _ _ _ (run_getPromise _ _ _ Hq)). rewrite Hs, Ecb, Hval.
        destruct (Hls l ltac:(left)) as (d & d' & Hr1 & Hr2 & Hd & Hd').
        rewrite Hr1, Hr2. destruct n as [|n]; [lia|].
        destruct (IH n st (if s then d else d') s v Hwf Hh Hk) as (st1 & Hrun & Hc & _);
          [destruct s; auto | exact Hv | lia |].
        exists st1. split; [|exact Hc].
        cbn [callValue]. destruct s; exact Hrun.
      - rewrite (run_propagateToListener_schedule _ st q l r s Hwf Hq Hs Ecb).
        eexists. split; [reflexivity|].
        destruct (same_asap_state FCallListener
                    [if s then l_onFulfilled l else l_onRejected l; VPromise q; VListener l]
                    (set_numScheduledCalls Z.succ
                       (update_zone (l_psd l) (with_ref Z.succ) st))) as (E1 & E2 & E3).
        apply cascade_frame; auto.
        + apply wf_schedule. exact Hwf.
        + rewrite E3. cbn. apply length_update_zone. }
    destruct Hstep as (st1 & Hrun1 & Hc1).
    destruct (IHls st1) as (st' & Hrun' & Hc').
    + intros l' Hl'. rewrite (c_length _ _ Hc1). apply Hls. right. exact Hl'.
    + apply Hc1.
    + apply Hc1.
    + pose proof (c_pending _ _ Hc1). lia.
    + destruct (c_stable _ _ Hc1 q r Hq) as (r' & Hq' & Hs' & Hv'); [congruence|].
      exists r'. conjs; congruence.
    + rewrite (c_zones _ _ Hc1). exact Hn.
    + exists st'. split; [|eapply cascade_trans; eauto].
      cbn [forEach]. erewrite run_bind; [exact Hrun'|].
      rewrite (run_bind _ _ _ _ _ Hrun1). reflexivity.
Qed.

Lemma cascade_update_promise st q f r :
  wf st -> heap_ok st -> promises st !! q = Some r ->
  _PSD (f r) = _PSD r -> _lib (f r) = _lib r ->
  (forall l, l ∈ _listeners (f r) -> l ∈ _listeners r) ->
  (_state r = None \/ (_state (f r) = _state r /\ _value (f r) = _value r)) ->
  (_state (f r) = Some true -> is_thenable (_value (f r)) = false) ->
  (is_pending (f r) = true -> is_pending r = true) ->
  cascade st (update_promise q f st).
Proof.
  intros Hwf Hh Hq Hpsd Hlib Hls Hst Hval Hpend.
  assert (Hp : promises (update_promise q f st) = <[q := f r]> (promises st)).
  { unfold update_promise. cbn. rewrite Hq. reflexivity. }
  constructor.
  - apply (wf_frame st); auto.
    + intros x Hx. rewrite length_update_promise. apply (wf_unh _ Hwf). exact Hx.
    + intros p r0 Hp0. rewrite lookup_update_promise in Hp0.
      destruct (decide (q = p)) as [->|]; [|eapply (wf_psd _ Hwf); eauto].
      rewrite Hq in Hp0. cbn in Hp0. inversion Hp0; subst.
      rewrite Hpsd. eapply (wf_psd _ Hwf); eauto.
  - apply heap_ok_update_promise; auto.
    intros r0 Hr0 [H1 H2 H3]. assert (r0 = r) by congruence. subst r0.
    constructor; auto. congruence.
  - intros p r0 Hp0 Hs0. rewrite lookup_update_promise.
    destruct (decide (q = p)) as [->|]; [|eauto].
    rewrite Hp0. cbn. exists (f r0). assert (r0 = r) by congruence. subst r0.
    destruct Hst as [Hst|[Hst1 Hst2]]; [congruence|auto].
  - pose proof (pending_update_promise st q f r Hq) as He.
    destruct (is_pending (f r)) eqn:E1, (is_pending r) eqn:E2; try lia.
  - apply length_update_promise.
  - reflexivity.
  - reflexivity.
Qed.

Lemma cascade_propagateAll ufun k n q r (s : bool) :
  settles ufun k ->
  forall st,
    wf st -> heap_ok st -> (pending (promises st) <= k)%nat ->
    promises st !! q = Some r -> _state r = Some s ->
    (S k + length (zones st) <= n)%nat ->
    exists st',
      propagateAllListeners (call ufun n) q st = Some (Normal tt, st') /\
      cascade st st'.
Proof.
  intros IH st Hwf Hh Hk Hq Hs Hn. unfold propagateAllListeners.
  rewrite (run_bind _ _ _ _ _ (run_getPromise _ _ _ Hq)). rewrite run_modify.
  set (st1 := update_promise q (with_listeners []) st).
  assert (Hc1 : cascade st st1).
  { apply (cascade_update_promise st q _ r); auto.
    - intros l Hl. inversion Hl.
    - intros Hs'. apply (ok_value _ _ (Hh q r Hq)). exact Hs'. }
  assert (Hq1 : promises st1 !! q = Some (with_listeners [] r))
    by (apply lookup_update_promise_eq; exact Hq).
  destruct (cascade_forEach ufun k n q s (_value r) IH) with (ls := _listeners r) (st := st1)
    as (st2 & Hrun2 & Hc2).
  - intros ->. apply (ok_value _ _ (Hh q r Hq)). exact Hs.
  - intros l Hl. rewrite (c_length _ _ Hc1). apply (ok_listeners _ _ (Hh q r Hq)). exact Hl.
  - apply Hc1.
  - apply Hc1.
  - pose proof (c_pending _ _ Hc1). lia.
  - exists (with_listeners [] r). conjs; auto.
  - rewrite (c_zones _ _ Hc1). exact Hn.
  - rewrite (run_bind _ _ _ _ _ Hrun2).
    assert (Hc12 : cascade st st2) by (eapply cascade_trans; eauto).
    assert (Hwf2 : wf st2) by apply Hc2.
    assert (Hlt : (_PSD r < length (zones st2))%nat).
    { rewrite (c_zones _ _ Hc12). eapply (wf_psd _ Hwf); eauto. }
    destruct (lookup_lt_is_Some_2 (zones st2) (_PSD r) Hlt) as (zr & Hz).
    destruct (release_spec ufun n (_PSD r) st2 zr Hwf2 Hz)
      as (zs' & chain & h & Hrun & Hv & _).
    { rewrite (c_zones _ _ Hc12) in Hlt. lia. }
    rewrite (run_bind _ _ _ _ _ Hrun). rewrite run_gets.
    set (st3 := zone_step zs' (finalizeLog st2 ++ chain) h st2).
    assert (Hwf3 : wf st3) by (apply wf_zone_step; auto).
    assert (Hlen : length zs' = length (zones st2)).
    { rewrite <- (length_map zone_view zs'), Hv. apply length_map. }
    assert (Hc3 : cascade st2 st3).
    { apply cascade_frame; auto. apply Hc2. }
    destruct (numScheduledCalls st3 =? 0); unfold when.
    + rewrite run_modify.
      assert (Hwf4 : wf (set_numScheduledCalls Z.succ st3))
        by (destruct Hwf3; constructor; auto).
      rewrite (run_asap _ _ _ Hwf4). eexists. split; [reflexivity|].
      eapply cascade_trans; [exact Hc12|]. eapply cascade_trans; [exact Hc3|].
      destruct (same_asap_state FTickDec [] (set_numScheduledCalls Z.succ st3))
        as (E1 & E2 & E3).
      apply cascade_frame; auto.
      * apply wf_asap. exact Hwf4.
      * apply Hc3.
      * rewrite E3. reflexivity.
    + exists st3. split; [reflexivity|].
      eapply cascade_trans; [exact Hc12|exact Hc3].
Qed.

Lemma pending_pos ps q r :
  ps !! q = Some r -> _state r = None -> (0 < pending ps)%nat.
Proof.
  intros Hq Hs.
  pose proof (pending_insert ps q r (with_settled true VUndefined r) Hq) as H.
  unfold is_pending in H. rewrite Hs in H. cbn in H. lia.
Qed.

Lemma run_addPossiblyUnhandledError st q r :
  wf st -> promises st !! q = Some r ->
  exists st',
    addPossiblyUnhandledError q st = Some (Normal tt, st') /\
    wf st' /\ promises st' = promises st /\ callLog st' = callLog st /\
    zones st' = zones st.
Proof.
  intros Hwf Hq. unfold addPossiblyUnhandledError.
  rewrite (run_bind _ _ _ _ _ (run_getPromise _ _ _ Hq)). rewrite run_gets.
  destruct (existsb _ _); cbn [negb when].
  - exists st. conjs; auto.
  - eexists. conjs; try reflexivity.
    apply (wf_frame st); auto.
    + intros x Hx. cbn in Hx. apply elem_of_app in Hx as [Hx|Hx].
      * apply (wf_unh _ Hwf). exact Hx.
      * apply list_elem_of_singleton in Hx. subst x. cbn.
        eapply lookup_lt_Some; eauto.
    + apply (wf_psd _ Hwf).
Qed.

Lemma cascade_settle_step ufun k :
  (forall k', k = S k' -> settles ufun k') -> settles ufun k.
Proof.
  intros IH n st q s v Hwf Hh Hk Hq Hv Hn.
  destruct (lookup_lt_is_Some_2 _ _ Hq) as (r & Hr).
  destruct (_state r) as [s0|] eqn:Es.
  - (* settled already *)
    destruct s.
    + exists st. split; [|split].
      * rewrite call_S. cbn [dispatch]. rewrite arg_0. unfold resolveFn.
        rewrite (run_bind _ _ _ _ _ (run_getPromise _ _ _ Hr)). rewrite Es. reflexivity.
      * apply cascade_refl; auto.
      * intros r0 Hr0 Hs0. congruence.
    + exists (set_rejectingErrors (fun l => l ++ [v]) st). split; [|split].
      * rewrite call_S. cbn [dispatch]. rewrite arg_0.
        erewrite run_bind; [reflexivity|].
        unfold handleRejection. rewrite run_modify.
        erewrite run_bind; [|apply run_getPromise; exact Hr]. rewrite Es. reflexivity.
      * apply cascade_frame; auto. destruct Hwf; constructor; auto.
      * intros r0 Hr0 Hs0. cbn in Hr0. congruence.
  - (* pending *)
    destruct k as [|k]; [pose proof (pending_pos _ _ _ Hr Es); lia|].
    specialize (IH k eq_refl).
    assert (Hlib : _lib r = false) by apply (ok_lib _ _ (Hh q r Hr)).
    assert (Hsettle : forall st0,
               wf st0 -> heap_ok st0 -> promises st0 = promises st ->
               callLog st0 = callLog st -> zones st0 = zones st ->
               cascade st (update_promise q (with_settled s v) st0) /\
               (pending (promises (update_promise q (with_settled s v) st0)) <= k)%nat).
    { intros st0 Hwf0 Hh0 Ep Ec Ez.
      assert (Hr0 : promises st0 !! q = Some r) by (rewrite Ep; exact Hr).
      assert (Hc0 : cascade st st0) by (apply cascade_frame; auto; rewrite Ez; reflexivity).
      assert (Hc : cascade st0 (update_promise q (with_settled s v) st0)).
      { apply (cascade_update_promise st0 q _ r); auto.
        - cbn. intros [= ->]. auto.
        - discriminate. }
      split; [eapply cascade_trans; eauto|].
      pose proof (pending_update_promise st0 q (with_settled s v) r Hr0) as He.
      unfold is_pending in He. rewrite Es in He. cbn [_state with_settled] in He.
      rewrite <- Ep in Hk. lia. }
    destruct s.
    + destruct (Hsettle st Hwf Hh eq_refl eq_refl eq_refl) as (Hc1 & Hk1).
      set (st1 := update_promise q (with_settled true v) st) in *.
      assert (Hq1 : promises st1 !! q = Some (with_settled true v r))
        by (apply lookup_update_promise_eq; exact Hr).
      destruct (cascade_propagateAll ufun k n q (with_settled true v r) true IH st1) as (st' & Hrun & Hc');
        [apply Hc1 | apply Hc1 | exact Hk1 | exact Hq1 | reflexivity
        | rewrite (c_zones _ _ Hc1); exact Hn |].
      exists st'. split; [|split].
      * rewrite call_S. cbn [dispatch]. rewrite arg_0. unfold resolveFn.
        rewrite (run_bind _ _ _ _ _ (run_getPromise _ _ _ Hr)). rewrite Es, Hlib, (Hv eq_refl).
        replace (strict_eq v (VPromise q)) with false
          by (destruct v; try reflexivity; specialize (Hv eq_refl); discriminate).
        rewrite run_ret.
        erewrite run_bind; [reflexivity|].
        rewrite run_modify. fold st1. rewrite Hrun. reflexivity.
      * eapply cascade_trans; eauto.
      * intros r0 Hr0 Hs0.
        destruct (c_stable _ _ Hc' q _ Hq1) as (r' & Hq' & Hs' & Hv'); [discriminate|].
        exists r'. conjs; auto.
    + set (st0 := set_rejectingErrors (fun l => l ++ [v]) st).
      assert (Hwf0 : wf st0) by (destruct Hwf; constructor; auto).
      destruct (Hsettle st0 Hwf0 Hh eq_refl eq_refl eq_refl) as (Hc1 & Hk1).
      set (st1 := update_promise q (with_settled false v) st0) in *.
      assert (Hq1 : promises st1 !! q = Some (with_settled false v r))
        by (apply lookup_update_promise_eq; exact Hr).
      destruct (run_addPossiblyUnhandledError st1 q _ (c_wf _ _ Hc1) Hq1)
        as (st2 & Hrun2 & Hwf2 & Hp2 & Hcl2 & Hz2).
      assert (Hc2 : cascade st1 st2).
      { apply cascade_frame; auto; [apply Hc1 | rewrite Hz2; reflexivity]. }
      destruct (cascade_propagateAll ufun k n q (with_settled false v r) false IH st2) as (st' & Hrun & Hc');
        [apply Hc2 | apply Hc2 | rewrite Hp2; exact Hk1 | rewrite Hp2; exact Hq1 | reflexivity
        | rewrite (c_zones _ _ Hc2), (c_zones _ _ Hc1); exact Hn |].
      exists st'. split; [|split].
      * rewrite call_S. cbn [dispatch]. rewrite arg_0.
        erewrite run_bind; [reflexivity|].
        unfold handleRejection. rewrite run_modify. fold st0.
        rewrite (run_bind _ _ st0 _ _ (run_getPromise q st0 r Hr)). rewrite Es, Hlib.
        rewrite run_ret. unfold rejectionMapper, mirror. rewrite run_modify. fold st1.
        rewrite (run_bind _ _ _ _ _ Hrun2). rewrite (run_bind _ _ _ _ _ Hrun).
        reflexivity.
      * eapply cascade_trans; [exact Hc1|]. eapply cascade_trans; eauto.
      * intros r0 Hr0 Hs0.
        destruct (c_stable _ _ (cascade_trans _ _ _ Hc2 Hc') q _ Hq1)
          as (r' & Hq' & Hs' & Hv'); [discriminate|].
        exists r'. conjs; auto.
Qed.

Lemma cascade_settle ufun k : settles ufun k.
Proof.
  induction k as [|k IH]; apply cascade_settle_step; intros k' E.
  - discriminate.
  - injection E as <-. exact IH.
Qed.

(** ** C8: Promise.resolve on a promise, and adoption of a fulfilled promise *)

Lemma run_propagateToListener_direct call st promise listener r s :
  promises st !! promise = Some r -> _state r = Some s ->
  (if s then l_onFulfilled listener else l_onRejected listener) = VNull ->
  propagateToListener call promise listener st =
  callValue call (if s then l_resolve listener else l_reject listener) [_value r] st.
Proof.
  intros Hp Hs Hcb. unfold propagateToListener.
  rewrite (run_bind _ _ _ _ _ (run_getPromise _ _ _ Hp)). rewrite Hs, Hcb.
  reflexivity.
Qed.

(** Resolving a pending promise [q] with a settled core promise [p]: [q]
    takes the outcome of [p] at once, and so do the promises waiting for
    [q]. *)
Lemma run_resolve_with_settled ufun n st q rq p rp (s : bool) v :
  wf st -> heap_ok st ->
  promises st !! q = Some rq -> _state rq = None ->
  promises st !! p = Some rp -> _state rp = Some s -> _value rp = v ->
  (length (promises st) + length (zones st) + 3 <= n)%nat ->
  exists st' rq',
    call ufun n (FResolve q) [VPromise p] st = Some (Normal VUndefined, st') /\
    cascade st st' /\
    promises st' !! q = Some rq' /\ _state rq' = Some s /\ _value rq' = v.
Proof.
  intros Hwf Hh Hq Hsq Hp Hsp Hvp Hn.
  destruct n as [|[|[|n]]]; try lia.
  assert (Hne : Nat.eqb p q = false).
  { apply Nat.eqb_neq. intros ->. congruence. }
  assert (Hlib : _lib rq = false) by apply (ok_lib _ _ (Hh q rq Hq)).
  destruct (cascade_settle ufun (length (promises st)) n st q s v)
    as (st' & Hrun & Hc & Hset); auto.
  { apply pending_le_length. }
  { eapply lookup_lt_Some; eauto. }
  { intros ->. subst v. apply (ok_value _ _ (Hh p rp Hp)). exact Hsp. }
  { lia. }
  destruct (Hset rq Hq Hsq) as (rq' & Hq' & Hs' & Hv').
  exists st', rq'. conjs; auto.
  rewrite call_S. cbn [dispatch]. rewrite arg_0. unfold resolveFn.
  rewrite (run_bind _ _ _ _ _ (run_getPromise _ _ _ Hq)). rewrite Hsq, Hlib.
  cbn [strict_eq same_value is_thenable]. rewrite Hne, run_ret.
  erewrite run_bind; [reflexivity|].
  unfold executePromiseTask. apply run_try_catch_normal.
  erewrite run_bind; [reflexivity|].
  unfold callValue. rewrite call_S. cbn [dispatch]. rewrite arg_0, arg_1.
  unfold adopt. erewrite run_bind; [reflexivity|].
  unfold _then. rewrite run_gets.
  erewrite run_propagateToListener_direct;
    [|exact Hp|exact Hsp|destruct s; reflexivity].
  rewrite Hvp. unfold callValue.
  destruct s; cbn [l_resolve l_reject newListener]; exact Hrun.
Qed.

(** C8.  resolved(p) applied to a core promise p returns p itself (the
    identical object, and nothing else happens); and resolving a pending
    promise q with an already-fulfilled core promise p makes q fulfilled
    with the value of p, at once.  The heap is one that the engine builds
    without library-flagged promises: listeners hold resolving functions of
    promises, and no promise is fulfilled with a thenable (the resolving
    function adopts thenables instead of storing them). *)
Theorem resolve_adopts_fulfilled :
  (forall call fuel p st,
      PromiseResolve call fuel (VPromise p) st = Some (Normal (VPromise p), st)) /\
  (forall ufun n st q rq p rp v,
      wfb st = true -> heap_okb st = true ->
      promises st !! q = Some rq -> _state rq = None ->
      promises st !! p = Some rp -> _state rp = Some true -> _value rp = v ->
      (length (promises st) + length (zones st) + 3 <= n)%nat ->
      exists st' rq',
        call ufun n (FResolve q) [VPromise p] st = Some (Normal VUndefined, st') /\
        promises st' !! q = Some rq' /\
        _state rq' = Some true /\ _value rq' = v).
Proof.
  split; [reflexivity|].
  intros ufun n st q rq p rp v Hwf Hh Hq Hsq Hp Hsp Hvp Hn.
  apply wfb_sound in Hwf. apply heap_okb_sound in Hh.
  destruct (run_resolve_with_settled ufun n st q rq p rp true v Hwf Hh Hq Hsq Hp Hsp Hvp Hn)
    as (st' & rq' & Hrun & _ & Hq' & Hs' & Hv').
  exists st', rq'. auto.
Qed.

(** ** The end of a listener call *)

Lemma run_forEach_unhandled st0 errs : forall st,
    promises st = promises st0 ->
    (forall q, q ∈ errs -> (q < length (promises st0))%nat) ->
    exists h,
      forEach errs (fun p => r <- getPromise p ;; globalError (_value r) p) st =
      Some (Normal tt, set_hostEvents (fun _ => h) st).
Proof.
  induction errs as [|q errs IH]; intros st Hp Hall; cbn [forEach].
  - exists (hostEvents st). destruct st; reflexivity.
  - destruct (lookup_lt_is_Some_2 (promises st) q) as (r & Hr).
    { rewrite Hp. apply Hall. left. }
    rewrite (run_bind _ _ st tt (set_hostEvents (fun l => l ++ [(_value r, q)]) st)).
    2:{ rewrite (run_bind _ _ _ _ _ (run_getPromise _ _ _ Hr)). reflexivity. }
    destruct (IH (set_hostEvents (fun l => l ++ [(_value r, q)]) st)) as (h & Hh);
      [exact Hp | intros x Hx; apply Hall; right; exact Hx |].
    exists h. rewrite Hh. reflexivity.
Qed.

(** finalizePhysicalTick, without tick finalizers: the unhandled list is
    emptied into events of the host. *)
Lemma run_finalizePhysicalTick call st :
  wf st ->
  exists h,
    finalizePhysicalTick call st =
    Some (Normal tt, set_hostEvents (fun _ => h) (set_unhandledErrors (fun _ => []) st)).
Proof.
  intros Hwf. unfold finalizePhysicalTick. rewrite run_gets, run_modify.
  destruct (run_forEach_unhandled st (unhandledErrors st)
              (set_unhandledErrors (fun _ => []) st) eq_refl (wf_unh _ Hwf))
    as (h & Hh).
  exists h. rewrite (run_bind _ _ _ _ _ Hh). rewrite run_gets.
  cbn [tickFinalizers set_hostEvents set_unhandledErrors].
  rewrite (wf_fin _ Hwf). reflexivity.
Qed.

(** The finally block of callListener. *)
Definition listenerEpilogue (call : Fn -> list Value -> M Value) (psd : nat) : M unit :=
  modify (set_currentFulfiller (fun _ => None)) ;;;
  modify (set_numScheduledCalls Z.pred) ;;;
  n <- gets numScheduledCalls ;;
  when (n =? 0) (finalizePhysicalTick call) ;;;
  releaseRef call psd.

Lemma run_listenerEpilogue ufun n st psd :
  wf st -> (psd < length (zones st))%nat -> (psd < n)%nat ->
  exists st',
    listenerEpilogue (call ufun n) psd st = Some (Normal tt, st') /\
    promises st' = promises st /\ callLog st' = callLog st /\ wf st'.
Proof.
  intros Hwf Hpsd Hn. unfold listenerEpilogue. rewrite !run_modify, run_gets.
  set (st1 := set_numScheduledCalls Z.pred (set_currentFulfiller (fun _ => None) st)).
  assert (Hwf1 : wf st1) by (destruct Hwf; constructor; auto).
  assert (Hfin : exists st2,
             when (numScheduledCalls st1 =? 0) (finalizePhysicalTick (call ufun n)) st1
             = Some (Normal tt, st2) /\
             promises st2 = promises st /\ callLog st2 = callLog st /\ wf st2 /\
             zones st2 = zones st).
  { destruct (numScheduledCalls st1 =? 0); unfold when.
    - destruct (run_finalizePhysicalTick (call ufun n) st1 Hwf1) as (h & Hh).
      eexists. split; [exact Hh|]. conjs; try reflexivity.
      apply (wf_frame st1); auto.
      + intros q Hq. inversion Hq.
      + apply (wf_psd _ Hwf1).
    - exists st1. conjs; auto. }
  destruct Hfin as (st2 & Hrun2 & Hp2 & Hc2 & Hwf2 & Hz2).
  rewrite (run_bind _ _ _ _ _ Hrun2).
  destruct (lookup_lt_is_Some_2 (zones st2) psd) as (zr & Hzr); [rewrite Hz2; exact Hpsd|].
  destruct (release_spec ufun n psd st2 zr Hwf2 Hzr Hn)
    as (zs' & chain & h & Hrun & Hv & _).
  rewrite Hrun. eexists. split; [reflexivity|]. conjs; auto.
  apply wf_zone_step; auto.
Qed.

(** callListener is its try/catch followed by the epilogue. *)
Lemma callListener_unfold call cb promise listener :
  callListener call cb promise listener =
  try_finally
    (try_catch
       (modify (set_currentFulfiller (fun _ => Some promise)) ;;;
        r <- getPromise promise ;;
        let value := _value r in
        ret_ <- match _state r with
                | Some true => callValue call cb [value]
                | _ =>
                    modify (set_rejectingErrors (fun _ => [])) ;;;
                    ret_ <- callValue call cb [value] ;;
                    rejecting <- gets rejectingErrors ;;
                    when (not_in_values value rejecting)
                         (markErrorAsHandled promise) ;;;
                    ret ret_
                end ;;
        callValue call (l_resolve listener) [ret_] ;;; ret tt)
       (fun e => callValue call (l_reject listener) [e] ;;; ret tt))
    (listenerEpilogue call (l_psd listener)).
Proof. reflexivity. Qed.

(** PromiseReject: a new promise, rejected from the start; the reason goes
    on the list of rejections in progress, and nowhere else. *)
Definition reject_state (reason : Value) (st : State) : State :=
  set_rejectingErrors (fun l => l ++ [reason])
    (set_promises (fun ps => ps ++ [mkPromise [] false (PSD st) (Some false) reason]) st).

Lemma run_PromiseReject call fuel reason st :
  PromiseReject call fuel reason st =
  Some (Normal (VPromise (length (promises st))), reject_state reason st).
Proof.
  unfold PromiseReject, newPromiseInternal.
  erewrite run_bind; [reflexivity|].
  rewrite run_gets, run_allocPromise. cbn [negb when].
  erewrite run_bind; [reflexivity|].
  unfold handleRejection. rewrite run_modify.
  erewrite run_bind; [|apply run_getPromise; cbn; apply list_lookup_middle; reflexivity].
  reflexivity.
Qed.

Lemma wf_reject_state reason st : wf st -> wf (reject_state reason st).
Proof.
  intros Hwf. unfold reject_state.
  apply (wf_frame (set_promises (fun ps => ps ++ [mkPromise [] false (PSD st) (Some false) reason]) st));
    try reflexivity.
  - apply wf_alloc; [exact Hwf|]. apply wf_PSD_lt, Hwf.
  - intros q Hq. cbn in *. rewrite length_app. cbn. pose proof (wf_unh _ Hwf q Hq). lia.
  - apply (wf_psd _ (wf_alloc st (mkPromise [] false (PSD st) (Some false) reason)
                         Hwf (wf_PSD_lt _ Hwf))).
Qed.

Lemma wf_markErrorAsHandled st p :
  wf st -> (p < length (promises st))%nat ->
  exists st',
    markErrorAsHandled p st = Some (Normal tt, st') /\
    promises st' = promises st /\ callLog st' = callLog st /\ wf st' /\
    zones st' = zones st.
Proof.
  intros Hwf Hp. destruct (lookup_lt_is_Some_2 _ _ Hp) as (r & Hr).
  unfold markErrorAsHandled.
  rewrite (run_bind _ _ _ _ _ (run_getPromise _ _ _ Hr)), run_gets. cbv [id].
  destruct (remove_last_match _ _) as [l|] eqn:E.
  - eexists. split; [reflexivity|]. conjs; try reflexivity.
    apply (wf_frame st); auto; [|apply (wf_psd _ Hwf)].
    intros q Hq. cbn in Hq. apply (wf_unh _ Hwf).
    destruct (remove_last_match_split _ _ _ E) as (l1 & x & l2 & -> & ->).
    apply elem_of_app in Hq as [Hq|Hq]; apply elem_of_app; [left|right; right]; auto.
  - exists st. conjs; auto.
Qed.

(** ** The downstream promise of a listener *)

(** What the completion [o] of a handler means for the downstream promise:
    a throw rejects it, a value that is not a thenable fulfils it, and a
    core promise that is already settled hands over its outcome. *)
Definition downstream (o : Outcome Value) (st : State) (s : bool) (v : Value) : Prop :=
  match o with
  | Throws e => s = false /\ v = e
  | Normal (VPromise p) =>
      exists r, promises st !! p = Some r /\ _state r = Some s /\ _value r = v
  | Normal w => is_thenable w = false /\ s = true /\ v = w
  end.

(** The capabilities of the downstream promise [rv], applied to the
    completion of a handler. *)
Definition settleDownstream (call : Fn -> list Value -> M Value) (rv : nat)
           (o : Outcome Value) : M Value :=
  match o with
  | Normal w => callValue call (VFn (FResolve rv)) [w]
  | Throws e => callValue call (VFn (FReject rv)) [e]
  end.

Lemma run_settleDownstream ufun n st rv rrv o s v :
  wf st -> heap_ok st -> promises st !! rv = Some rrv -> _state rrv = None ->
  downstream o st s v ->
  (length (promises st) + length (zones st) + 3 <= n)%nat ->
  exists st' rrv',
    settleDownstream (call ufun n) rv o st = Some (Normal VUndefined, st') /\
    cascade st st' /\
    promises st' !! rv = Some rrv' /\ _state rrv' = Some s /\ _value rrv' = v.
Proof.
  intros Hwf Hh Hrv Hs Hd Hn.
  assert (Hdirect : forall (s0 : bool) v0,
             (s0 = true -> is_thenable v0 = false) ->
             exists st' rrv',
               call ufun n (if s0 then FResolve rv else FReject rv) [v0] st
               = Some (Normal VUndefined, st') /\
               cascade st st' /\
               promises st' !! rv = Some rrv' /\ _state rrv' = Some s0 /\ _value rrv' = v0).
  { intros s0 v0 Hv0. destruct n as [|n]; [lia|].
    destruct (cascade_settle ufun (length (promises st)) n st rv s0 v0)
      as (st' & Hrun & Hc & Hset); auto.
    { apply pending_le_length. }
    { eapply lookup_lt_Some; eauto. }
    { lia. }
    destruct (Hset rrv Hrv Hs) as (rrv' & Hq' & Hs' & Hv').
    exists st', rrv'. conjs; auto. }
  destruct o as [w|e]; cbn [settleDownstream callValue].
  2:{ destruct Hd as [-> ->]. apply (Hdirect false e). discriminate. }
  destruct w; cbn [downstream] in Hd;
    try (destruct Hd as (Hw & -> & ->); apply (Hdirect true); intros _; exact Hw).
  destruct Hd as (r & Hp & Hsp & Hvp).
  eapply run_resolve_with_settled; eauto.
Qed.

(** The state in which callListener calls the handler: the promise being
    fulfilled is recorded, and for a rejection the list of rejections in
    progress starts empty. *)
Definition handler_entry (promise : nat) (s : option bool) (st : State) : State :=
  match s with
  | Some true => set_currentFulfiller (fun _ => Some promise) st
  | _ => set_rejectingErrors (fun _ => [])
           (set_currentFulfiller (fun _ => Some promise) st)
  end.

(** callListener, given the completion of the handler: the downstream
    promise [rv], still pending when the handler completes, is settled
    accordingly, and the call returns. *)
Lemma run_callListener ufun n st cb p rp rv rrv z a b o st1 s v :
  promises st !! p = Some rp ->
  callValue (call ufun n) cb [_value rp] (handler_entry p (_state rp) st)
  = Some (o, st1) ->
  wf st1 -> heap_ok st1 -> promises st1 !! rv = Some rrv -> _state rrv = None ->
  downstream o st1 s v ->
  (p < length (promises st1))%nat -> (z < length (zones st1))%nat ->
  (length (promises st1) + length (zones st1) + 3 <= n)%nat ->
  exists st' rrv',
    callListener (call ufun n) cb p
      (mkListener a b (VFn (FResolve rv)) (VFn (FReject rv)) z) st
    = Some (Normal tt, st') /\
    promises st' !! rv = Some rrv' /\ _state rrv' = Some s /\ _value rrv' = v /\
    callLog st' = callLog st1.
Proof.
  intros Hp Hcb Hwf1 Hh1 Hrv Hpend Hd Hplt Hz Hn.
  (* the handler, and for a rejection the check of rejectingErrors *)
  assert (Hmatch : exists st1',
             match _state rp with
             | Some true => callValue (call ufun n) cb [_value rp]
             | _ =>
                 modify (set_rejectingErrors (fun _ => [])) ;;;
                 ret_ <- callValue (call ufun n) cb [_value rp] ;;
                 rejecting <- gets rejectingErrors ;;
                 when (not_in_values (_value rp) rejecting) (markErrorAsHandled p) ;;;
                 ret ret_
             end (set_currentFulfiller (fun _ => Some p) st) = Some (o, st1') /\
             promises st1' = promises st1 /\ callLog st1' = callLog st1 /\
             wf st1' /\ zones st1' = zones st1).
  { assert (Hrej :
             callValue (call ufun n) cb [_value rp]
               (set_rejectingErrors (fun _ => [])
                  (set_currentFulfiller (fun _ => Some p) st)) = Some (o, st1) ->
             exists st1',
               (modify (set_rejectingErrors (fun _ => [])) ;;;
                ret_ <- callValue (call ufun n) cb [_value rp] ;;
                rejecting <- gets rejectingErrors ;;
                when (not_in_values (_value rp) rejecting) (markErrorAsHandled p) ;;;
                ret ret_) (set_currentFulfiller (fun _ => Some p) st) = Some (o, st1') /\
               promises st1' = promises st1 /\ callLog st1' = callLog st1 /\
               wf st1' /\ zones st1' = zones st1).
    { intros Hcb'. rewrite run_modify. destruct o as [w|e].
      + rewrite (run_bind _ _ _ _ _ Hcb'), run_gets.
        destruct (not_in_values _ _); cbn [when].
        * destruct (wf_markErrorAsHandled st1 p Hwf1 Hplt)
            as (st1' & Hrun & H1 & H2 & H3 & H4).
          exists st1'. rewrite (run_bind _ _ _ _ _ Hrun). conjs; auto.
        * exists st1. conjs; auto.
      + exists st1. rewrite (run_bind_throws _ _ _ _ _ Hcb'). conjs; auto. }
    destruct (_state rp) as [[|]|] eqn:Es; cbn [handler_entry] in Hcb.
    - exists st1. conjs; auto.
    - apply Hrej. exact Hcb.
    - apply Hrej. exact Hcb. }
  destruct Hmatch as (st1' & Hm & Hp1 & Hc1 & Hwf1' & Hz1).
  (* the downstream promise *)
  destruct (run_settleDownstream ufun n st1' rv rrv o s v)
    as (st2 & rrv2 & Hset & Hc2 & Hrv2 & Hs2 & Hv2);
    [exact Hwf1' | eapply heap_ok_frame; eauto | rewrite Hp1; exact Hrv | exact Hpend
    | | rewrite Hp1, Hz1; exact Hn |].
  { destruct o as [[]|]; cbn [downstream] in *; auto. rewrite Hp1. exact Hd. }
  (* the epilogue *)
  destruct (run_listenerEpilogue ufun n st2 z (c_wf _ _ Hc2)) as (st' & Hep & Hp3 & Hc3 & _);
    [rewrite (c_zones _ _ Hc2), Hz1; exact Hz
    | pose proof (c_zones _ _ Hc2) as Hz2; rewrite Hz1 in Hz2; lia |].
  exists st', rrv2. split; [|conjs; auto].
  - rewrite callListener_unfold. cbn [l_resolve l_reject l_psd].
    eapply run_try_finally; [|exact Hep].
    destruct o as [w|e]; cbn [settleDownstream] in Hset.
    + apply run_try_catch_normal. rewrite run_modify.
      rewrite (run_bind _ _ _ _ _
                 (run_getPromise p (set_currentFulfiller (fun _ => Some p) st) rp Hp)).
      cbv zeta.
      rewrite (run_bind _ _ _ _ _ Hm). rewrite (run_bind _ _ _ _ _ Hset). reflexivity.
    + erewrite run_try_catch_throws.
      * rewrite (run_bind _ _ _ _ _ Hset). reflexivity.
      * rewrite run_modify.
        rewrite (run_bind _ _ _ _ _
                   (run_getPromise p (set_currentFulfiller (fun _ => Some p) st) rp Hp)).
        cbv zeta.
        rewrite (run_bind_throws _ _ _ _ _ Hm). reflexivity.
  - rewrite Hp3. exact Hrv2.
  - rewrite Hc3, (c_callLog _ _ Hc2). exact Hc1.
Qed.

(** ** Handlers registered inside a zone *)

(** The state after switchToZone(target). *)
Definition zone_switch (target : nat) (st : State) : State :=
  match zones st !! target with
  | Some tr => set_protoThen (fun _ => env_dthen tr) (set_PSD (fun _ => target) st)
  | None => st
  end.

(** The states in which the function made by nativeAwaitCompatibleWrap
    calls the handler it wraps, and in which it returns. *)
Definition zone_enter (zone : nat) (possibleAwait : bool) (st : State) : State :=
  let st1 := zone_switch zone st in
  if possibleAwait
  then set_nativeMicrotasks (fun q => q ++ [FNativeEnter zone])
         (update_zone zone (with_ref Z.succ) st1)
  else st1.

Definition zone_leave (outerZone zone : nat) (possibleAwait : bool) (st : State) : State :=
  let st1 := zone_switch outerZone st in
  if possibleAwait
  then set_nativeMicrotasks (fun q => q ++ [FNativeLeave zone]) st1
  else st1.

(** States with the same promises, application history and zones up to
    counts and environments. *)
Definition same_heap (st st' : State) : Prop :=
  promises st' = promises st /\ callLog st' = callLog st /\
  length (zones st') = length (zones st).

Lemma run_switchToZone_lt st target :
  wf st -> (target < length (zones st))%nat ->
  switchToZone target st = Some (Normal tt, zone_switch target st).
Proof.
  intros Hwf Ht. destruct (lookup_lt_is_Some_2 _ _ Ht) as (tr & Htr).
  unfold zone_switch. rewrite Htr. apply run_switchToZone; auto.
Qed.

Lemma wf_zone_switch st target : wf st -> wf (zone_switch target st).
Proof.
  intros Hwf. unfold zone_switch.
  destruct (zones st !! target) eqn:E; [|exact Hwf]. eapply wf_switch; eauto.
Qed.

Lemma same_heap_zone_switch st target : same_heap st (zone_switch target st).
Proof. unfold zone_switch, same_heap. destruct (zones st !! target); auto. Qed.

Lemma wf_set_nativeMicrotasks st f : wf st -> wf (set_nativeMicrotasks f st).
Proof. intros []. constructor; auto. Qed.

Lemma wf_zone_enter st zone pa : wf st -> wf (zone_enter zone pa st).
Proof.
  intros Hwf. unfold zone_enter. destruct pa.
  - apply wf_set_nativeMicrotasks, wf_update_ref, wf_zone_switch, Hwf.
  - apply wf_zone_switch, Hwf.
Qed.

Lemma same_heap_zone_enter st zone pa : same_heap st (zone_enter zone pa st).
Proof.
  unfold zone_enter. destruct (same_heap_zone_switch st zone) as (H1 & H2 & H3).
  destruct pa; [|split; auto].
  split; [exact H1|]. split; [exact H2|].
  cbn [zones set_nativeMicrotasks]. rewrite length_update_zone. exact H3.
Qed.

Lemma wf_zone_leave st outer zone pa : wf st -> wf (zone_leave outer zone pa st).
Proof.
  intros Hwf. unfold zone_leave. destruct pa.
  - apply wf_set_nativeMicrotasks, wf_zone_switch, Hwf.
  - apply wf_zone_switch, Hwf.
Qed.

Lemma same_heap_zone_leave st outer zone pa : same_heap st (zone_leave outer zone pa st).
Proof.
  unfold zone_leave. destruct (same_heap_zone_switch st outer) as (H1 & H2 & H3).
  destruct pa; split; auto.
Qed.

Lemma PSD_zone_leave st outer zone pa :
  (outer < length (zones st))%nat -> PSD (zone_leave outer zone pa st) = outer.
Proof.
  intros Ho. destruct (lookup_lt_is_Some_2 _ _ Ho) as (r & Hr).
  unfold zone_leave, zone_switch. rewrite Hr. destruct pa; reflexivity.
Qed.

(** The function made by nativeAwaitCompatibleWrap: the handler runs
    between two zone switches, and its completion is the wrapper's. *)
Lemma run_zoneWrap call st h zone pa args o st1 :
  wf st -> (zone < length (zones st))%nat ->
  callValue call h args (zone_enter zone pa st) = Some (o, st1) ->
  wf st1 -> (PSD st < length (zones st1))%nat ->
  zoneWrapped call h zone pa args st = Some (o, zone_leave (PSD st) zone pa st1).
Proof.
  intros Hwf Hz Hcall Hwf1 Ho. unfold zoneWrapped.
  rewrite run_gets.
  rewrite (run_bind _ _ _ _ _ (run_switchToZone_lt _ _ Hwf Hz)).
  assert (Henter : when pa (incRef zone ;;; enqueueNativeMicroTask (FNativeEnter zone))
                     (zone_switch zone st)
                   = Some (Normal tt, zone_enter zone pa st)).
  { unfold zone_enter. destruct pa; reflexivity. }
  rewrite (run_bind _ _ _ _ _ Henter).
  eapply run_try_finally; [exact Hcall|].
  rewrite (run_bind _ _ _ _ _ (run_switchToZone_lt _ _ Hwf1 Ho)).
  unfold zone_leave. destruct pa; reflexivity.
Qed.

(** A handler as a listener holds it: the function [h] that [then] was
    given, or, when [then] was called inside a zone, [h] wrapped by
    nativeAwaitCompatibleWrap for that zone. *)
Definition registered_cb (h : Fn) (w : option (nat * bool)) : Value :=
  match w with
  | None => VFn h
  | Some (zone, possibleAwait) => VFn (FZoneWrap (VFn h) zone possibleAwait)
  end.

Definition registered_entry (w : option (nat * bool)) (st : State) : State :=
  match w with
  | None => st
  | Some (zone, possibleAwait) => zone_enter zone possibleAwait st
  end.

Definition registered_exit (w : option (nat * bool)) (outer : nat) (st : State) : State :=
  match w with
  | None => st
  | Some (zone, possibleAwait) => zone_leave outer zone possibleAwait st
  end.

Definition registered_depth (w : option (nat * bool)) : nat :=
  match w with None => 0 | Some _ => 1 end.

Definition registered_ok (w : option (nat * bool)) (st : State) : Prop :=
  match w with
  | None => True
  | Some (zone, _) => (zone < length (zones st))%nat
  end.

Lemma wf_registered_entry st w : wf st -> wf (registered_entry w st).
Proof. destruct w as [[z pa]|]; [apply wf_zone_enter | auto]. Qed.

Lemma same_heap_registered_entry st w : same_heap st (registered_entry w st).
Proof. destruct w as [[z pa]|]; [apply same_heap_zone_enter | repeat split]. Qed.

Lemma wf_registered_exit st w outer : wf st -> wf (registered_exit w outer st).
Proof. destruct w as [[z pa]|]; [apply wf_zone_leave | auto]. Qed.

Lemma same_heap_registered_exit st w outer : same_heap st (registered_exit w outer st).
Proof. destruct w as [[z pa]|]; [apply same_heap_zone_leave | repeat split]. Qed.

Lemma run_registered_cb ufun m st h w args o st1 :
  wf st -> registered_ok w st ->
  call ufun (S m) h args (registered_entry w st) = Some (o, st1) ->
  wf st1 -> (PSD st < length (zones st1))%nat ->
  callValue (call ufun (S m + registered_depth w)) (registered_cb h w) args st
  = Some (o, registered_exit w (PSD st) st1).
Proof.
  intros Hwf Hok Hcall Hwf1 Ho.
  destruct w as [[zone pa]|];
    cbn [registered_cb registered_entry registered_exit registered_depth
         registered_ok callValue] in *.
  - rewrite Nat.add_1_r. rewrite call_S. cbn [dispatch].
    apply run_zoneWrap; auto.
  - rewrite Nat.add_0_r. exact Hcall.
Qed.

(** What [then] registers is of that form: in a well-formed state the
    prototype's [then] is the original or the active zone's patch of it. *)
Lemma wrapHandler_registered st h :
  wf st ->
  exists w, wrapHandler (protoThen st) (PSD st) (nativePromiseThen st) (VFn h)
            = registered_cb h w /\ registered_ok w st.
Proof.
  intros Hwf. destruct (wf_proto _ Hwf) as (r & Hr & Hp).
  destruct (wf_env _ Hwf _ _ Hr) as [He|He]; rewrite Hp, He; cbn.
  - exists None. split; [reflexivity|exact I].
  - eexists (Some (_, _)). split; [reflexivity|]. cbn. eapply lookup_lt_Some; eauto.
Qed.

(** ** C6: catch with a filter *)

(** The function that catch(type, handler) gives to [then]. *)
Definition catchFn (type handler : Value) : Fn :=
  if is_function type then FCatchType type handler else FCatchName type handler.

(** Its test on the reason: [Some b] when the test evaluates to [b],
    [None] when it throws or depends on what the model does not record. *)
Definition catch_matches (type err : Value) : option bool :=
  if is_function type then
    match instanceOf err type with
    | IsInstance b => Some b
    | _ => None
    end
  else if truthy err then
    match name_of err with
    | Some name => Some (strict_eq name type)
    | None => None
    end
  else Some false.

(** err is an error object of class [k] or of a class derived from it. *)
Definition error_of_class (k : ErrClass) (err : Value) : bool :=
  match err with
  | VObj _ (Some c) _ _ => subclass c k
  | _ => false
  end.

Lemma strict_eq_str v name : strict_eq v (VStr name) = true <-> v = VStr name.
Proof.
  split.
  - destruct v; try discriminate. cbn. intros H. apply String.eqb_eq in H. congruence.
  - intros ->. cbn. apply String.eqb_refl.
Qed.

Lemma catch_matches_name name err :
  catch_matches (VStr name) err = Some true <->
  truthy err = true /\ name_of err = Some (VStr name).
Proof.
  unfold catch_matches. cbn [is_function]. split.
  - destruct (truthy err); [|discriminate].
    destruct (name_of err) as [nm|]; [|discriminate].
    intros [= H]. apply strict_eq_str in H. subst. auto.
  - intros [-> ->]. f_equal. apply strict_eq_str. reflexivity.
Qed.

Lemma catch_matches_no_name name err :
  catch_matches (VStr name) err = Some false <->
  truthy err = false \/ exists nm, name_of err = Some nm /\ nm <> VStr name.
Proof.
  unfold catch_matches. cbn [is_function]. split.
  - destruct (truthy err); [|auto].
    destruct (name_of err) as [nm|]; [|discriminate].
    intros [= H]. right. exists nm. split; [reflexivity|].
    intros ->. rewrite (proj2 (strict_eq_str _ _) eq_refl) in H. discriminate.
  - intros [->|(nm & -> & Hne)]; [reflexivity|].
    destruct (truthy err); [|reflexivity]. f_equal.
    destruct (strict_eq nm (VStr name)) eqn:E; [|reflexivity].
    apply strict_eq_str in E. contradiction.
Qed.

Lemma wrapHandler_not_function impl psd native h :
  is_function h = false -> wrapHandler impl psd native h = h.
Proof.
  revert h. induction impl as [|impl IH z]; intros h Hh; cbn; [reflexivity|].
  unfold nativeAwaitCompatibleWrap. rewrite Hh. apply IH. exact Hh.
Qed.

Lemma run_catchFn ufun n type handler err st b :
  catch_matches type err = Some b ->
  call ufun (S n) (catchFn type handler) [err] st
  = if b then callValue (call ufun n) handler [err] st
    else PromiseReject (call ufun n) n err st.
Proof.
  unfold catchFn, catch_matches. intros H. rewrite call_S.
  destruct (is_function type); cbn [dispatch]; rewrite arg_0;
    [unfold catchType | unfold catchName].
  - destruct (instanceOf err type) as [b'| |]; try discriminate.
    injection H as ->. destruct b; reflexivity.
  - destruct (truthy err).
    + destruct (name_of err) as [nm|]; [|discriminate].
      injection H as ->. destruct b; reflexivity.
    + injection H as <-. reflexivity.
Qed.

Lemma run_catchFn_match ufun n type handler err st :
  catch_matches type err = Some true ->
  call ufun (S n) (catchFn type handler) [err] st
  = callValue (call ufun n) handler [err] st.
Proof. intros H. apply (run_catchFn ufun n type handler err st true H). Qed.

Lemma run_catchFn_nomatch ufun n type handler err st :
  catch_matches type err = Some false ->
  call ufun (S n) (catchFn type handler) [err] st
  = Some (Normal (VPromise (length (promises st))), reject_state err st).
Proof.
  intros H. rewrite (run_catchFn ufun n type handler err st false H).
  apply run_PromiseReject.
Qed.

Lemma lookup_snoc_lt {A} (l : list A) x i :
  (i < length l)%nat -> (l ++ [x]) !! i = l !! i.
Proof. intros H. apply lookup_app_l. exact H. Qed.

(** C6.  For every rejected promise and every two-argument
    catch(filter, handler): the call registers, for the promise it returns,
    a listener whose rejection handler is the function catchFn (wrapped for
    the zone when catch is called inside one).  That function hands the
    reason to handler exactly when the filter matches ([catch_matches]):
    for an error constructor, when the reason is an error object of its
    class or of a class derived from it; for a string, when the reason is
    truthy and reason.name is that string.  When the filter does not match,
    the call of the listener runs no function of the application (so
    handler does not run) and leaves the returned promise rejected with the
    original reason, whoever waits for the returned promise already.  The
    test has no answer where instanceof throws (the filter is a function
    without a prototype object, as an arrow function, and the reason is an
    object) and where it reads a name that the model does not record; the
    last two parts say nothing there.  The heap of the last part is one
    that the engine builds without library-flagged promises
    ([heap_okb]). *)
Theorem catch_filter_dispatch :
  (* the test *)
  (forall c err, catch_matches (VClass c) err = Some (error_of_class c err)) /\
  (forall name err,
      (catch_matches (VStr name) err = Some true <->
       truthy err = true /\ name_of err = Some (VStr name)) /\
      (catch_matches (VStr name) err = Some false <->
       truthy err = false \/ exists nm, name_of err = Some nm /\ nm <> VStr name)) /\
  (* what catch registers on a rejected promise *)
  (forall ufun n fuel st this r type handler,
      wfb st = true ->
      promises st !! this = Some r -> _state r = Some false ->
      exists st' w,
        let rv := length (promises st) in
        let cb := registered_cb (catchFn type handler) w in
        catch_ (call ufun (S n)) fuel this [type; handler] st
        = Some (Normal (VPromise rv), st') /\
        registered_ok w st /\
        promises st' = promises st ++ [mkPromise [] false (PSD st) None VNull] /\
        microtickQueue st' =
          microtickQueue st ++
          [(FCallListener,
            [cb; VPromise this;
             VListener (mkListener VNull cb (VFn (FResolve rv)) (VFn (FReject rv))
                                   (PSD st))])]) /\
  (* a match: the registered function is the handler *)
  (forall ufun n type handler err st,
      catch_matches type err = Some true ->
      call ufun (S n) (catchFn type handler) [err] st
      = callValue (call ufun n) handler [err] st) /\
  (* no match: the returned promise is rejected with the same reason *)
  (forall ufun m st p rp rv rrv z a b type handler w,
      wfb st = true -> heap_okb st = true ->
      promises st !! p = Some rp -> _state rp = Some false ->
      promises st !! rv = Some rrv -> _state rrv = None ->
      (z < length (zones st))%nat -> registered_ok w st ->
      catch_matches type (_value rp) = Some false ->
      (length (promises st) + length (zones st) + 4
       <= S m + registered_depth w)%nat ->
      exists st' rrv',
        callListener (call ufun (S m + registered_depth w))
          (registered_cb (catchFn type handler) w) p
          (mkListener a b (VFn (FResolve rv)) (VFn (FReject rv)) z) st
        = Some (Normal tt, st') /\
        promises st' !! rv = Some rrv' /\
        _state rrv' = Some false /\ _value rrv' = _value rp /\
        callLog st' = callLog st).
Proof.
  split; [reflexivity|].
  split; [intros name err; split; [apply catch_matches_name|apply catch_matches_no_name]|].
  split; [|split; [apply run_catchFn_match|]].
  - intros ufun n fuel st this r type handler Hwf Hp Hs. apply wfb_sound in Hwf.
    destruct (wrapHandler_registered st (catchFn type handler) Hwf) as (w & Hw & Hok).
    exists (then_state this false VNull (registered_cb (catchFn type handler) w) st), w.
    cbv zeta.
    assert (Hrun : invokeThen (call ufun (S n)) fuel this VNull
                     (VFn (catchFn type handler)) st
                   = Some (Normal (VPromise (length (promises st))),
                           then_state this false
                             (wrapHandler (protoThen st) (PSD st) (nativePromiseThen st) VNull)
                             (wrapHandler (protoThen st) (PSD st) (nativePromiseThen st)
                                          (VFn (catchFn type handler))) st)).
    { unfold invokeThen. rewrite run_gets.
      eapply run_applyThen_handler; eauto. }
    rewrite wrapHandler_not_function, Hw in Hrun by reflexivity.
    split; [|split; [exact Hok|]].
    + rewrite <- Hrun. unfold catch_, catchFn. rewrite arg_0, arg_1.
      destruct (is_function type); reflexivity.
    + unfold then_state, asap_state.
      assert (Hf : is_function (registered_cb (catchFn type handler) w) = true)
        by (destruct w as [[]|]; reflexivity).
      unfold newListener. rewrite Hf. cbn [is_function l_onRejected].
      destruct (needsNewPhysicalTick _); cbn; split; reflexivity.
  - intros ufun m st p rp rv rrv z a b type handler w
           Hwf Hh Hp Hs Hrv Hpend Hz Hok Hno Hn.
    apply wfb_sound in Hwf. apply heap_okb_sound in Hh.
    set (st0 := handler_entry p (_state rp) st).
    assert (Hwf0 : wf st0).
    { unfold st0. rewrite Hs. cbn. destruct Hwf; constructor; auto. }
    set (st_in := registered_entry w st0).
    destruct (same_heap_registered_entry st0 w) as (Hp_in & Hc_in & Hz_in).
    fold st_in in Hp_in, Hc_in, Hz_in.
    assert (Hp0 : promises st0 = promises st) by (unfold st0; rewrite Hs; reflexivity).
    assert (Hc0 : callLog st0 = callLog st) by (unfold st0; rewrite Hs; reflexivity).
    assert (Hz0 : zones st0 = zones st) by (unfold st0; rewrite Hs; reflexivity).
    set (st_out := reject_state (_value rp) st_in).
    assert (Hwf_out : wf st_out).
    { apply wf_reject_state, wf_registered_entry, Hwf0. }
    set (st1 := registered_exit w (PSD st0) st_out).
    destruct (same_heap_registered_exit st_out w (PSD st0)) as (Hp1 & Hc1 & Hz1).
    fold st1 in Hp1, Hc1, Hz1.
    assert (Hps1 : promises st1 =
                   promises st ++ [mkPromise [] false (PSD st_in) (Some false) (_value rp)]).
    { rewrite Hp1. unfold st_out, reject_state. cbn. rewrite Hp_in, Hp0. reflexivity. }
    assert (Hzl1 : length (zones st1) = length (zones st)).
    { rewrite Hz1. unfold st_out, reject_state. cbn. rewrite Hz_in, Hz0. reflexivity. }
    assert (Hcb : callValue (call ufun (S m + registered_depth w))
                    (registered_cb (catchFn type handler) w) [_value rp] st0
                  = Some (Normal (VPromise (length (promises st))), st1)).
    { unfold st1. apply run_registered_cb; auto.
      - destruct w as [[]|]; cbn in *; [rewrite Hz0|]; auto.
      - fold st_in. rewrite run_catchFn_nomatch by exact Hno.
        rewrite Hp_in, Hp0. reflexivity.
      - unfold st_out, reject_state. cbn. rewrite Hz_in.
        apply wf_PSD_lt, Hwf0. }
    destruct (run_callListener ufun (S m + registered_depth w) st
                (registered_cb (catchFn type handler) w) p rp rv rrv z a b
                (Normal (VPromise (length (promises st)))) st1 false (_value rp))
      as (st' & rrv' & Hrun & Hrv' & Hs' & Hv' & Hc'); auto.
    + apply wf_registered_exit, Hwf_out.
    + eapply heap_ok_snoc; [exact Hh|exact Hps1|apply promise_ok_rejected].
    + rewrite Hps1, lookup_snoc_lt; [exact Hrv | eapply lookup_lt_Some; eauto].
    + cbn [downstream]. eexists. rewrite Hps1. split; [apply list_lookup_middle; reflexivity|].
      cbn. conjs; auto.
    + rewrite Hps1, length_app. apply lookup_lt_Some in Hp. lia.
    + rewrite Hzl1. exact Hz.
    + rewrite Hps1, length_app, Hzl1. cbn [length]. lia.
    + exists st', rrv'. conjs; auto.
      rewrite Hc', Hc1. unfold st_out, reject_state. cbn. rewrite Hc_in, Hc0.
      reflexivity.
Qed.

(** ** C7: finally *)

(** The application of the counterexample:
<<
    var rv = Promise.resolve(1).finally(() => { throw "boom"; });
>>
*)
Definition finally_app (i : nat) (env args : list Value) : Prog :=
  match i with
  | 0%nat => Throw (VStr "boom")
  | _ => Ret VUndefined
  end.

Definition finally_main : Prog :=
  Do (OResolve (VNum 1)) (fun p =>
  Do (OFinally p (VFn (FUser 0 []))) (fun rv => Ret rv)).

(** C7, as stated, fails: when the function given to finally throws, the
    promise returned by finally is rejected with what was thrown, not
    settled with the outcome of the original promise (here: fulfilled with
    1). *)
Lemma finally_throwing_fn_changes_outcome :
  exists st1 st2 r,
    run (call finally_app 10) 10 finally_main initial
    = Some (Normal (VPromise 1), st1) /\
    call finally_app 10 FPhysicalTick [] st1 = Some (Normal VUndefined, st2) /\
    promises st2 !! 1%nat = Some r /\
    _state r = Some false /\ _value r = VStr "boom".
Proof.
  eexists _, _, _.
  split; [vm_compute; reflexivity|].
  split; [vm_compute; reflexivity|].
  split; [vm_compute; reflexivity|].
  split; reflexivity.
Qed.

(** The function that finally gives to [then] for outcome [s]. *)
Definition finallyFn (s : bool) (onFinally : Value) : Fn :=
  if s then FFinallyOk onFinally else FFinallyErr onFinally.

Lemma not_thenable_downstream w st :
  is_thenable w = false -> downstream (Normal w) st true w.
Proof. destruct w; cbn; auto; discriminate. Qed.

Lemma downstream_same_promises o st st' s v :
  promises st' = promises st -> downstream o st s v -> downstream o st' s v.
Proof. intros E. destruct o as [[]|]; cbn; auto. rewrite E. auto. Qed.

(** C7, amended.  For every promise p and every callable fn, p.finally(fn)
    registers, for the promise it returns, a listener whose handlers call
    fn (without arguments) on either settlement of p.  When that call of fn
    returns normally, the promise returned by finally settles with p's
    original outcome: the same fulfillment value, or a rejection with the
    same reason (finally does not consume a rejection); what fn returns is
    ignored.  When the call of fn throws, the promise returned by finally is
    rejected with what fn threw instead.  The promise returned by finally is
    still pending when fn completes, whoever waits for it already, in a heap
    that fn leaves as the engine builds it without library-flagged promises
    ([heap_okb]). *)
Theorem finally_forwards_outcome :
  (* the registered functions call onFinally *)
  (forall ufun n fn value st,
      call ufun (S n) (FFinallyOk fn) [value] st
      = (callValue (call ufun n) fn [] ;;; ret value) st) /\
  (forall ufun n fn err st,
      call ufun (S n) (FFinallyErr fn) [err] st
      = (callValue (call ufun n) fn [] ;;; PromiseReject (call ufun n) n err) st) /\
  (* what finally registers on a settled promise *)
  (forall ufun n fuel st this r s fn,
      wfb st = true ->
      promises st !! this = Some r -> _state r = Some s ->
      exists st' w,
        let rv := length (promises st) in
        finally_ (call ufun (S n)) fuel this fn st
        = Some (Normal (VPromise rv), st') /\
        registered_ok w st /\
        promises st' = promises st ++ [mkPromise [] false (PSD st) None VNull] /\
        microtickQueue st' =
          microtickQueue st ++
          [(FCallListener,
            [registered_cb (finallyFn s fn) w; VPromise this;
             VListener (mkListener (registered_cb (FFinallyOk fn) w)
                                   (registered_cb (FFinallyErr fn) w)
                                   (VFn (FResolve rv)) (VFn (FReject rv)) (PSD st))])]) /\
  (* the call of the listener *)
  (forall ufun m st p rp s v rv rrv z a b fn w oc st2,
      wfb st = true ->
      promises st !! p = Some rp -> _state rp = Some s -> _value rp = v ->
      (s = true -> is_thenable v = false) ->
      registered_ok w st ->
      callValue (call ufun m) fn []
        (registered_entry w (handler_entry p (Some s) st)) = Some (oc, st2) ->
      wfb st2 = true -> heap_okb st2 = true ->
      promises st2 !! rv = Some rrv -> _state rrv = None ->
      (p < length (promises st2))%nat ->
      (z < length (zones st2))%nat -> (PSD st < length (zones st2))%nat ->
      (length (promises st2) + length (zones st2) + 4
       <= S m + registered_depth w)%nat ->
      exists st' rrv',
        callListener (call ufun (S m + registered_depth w))
          (registered_cb (finallyFn s fn) w) p
          (mkListener a b (VFn (FResolve rv)) (VFn (FReject rv)) z) st
        = Some (Normal tt, st') /\
        promises st' !! rv = Some rrv' /\
        match oc with
        | Normal _ => _state rrv' = Some s /\ _value rrv' = v
        | Throws e => _state rrv' = Some false /\ _value rrv' = e
        end /\
        callLog st' = callLog st2).
Proof.
  split; [reflexivity|]. split; [reflexivity|]. split.
  - intros ufun n fuel st this r s fn Hwf Hp Hs. apply wfb_sound in Hwf.
    destruct (wf_proto _ Hwf) as (zr & Hzr & Hproto).
    assert (Hw : exists w,
               registered_ok w st /\
               forall h, wrapHandler (protoThen st) (PSD st) (nativePromiseThen st) (VFn h)
                         = registered_cb h w).
    { destruct (wf_env _ Hwf _ _ Hzr) as [He|He]; rewrite Hproto, He.
      - exists None. split; [exact I|reflexivity].
      - eexists (Some (_, _)). split; [|reflexivity]. cbn. eapply lookup_lt_Some; eauto. }
    destruct Hw as (w & Hok & Hw).
    exists (then_state this s (registered_cb (FFinallyOk fn) w)
                       (registered_cb (FFinallyErr fn) w) st), w.
    cbv zeta. split; [|split; [exact Hok|]].
    + unfold finally_, invokeThen. rewrite run_gets.
      rewrite (run_applyThen_handler ufun n fuel st this r s (protoThen st) _ _ Hwf Hp Hs).
      * rewrite !Hw. reflexivity.
      * destruct s; reflexivity.
    + unfold then_state, asap_state, newListener, finallyFn.
      assert (Hf : forall h, is_function (registered_cb h w) = true)
        by (intros h; destruct w as [[]|]; reflexivity).
      rewrite !Hf.
      destruct (needsNewPhysicalTick _), s; cbn; split; reflexivity.
  - intros ufun m st p rp s v rv rrv z a b fn w oc st2
           Hwf Hp Hs Hv Hth Hok Hfn Hwf2 Hh2 Hrv Hpend Hplt Hz Hpsd Hn.
    apply wfb_sound in Hwf. apply wfb_sound in Hwf2. apply heap_okb_sound in Hh2.
    set (st0 := handler_entry p (Some s) st) in *.
    assert (Hwf0 : wf st0).
    { unfold st0. destruct s; cbn; destruct Hwf; constructor; auto. }
    assert (HPSD0 : PSD st0 = PSD st) by (unfold st0; destruct s; reflexivity).
    assert (Hz0 : zones st0 = zones st) by (unfold st0; destruct s; reflexivity).
    (* the completion of the function given to then *)
    assert (Hinner : exists o st_out s' v',
               call ufun (S m) (finallyFn s fn) [v] (registered_entry w st0)
               = Some (o, st_out) /\
               wf st_out /\ heap_ok st_out /\ downstream o st_out s' v' /\
               promises st_out !! rv = Some rrv /\
               (p < length (promises st_out))%nat /\
               (length (promises st_out) <= S (length (promises st2)))%nat /\
               length (zones st_out) = length (zones st2) /\
               callLog st_out = callLog st2 /\
               match oc with
               | Normal _ => s' = s /\ v' = v
               | Throws e => s' = false /\ v' = e
               end).
    { destruct s; cbn [finallyFn]; rewrite call_S; cbn [dispatch]; rewrite arg_0.
      - unfold finallyOk. destruct oc as [res|e].
        + exists (Normal v), st2, true, v. rewrite (run_bind _ _ _ _ _ Hfn).
          conjs; auto. apply not_thenable_downstream; auto.
        + exists (Throws e), st2, false, e. rewrite (run_bind_throws _ _ _ _ _ Hfn).
          cbn [downstream]. conjs; auto.
      - unfold finallyErr. destruct oc as [res|e].
        + exists (Normal (VPromise (length (promises st2)))), (reject_state v st2), false, v.
          rewrite (run_bind _ _ _ _ _ Hfn), run_PromiseReject.
          conjs; auto.
          * apply wf_reject_state, Hwf2.
          * eapply heap_ok_snoc; [exact Hh2|reflexivity|apply promise_ok_rejected].
          * cbn. eexists. split; [apply list_lookup_middle; reflexivity|].
            cbn. conjs; auto.
          * cbn. rewrite lookup_snoc_lt; [exact Hrv|eapply lookup_lt_Some; eauto].
          * cbn. rewrite length_app. lia.
          * cbn. rewrite length_app. cbn. lia.
        + exists (Throws e), st2, false, e. rewrite (run_bind_throws _ _ _ _ _ Hfn).
          cbn [downstream]. conjs; auto. }
    destruct Hinner
      as (o & st_out & s' & v' & Hcall & Hwfo & Hho & Hd & Hrvo & Hpo & Hlo & Hzo & Hco & Hsv).
    set (st1 := registered_exit w (PSD st0) st_out).
    destruct (same_heap_registered_exit st_out w (PSD st0)) as (Hp1 & Hc1 & Hz1).
    fold st1 in Hp1, Hc1, Hz1.
    assert (Hcb : callValue (call ufun (S m + registered_depth w))
                    (registered_cb (finallyFn s fn) w) [_value rp] st0
                  = Some (o, st1)).
    { unfold st1. rewrite Hv. apply run_registered_cb; auto.
      - destruct w as [[]|]; cbn in *; [rewrite Hz0|]; auto.
      - rewrite HPSD0, Hzo. exact Hpsd. }
    destruct (run_callListener ufun (S m + registered_depth w) st
                (registered_cb (finallyFn s fn) w) p rp rv rrv z a b o st1 s' v')
      as (st' & rrv' & Hrun & Hrv' & Hs' & Hv' & Hc'); auto.
    + rewrite Hs. exact Hcb.
    + apply wf_registered_exit, Hwfo.
    + eapply heap_ok_frame; eauto.
    + rewrite Hp1. exact Hrvo.
    + eapply downstream_same_promises; eauto.
    + rewrite Hp1. exact Hpo.
    + rewrite Hz1, Hzo. exact Hz.
    + rewrite Hp1, Hz1, Hzo. lia.
    + exists st', rrv'. conjs.
      * exact Hrun.
      * exact Hrv'.
      * destruct oc; destruct Hsv as [-> ->]; split; auto.
      * rewrite Hc', Hc1. exact Hco.
Qed.

(** ** C3: resolving a promise with itself *)

(** The application of the failing input:
<<
    var res;
    var p = new Promise(r => { res = r; });
    res(p);
>>
*)
Definition self_app (i : nat) (env args : list Value) : Prog :=
  match i with
  | 0%nat => Do (OSet 0 (arg 0 args)) (fun _ => Ret VUndefined)
  | _ => Ret VUndefined
  end.

Definition self_main : Prog :=
  Do (ONew (VFn (FUser 0 []))) (fun p =>
  Do (OGet 0) (fun res =>
  Do (OCall res [p]) (fun _ => Ret p))).

(** C3 at the failing input: when the resolve capability of p is called
    with p after the executor has returned, the TypeError is thrown to the
    caller and p stays pending. *)
Theorem resolve_with_itself_after_executor :
  exists st' r,
    run (call self_app 10) 10 self_main initial
    = Some (Throws (VObj 0 (Some ETypeError) None
                         "A promise cannot be resolved with itself."), st') /\
    promises st' !! 0%nat = Some r /\ _state r = None.
Proof.
  eexists _, _. split; [vm_compute; reflexivity|]. split; reflexivity.
Qed.

(** The same for every pending promise and every state: the call throws
    and changes nothing but the supply of object identities. *)
Lemma resolve_with_itself_throws ufun n st p r :
  promises st !! p = Some r -> _state r = None ->
  call ufun (S n) (FResolve p) [VPromise p] st
  = Some (Throws (VObj (nextObjId st) (Some ETypeError) None
                       "A promise cannot be resolved with itself."),
          set_nextObjId S st).
Proof.
  intros Hp Hs. rewrite call_S. cbn [dispatch]. rewrite arg_0. unfold resolveFn.
  rewrite (run_bind _ _ _ _ _ (run_getPromise _ _ _ Hp)). rewrite Hs.
  cbn [strict_eq same_value]. rewrite Nat.eqb_refl. reflexivity.
Qed.

(** Inside the executor the same throw is caught by executePromiseTask,
    which rejects the promise with it: a thenable whose [then] resolves
    with the promise that adopts it.
<<
    var res;
    var p = new Promise(r => { res = r; });
    res({ then: (resolve) => { resolve(p); } });
>>
*)
Definition self_sync_app (i : nat) (env args : list Value) : Prog :=
  match i with
  | 0%nat => Do (OSet 0 (arg 0 args)) (fun _ => Ret VUndefined)
  | 1%nat => Do (OCall (arg 0 args) [VPromise 0]) (fun _ => Ret VUndefined)
  | _ => Ret VUndefined
  end.

Definition self_sync_main : Prog :=
  Do (ONew (VFn (FUser 0 []))) (fun p =>
  Do (OGet 0) (fun res =>
  Do (ONewThenable (FUser 1 [])) (fun t =>
  Do (OCall res [t]) (fun _ => Ret p)))).

Lemma resolve_with_itself_inside_executor :
  exists st' r,
    run (call self_sync_app 10) 10 self_sync_main initial
    = Some (Normal (VPromise 0), st') /\
    promises st' !! 0%nat = Some r /\ _state r = Some false /\
    _value r = VObj 1 (Some ETypeError) None "A promise cannot be resolved with itself.".
Proof.
  eexists _, _. split; [vm_compute; reflexivity|]. repeat split.
Qed.

(** ** C9: race on an empty input *)

(** [k] physical ticks in a row, as the host delivers them. *)
Fixpoint ticks (ufun : nat -> list Value -> list Value -> Prog) (n k : nat) : M unit :=
  match k with
  | O => ret tt
  | S k' => call ufun n FPhysicalTick [] ;;; ticks ufun n k'
  end.

Lemma run_tick_idle ufun n st :
  microtickQueue st = [] ->
  exists st',
    call ufun (S (S n)) FPhysicalTick [] st = Some (Normal VUndefined, st') /\
    promises st' = promises st /\ microtickQueue st' = [].
Proof.
  intros Hq. rewrite call_S. cbn [dispatch]. unfold physicalTick, beginMicroTickScope.
  destruct (isOutsideMicroTick st) eqn:E.
  - eexists. split.
    + erewrite run_bind; [|rewrite run_gets, !run_modify; reflexivity].
      rewrite E. unfold when, endMicroTickScope. cbn [drain].
      erewrite run_bind; [reflexivity|].
      erewrite run_bind; [reflexivity|].
      rewrite run_gets. cbn. rewrite Hq. reflexivity.
    + split; [reflexivity|exact Hq].
  - eexists. split.
    + erewrite run_bind; [|rewrite run_gets, !run_modify; reflexivity].
      rewrite E. reflexivity.
    + split; [reflexivity|exact Hq].
Qed.

Lemma run_ticks_idle ufun n k : forall st,
    microtickQueue st = [] ->
    exists st',
      ticks ufun (S (S n)) k st = Some (Normal tt, st') /\
      promises st' = promises st /\ microtickQueue st' = [].
Proof.
  induction k as [|k IH]; intros st Hq; cbn [ticks].
  - exists st. auto.
  - destruct (run_tick_idle ufun n st Hq) as (st1 & Hrun & Hp & Hq1).
    destruct (IH st1 Hq1) as (st2 & Hrun2 & Hp2 & Hq2).
    exists st2. rewrite (run_bind _ _ _ _ _ Hrun). split; [exact Hrun2|].
    split; [congruence|exact Hq2].
Qed.

(** *** A promise whose capabilities nobody holds *)

Section Capability.

(** The promise in question. *)
Variable t : nat.

(** The value gives no access to a capability of [t]: neither the
    resolving function nor the rejecting function of [t] is the value or
    is captured in it. *)
Fixpoint safe_v (v : Value) : bool :=
  match v with
  | VThenable _ f => safe_f f
  | VListener l => safe_l l
  | VFn f => safe_f f
  | _ => true
  end
with safe_f (f : Fn) : bool :=
  match f with
  | FUser _ env => forallb safe_v env
  | FResolve p | FReject p => negb (Nat.eqb p t)
  | FAdopt v | FFinallyOk v | FFinallyErr v | FResolveThenable v => safe_v v
  | FThenExec _ a b | FCatchType a b | FCatchName a b => safe_v a && safe_v b
  | FRaceExec vs => forallb safe_v vs
  | FWrapped a b _ => safe_v a && safe_v b
  | FZoneWrap a _ _ => safe_v a
  | _ => true
  end
with safe_l (l : Listener) : bool :=
  match l with
  | mkListener a b c d _ => safe_v a && safe_v b && safe_v c && safe_v d
  end.

Definition safe_vs (vs : list Value) : bool := forallb safe_v vs.

Definition safe_rec (r : PromiseRec) : Prop :=
  safe_v (_value r) = true /\ Forall (fun l => safe_l l = true) (_listeners r).

Definition safe_entry (e : Fn * list Value) : Prop :=
  safe_f (fst e) = true /\ safe_vs (snd e) = true.

(** No object of the heap, no entry of the microtask queue, no tick
    finalizer and no variable of the application gives access to a
    capability of [t]. *)
Definition no_capability (st : State) : Prop :=
  Forall safe_rec (promises st) /\
  Forall safe_entry (microtickQueue st) /\
  Forall (fun f => safe_f f = true) (tickFinalizers st) /\
  Forall (fun kv => safe_v (snd kv) = true) (uvars st).

(** [t] is a pending promise of the heap, and nothing gives access to its
    capabilities. *)
Definition safe_st (st : State) : Prop :=
  (exists r, promises st !! t = Some r /\ _state r = None) /\ no_capability st.

(** The application's code forges no capability: what it returns, throws
    or hands to the engine is made of what it was given. *)
Definition safe_op (o : Op) : bool :=
  match o with
  | ONew fn => safe_v fn
  | OThen a b c => safe_v a && safe_v b && safe_v c
  | OCatch a args => safe_v a && safe_vs args
  | OFinally a b => safe_v a && safe_v b
  | OResolve v | OReject v => safe_v v
  | ORace vs => safe_vs vs
  | OCall f args => safe_v f && safe_vs args
  | ONewScope a b c => safe_v a && safe_v b && safe_v c
  | OUsePSD a b c d e => safe_v a && safe_v b && safe_v c && safe_v d && safe_v e
  | OWrap a b => safe_v a && safe_v b
  | OSetLib a _ => safe_v a
  | ONewThenable f => safe_f f
  | OSet _ v => safe_v v
  | OGetPSD | ONewError _ _ | ONewObject _ | OGet _ => true
  end.

Inductive safe_prog : Prog -> Prop :=
| safe_Ret v : safe_v v = true -> safe_prog (Ret v)
| safe_Throw v : safe_v v = true -> safe_prog (Throw v)
| safe_Do o k :
    safe_op o = true -> (forall v, safe_v v = true -> safe_prog (k v)) ->
    safe_prog (Do o k)
| safe_Try body handler k :
    safe_prog body ->
    (forall e, safe_v e = true -> safe_prog (handler e)) ->
    (forall v, safe_v v = true -> safe_prog (k v)) ->
    safe_prog (Try body handler k).

Definition safe_app (ufun : nat -> list Value -> list Value -> Prog) : Prop :=
  forall i env args,
    safe_vs env = true -> safe_vs args = true -> safe_prog (ufun i env args).

(** [m] keeps the state safe, and what it returns ([Q]) or throws gives
    no access to a capability of [t]. *)
Definition hoare {A} (Q : A -> Prop) (m : M A) : Prop :=
  forall st o st',
    safe_st st -> m st = Some (o, st') ->
    safe_st st' /\ match o with Normal a => Q a | Throws e => safe_v e = true end.

Definition is_safe (v : Value) : Prop := safe_v v = true.
Definition any {A} (a : A) : Prop := True.

Lemma hoare_ret {A} (Q : A -> Prop) a : Q a -> hoare Q (ret a).
Proof. intros H st o st' Hs [= <- <-]. auto. Qed.

Lemma hoare_throw {A} (Q : A -> Prop) e : safe_v e = true -> hoare Q (throw e).
Proof. intros H st o st' Hs [= <- <-]. auto. Qed.

Lemma hoare_stuck {A} (Q : A -> Prop) : hoare Q stuck.
Proof. intros st o st' _ [=]. Qed.

Lemma hoare_weaken {A} (P Q : A -> Prop) m :
  hoare P m -> (forall a, P a -> Q a) -> hoare Q m.
Proof.
  intros H HPQ st o st' Hs Hrun. destruct (H st o st' Hs Hrun) as [H1 H2].
  split; [exact H1|]. destruct o; auto.
Qed.

Lemma hoare_any {A} (P : A -> Prop) m : hoare P m -> hoare any m.
Proof. intros H. apply (hoare_weaken P); [exact H|]. intros; exact I. Qed.

Lemma hoare_bind {A B} (P : A -> Prop) (Q : B -> Prop) m k :
  hoare P m -> (forall a, P a -> hoare Q (k a)) -> hoare Q (bind m k).
Proof.
  intros Hm Hk st o st' Hs Hrun.
  destruct (bind_inv _ _ _ _ _ Hrun) as [(a & st1 & H1 & H2)|(e & H1 & ->)].
  - destruct (Hm _ _ _ Hs H1) as [Hs1 Ha]. exact (Hk a Ha _ _ _ Hs1 H2).
  - exact (Hm _ _ _ Hs H1).
Qed.

Lemma hoare_gets {A B} (f : State -> A) (k : A -> M B) Q :
  (forall st, safe_st st -> hoare Q (k (f st))) -> hoare Q (bind (gets f) k).
Proof. intros H st o st' Hs Hrun. exact (H st Hs st o st' Hs Hrun). Qed.

Lemma hoare_modify {B} f (k : unit -> M B) Q :
  (forall st, safe_st st -> safe_st (f st)) -> hoare Q (k tt) ->
  hoare Q (bind (modify f) k).
Proof. intros Hf H st o st' Hs Hrun. exact (H (f st) o st' (Hf st Hs) Hrun). Qed.

Lemma hoare_modify_end f :
  (forall st, safe_st st -> safe_st (f st)) -> hoare any (modify f).
Proof. intros Hf st o st' Hs [= <- <-]. split; [auto|exact I]. Qed.

Lemma hoare_try_catch {A} (Q : A -> Prop) m h :
  hoare Q m -> (forall e, safe_v e = true -> hoare Q (h e)) -> hoare Q (try_catch m h).
Proof.
  intros Hm Hh st o st' Hs Hrun. unfold try_catch in Hrun.
  destruct (m st) as [[[a|e] st1]|] eqn:E; [|  |discriminate].
  - injection Hrun as <- <-. exact (Hm _ _ _ Hs E).
  - destruct (Hm _ _ _ Hs E) as [Hs1 He]. exact (Hh e He _ _ _ Hs1 Hrun).
Qed.

Lemma hoare_try_finally {A} (Q : A -> Prop) m fin :
  hoare Q m -> hoare any fin -> hoare Q (try_finally m fin).
Proof.
  intros Hm Hf st o st' Hs Hrun. unfold try_finally in Hrun.
  destruct (m st) as [[o1 st1]|] eqn:E; [|discriminate].
  destruct (Hm _ _ _ Hs E) as [Hs1 Ho].
  destruct (fin st1) as [[[[]|e] st2]|] eqn:E2; [| |discriminate].
  - injection Hrun as <- <-. split; [|exact Ho]. exact (proj1 (Hf _ _ _ Hs1 E2)).
  - injection Hrun as <- <-. exact (Hf _ _ _ Hs1 E2).
Qed.

Lemma hoare_when b m : hoare any m -> hoare any (when b m).
Proof. intros H. destruct b; [exact H|]. apply hoare_ret. exact I. Qed.

Lemma hoare_forEach {A} (P : A -> Prop) l (body : A -> M unit) :
  Forall P l -> (forall x, P x -> hoare any (body x)) -> hoare any (forEach l body).
Proof.
  intros Hl Hb. induction Hl as [|x l Hx _ IH]; cbn [forEach].
  - apply hoare_ret. exact I.
  - eapply hoare_bind; [apply Hb; exact Hx|]. intros _ _. exact IH.
Qed.

(** The state. *)

Lemma safe_st_frame st st' :
  promises st' = promises st -> microtickQueue st' = microtickQueue st ->
  tickFinalizers st' = tickFinalizers st -> uvars st' = uvars st ->
  safe_st st -> safe_st st'.
Proof.
  intros E1 E2 E3 E4 H. unfold safe_st, no_capability in *.
  rewrite E1, E2, E3, E4. exact H.
Qed.

Lemma safe_st_update_zone z f st : safe_st st -> safe_st (update_zone z f st).
Proof. apply safe_st_frame; reflexivity. Qed.

Lemma safe_st_update_promise p f st :
  (forall r, safe_rec r -> safe_rec (f r)) ->
  (p = t -> forall r, _state r = None -> _state (f r) = None) ->
  safe_st st -> safe_st (update_promise p f st).
Proof.
  intros Hf Ht [(r & Hr & Hs) (Hp & Hrest)].
  unfold update_promise, safe_st, no_capability. cbn.
  destruct (promises st !! p) as [rp|] eqn:Ep.
  - split; [|split; [|exact Hrest]].
    + destruct (decide (p = t)) as [->|Hne].
      * exists (f rp). rewrite list_lookup_insert_eq by (eapply lookup_lt_Some; eauto).
        split; [reflexivity|]. apply Ht; [reflexivity|]. congruence.
      * exists r. rewrite list_lookup_insert_ne by exact Hne. auto.
    + apply Forall_insert; [exact Hp|]. apply Hf.
      rewrite Forall_forall in Hp. apply Hp. eapply list_elem_of_lookup_2; eauto.
  - split; [eauto|split; assumption].
Qed.

Lemma safe_st_alloc r st :
  safe_rec r -> safe_st st -> safe_st (set_promises (fun ps => ps ++ [r]) st).
Proof.
  intros Hr [(r0 & Hr0 & Hs) (Hp & Hrest)]. split; [|split; [|exact Hrest]]; cbn.
  - exists r0. split; [|exact Hs]. apply lookup_app_l_Some. exact Hr0.
  - apply Forall_app. split; [exact Hp|]. constructor; [exact Hr|constructor].
Qed.

Lemma safe_st_fresh st : safe_st st -> length (promises st) <> t.
Proof. intros [(r & Hr & _) _] E. apply lookup_lt_Some in Hr. lia. Qed.

Lemma safe_st_enqueue cb args st :
  safe_f cb = true -> safe_vs args = true -> safe_st st ->
  safe_st (set_microtickQueue (fun q => q ++ [(cb, args)]) st).
Proof.
  intros Hf Ha [Ht (Hp & Hq & Hrest)]. split; [exact Ht|]. split; [exact Hp|].
  split; [|exact Hrest]. cbn. apply Forall_app. split; [exact Hq|].
  constructor; [split; assumption|constructor].
Qed.

Lemma safe_st_clear_queue st :
  safe_st st -> safe_st (set_microtickQueue (fun _ => []) st).
Proof.
  intros [Ht (Hp & Hq & Hrest)]. split; [exact Ht|]. split; [exact Hp|].
  split; [constructor|exact Hrest].
Qed.

Lemma safe_st_set_var x v st :
  safe_v v = true -> safe_st st -> safe_st (set_uvars (fun vars => (x, v) :: vars) st).
Proof.
  intros Hv [Ht (Hp & Hq & Hf & Hu)]. split; [exact Ht|]. split; [exact Hp|].
  split; [exact Hq|]. split; [exact Hf|]. constructor; assumption.
Qed.

Lemma safe_arg i args : safe_vs args = true -> safe_v (arg i args) = true.
Proof.
  intros H. unfold arg. destruct (args !! i) as [v|] eqn:E; [|reflexivity]. cbn.
  unfold safe_vs in H. rewrite forallb_forall in H. apply H.
  apply list_elem_of_In. eapply list_elem_of_lookup_2; eauto.
Qed.

Lemma hoare_getPromise {B} p (k : PromiseRec -> M B) Q :
  (forall r, safe_rec r -> (p = t -> _state r = None) -> hoare Q (k r)) ->
  hoare Q (bind (getPromise p) k).
Proof.
  intros H st o st' Hs Hrun. unfold bind, getPromise in Hrun.
  destruct (promises st !! p) as [r|] eqn:E; [|discriminate].
  refine (H r _ _ st o st' Hs Hrun).
  - destruct Hs as [_ (Hp & _)]. rewrite Forall_forall in Hp. apply Hp.
    eapply list_elem_of_lookup_2; eauto.
  - intros ->. destruct Hs as [(r0 & Hr0 & Hs0) _]. congruence.
Qed.

Lemma hoare_getZone {B} z (k : ZoneRec -> M B) Q :
  (forall r, hoare Q (k r)) -> hoare Q (bind (getZone z) k).
Proof.
  intros H st o st' Hs Hrun. unfold bind, getZone in Hrun.
  destruct (zones st !! z) as [r|] eqn:E; [|discriminate].
  exact (H r st o st' Hs Hrun).
Qed.

Lemma hoare_allocPromise {B} r (k : nat -> M B) Q :
  safe_rec r -> (forall p, p <> t -> hoare Q (k p)) ->
  hoare Q (bind (allocPromise r) k).
Proof.
  intros Hr H st o st' Hs Hrun. unfold bind, allocPromise in Hrun.
  refine (H _ (safe_st_fresh st Hs) _ o st' _ Hrun). apply safe_st_alloc; assumption.
Qed.

Lemma hoare_allocZone {B} r (k : nat -> M B) Q :
  (forall z, hoare Q (k z)) -> hoare Q (bind (allocZone r) k).
Proof.
  intros H st o st' Hs Hrun. unfold bind, allocZone in Hrun.
  refine (H _ _ o st' _ Hrun). revert Hs. apply safe_st_frame; reflexivity.
Qed.

Lemma hoare_newError c m : hoare is_safe (newError c m).
Proof.
  intros st o st' Hs [= <- <-]. split; [|reflexivity].
  revert Hs. apply safe_st_frame; reflexivity.
Qed.

Lemma hoare_throwNew {A} (Q : A -> Prop) c m : hoare Q (throwNew c m).
Proof.
  unfold throwNew. eapply hoare_bind; [apply hoare_newError|].
  intros e He. apply hoare_throw. exact He.
Qed.

Lemma hoare_newObject (mk : nat -> Value) :
  (forall i, safe_v (mk i) = true) -> hoare is_safe (newObject mk).
Proof.
  intros H st o st' Hs [= <- <-]. split; [|apply H].
  revert Hs. apply safe_st_frame; reflexivity.
Qed.

(** The engine. *)

Variable call : Fn -> list Value -> M Value.
Variable fuel : nat.
Hypothesis Hcall : forall f args,
    safe_f f = true -> safe_vs args = true -> hoare is_safe (call f args).

Ltac hsafe :=
  first [ assumption
        | solve [eapply safe_st_frame;
                 [reflexivity|reflexivity|reflexivity|reflexivity|assumption]] ].

Ltac hbreak :=
  repeat match goal with
         | H : is_safe _ |- _ => unfold is_safe in H
         | H : safe_entry _ |- _ => destruct H
         | H : safe_rec _ |- _ => destruct H
         | H : _ && _ = true |- _ => apply andb_true_iff in H; destruct H
         | H : safe_v (VFn _) = true |- _ => cbn [safe_v] in H
         | H : safe_v (VListener _) = true |- _ => cbn [safe_v] in H
         | H : safe_v (VThenable _ _) = true |- _ => cbn [safe_v] in H
         | H : safe_f (_ _) = true |- _ => progress cbn [safe_f] in H
         | H : safe_f (_ _ _) = true |- _ => progress cbn [safe_f] in H
         | H : safe_f (_ _ _ _) = true |- _ => progress cbn [safe_f] in H
         | H : safe_l (mkListener _ _ _ _ _) = true |- _ => cbn [safe_l] in H
         | H : safe_vs (_ :: _) = true |- _ => cbn [safe_vs forallb] in H
         | H : forallb safe_v (_ :: _) = true |- _ => cbn [forallb] in H
         end.

Ltac hval :=
  hbreak; unfold is_safe;
  cbn [safe_vs forallb safe_v safe_f safe_l fst snd];
  rewrite ?andb_true_iff, ?negb_true_iff, ?Nat.eqb_neq;
  repeat match goal with |- _ /\ _ => split end;
  try first [ assumption | reflexivity | exact I
            | apply safe_arg; assumption ].

Ltac hstep :=
  lazymatch goal with
  | |- hoare _ (bind (gets _) _) => apply hoare_gets; intros ? ?
  | |- hoare _ (bind (modify _) _) => apply hoare_modify; [intros ? ?; try hsafe|]
  | |- hoare _ (bind (getPromise _) _) => apply hoare_getPromise; intros ? ? ?
  | |- hoare _ (bind (getZone _) _) => apply hoare_getZone; intros ?
  | |- hoare _ (bind (allocZone _) _) => apply hoare_allocZone; intros ?
  | |- hoare _ (bind (allocPromise _) _) => apply hoare_allocPromise; [|intros ? ?]
  | |- hoare _ (bind _ _) => eapply hoare_bind; [|intros ? ?]
  | |- hoare _ (ret _) => apply hoare_ret; try exact I
  | |- hoare _ (throw _) => apply hoare_throw
  | |- hoare _ stuck => apply hoare_stuck
  | |- hoare _ (throwNew _ _) => apply hoare_throwNew
  | |- hoare _ (modify _) => apply hoare_modify_end; intros ? ?; try hsafe
  | |- hoare _ (when _ _) => apply hoare_when
  | |- hoare _ (try_catch _ _) => apply hoare_try_catch; [|intros ? ?]
  | |- hoare _ (try_finally _ _) => apply hoare_try_finally
  | |- hoare _ (if ?b then _ else _) => destruct b eqn:?
  | |- hoare _ (match ?x with _ => _ end) => destruct x eqn:?
  end.

Lemma h_switchToZone z : hoare any (switchToZone z).
Proof. unfold switchToZone. repeat hstep. Qed.

Lemma h_schedulePhysicalTick : hoare any schedulePhysicalTick.
Proof.
  unfold schedulePhysicalTick. hstep. hstep; [apply h_switchToZone|].
  hstep. apply h_switchToZone.
Qed.

Lemma h_asap cb args :
  safe_f cb = true -> safe_vs args = true -> hoare any (asap cb args).
Proof.
  intros Hf Ha. unfold asap. hstep; [apply safe_st_enqueue; assumption|].
  hstep. hstep. hstep; [apply h_schedulePhysicalTick|]. hstep.
Qed.

Lemma h_beginMicroTickScope : hoare any beginMicroTickScope.
Proof. unfold beginMicroTickScope. repeat hstep. Qed.

Lemma h_addPossiblyUnhandledError p : hoare any (addPossiblyUnhandledError p).
Proof. unfold addPossiblyUnhandledError. repeat hstep. Qed.

Lemma h_markErrorAsHandled p : hoare any (markErrorAsHandled p).
Proof. unfold markErrorAsHandled. repeat hstep. Qed.

Lemma h_globalError e p : hoare any (globalError e p).
Proof. unfold globalError. hstep. Qed.

Lemma h_callValue f args :
  safe_v f = true -> safe_vs args = true -> hoare is_safe (callValue call f args).
Proof.
  intros Hf Ha. unfold callValue. destruct f; try apply hoare_throwNew.
  - apply hoare_newError.
  - apply Hcall; assumption.
Qed.

Lemma h_incRef z : hoare any (incRef z).
Proof. unfold incRef. hstep. Qed.

Lemma h_releaseRef psd : hoare any (releaseRef call psd).
Proof.
  unfold releaseRef. hstep. hstep. hstep; [|hstep].
  hstep; [apply h_callValue; reflexivity|]. hstep.
Qed.

Lemma h_entries l :
  Forall safe_entry l ->
  hoare any (forEach l (fun item => callValue call (VFn (fst item)) (snd item) ;;; ret tt)).
Proof.
  intros Hl. apply (hoare_forEach safe_entry); [exact Hl|].
  intros [f args] [Hf Ha]. hstep; [apply h_callValue; assumption|]. hstep.
Qed.

Lemma h_drain k : hoare any (drain call k).
Proof.
  induction k as [|k IH]; cbn [drain]; [apply hoare_stuck|].
  apply hoare_gets. intros st Hs.
  assert (Hq : Forall safe_entry (microtickQueue st)) by apply Hs.
  destruct (microtickQueue st) as [|e q]; [hstep|].
  hstep; [apply safe_st_clear_queue; assumption|].
  hstep; [apply h_entries; exact Hq|]. exact IH.
Qed.

Lemma h_endMicroTickScope : hoare any (endMicroTickScope call fuel).
Proof.
  unfold endMicroTickScope. hstep; [apply h_drain|]. repeat hstep.
Qed.

Lemma h_physicalTick : hoare is_safe (physicalTick call fuel).
Proof.
  unfold physicalTick. hstep; [apply h_beginMicroTickScope|].
  hstep; [apply hoare_when, h_endMicroTickScope|]. hstep. reflexivity.
Qed.

Lemma h_finalizePhysicalTick : hoare any (finalizePhysicalTick call).
Proof.
  unfold finalizePhysicalTick. hstep. hstep.
  hstep.
  { apply (hoare_forEach any); [apply Forall_forall; intros; exact I|].
    intros p _. hstep. apply h_globalError. }
  apply hoare_gets. intros st1 Hs1.
  apply (hoare_forEach (fun f => safe_f f = true)).
  - apply Forall_rev. apply Hs1.
  - intros f Hf. hstep; [apply h_callValue; [exact Hf|reflexivity]|]. hstep.
Qed.

Lemma h_propagateToListener p l :
  safe_l l = true -> hoare is_safe (propagateToListener call p l).
Proof.
  intros Hl. unfold propagateToListener.
  apply hoare_getPromise. intros r [Hv Hls] _.
  destruct (_state r) as [s|].
  - assert (Hcb : safe_v (if s then l_onFulfilled l else l_onRejected l) = true)
      by (destruct l, s; cbn in *; hval).
    assert (Hcap : safe_v (if s then l_resolve l else l_reject l) = true)
      by (destruct l, s; cbn in *; hval).
    destruct (strict_eq _ VNull).
    + apply h_callValue; [exact Hcap|]. hval.
    + hstep; [apply h_incRef|]. hstep.
      hstep; [apply h_asap; [reflexivity|hval]|]. hstep. reflexivity.
  - hstep; [|hstep; reflexivity].
    apply safe_st_update_promise; [| |assumption].
    + intros r0 [H1 H2]. split; [exact H1|]. cbn. apply Forall_app. split; [exact H2|].
      constructor; [exact Hl|constructor].
    + intros _ r0 Hr0. exact Hr0.
Qed.

Lemma safe_st_drop_listeners p st :
  safe_st st -> safe_st (update_promise p (with_listeners []) st).
Proof.
  apply safe_st_update_promise.
  - intros r [H1 _]. split; [exact H1|constructor].
  - intros _ r Hr. exact Hr.
Qed.

Lemma h_propagateAllListeners p : hoare any (propagateAllListeners call p).
Proof.
  unfold propagateAllListeners. hstep. hstep; [apply safe_st_drop_listeners; assumption|].
  hstep.
  { apply (hoare_forEach (fun l => safe_l l = true)); [apply H|].
    intros l Hl. hstep; [apply h_propagateToListener; exact Hl|]. hstep. }
  hstep; [apply h_releaseRef|]. hstep. hstep. hstep. apply (hoare_any any).
  apply h_asap; reflexivity.
Qed.

Lemma safe_st_settle p s v st :
  p <> t -> safe_v v = true ->
  safe_st st -> safe_st (update_promise p (with_settled s v) st).
Proof.
  intros Hp Hv. apply safe_st_update_promise.
  - intros r [_ H2]. split; [exact Hv|exact H2].
  - intros E. contradiction.
Qed.

Lemma h_handleRejection p reason :
  p <> t -> safe_v reason = true -> hoare any (handleRejection call fuel p reason).
Proof.
  intros Hp Hv. unfold handleRejection. hstep. hstep. hstep; [hstep|].
  hstep.
  { instantiate (1 := any). destruct (_lib r); [apply h_beginMicroTickScope|hstep]. }
  hstep; [apply safe_st_settle; assumption|].
  hstep; [apply h_addPossiblyUnhandledError|].
  hstep; [apply h_propagateAllListeners|].
  apply hoare_when, h_endMicroTickScope.
Qed.

Lemma h_executePromiseTask p fn :
  p <> t -> safe_v fn = true -> hoare any (executePromiseTask call fuel p fn).
Proof.
  intros Hp Hf. unfold executePromiseTask. hstep.
  - hstep; [apply h_callValue; [exact Hf|hval]|]. hstep.
  - apply h_handleRejection; assumption.
Qed.

Lemma h_resolveFn p v :
  p <> t -> safe_v v = true -> hoare is_safe (resolveFn call fuel p v).
Proof.
  intros Hp Hv. unfold resolveFn. hstep. hstep; [hstep; reflexivity|].
  hstep; [apply hoare_throwNew|].
  hstep.
  { instantiate (1 := any). destruct (_lib r); [apply h_beginMicroTickScope|hstep]. }
  hstep.
  { instantiate (1 := any). hstep.
    - apply h_executePromiseTask; [exact Hp|exact Hv].
    - hstep; [apply safe_st_settle; assumption|]. apply h_propagateAllListeners. }
  hstep; [apply hoare_when, h_endMicroTickScope|]. hstep. reflexivity.
Qed.

Lemma safe_newListener a b c d z :
  safe_v a = true -> safe_v b = true -> safe_v c = true -> safe_v d = true ->
  safe_l (newListener a b c d z) = true.
Proof.
  intros Ha Hb Hc Hd. unfold newListener. cbn [safe_l].
  destruct (is_function a), (is_function b); cbn [safe_v];
    rewrite ?Ha, ?Hb, ?Hc, ?Hd; reflexivity.
Qed.

Lemma h__then this a b :
  safe_v a = true -> safe_v b = true -> hoare is_safe (_then call this a b).
Proof.
  intros Ha Hb. unfold _then. hstep.
  apply h_propagateToListener. apply safe_newListener; auto.
Qed.

Lemma h_adopt v a b :
  safe_v v = true -> safe_v a = true -> safe_v b = true ->
  hoare is_safe (adopt call v a b).
Proof.
  intros Hv Ha Hb. unfold adopt. destruct v; try apply hoare_throwNew.
  - hstep; [apply Hcall; [exact Hv|hval]|]. hstep. reflexivity.
  - hstep; [apply h__then; assumption|]. hstep. reflexivity.
Qed.

Lemma safe_rec_new psd s v : safe_v v = true -> safe_rec (mkPromise [] false psd s v).
Proof. intros H. split; [exact H|constructor]. Qed.

Lemma h_newPromise fn : safe_v fn = true -> hoare any (newPromise call fuel fn).
Proof.
  intros Hf. unfold newPromise. hstep. hstep; [apply safe_rec_new; reflexivity|].
  hstep; [apply hoare_throwNew|].
  hstep; [apply h_incRef|]. hstep; [apply h_executePromiseTask; assumption|]. hstep.
Qed.

Lemma h_newPromiseInternal s v :
  safe_v v = true -> hoare any (newPromiseInternal call fuel s v).
Proof.
  intros Hv. unfold newPromiseInternal. hstep. hstep; [apply safe_rec_new; exact Hv|].
  hstep; [apply hoare_when, h_handleRejection; assumption|]. hstep.
Qed.

Lemma h_PromiseReject v : safe_v v = true -> hoare is_safe (PromiseReject call fuel v).
Proof.
  intros Hv. unfold PromiseReject. hstep; [apply h_newPromiseInternal; exact Hv|].
  hstep. reflexivity.
Qed.

Lemma h_then_ this a b :
  safe_v a = true -> safe_v b = true -> hoare is_safe (then_ call fuel this a b).
Proof.
  intros Ha Hb. unfold then_. hstep; [apply h_newPromise; hval|]. hstep. reflexivity.
Qed.

Lemma safe_nativeAwaitCompatibleWrap fn z pa :
  safe_v fn = true -> safe_v (nativeAwaitCompatibleWrap fn z pa) = true.
Proof. intros H. unfold nativeAwaitCompatibleWrap. destruct (is_function fn); exact H. Qed.

Lemma h_applyThen impl : forall this a b,
    safe_v a = true -> safe_v b = true -> hoare is_safe (applyThen call fuel impl this a b).
Proof.
  induction impl as [|impl IH z]; intros this a b Ha Hb; cbn [applyThen].
  - apply h_then_; assumption.
  - hstep. hstep. apply IH; apply safe_nativeAwaitCompatibleWrap; assumption.
Qed.

Lemma h_invokeThen this a b :
  safe_v a = true -> safe_v b = true -> hoare is_safe (invokeThen call fuel this a b).
Proof. intros Ha Hb. unfold invokeThen. hstep. apply h_applyThen; assumption. Qed.

Lemma h_methodThen v a b :
  safe_v v = true -> safe_v a = true -> safe_v b = true ->
  hoare is_safe (methodThen call fuel v a b).
Proof.
  intros Hv Ha Hb. unfold methodThen. destruct v; try apply hoare_throwNew.
  - apply Hcall; [exact Hv|hval].
  - apply h_invokeThen; assumption.
Qed.

Lemma h_enqueueNativeMicroTask job : hoare any (enqueueNativeMicroTask job).
Proof. unfold enqueueNativeMicroTask. hstep. Qed.

Lemma h_zoneWrapped fn z pa args :
  safe_v fn = true -> safe_vs args = true -> hoare is_safe (zoneWrapped call fn z pa args).
Proof.
  intros Hf Ha. unfold zoneWrapped. hstep. hstep; [apply h_switchToZone|].
  hstep.
  { apply hoare_when. hstep; [apply h_incRef|]. apply h_enqueueNativeMicroTask. }
  hstep; [apply h_callValue; assumption|].
  hstep; [apply h_switchToZone|]. apply hoare_when, h_enqueueNativeMicroTask.
Qed.

Lemma h_catch_ this args : safe_vs args = true -> hoare is_safe (catch_ call fuel this args).
Proof.
  intros Ha. unfold catch_.
  assert (H0 := safe_arg 0 args Ha). assert (H1 := safe_arg 1 args Ha).
  destruct args as [|a [|b args]]; [| |].
  - destruct (is_function _); apply h_invokeThen; hval.
  - apply h_invokeThen; hval.
  - destruct (is_function _); apply h_invokeThen; hval.
Qed.

Lemma h_catchType type handler err :
  safe_v handler = true -> safe_v err = true ->
  hoare is_safe (catchType call fuel type handler err).
Proof.
  intros Hh He. unfold catchType. destruct (instanceOf err type) as [[]| |].
  - apply h_callValue; [exact Hh|hval].
  - apply h_PromiseReject; exact He.
  - apply hoare_throwNew.
  - apply hoare_stuck.
Qed.

Lemma h_catchName type handler err :
  safe_v handler = true -> safe_v err = true ->
  hoare is_safe (catchName call fuel type handler err).
Proof.
  intros Hh He. unfold catchName. destruct (truthy err); [|apply h_PromiseReject; exact He].
  destruct (name_of err); [|apply hoare_stuck].
  destruct (strict_eq _ _); [apply h_callValue; [exact Hh|hval]|apply h_PromiseReject; exact He].
Qed.

Lemma h_finally_ this onFinally :
  safe_v onFinally = true -> hoare is_safe (finally_ call fuel this onFinally).
Proof. intros H. unfold finally_. apply h_invokeThen; hval. Qed.

Lemma h_finallyOk onFinally v :
  safe_v onFinally = true -> safe_v v = true -> hoare is_safe (finallyOk call onFinally v).
Proof.
  intros H Hv. unfold finallyOk. hstep; [apply h_callValue; [exact H|reflexivity]|].
  hstep. exact Hv.
Qed.

Lemma h_finallyErr onFinally v :
  safe_v onFinally = true -> safe_v v = true ->
  hoare is_safe (finallyErr call fuel onFinally v).
Proof.
  intros H Hv. unfold finallyErr. hstep; [apply h_callValue; [exact H|reflexivity]|].
  apply h_PromiseReject; exact Hv.
Qed.

Lemma h_PromiseResolve v : safe_v v = true -> hoare is_safe (PromiseResolve call fuel v).
Proof.
  intros Hv. unfold PromiseResolve. hstep; [hstep; exact Hv|].
  hstep.
  - hstep; [apply h_newPromise; hval|]. hstep. reflexivity.
  - hstep; [apply h_newPromiseInternal; exact Hv|]. hstep. reflexivity.
Qed.

Lemma h_race vs : safe_vs vs = true -> hoare is_safe (race call fuel vs).
Proof.
  intros H. unfold race. hstep; [apply h_newPromise; exact H|]. hstep. reflexivity.
Qed.

Lemma h_raceExec vs a b :
  safe_vs vs = true -> safe_v a = true -> safe_v b = true ->
  hoare is_safe (raceExec call fuel vs a b).
Proof.
  intros Hvs Ha Hb. unfold raceExec. hstep; [|hstep; reflexivity].
  apply (hoare_forEach is_safe).
  - apply Forall_forall. intros v Hv. unfold safe_vs in Hvs.
    rewrite forallb_forall in Hvs. apply Hvs. apply list_elem_of_In. exact Hv.
  - intros v Hv. hstep; [apply h_PromiseResolve; exact Hv|].
    hstep; [apply h_methodThen; assumption|]. hstep.
Qed.

Lemma h_tickDec : hoare is_safe (tickDec call).
Proof.
  unfold tickDec. hstep. hstep.
  hstep; [apply hoare_when, h_finalizePhysicalTick|]. hstep. reflexivity.
Qed.

Lemma h_callListener cb p l :
  safe_v cb = true -> safe_l l = true -> hoare any (callListener call cb p l).
Proof.
  intros Hcb Hl. unfold callListener. destruct l as [a b c d z]. hbreak.
  apply hoare_try_finally.
  - apply hoare_try_catch.
    + hstep. hstep. hstep.
      { instantiate (1 := is_safe). destruct (_state r) as [[]|].
        - apply h_callValue; [exact Hcb|hval].
        - hstep. hstep; [apply h_callValue; [exact Hcb|hval]|].
          hstep. hstep; [apply hoare_when, h_markErrorAsHandled|]. hstep. assumption.
        - hstep. hstep; [apply h_callValue; [exact Hcb|hval]|].
          hstep. hstep; [apply hoare_when, h_markErrorAsHandled|]. hstep. assumption. }
      hstep; [apply h_callValue; [assumption|hval]|]. hstep.
    + intros e He. hstep; [apply h_callValue; [assumption|hval]|]. hstep.
  - hstep. hstep. hstep. hstep; [apply hoare_when, h_finalizePhysicalTick|].
    apply h_releaseRef.
Qed.

Lemma h_zoneFinalize z : hoare is_safe (zoneFinalize call z).
Proof.
  unfold zoneFinalize. hstep. hstep. hstep; [|hstep; reflexivity].
  instantiate (1 := any). hstep.
  - hstep. apply (hoare_forEach any); [apply Forall_forall; intros; exact I|].
    intros uh _. apply h_globalError.
  - destruct (parent r); [apply h_releaseRef|apply hoare_stuck].
Qed.

Lemma h_usePSD psd fn args :
  safe_v fn = true -> safe_vs args = true -> hoare is_safe (usePSD call psd fn args).
Proof.
  intros Hf Ha. unfold usePSD. hstep. hstep.
  - hstep; [apply h_switchToZone|]. apply h_callValue; assumption.
  - apply h_switchToZone.
Qed.

Lemma h_newScope fn a1 a2 :
  safe_v fn = true -> safe_v a1 = true -> safe_v a2 = true ->
  hoare is_safe (newScope call fn a1 a2).
Proof.
  intros Hf H1 H2. unfold newScope. hstep. hstep. hstep. hstep.
  hstep; [apply h_incRef|]. hstep; [apply h_usePSD; [exact Hf|hval]|].
  hstep. hstep.
  { apply hoare_when. hstep; [apply h_callValue; reflexivity|]. hstep. }
  hstep. assumption.
Qed.

Lemma h_wrap fn ec : safe_v fn = true -> safe_v ec = true -> hoare is_safe (wrap fn ec).
Proof. intros Hf He. unfold wrap. hstep. hstep. hval. Qed.

Lemma h_wrapped fn ec psd args :
  safe_v fn = true -> safe_v ec = true -> safe_vs args = true ->
  hoare is_safe (wrapped call fuel fn ec psd args).
Proof.
  intros Hf He Ha. unfold wrapped. hstep; [apply h_beginMicroTickScope|].
  hstep. hstep.
  - hstep.
    + hstep; [apply h_switchToZone|]. apply h_callValue; assumption.
    + hstep; [|hstep; reflexivity]. instantiate (1 := any).
      hstep; [|hstep]. hstep; [apply h_callValue; [exact He|hval]|]. hstep.
  - hstep; [apply h_switchToZone|]. apply hoare_when, h_endMicroTickScope.
Qed.

Lemma safe_lookup_var x vars :
  Forall (fun kv => safe_v (snd kv) = true) vars -> safe_v (lookup_var x vars) = true.
Proof.
  intros H. unfold lookup_var. destruct (find _ vars) as [kv|] eqn:E; [|reflexivity].
  apply find_some in E as [E _]. rewrite Forall_forall in H. apply H.
  apply list_elem_of_In. exact E.
Qed.

Lemma h_doOp o : safe_op o = true -> hoare is_safe (doOp call fuel o).
Proof.
  intros Ho. destruct o; cbn [safe_op] in Ho; cbn [doOp]; hbreak.
  - hstep; [apply h_newPromise; assumption|]. hstep. reflexivity.
  - apply h_methodThen; assumption.
  - destruct this; try apply hoare_throwNew. apply h_catch_; assumption.
  - destruct this; try apply hoare_throwNew. apply h_finally_; assumption.
  - apply h_PromiseResolve; assumption.
  - apply h_PromiseReject; assumption.
  - apply h_race; assumption.
  - apply h_callValue; assumption.
  - apply h_newScope; assumption.
  - destruct psd; try apply hoare_throwNew. apply h_usePSD; [assumption|hval].
  - hstep. hstep. reflexivity.
  - apply h_wrap; assumption.
  - destruct promise; try (hstep; reflexivity).
    hstep. hstep; [|hstep; reflexivity].
    apply safe_st_update_promise; [| |assumption].
    + intros r0 Hr0. exact Hr0.
    + intros _ r0 Hr0. exact Hr0.
  - apply hoare_newError.
  - apply hoare_newObject. reflexivity.
  - apply hoare_newObject. intros i. exact Ho.
  - hstep. hstep. apply safe_lookup_var. apply H.
  - hstep; [apply safe_st_set_var; assumption|]. hstep. reflexivity.
Qed.

Lemma h_run p : safe_prog p -> hoare is_safe (run call fuel p).
Proof.
  induction 1 as [v Hv|v Hv|o k Ho Hk IH|body handler k Hb IHb Hh IHh Hk IHk];
    cbn [run].
  - hstep. exact Hv.
  - hstep. exact Hv.
  - hstep; [apply h_doOp; exact Ho|]. apply IH. assumption.
  - hstep.
    + apply hoare_try_catch; [exact IHb|]. intros e He. apply IHh. exact He.
    + apply IHk. assumption.
Qed.

Variable ufun : nat -> list Value -> list Value -> Prog.
Hypothesis Hufun : safe_app ufun.

Lemma h_dispatch f args :
  safe_f f = true -> safe_vs args = true -> hoare is_safe (dispatch call fuel ufun f args).
Proof.
  intros Hf Ha.
  assert (H0 := safe_arg 0 args Ha). assert (H1 := safe_arg 1 args Ha).
  destruct f; cbn [safe_f] in Hf; cbn [dispatch]; hbreak.
  - hstep. apply h_run. apply Hufun; assumption.
  - apply h_resolveFn; [|assumption]. apply Nat.eqb_neq, negb_true_iff. exact Hf.
  - hstep; [apply h_handleRejection; [|assumption]|hstep; reflexivity].
    apply Nat.eqb_neq, negb_true_iff. exact Hf.
  - apply h_adopt; assumption.
  - hstep. hstep; [apply h_propagateToListener, safe_newListener; assumption|].
    hstep. reflexivity.
  - apply h_catchType; assumption.
  - apply h_catchName; assumption.
  - apply h_finallyOk; assumption.
  - apply h_finallyErr; assumption.
  - hstep; [apply h_methodThen; assumption|]. hstep. reflexivity.
  - apply h_raceExec; assumption.
  - apply h_tickDec.
  - destruct args as [|cb [|[] [|[] [|]]]]; try apply hoare_stuck.
    hbreak. hstep; [apply h_callListener; assumption|]. hstep. reflexivity.
  - apply h_physicalTick.
  - apply h_wrapped; assumption.
  - apply h_zoneWrapped; assumption.
  - hstep; [apply h_switchToZone|]. hstep. reflexivity.
  - hstep; [apply h_switchToZone|]. hstep; [apply h_releaseRef|]. hstep. reflexivity.
  - apply h_zoneFinalize.
Qed.

End Capability.

(** Every call of a function that gives no access to a capability of [t],
    with such arguments, keeps the state safe and completes with such a
    value, whatever the fuel. *)
Lemma safe_call t ufun :
  safe_app t ufun ->
  forall n f args,
    safe_f t f = true -> safe_vs t args = true ->
    hoare t (is_safe t) (call ufun n f args).
Proof.
  intros Hu. induction n as [|n IH]; intros f args Hf Ha; cbn [call].
  - apply hoare_stuck.
  - apply h_dispatch; assumption.
Qed.

(** What the host and the application can do from a state on: call, one
    after the other, functions that give no access to a capability of
    [t], with such arguments. *)
Inductive safe_calls (t : nat) (ufun : nat -> list Value -> list Value -> Prog)
  : State -> State -> Prop :=
| safe_calls_done st : safe_calls t ufun st st
| safe_calls_step st n f args o st1 st2 :
    safe_f t f = true -> safe_vs t args = true ->
    call ufun n f args st = Some (o, st1) ->
    safe_calls t ufun st1 st2 ->
    safe_calls t ufun st st2.

Lemma safe_calls_safe t ufun st st' :
  safe_app t ufun -> safe_calls t ufun st st' -> safe_st t st -> safe_st t st'.
Proof.
  intros Hu. induction 1 as [|st n f args o st1 st2 Hf Ha Hrun _ IH]; [auto|].
  intros Hs. apply IH. exact (proj1 (safe_call t ufun Hu n f args Hf Ha _ _ _ Hs Hrun)).
Qed.

Lemma safe_ticks t ufun n k :
  safe_app t ufun -> hoare t any (ticks ufun n k).
Proof.
  intros Hu. induction k as [|k IH]; cbn [ticks].
  - apply hoare_ret. exact I.
  - eapply hoare_bind; [apply (safe_call t ufun Hu n FPhysicalTick []); reflexivity|].
    intros _ _. exact IH.
Qed.

Lemma safe_st_constructed st :
  no_capability (length (promises st)) st ->
  safe_st (length (promises st))
          (update_zone (PSD st) (with_ref Z.succ)
             (set_promises (fun ps => ps ++ [mkPromise [] false (PSD st) None VNull]) st)).
Proof.
  intros (Hp & Hrest). apply safe_st_update_zone. split; [|split; [|exact Hrest]]; cbn.
  - eexists. split; [apply list_lookup_middle; reflexivity|reflexivity].
  - apply Forall_app. split; [exact Hp|]. constructor; [|constructor].
    split; [reflexivity|constructor].
Qed.

(** C9.  race applied to an empty input produces a promise that never
    settles.  The call returns a pending promise and, apart from allocating
    it and counting it on the active zone, changes nothing: no listener is
    registered, nothing is queued, and neither capability of the promise is
    kept anywhere.  So, with nothing on the microtask queue, every physical
    tick completes and leaves the promise as it is.  And whatever is on the
    queue and whatever the application's functions do: as long as nothing
    gave access to a capability of the promise before it was made (the
    promise did not exist) and the application's code forges none, the
    promise is pending after any number of physical ticks, with all the
    virtual ticks and callbacks they run, and after any sequence of calls of
    functions of the engine or the application; and none of these calls
    returns or throws a value that gives access to a capability of it. *)
Theorem race_empty_stays_pending ufun n fuel st :
  let rv := length (promises st) in
  let st1 := update_zone (PSD st) (with_ref Z.succ)
               (set_promises (fun ps => ps ++ [mkPromise [] false (PSD st) None VNull]) st) in
  race (call ufun (S n)) fuel [] st = Some (Normal (VPromise rv), st1) /\
  promises st1 !! rv = Some (mkPromise [] false (PSD st) None VNull) /\
  (microtickQueue st = [] ->
   forall k, exists st2,
       ticks ufun (S (S n)) k st1 = Some (Normal tt, st2) /\
       promises st2 !! rv = Some (mkPromise [] false (PSD st) None VNull)) /\
  (no_capability rv st -> safe_app rv ufun ->
   (forall m k o st2,
       ticks ufun m k st1 = Some (o, st2) ->
       exists r, promises st2 !! rv = Some r /\ _state r = None) /\
   (forall st2,
       safe_calls rv ufun st1 st2 ->
       (exists r, promises st2 !! rv = Some r /\ _state r = None) /\
       no_capability rv st2) /\
   (forall st2 m f args o st3,
       safe_calls rv ufun st1 st2 ->
       safe_f rv f = true -> safe_vs rv args = true ->
       call ufun m f args st2 = Some (o, st3) ->
       match o with Normal v => safe_v rv v = true | Throws e => safe_v rv e = true end)).
Proof.
  cbv zeta. split; [reflexivity|]. split; [|split].
  - cbn. apply list_lookup_middle. reflexivity.
  - intros Hq k.
    destruct (run_ticks_idle ufun n k
                (update_zone (PSD st) (with_ref Z.succ)
                   (set_promises (fun ps => ps ++ [mkPromise [] false (PSD st) None VNull]) st))
                Hq) as (st2 & Hrun & Hp & _).
    exists st2. split; [exact Hrun|]. rewrite Hp. cbn.
    apply list_lookup_middle. reflexivity.
  - intros Hno Hu. pose proof (safe_st_constructed st Hno) as Hs1.
    split; [|split].
    + intros m k o st2 Hrun.
      apply (proj1 (safe_ticks _ ufun m k Hu _ _ _ Hs1 Hrun)).
    + intros st2 Hcalls. apply (safe_calls_safe _ ufun _ _ Hu Hcalls Hs1).
    + intros st2 m f args o st3 Hcalls Hf Ha Hrun.
      pose proof (safe_calls_safe _ ufun _ _ Hu Hcalls Hs1) as Hs2.
      destruct (safe_call _ ufun Hu m f args Hf Ha _ _ _ Hs2 Hrun) as [_ Ho].
      destruct o; exact Ho.
Qed.

(** The state in which race([]) leaves [st]. *)
Definition constructed_race (st : State) : State :=
  update_zone (PSD st) (with_ref Z.succ)
    (set_promises (fun ps => ps ++ [mkPromise [] false (PSD st) None VNull]) st).

(** The state after  Promise.resolve(1).then(h)  in the initial state: the
    call of h is on the microtask queue. *)
Definition then_queued_main : Prog :=
  Do (OResolve (VNum 1)) (fun p =>
  Do (OThen p (VFn (FUser 0 [])) VUndefined) (fun d => Ret d)).

Definition st_queued : State :=
  match run (call no_ufun 10) 10 then_queued_main initial with
  | Some (_, st) => st
  | None => initial
  end.

(** ... then Promise.race([]), then one physical tick. *)
Definition st_raced : State :=
  update_zone 0 (with_ref Z.succ)
    (set_promises (fun ps => ps ++ [mkPromise [] false 0 None VNull]) st_queued).

Definition st_raced_ticked : State :=
  match ticks no_ufun 10 1 st_raced with
  | Some (_, st) => st
  | None => st_raced
  end.

(** An application function that registers a handler on the promise it
    is given. *)
Definition race_app (i : nat) (env args : list Value) : Prog :=
  match i with
  | 0%nat => Do (OThen (arg 0 args) (VFn (FUser 1 [])) VUndefined) (fun _ => Ret VUndefined)
  | _ => Ret VUndefined
  end.

Definition st_race_then : State :=
  match call race_app 10 (FUser 0 []) [VPromise 0] (constructed_race initial) with
  | Some (_, st) => st
  | None => initial
  end.

Lemma race_empty_stays_pending_witness :
  (* idle ticks *)
  (exists st2,
      ticks no_ufun 2 3 (constructed_race initial) = Some (Normal tt, st2) /\
      promises st2 !! 0%nat = Some (mkPromise [] false 0 None VNull)) /\
  (* a tick that runs a queued handler *)
  (ticks no_ufun 10 1 st_raced = Some (Normal tt, st_raced_ticked) /\
   callLog st_raced_ticked = [(0%nat, [], [VNum 1])] /\
   exists r, promises st_raced_ticked !! 2%nat = Some r /\ _state r = None) /\
  (* the application calls then on the promise *)
  (call race_app 10 (FUser 0 []) [VPromise 0] (constructed_race initial)
   = Some (Normal VUndefined, st_race_then) /\
   exists r, promises st_race_then !! 0%nat = Some r /\ _state r = None).
Proof.
  split; [|split].
  - exact (proj1 (proj2 (proj2 (race_empty_stays_pending no_ufun 0 0 initial)))
             eq_refl 3%nat).
  - assert (E : ticks no_ufun 10 1 st_raced = Some (Normal tt, st_raced_ticked))
      by (vm_compute; reflexivity).
    split; [exact E|]. split; [vm_compute; reflexivity|].
    destruct (proj2 (proj2 (proj2 (race_empty_stays_pending no_ufun 0 0 st_queued))))
      as (Hticks & _).
    + repeat split; vm_compute; repeat constructor.
    + intros i env args _ _. constructor. reflexivity.
    + exact (Hticks 10%nat 1%nat _ _ E).
  - assert (E : call race_app 10 (FUser 0 []) [VPromise 0] (constructed_race initial)
                = Some (Normal VUndefined, st_race_then))
      by (vm_compute; reflexivity).
    split; [exact E|].
    destruct (proj2 (proj2 (proj2 (race_empty_stays_pending race_app 0 0 initial))))
      as (_ & Hcalls & _).
    + repeat split; constructor.
    + intros [|i] env args _ Ha; [|constructor; reflexivity].
      constructor; [|intros v _; constructor; reflexivity].
      cbn [safe_op safe_v safe_f forallb]. rewrite (safe_arg _ 0 args Ha). reflexivity.
    + apply (Hcalls st_race_then).
      apply (safe_calls_step _ _ _ 10%nat (FUser 0 []) [VPromise 0] _ _ _
                             eq_refl eq_refl E).
      apply safe_calls_done.
Defined.

(** ** C10: wrap without an error catcher *)

(** The state after beginMicroTickScope. *)
Definition tick_scope (st : State) : State :=
  set_needsNewPhysicalTick (fun _ => false)
    (set_isOutsideMicroTick (fun _ => false) st).

(** The finally block of the function returned by wrap. *)
Definition wrappedEpilogue (call : Fn -> list Value -> M Value) (fuel : nat)
           (outerScope : nat) (wasRootExec : bool) : M unit :=
  switchToZone outerScope ;;;
  when wasRootExec (endMicroTickScope call fuel).

Lemma try_finally_normal {A} (m : M A) fin st a st1 :
  m st = Some (Normal a, st1) ->
  try_finally m fin st = (fin ;;; ret a) st1.
Proof.
  unfold try_finally, bind. intros ->.
  destruct (fin st1) as [[[[]|e] st2]|]; reflexivity.
Qed.

(** The function returned by wrap, once its body has thrown. *)
Lemma run_wrapped_throws call fuel fn psd args st e st2 :
  (switchToZone psd ;;; callValue call fn args) (tick_scope st) = Some (Throws e, st2) ->
  (forall errorCatcher,
      truthy errorCatcher = false ->
      wrapped call fuel fn errorCatcher psd args st
      = (wrappedEpilogue call fuel (PSD st) (isOutsideMicroTick st) ;;; ret VUndefined) st2) /\
  (forall errorCatcher,
   truthy errorCatcher = false ->
   wfb st2 = true -> (PSD st < length (zones st2))%nat ->
   isOutsideMicroTick st = false \/ (microtickQueue st2 = [] /\ (0 < fuel)%nat) ->
   exists st3,
     wrapped call fuel fn errorCatcher psd args st = Some (Normal VUndefined, st3) /\
     promises st3 = promises st2 /\ callLog st3 = callLog st2 /\
     unhandledErrors st3 = unhandledErrors st2) /\
  (forall errorCatcher,
      truthy errorCatcher = true ->
      wrapped call fuel fn errorCatcher psd args st
      = try_finally (callValue call errorCatcher [e] ;;; ret VUndefined)
                    (wrappedEpilogue call fuel (PSD st) (isOutsideMicroTick st)) st2).
Proof.
  intros Hbody.
  assert (Hunfold : forall errorCatcher,
             wrapped call fuel fn errorCatcher psd args st
             = try_finally
                 ((if truthy errorCatcher then callValue call errorCatcher [e] ;;; ret tt
                   else ret tt) ;;; ret VUndefined)
                 (wrappedEpilogue call fuel (PSD st) (isOutsideMicroTick st)) st2).
  { intros ec. unfold wrapped, beginMicroTickScope.
    erewrite run_bind; [|rewrite run_gets, !run_modify; reflexivity].
    fold (tick_scope st). rewrite run_gets.
    unfold try_finally at 1. rewrite (run_try_catch_throws _ _ _ _ _ Hbody).
    reflexivity. }
  split; [|split].
  - intros ec Hec. rewrite Hunfold, Hec. apply try_finally_normal. reflexivity.
  - intros ec Hec Hwf2 Hpsd Hcase. apply wfb_sound in Hwf2.
    rewrite Hunfold, Hec.
    rewrite (try_finally_normal _ _ _ VUndefined st2 eq_refl).
    unfold wrappedEpilogue.
    rewrite (run_bind _ _ st2 tt (if isOutsideMicroTick st
                                  then set_needsNewPhysicalTick (fun _ => true)
                                         (set_isOutsideMicroTick (fun _ => true)
                                            (zone_switch (PSD st) st2))
                                  else zone_switch (PSD st) st2)).
    + eexists. split; [reflexivity|].
      destruct (same_heap_zone_switch st2 (PSD st)) as (H1 & H2 & _).
      destruct (isOutsideMicroTick st); cbn; conjs; auto;
        unfold zone_switch; destruct (zones st2 !! PSD st); reflexivity.
    + rewrite (run_bind _ _ _ _ _ (run_switchToZone_lt _ _ Hwf2 Hpsd)).
      destruct (isOutsideMicroTick st) eqn:E; [|reflexivity].
      destruct Hcase as [Hc|[Hq Hf]]; [discriminate|].
      destruct fuel as [|fuel']; [lia|].
      unfold when, endMicroTickScope. cbn [drain].
      erewrite run_bind; [reflexivity|].
      rewrite run_gets.
      replace (microtickQueue (zone_switch (PSD st) st2)) with (@nil (Fn * list Value));
        [reflexivity|].
      rewrite <- Hq. unfold zone_switch. destruct (zones st2 !! PSD st); reflexivity.
  - intros ec Hec. rewrite Hunfold, Hec.
    unfold try_finally, bind.
    destruct (callValue call ec [e] st2) as [[[|] ?]|]; reflexivity.
Qed.

(** C10.  For every fn, wrap(fn, errorCatcher) returns a function, and a
    call of that function in which fn throws (fn is called in the zone in
    which wrap was called, inside a tick scope) swallows the exception when
    errorCatcher is missing, or otherwise falsy: once fn has thrown e in
    state st2, all that is left of the call is the finally block, run from
    st2, and the value undefined; e appears nowhere, no promise is touched
    by the catch clause, and nothing is rethrown.  Called inside a running
    tick, or with an empty microtask queue, the call returns undefined with
    the promises as fn left them.  A catcher, when supplied, is what the
    catch clause calls, with e. *)
Theorem wrap_swallows_exception ufun n fn errorCatcher args st0 st e st2 :
  (switchToZone (PSD st0) ;;; callValue (call ufun n) fn args) (tick_scope st)
  = Some (Throws e, st2) ->
  exists w,
    wrap fn errorCatcher st0 = Some (Normal w, st0) /\
    is_function w = true /\
    (truthy errorCatcher = false ->
     callValue (call ufun (S n)) w args st
     = (wrappedEpilogue (call ufun n) n (PSD st) (isOutsideMicroTick st) ;;;
        ret VUndefined) st2) /\
    (truthy errorCatcher = false ->
     wfb st2 = true -> (PSD st < length (zones st2))%nat ->
     isOutsideMicroTick st = false \/ (microtickQueue st2 = [] /\ (0 < n)%nat) ->
     exists st3,
       callValue (call ufun (S n)) w args st = Some (Normal VUndefined, st3) /\
       promises st3 = promises st2 /\ callLog st3 = callLog st2 /\
       unhandledErrors st3 = unhandledErrors st2) /\
    (truthy errorCatcher = true ->
     callValue (call ufun (S n)) w args st
     = try_finally (callValue (call ufun n) errorCatcher [e] ;;; ret VUndefined)
                   (wrappedEpilogue (call ufun n) n (PSD st) (isOutsideMicroTick st)) st2).
Proof.
  intros Hbody.
  destruct (run_wrapped_throws (call ufun n) n fn (PSD st0) args st e st2 Hbody)
    as (H1 & H2 & H3).
  exists (VFn (FWrapped fn errorCatcher (PSD st0))).
  split; [reflexivity|]. split; [reflexivity|].
  cbn [callValue]. rewrite call_S. cbn [dispatch].
  split; [|split].
  - intros Hec. apply H1. exact Hec.
  - intros Hec Hwf Hpsd Hcase. apply H2; assumption.
  - intros Hec. apply H3. exact Hec.
Qed.

(** ** The theorems at concrete inputs *)

(** A late reject on a promise fulfilled with 1. *)
Lemma settle_once_witness :
  exists r',
    promises (set_rejectingErrors (fun l => l ++ [VStr "late"]) st_fulfilled) !! 0%nat
    = Some r' /\
    _state r' = Some true /\ _value r' = VNum 1.
Proof.
  apply (settle_once no_ufun 2 (FReject 0) [VStr "late"] st_fulfilled
           (Normal VUndefined) _ 0%nat (mkPromise [] false 0 (Some true) (VNum 1)));
    [reflexivity | reflexivity | discriminate].
Defined.

(** Promise 0 is rejected with "e" and listed; promise 1 is pending. *)
Definition st_rejected : State :=
  set_unhandledErrors (fun _ => [0%nat])
    (set_zones (fun _ => [mkZone None 1 true ThenOrig])
       (set_promises (fun _ => [mkPromise [] false 0 (Some false) (VStr "e");
                                mkPromise [] false 0 None VNull])
          initial)).

(** Promise 0 is fulfilled with 1; promise 1 is pending, and promise 2
    waits for it. *)
Definition st_adopt : State :=
  set_zones (fun _ => [mkZone None 3 true ThenOrig])
    (set_promises
       (fun _ => [mkPromise [] false 0 (Some true) (VNum 1);
                  mkPromise [mkListener VNull VNull (VFn (FResolve 2)) (VFn (FReject 2)) 0]
                            false 0 None VNull;
                  mkPromise [] false 0 None VNull])
       initial).

Lemma resolve_adopts_fulfilled_witness :
  exists st' rq',
    call no_ufun 7 (FResolve 1) [VPromise 0] st_adopt = Some (Normal VUndefined, st') /\
    promises st' !! 1%nat = Some rq' /\
    _state rq' = Some true /\ _value rq' = VNum 1.
Proof.
  apply (proj2 resolve_adopts_fulfilled no_ufun 7%nat st_adopt 1%nat
           (mkPromise [mkListener VNull VNull (VFn (FResolve 2)) (VFn (FReject 2)) 0]
                      false 0 None VNull)
           0%nat (mkPromise [] false 0 (Some true) (VNum 1)) (VNum 1));
    try reflexivity; cbn; lia.
Defined.

(** The state after
<<
    Promise.reject(new RangeError("x")).catch(TypeError, h)
>>
    in the initial state. *)
Definition catch_main : Prog :=
  Do (ONewError ERangeError "x") (fun e =>
  Do (OReject e) (fun p =>
  Do (OCatch p [VClass ETypeError; VFn (FUser 0 [])]) (fun rv => Ret rv))).

Definition st_catch : State :=
  match run (call no_ufun 10) 10 catch_main initial with
  | Some (_, st) => st
  | None => initial
  end.

Lemma catch_filter_dispatch_witness :
  (* a RangeError is no TypeError, a TypeError is one, and its name is
     the string TypeError *)
  catch_matches (VClass ETypeError) (VObj 0 (Some ERangeError) None "x") = Some false /\
  catch_matches (VClass ETypeError) (VObj 1 (Some ETypeError) None "m") = Some true /\
  catch_matches (VStr "TypeError") (VObj 1 (Some ETypeError) None "m") = Some true /\
  (* a match: the handler is called with the reason *)
  call no_ufun 3 (catchFn (VClass ETypeError) (VFn (FUser 0 [])))
       [VObj 1 (Some ETypeError) None "m"] st_catch
  = Some (Normal VUndefined,
          set_callLog (fun l => l ++ [(0%nat, [], [VObj 1 (Some ETypeError) None "m"])])
                      st_catch) /\
  call no_ufun 3 (catchFn (VStr "TypeError") (VFn (FUser 0 [])))
       [VObj 1 (Some ETypeError) None "m"] st_catch
  = Some (Normal VUndefined,
          set_callLog (fun l => l ++ [(0%nat, [], [VObj 1 (Some ETypeError) None "m"])])
                      st_catch) /\
  (* no match: the reason is passed on *)
  exists st' rrv',
    callListener (call no_ufun 7)
      (VFn (FCatchType (VClass ETypeError) (VFn (FUser 0 [])))) 0
      (mkListener VNull (VFn (FCatchType (VClass ETypeError) (VFn (FUser 0 []))))
                  (VFn (FResolve 1)) (VFn (FReject 1)) 0) st_catch
    = Some (Normal tt, st') /\
    promises st' !! 1%nat = Some rrv' /\
    _state rrv' = Some false /\
    _value rrv' = VObj 0 (Some ERangeError) None "x" /\
    callLog st' = callLog st_catch.
Proof.
  destruct catch_filter_dispatch as (Hclass & Hname & _ & Hmatch & Hno).
  split; [rewrite Hclass; reflexivity|].
  split; [rewrite Hclass; reflexivity|].
  split; [apply (proj1 (Hname _ _)); split; reflexivity|].
  split; [rewrite (Hmatch no_ufun 2%nat (VClass ETypeError)) by
            (rewrite Hclass; reflexivity); reflexivity|].
  split; [rewrite (Hmatch no_ufun 2%nat (VStr "TypeError")) by
            (apply (proj1 (Hname _ _)); split; reflexivity); reflexivity|].
  apply (Hno no_ufun 6%nat st_catch 0%nat
           (mkPromise [] false 0 (Some false) (VObj 0 (Some ERangeError) None "x"))
           1%nat (mkPromise [] false 0 None VNull) 0%nat
           VNull (VFn (FCatchType (VClass ETypeError) (VFn (FUser 0 []))))
           (VClass ETypeError) (VFn (FUser 0 [])) None);
    try reflexivity; try exact I; try (repeat split; fail); cbn; lia.
Defined.

(** The state after  Promise.resolve(1).finally(fn)  in the initial state,
    for an fn that returns undefined. *)
Definition finally_ok_main : Prog :=
  Do (OResolve (VNum 1)) (fun p =>
  Do (OFinally p (VFn (FUser 0 []))) (fun rv => Ret rv)).

Definition st_finally : State :=
  match run (call no_ufun 10) 10 finally_ok_main initial with
  | Some (_, st) => st
  | None => initial
  end.

Definition st_finally_called : State :=
  set_callLog (fun l => l ++ [(0%nat, [], [])]) (handler_entry 0 (Some true) st_finally).

Lemma finally_forwards_outcome_witness :
  exists st' rrv',
    callListener (call no_ufun 7) (VFn (FFinallyOk (VFn (FUser 0 [])))) 0
      (mkListener (VFn (FFinallyOk (VFn (FUser 0 []))))
                  (VFn (FFinallyErr (VFn (FUser 0 []))))
                  (VFn (FResolve 1)) (VFn (FReject 1)) 0) st_finally
    = Some (Normal tt, st') /\
    promises st' !! 1%nat = Some rrv' /\
    (_state rrv' = Some true /\ _value rrv' = VNum 1) /\
    callLog st' = callLog st_finally_called.
Proof.
  apply (proj2 (proj2 (proj2 finally_forwards_outcome)) no_ufun 6%nat st_finally 0%nat
           (mkPromise [] false 0 (Some true) (VNum 1)) true (VNum 1)
           1%nat (mkPromise [] false 0 None VNull) 0%nat
           (VFn (FFinallyOk (VFn (FUser 0 [])))) (VFn (FFinallyErr (VFn (FUser 0 []))))
           (VFn (FUser 0 [])) None (Normal VUndefined) st_finally_called);
    try reflexivity; try exact I; try (repeat split; fail); cbn; lia.
Defined.

(** wrap(fn)() in the initial state, for an fn that throws "boom". *)
Definition st_thrown : State :=
  set_callLog (fun l => l ++ [(0%nat, [], [])]) (tick_scope initial).

Lemma wrap_swallows_exception_witness :
  exists w st3,
    wrap (VFn (FUser 0 [])) VUndefined initial = Some (Normal w, initial) /\
    callValue (call finally_app 4) w [] initial = Some (Normal VUndefined, st3) /\
    promises st3 = [] /\ callLog st3 = [(0%nat, [], [])].
Proof.
  destruct (wrap_swallows_exception finally_app 3 (VFn (FUser 0 [])) VUndefined []
              initial initial (VStr "boom") st_thrown eq_refl)
    as (w & Hw & _ & _ & H2 & _).
  destruct (H2 eq_refl eq_refl) as (st3 & Hc & Hp & Hl & _);
    [cbn; lia | right; split; [reflexivity|lia] |].
  exists w, st3. split; [exact Hw|]. split; [exact Hc|]. split; [exact Hp|exact Hl].
Defined.

(** * Further properties of the engine *)

(** ** then *)

(** Promise.prototype.then, as patched by the zones, is [then] on the
    wrapped handlers. *)
Lemma run_applyThen_wrap call fuel this impl : forall onFulfilled onRejected st,
    applyThen call fuel impl this onFulfilled onRejected st =
    then_ call fuel this
          (wrapHandler impl (PSD st) (nativePromiseThen st) onFulfilled)
          (wrapHandler impl (PSD st) (nativePromiseThen st) onRejected) st.
Proof.
  induction impl as [|impl IH z]; intros onF onR st; [reflexivity|].
  cbn [applyThen wrapHandler]. rewrite !run_gets. apply IH.
Qed.

(** The state in which the executor of a new promise is called. *)
Definition constructed (st : State) : State :=
  update_zone (PSD st) (with_ref Z.succ)
    (set_promises (fun ps => ps ++ [mkPromise [] false (PSD st) None VNull]) st).

Lemma wf_constructed st : wf st -> wf (constructed st).
Proof.
  intros Hwf. apply wf_update_ref, wf_alloc; [exact Hwf|]. apply wf_PSD_lt, Hwf.
Qed.

Lemma promise_ok_new len psd : promise_ok len (mkPromise [] false psd None VNull).
Proof. constructor; cbn; [reflexivity| |discriminate]. intros l Hl. inversion Hl. Qed.

Lemma heap_ok_constructed st : heap_ok st -> heap_ok (constructed st).
Proof.
  intros Hh. eapply heap_ok_snoc; [exact Hh|reflexivity|apply promise_ok_new].
Qed.

Lemma lookup_constructed_old st p r :
  promises st !! p = Some r -> promises (constructed st) !! p = Some r.
Proof.
  intros Hp. cbn. rewrite lookup_app_l; [exact Hp | eapply lookup_lt_Some; eauto].
Qed.

Lemma lookup_constructed_new st :
  promises (constructed st) !! length (promises st)
  = Some (mkPromise [] false (PSD st) None VNull).
Proof. cbn. apply list_lookup_middle. reflexivity. Qed.

(** new Promise(fn) for a function fn whose call returns. *)
Lemma run_newPromise_returns call fuel fn st w st1 :
  is_function fn = true ->
  callValue call fn [VFn (FResolve (length (promises st)));
                     VFn (FReject (length (promises st)))] (constructed st)
  = Some (Normal w, st1) ->
  newPromise call fuel fn st = Some (Normal (length (promises st)), st1).
Proof.
  intros Hf Hcall. unfold newPromise.
  rewrite run_gets, run_allocPromise. rewrite Hf. cbn [negb].
  unfold incRef. rewrite run_modify. fold (constructed st).
  erewrite run_bind; [reflexivity|].
  unfold executePromiseTask. apply run_try_catch_normal.
  rewrite (run_bind _ _ _ _ _ Hcall). reflexivity.
Qed.

(** The listener that then(onFulfilled, onRejected) makes in state [st]. *)
Definition then_listener (onFulfilled onRejected : Value) (st : State) : Listener :=
  newListener
    (wrapHandler (protoThen st) (PSD st) (nativePromiseThen st) onFulfilled)
    (wrapHandler (protoThen st) (PSD st) (nativePromiseThen st) onRejected)
    (VFn (FResolve (length (promises st)))) (VFn (FReject (length (promises st))))
    (PSD st).

(** then on a pending promise. *)
Lemma run_then_pending ufun n fuel st this r onFulfilled onRejected :
  promises st !! this = Some r -> _state r = None ->
  invokeThen (call ufun (S n)) fuel this onFulfilled onRejected st
  = Some (Normal (VPromise (length (promises st))),
          update_promise this
            (fun r => with_listeners
                        (_listeners r ++ [then_listener onFulfilled onRejected st]) r)
            (constructed st)).
Proof.
  intros Hp Hs.
  unfold invokeThen. rewrite run_gets, run_applyThen_wrap. unfold then_.
  erewrite run_bind; [reflexivity|].
  eapply run_newPromise_returns; [reflexivity|].
  unfold callValue. rewrite call_S. cbn [dispatch]. rewrite run_gets, arg_0, arg_1.
  erewrite run_bind; [reflexivity|].
  unfold propagateToListener.
  rewrite (run_bind _ _ _ _ _ (run_getPromise _ _ _ (lookup_constructed_old _ _ _ Hp))).
  rewrite Hs. rewrite run_modify. reflexivity.
Qed.

(** X1.  then on a pending promise: the listener goes to the end of the
    promise's list, the returned promise is pending, nothing is queued and
    no function of the application is called. *)
Theorem then_on_pending_registers ufun n fuel st this r onFulfilled onRejected :
  promises st !! this = Some r -> _state r = None ->
  let l := then_listener onFulfilled onRejected st in
  let st' := update_promise this (fun r => with_listeners (_listeners r ++ [l]) r)
               (constructed st) in
  invokeThen (call ufun (S n)) fuel this onFulfilled onRejected st
  = Some (Normal (VPromise (length (promises st))), st') /\
  promises st' !! this = Some (with_listeners (_listeners r ++ [l]) r) /\
  promises st' !! length (promises st) = Some (mkPromise [] false (PSD st) None VNull) /\
  microtickQueue st' = microtickQueue st /\
  callLog st' = callLog st.
Proof.
  intros Hp Hs. cbv zeta.
  assert (Hlt : (this < length (promises st))%nat) by (eapply lookup_lt_Some; eauto).
  split; [|split; [|split; [|split; reflexivity]]].
  - eapply run_then_pending; eassumption.
  - rewrite (lookup_update_promise_eq _ _ _ r (lookup_constructed_old _ _ _ Hp)).
    reflexivity.
  - rewrite lookup_update_promise_ne by lia. apply lookup_constructed_new.
Qed.

Lemma then_listener_null (s : bool) onFulfilled onRejected st :
  is_function (if s then onFulfilled else onRejected) = false ->
  (if s then l_onFulfilled (then_listener onFulfilled onRejected st)
   else l_onRejected (then_listener onFulfilled onRejected st)) = VNull.
Proof.
  intros Hf. unfold then_listener, newListener.
  destruct s; cbn; rewrite is_function_wrapHandler, Hf; reflexivity.
Qed.

(** then on a settled promise, without a handler for its outcome. *)
Lemma run_then_without_handler
      ufun n fuel st this r (s : bool) onFulfilled onRejected :
  wf st -> heap_ok st ->
  promises st !! this = Some r -> _state r = Some s ->
  is_function (if s then onFulfilled else onRejected) = false ->
  (length (promises st) + length (zones st) + 3 <= n)%nat ->
  exists st' rv,
    invokeThen (call ufun n) fuel this onFulfilled onRejected st
    = Some (Normal (VPromise (length (promises st))), st') /\
    promises st' !! length (promises st) = Some rv /\
    _state rv = Some s /\ _value rv = _value r /\
    callLog st' = callLog st.
Proof.
  intros Hwf Hh Hp Hs Hf Hn.
  destruct n as [|[|m]]; try lia.
  pose proof (wf_constructed _ Hwf) as Hwf1.
  pose proof (heap_ok_constructed _ Hh) as Hh1.
  assert (Hlen1 : length (promises (constructed st)) = S (length (promises st))).
  { cbn. rewrite length_app. cbn. lia. }
  assert (Hz1 : length (zones (constructed st)) = length (zones st)).
  { unfold constructed. rewrite length_update_zone. reflexivity. }
  destruct (cascade_settle ufun (length (promises (constructed st))) m (constructed st)
              (length (promises st)) s (_value r))
    as (st' & Hrun & Hc & Hset); auto.
  { apply pending_le_length. }
  { lia. }
  { intros ->. apply (ok_value _ _ (Hh this r Hp)). exact Hs. }
  { lia. }
  destruct (Hset _ (lookup_constructed_new st) eq_refl) as (rv & Hrv & Hsrv & Hvrv).
  exists st', rv. conjs; auto.
  2:{ rewrite (c_callLog _ _ Hc). reflexivity. }
  unfold invokeThen. rewrite run_gets, run_applyThen_wrap. unfold then_.
  erewrite run_bind; [reflexivity|].
  eapply run_newPromise_returns; [reflexivity|].
  unfold callValue. rewrite call_S. cbn [dispatch]. rewrite run_gets, arg_0, arg_1.
  erewrite run_bind; [reflexivity|].
  change (newListener _ _ _ _ (PSD (constructed st)))
    with (then_listener onFulfilled onRejected st).
  erewrite run_propagateToListener_direct;
    [|apply lookup_constructed_old; exact Hp|exact Hs|apply then_listener_null; exact Hf].
  unfold callValue. destruct s; cbn [then_listener newListener l_resolve l_reject]; exact Hrun.
Qed.

(** X2.  then on a settled promise, without a handler for its outcome: the
    returned promise has the outcome of the promise when [then] returns, and
    no function of the application has been called. *)
Theorem then_without_handler_passes_outcome
        ufun n fuel st this r (s : bool) onFulfilled onRejected :
  wfb st = true -> heap_okb st = true ->
  promises st !! this = Some r -> _state r = Some s ->
  is_function (if s then onFulfilled else onRejected) = false ->
  (length (promises st) + length (zones st) + 3 <= n)%nat ->
  exists st' rv,
    invokeThen (call ufun n) fuel this onFulfilled onRejected st
    = Some (Normal (VPromise (length (promises st))), st') /\
    promises st' !! length (promises st) = Some rv /\
    _state rv = Some s /\ _value rv = _value r /\
    callLog st' = callLog st.
Proof.
  intros Hwf Hh Hp Hs Hf Hn. apply wfb_sound in Hwf. apply heap_okb_sound in Hh.
  eapply run_then_without_handler; eauto.
Qed.

(** The handler as the listener holds it: the handler itself, or, when
    [then] is called inside a zone, the function that
    nativeAwaitCompatibleWrap makes of it, which calls it in that zone. *)
Lemma wrapHandler_cases st h :
  wf st -> is_function h = true ->
  let cb := wrapHandler (protoThen st) (PSD st) (nativePromiseThen st) h in
  (protoThen st = ThenOrig /\ cb = h) \/
  (exists zone pa, (zone < length (zones st))%nat /\ cb = VFn (FZoneWrap h zone pa)).
Proof.
  intros Hwf Hf. cbv zeta. destruct (wf_proto _ Hwf) as (r & Hr & Hp).
  destruct (wf_env _ Hwf _ _ Hr) as [He|He]; rewrite Hp, He; cbn.
  - left. auto.
  - right. unfold nativeAwaitCompatibleWrap. rewrite Hf.
    eexists _, _. split; [|reflexivity]. eapply lookup_lt_Some; eauto.
Qed.

(** C2, amended.  For every call of then(onFulfilled, onRejected) on a
    promise that is already settled: when the handler for the promise's
    outcome (onFulfilled if it is fulfilled, onRejected if it is rejected)
    is a function, the returned promise is still pending when [then]
    returns, no function of the application has been called, and one entry
    has been appended to the microtask queue: the call of callListener for
    the promise with the listener that [then] made, which holds the two
    capabilities of the returned promise, and with that handler (as such,
    or, inside a zone, as the function that calls it in the zone).  When
    that handler is no function, the returned promise has the outcome of
    the promise already when [then] returns. *)
Theorem then_defers_to_queue :
  (forall ufun n fuel st this r (s : bool) onFulfilled onRejected,
      wfb st = true ->
      promises st !! this = Some r -> _state r = Some s ->
      is_function (if s then onFulfilled else onRejected) = true ->
      let rv := length (promises st) in
      let l := then_listener onFulfilled onRejected st in
      let h := if s then onFulfilled else onRejected in
      let cb := if s then l_onFulfilled l else l_onRejected l in
      exists st',
        invokeThen (call ufun (S n)) fuel this onFulfilled onRejected st
        = Some (Normal (VPromise rv), st') /\
        promises st' = promises st ++ [mkPromise [] false (PSD st) None VNull] /\
        microtickQueue st' =
          microtickQueue st ++ [(FCallListener, [cb; VPromise this; VListener l])] /\
        l_resolve l = VFn (FResolve rv) /\ l_reject l = VFn (FReject rv) /\
        ((protoThen st = ThenOrig /\ cb = h) \/
         (exists zone pa, (zone < length (zones st))%nat /\
                          cb = VFn (FZoneWrap h zone pa))) /\
        callLog st' = callLog st) /\
  (forall ufun n fuel st this r (s : bool) onFulfilled onRejected,
      wfb st = true -> heap_okb st = true ->
      promises st !! this = Some r -> _state r = Some s ->
      is_function (if s then onFulfilled else onRejected) = false ->
      (length (promises st) + length (zones st) + 3 <= n)%nat ->
      exists st' rv,
        invokeThen (call ufun n) fuel this onFulfilled onRejected st
        = Some (Normal (VPromise (length (promises st))), st') /\
        promises st' !! length (promises st) = Some rv /\
        _state rv = Some s /\ _value rv = _value r /\
        callLog st' = callLog st).
Proof.
  split.
  - intros ufun n fuel st this r s onFulfilled onRejected Hwf Hp Hs Hf.
    apply wfb_sound in Hwf. cbv zeta.
    set (wF := wrapHandler (protoThen st) (PSD st) (nativePromiseThen st) onFulfilled).
    set (wR := wrapHandler (protoThen st) (PSD st) (nativePromiseThen st) onRejected).
    assert (Hcb : (if s then l_onFulfilled (then_listener onFulfilled onRejected st)
                   else l_onRejected (then_listener onFulfilled onRejected st))
                  = wrapHandler (protoThen st) (PSD st) (nativePromiseThen st)
                                (if s then onFulfilled else onRejected)).
    { unfold then_listener, newListener.
      destruct s; cbn [l_onFulfilled l_onRejected];
        rewrite is_function_wrapHandler, Hf; reflexivity. }
    exists (then_state this s wF wR st). conjs.
    + unfold invokeThen. rewrite run_gets. eapply run_applyThen_handler; eauto.
    + unfold then_state, asap_state. destruct (needsNewPhysicalTick _); reflexivity.
    + unfold then_state, asap_state. destruct (needsNewPhysicalTick _); reflexivity.
    + reflexivity.
    + reflexivity.
    + rewrite Hcb. apply wrapHandler_cases; assumption.
    + unfold then_state, asap_state. destruct (needsNewPhysicalTick _); reflexivity.
  - intros ufun n fuel st this r s onFulfilled onRejected Hwf Hh Hp Hs Hf Hn.
    apply wfb_sound in Hwf. apply heap_okb_sound in Hh.
    eapply run_then_without_handler; eauto.
Qed.

Lemma then_defers_to_queue_witness :
  (* Promise.resolve(1).then(h): pending, and queued *)
  (exists st',
      invokeThen (call no_ufun 1) 0 0 (VFn (FUser 0 [])) VNull st_fulfilled
      = Some (Normal (VPromise 1), st') /\
      promises st' = promises st_fulfilled ++ [mkPromise [] false 0 None VNull] /\
      microtickQueue st' =
        [(FCallListener,
          [VFn (FUser 0 []); VPromise 0;
           VListener (mkListener (VFn (FUser 0 [])) VNull
                                 (VFn (FResolve 1)) (VFn (FReject 1)) 0)])] /\
      callLog st' = []) /\
  (* Promise.resolve(1).then(null, h): fulfilled with 1 already *)
  (exists st' rv,
      invokeThen (call no_ufun 5) 0 0 VNull (VFn (FUser 0 [])) st_fulfilled
      = Some (Normal (VPromise 1), st') /\
      promises st' !! 1%nat = Some rv /\
      _state rv = Some true /\ _value rv = VNum 1 /\
      callLog st' = []).
Proof.
  destruct then_defers_to_queue as [H1 H2]. split.
  - destruct (H1 no_ufun 0%nat 0%nat st_fulfilled 0%nat
                (mkPromise [] false 0 (Some true) (VNum 1)) true
                (VFn (FUser 0 [])) VNull eq_refl eq_refl eq_refl eq_refl)
      as (st' & Hrun & Hp & Hq & _ & _ & _ & Hlog).
    exists st'. split; [exact Hrun|]. split; [exact Hp|].
    split; [exact Hq|exact Hlog].
  - apply (H2 no_ufun 5%nat 0%nat st_fulfilled 0%nat
              (mkPromise [] false 0 (Some true) (VNum 1)) true
              VNull (VFn (FUser 0 []))); try reflexivity; cbn; lia.
Defined.

(** ** The listener call and the constructor *)

(** X3.  callListener: whatever the handler does, the call of the listener
    returns, and the promise that [then] returned (still pending when the
    handler completes) is settled by the handler's completion: rejected with
    what the handler threw, fulfilled with what it returned when that is not
    a thenable, settled like the core promise it returned when that one is
    settled. *)
Theorem handler_completion_settles_downstream
        ufun n st cb p rp rv rrv z a b o st1 s v :
  promises st !! p = Some rp ->
  callValue (call ufun n) cb [_value rp] (handler_entry p (_state rp) st)
  = Some (o, st1) ->
  wfb st1 = true -> heap_okb st1 = true ->
  promises st1 !! rv = Some rrv -> _state rrv = None ->
  downstream o st1 s v ->
  (p < length (promises st1))%nat -> (z < length (zones st1))%nat ->
  (length (promises st1) + length (zones st1) + 3 <= n)%nat ->
  exists st' rrv',
    callListener (call ufun n) cb p
      (mkListener a b (VFn (FResolve rv)) (VFn (FReject rv)) z) st
    = Some (Normal tt, st') /\
    promises st' !! rv = Some rrv' /\ _state rrv' = Some s /\ _value rrv' = v /\
    callLog st' = callLog st1.
Proof.
  intros Hp Hcb Hwf1 Hh1 Hrv Hpend Hd Hplt Hz Hn.
  apply wfb_sound in Hwf1. apply heap_okb_sound in Hh1.
  eapply run_callListener; eauto.
Qed.

Lemma run_reject_direct ufun n q e st st' :
  call ufun (S n) (FReject q) [e] st = Some (Normal VUndefined, st') ->
  handleRejection (call ufun n) n q e st = Some (Normal tt, st').
Proof.
  rewrite call_S. cbn [dispatch]. rewrite arg_0. unfold bind at 1.
  destruct (handleRejection (call ufun n) n q e st) as [[[[]|x] st2]|];
    intros H; inversion H; subst; reflexivity.
Qed.

(** executePromiseTask for an fn that throws. *)
Lemma run_task_throws ufun m p fn st e st1 r1 :
  callValue (call ufun (S m)) fn [VFn (FResolve p); VFn (FReject p)] st
  = Some (Throws e, st1) ->
  wf st1 -> heap_ok st1 -> promises st1 !! p = Some r1 ->
  (length (promises st1) + length (zones st1) <= S m)%nat ->
  exists st' r',
    executePromiseTask (call ufun (S m)) (S m) p fn st = Some (Normal tt, st') /\
    promises st' !! p = Some r' /\
    match _state r1 with
    | None => _state r' = Some false /\ _value r' = e
    | Some s => _state r' = Some s /\ _value r' = _value r1
    end /\
    callLog st' = callLog st1.
Proof.
  intros Hcall Hwf1 Hh1 Hr1 Hn.
  destruct (cascade_settle ufun (length (promises st1)) (S m) st1 p false e)
    as (st' & Hrun & Hc & Hset); auto.
  { apply pending_le_length. }
  { eapply lookup_lt_Some; eauto. }
  { discriminate. }
  apply run_reject_direct in Hrun.
  assert (Htask : executePromiseTask (call ufun (S m)) (S m) p fn st = Some (Normal tt, st')).
  { unfold executePromiseTask. erewrite run_try_catch_throws; [exact Hrun|].
    rewrite (run_bind_throws _ _ _ _ _ Hcall). reflexivity. }
  destruct (_state r1) as [s|] eqn:Es.
  - destruct (c_stable _ _ Hc _ _ Hr1) as (r' & Hr' & Hs' & Hv'); [congruence|].
    exists st', r'. conjs; auto; [congruence|apply Hc].
  - destruct (Hset _ Hr1 Es) as (r' & Hr' & Hs' & Hv').
    exists st', r'. conjs; auto. apply Hc.
Qed.

(** X4.  new Promise(fn) for an executor that throws: the constructor returns
    the promise; the promise is rejected with what was thrown if it was
    still pending at the throw, and keeps its outcome if the executor had
    settled it before. *)
Theorem executor_throw_rejects ufun m st fn e st1 r1 :
  let rv := length (promises st) in
  is_function fn = true ->
  callValue (call ufun (S m)) fn [VFn (FResolve rv); VFn (FReject rv)] (constructed st)
  = Some (Throws e, st1) ->
  wfb st1 = true -> heap_okb st1 = true ->
  promises st1 !! rv = Some r1 ->
  (length (promises st1) + length (zones st1) <= S m)%nat ->
  exists st' r',
    newPromise (call ufun (S m)) (S m) fn st = Some (Normal rv, st') /\
    promises st' !! rv = Some r' /\
    match _state r1 with
    | None => _state r' = Some false /\ _value r' = e
    | Some s => _state r' = Some s /\ _value r' = _value r1
    end.
Proof.
  cbv zeta. intros Hf Hcall Hwf1 Hh1 Hr1 Hn.
  apply wfb_sound in Hwf1. apply heap_okb_sound in Hh1.
  destruct (run_task_throws ufun m _ fn _ e st1 r1 Hcall Hwf1 Hh1 Hr1 Hn)
    as (st' & r' & Htask & Hr' & Hout & _).
  exists st', r'. conjs; auto.
  unfold newPromise.
  rewrite run_gets, run_allocPromise. rewrite Hf. cbn [negb].
  unfold incRef. rewrite run_modify. fold (constructed st).
  erewrite run_bind; [reflexivity|]. exact Htask.
Qed.

(** X5.  The resolving function called with a foreign thenable: its [then] is
    called at once, with the two capabilities of the promise.  When [then]
    returns, so does the resolving function, with the state as [then] left
    it; when [then] throws, the promise is rejected with what was thrown if
    it is still pending, and keeps its outcome if [then] had settled it
    before the throw; the exception does not leave the resolving
    function. *)
Theorem resolve_with_thenable_calls_then ufun m st p rp id thenFn o st1 r1 :
  promises st !! p = Some rp -> _state rp = None -> _lib rp = false ->
  call ufun m thenFn [VFn (FResolve p); VFn (FReject p)] st = Some (o, st1) ->
  wfb st1 = true -> heap_okb st1 = true ->
  promises st1 !! p = Some r1 ->
  (length (promises st1) + length (zones st1) <= S m)%nat ->
  exists st' r',
    call ufun (S (S m)) (FResolve p) [VThenable id thenFn] st
    = Some (Normal VUndefined, st') /\
    promises st' !! p = Some r' /\
    match o, _state r1 with
    | Throws e, None => _state r' = Some false /\ _value r' = e
    | _, _ => _state r' = _state r1 /\ _value r' = _value r1
    end /\
    callLog st' = callLog st1.
Proof.
  intros Hp Hs Hlib Hcall Hwf1 Hh1 Hr1 Hn.
  apply wfb_sound in Hwf1. apply heap_okb_sound in Hh1.
  assert (Hadopt : callValue (call ufun (S m)) (VFn (FAdopt (VThenable id thenFn)))
                     [VFn (FResolve p); VFn (FReject p)] st
                   = match o with
                     | Normal _ => Some (Normal VUndefined, st1)
                     | Throws e => Some (Throws e, st1)
                     end).
  { unfold callValue. rewrite call_S. cbn [dispatch]. rewrite arg_0, arg_1.
    unfold adopt. destruct o as [w|e].
    - rewrite (run_bind _ _ _ _ _ Hcall). reflexivity.
    - apply run_bind_throws. exact Hcall. }
  assert (Hres : forall st',
             executePromiseTask (call ufun (S m)) (S m) p
               (VFn (FAdopt (VThenable id thenFn))) st = Some (Normal tt, st') ->
             call ufun (S (S m)) (FResolve p) [VThenable id thenFn] st
             = Some (Normal VUndefined, st')).
  { intros st' Htask. rewrite call_S. cbn [dispatch]. rewrite arg_0. unfold resolveFn.
    rewrite (run_bind _ _ _ _ _ (run_getPromise _ _ _ Hp)). rewrite Hs, Hlib.
    cbn [strict_eq same_value is_thenable]. rewrite run_ret.
    rewrite (run_bind _ _ _ _ _ Htask). reflexivity. }
  destruct o as [w|e].
  - exists st1, r1. conjs; auto. apply Hres.
    unfold executePromiseTask. apply run_try_catch_normal.
    rewrite (run_bind _ _ _ _ _ Hadopt). reflexivity.
  - destruct (run_task_throws ufun m p _ st e st1 r1 Hadopt Hwf1 Hh1 Hr1 Hn)
      as (st' & r' & Htask & Hr' & Hout & Hc).
    exists st', r'. conjs; auto.
    destruct (_state r1); auto.
Qed.

(** X6.  new Promise(fn) for an fn that is not a function: a TypeError is
    thrown; no reference is counted on the zone and nothing is queued. *)
Theorem constructor_rejects_non_function call fuel fn st :
  is_function fn = false ->
  exists st',
    newPromise call fuel fn st
    = Some (Throws (VObj (nextObjId st) (Some ETypeError) None "Not a function"), st') /\
    zones st' = zones st /\ microtickQueue st' = microtickQueue st /\
    unhandledErrors st' = unhandledErrors st /\
    (forall p r, promises st !! p = Some r -> promises st' !! p = Some r).
Proof.
  intros Hf. unfold newPromise. rewrite run_gets, run_allocPromise, Hf. cbn [negb].
  eexists. split; [reflexivity|]. conjs; try reflexivity.
  intros p r Hp. cbn. rewrite lookup_app_l; [exact Hp|eapply lookup_lt_Some; eauto].
Qed.


Lemma errclass_eqb_trans a b c :
  errclass_eqb a b = true -> errclass_eqb b c = true -> errclass_eqb a c = true.
Proof.
  destruct a, b; try discriminate; destruct c; try discriminate; auto.
  cbn. intros H1 H2. apply Nat.eqb_eq in H1, H2. subst. apply Nat.eqb_refl.
Qed.

Ltac eqb_split :=
  repeat match goal with
         | H : _ && _ = true |- _ => apply andb_true_iff in H as [? ?]
         end;
  repeat match goal with
         | H : Nat.eqb _ _ = true |- _ => apply Nat.eqb_eq in H; subst
         | H : Z.eqb _ _ = true |- _ => apply Z.eqb_eq in H; subst
         | H : String.eqb _ _ = true |- _ => apply String.eqb_eq in H; subst
         | H : Bool.eqb _ _ = true |- _ => apply Bool.eqb_prop in H; subst
         end.

(** Being the same value is transitive, and so is [===]. *)
Fixpoint same_value_trans (a b c : Value) {struct a} :
  same_value a b = true -> same_value b c = true -> same_value a c = true
with fn_eq_trans (f g h : Fn) {struct f} :
  fn_eq f g = true -> fn_eq g h = true -> fn_eq f h = true
with listener_eq_trans (l m k : Listener) {struct l} :
  listener_eq l m = true -> listener_eq m k = true -> listener_eq l k = true.
Proof.
  - destruct a, b; try discriminate; destruct c; try discriminate; cbn; intros H1 H2;
      eqb_split;
      rewrite ?Nat.eqb_refl, ?Z.eqb_refl, ?String.eqb_refl, ?Bool.eqb_reflx;
      eauto using errclass_eqb_trans;
      try (apply Z.eqb_eq; congruence).
  - assert (Hl : forall xs ys zs : list Value,
               (fix list_eq (xs ys : list Value) {struct xs} : bool :=
                  match xs, ys with
                  | [], [] => true
                  | x :: xs', y :: ys' => same_value x y && list_eq xs' ys'
                  | _, _ => false
                  end) xs ys = true ->
               (fix list_eq (xs ys : list Value) {struct xs} : bool :=
                  match xs, ys with
                  | [], [] => true
                  | x :: xs', y :: ys' => same_value x y && list_eq xs' ys'
                  | _, _ => false
                  end) ys zs = true ->
               (fix list_eq (xs ys : list Value) {struct xs} : bool :=
                  match xs, ys with
                  | [], [] => true
                  | x :: xs', y :: ys' => same_value x y && list_eq xs' ys'
                  | _, _ => false
                  end) xs zs = true).
    { fix IH 1. intros [|x xs] [|y ys]; try discriminate; intros [|z zs]; try discriminate.
      - reflexivity.
      - intros H1 H2. apply andb_true_iff in H1 as [H1 H1'].
        apply andb_true_iff in H2 as [H2 H2'].
        rewrite (same_value_trans x y z H1 H2), (IH xs ys zs H1' H2'). reflexivity. }
    destruct f, g; try discriminate; destruct h; try discriminate; cbn; intros H1 H2;
      eqb_split;
      rewrite ?Nat.eqb_refl;
      repeat match goal with
             | Ha : same_value ?x ?y = true, Hb : same_value ?y ?z = true
               |- context [same_value ?x ?z] =>
                 rewrite (same_value_trans x y z Ha Hb)
             end;
      rewrite ?Bool.eqb_reflx;
      try reflexivity; eauto.
  - destruct l, m, k; cbn; intros H1 H2. eqb_split.
    rewrite ?Nat.eqb_refl;
      repeat match goal with
             | Ha : same_value ?x ?y = true, Hb : same_value ?y ?z = true
               |- context [same_value ?x ?z] =>
                 rewrite (same_value_trans x y z Ha Hb)
             end.
    reflexivity.
Qed.

Lemma strict_eq_trans a b c :
  strict_eq a b = true -> strict_eq b c = true -> strict_eq a c = true.
Proof.
  intros H1 H2.
  assert (Ha : a <> VNaN) by (intros ->; discriminate).
  assert (Hb : b <> VNaN) by (intros ->; discriminate).
  rewrite strict_eq_same in * by assumption.
  eapply same_value_trans; eauto.
Qed.

(** ** The unhandled-rejection list *)

Lemma set_hostEvents_app st l1 l2 :
  set_hostEvents (fun h => h ++ l2) (set_hostEvents (fun h => h ++ l1) st)
  = set_hostEvents (fun h => h ++ l1 ++ l2) st.
Proof. unfold set_hostEvents. cbn. rewrite <- app_assoc. reflexivity. Qed.

Lemma set_hostEvents_nil st : set_hostEvents (fun h => h ++ []) st = st.
Proof. unfold set_hostEvents. rewrite app_nil_r. destruct st; reflexivity. Qed.

Lemma run_forEach_report errs : forall st,
    (forall q, q ∈ errs -> (q < length (promises st))%nat) ->
    forEach errs (fun p => r <- getPromise p ;; globalError (_value r) p) st =
    Some (Normal tt,
          set_hostEvents (fun h => h ++ map (fun q => (reason_at st q, q)) errs) st).
Proof.
  induction errs as [|q errs IH]; intros st Hall; cbn [forEach map].
  - rewrite set_hostEvents_nil. reflexivity.
  - destruct (lookup_lt_is_Some_2 (promises st) q) as (r & Hr); [apply Hall; left|].
    rewrite (run_bind _ _ st tt (set_hostEvents (fun l => l ++ [(_value r, q)]) st)).
    2:{ rewrite (run_bind _ _ _ _ _ (run_getPromise _ _ _ Hr)). reflexivity. }
    rewrite IH by (intros x Hx; apply Hall; right; exact Hx).
    rewrite set_hostEvents_app. unfold reason_at at 2. rewrite Hr. reflexivity.
Qed.

(** X7.  finalizePhysicalTick: every promise of the unhandled list is reported
    to the host once, with its reason, in the order of the list, and the
    list is left empty; so nothing is reported twice. *)
Theorem finalize_reports_each_unhandled_once call st :
  wfb st = true ->
  let st' := set_hostEvents
               (fun h => h ++ map (fun q => (reason_at st q, q)) (unhandledErrors st))
               (set_unhandledErrors (fun _ => []) st) in
  finalizePhysicalTick call st = Some (Normal tt, st') /\
  finalizePhysicalTick call st' = Some (Normal tt, st').
Proof.
  intros Hwf. apply wfb_sound in Hwf. cbv zeta.
  assert (Hrun : forall s, wf s ->
             finalizePhysicalTick call s =
             Some (Normal tt,
                   set_hostEvents
                     (fun h => h ++ map (fun q => (reason_at s q, q)) (unhandledErrors s))
                     (set_unhandledErrors (fun _ => []) s))).
  { intros s Hs. unfold finalizePhysicalTick. rewrite run_gets, run_modify.
    erewrite run_bind; [|apply run_forEach_report; apply (wf_unh _ Hs)].
    rewrite run_gets. cbn [tickFinalizers set_hostEvents set_unhandledErrors].
    rewrite (wf_fin _ Hs). reflexivity. }
  split; [apply Hrun; exact Hwf|].
  rewrite Hrun.
  - cbn [unhandledErrors set_hostEvents set_unhandledErrors map].
    rewrite set_hostEvents_nil. destruct st; reflexivity.
  - apply (wf_frame st); auto.
    + intros q Hq. inversion Hq.
    + apply (wf_psd _ Hwf).
Qed.

Lemma remove_last_match_snoc f l p :
  f p = true -> remove_last_match f (l ++ [p]) = Some l.
Proof.
  intros Hp. induction l as [|q l IH]; cbn.
  - rewrite Hp. reflexivity.
  - rewrite IH. reflexivity.
Qed.

Lemma remove_last_match_none f l :
  remove_last_match f l = None <-> existsb f l = false.
Proof.
  induction l as [|q l IH]; cbn; [tauto|].
  destruct (remove_last_match f l) as [l'|].
  - split; [discriminate|]. intros H. apply orb_false_iff in H as [_ H].
    apply IH in H. discriminate.
  - destruct (f q); cbn; [split; discriminate|]. tauto.
Qed.

Lemma remove_last_match_last f l l' :
  remove_last_match f l = Some l' ->
  exists l1 x l2, l = l1 ++ x :: l2 /\ l' = l1 ++ l2 /\ f x = true /\ existsb f l2 = false.
Proof.
  revert l'. induction l as [|q l IH]; cbn; intros l' H; [discriminate|].
  destruct (remove_last_match f l) as [l''|] eqn:E.
  - inversion H; subst. destruct (IH l'' eq_refl) as (l1 & x & l2 & -> & -> & Hx & Hl2).
    exists (q :: l1), x, l2. auto.
  - destruct (f q) eqn:Eq; inversion H; subst. exists [], q, l'.
    apply remove_last_match_none in E. auto.
Qed.

Lemma distinct_middle l1 x l2 :
  distinct (l1 ++ x :: l2) -> Forall (fun w => eq_by_value w x = false) l1.
Proof.
  induction l1 as [|w l1 IH]; cbn; [constructor|].
  intros [Hw Hd]. constructor; [|auto].
  rewrite Forall_app in Hw. destruct Hw as [_ Hw]. inversion Hw; subst. assumption.
Qed.

Lemma strict_eq_false_trans a b c :
  strict_eq a b = false -> strict_eq b c = true -> strict_eq a c = false.
Proof.
  intros H1 H2. destruct (strict_eq a c) eqn:E; [|reflexivity].
  rewrite strict_eq_sym in H2.
  rewrite (strict_eq_trans a c b E H2) in H1. discriminate.
Qed.

(** X8.  markErrorAsHandled(promise), for a promise whose reason is no
    function value: of the entries whose reason is [===] to the promise's,
    the last one is removed and the others stay in place; without such an
    entry (as for the reason NaN, which is [===] to nothing) the list stays
    as it is.  On a list with one entry per reason, no entry with that
    reason is left.  And right after the promise was added by
    addPossiblyUnhandledError (its reason, not NaN, was not on the list),
    the call takes it off again: the state is back. *)
Theorem mark_handled_removes_the_reason :
  (forall st p r,
      promises st !! p = Some r -> by_value (_value r) = true ->
      exists st',
        markErrorAsHandled p st = Some (Normal tt, st') /\
        promises st' = promises st /\
        (if existsb (same_reason st (_value r)) (unhandledErrors st)
         then exists l1 x l2,
             unhandledErrors st = l1 ++ x :: l2 /\
             unhandledErrors st' = l1 ++ l2 /\
             same_reason st (_value r) x = true /\
             existsb (same_reason st (_value r)) l2 = false
         else st' = st)) /\
  (forall st p r o st',
      promises st !! p = Some r -> by_value (_value r) = true ->
      unhandled_ok st ->
      markErrorAsHandled p st = Some (o, st') ->
      existsb (same_reason st' (_value r)) (unhandledErrors st') = false) /\
  (forall st p r,
      promises st !! p = Some r -> by_value (_value r) = true ->
      _value r <> VNaN ->
      existsb (same_reason st (_value r)) (unhandledErrors st) = false ->
      (addPossiblyUnhandledError p ;;; markErrorAsHandled p) st = Some (Normal tt, st)).
Proof.
  split; [|split].
  - intros st p r Hp _. unfold markErrorAsHandled.
    rewrite (run_bind _ _ _ _ _ (run_getPromise _ _ _ Hp)), run_gets. cbv [id].
    destruct (remove_last_match _ _) as [l|] eqn:E.
    + apply remove_last_match_last in E as Hsplit.
      destruct Hsplit as (l1 & x & l2 & E1 & E2 & Hx & Hl2).
      eexists. split; [reflexivity|]. split; [reflexivity|].
      replace (existsb (same_reason st (_value r)) (unhandledErrors st)) with true.
      * exists l1, x, l2. auto.
      * symmetry. rewrite E1, existsb_app. cbn. rewrite Hx. apply orb_true_r.
    + exists st. split; [reflexivity|]. split; [reflexivity|].
      apply remove_last_match_none in E. rewrite E. reflexivity.
  - intros st p r o st' Hp Hbv [Hall Hd] Hrun. unfold markErrorAsHandled in Hrun.
    unfold listed_settled in Hall.
    rewrite (run_bind _ _ _ _ _ (run_getPromise _ _ _ Hp)), run_gets in Hrun.
    cbv [id] in Hrun.
    destruct (remove_last_match _ _) as [l|] eqn:E.
    + inversion Hrun; subst. cbn [unhandledErrors set_unhandledErrors].
      change (same_reason (set_unhandledErrors (fun _ => l) st)) with (same_reason st).
      destruct (remove_last_match_last _ _ _ E) as (l1 & x & l2 & E1 & -> & Hx & Hl2).
      rewrite existsb_app, Hl2, orb_false_r.
      rewrite E1, map_app in Hd. cbn [map] in Hd.
      apply distinct_middle in Hd.
      rewrite E1 in Hall. apply Forall_app in Hall as [Hall1 _].
      clear E E1 Hrun. induction l1 as [|y l1 IH]; [reflexivity|].
      cbn. inversion Hd as [|? ? Hy Hd']; subst.
      inversion Hall1 as [|? ? (ry & Hry & _) Hall1']; subst.
      rewrite IH by assumption. rewrite orb_false_r.
      unfold same_reason in *. unfold reason_at in Hy. rewrite Hry in *.
      destruct (promises st !! x) as [rx|]; [|discriminate].
      destruct (strict_eq (_value ry) (_value r)) eqn:E; [|reflexivity].
      assert (Hby : by_value (_value ry) = true)
        by (rewrite (strict_eq_by_value _ _ E); exact Hbv).
      apply eq_by_value_strict in Hy; [|exact Hby].
      rewrite (strict_eq_false_trans _ _ _ Hy Hx) in E. discriminate.
    + inversion Hrun; subst. apply remove_last_match_none in E. exact E.
  - intros st p r Hp _ Hnan He. unfold addPossiblyUnhandledError.
    erewrite run_bind.
    2:{ rewrite (run_bind _ _ _ _ _ (run_getPromise _ _ _ Hp)), run_gets. cbv [id].
        rewrite He. reflexivity. }
    unfold markErrorAsHandled.
    erewrite run_bind; [|apply run_getPromise; exact Hp].
    rewrite run_gets. cbv [id]. cbn [unhandledErrors set_unhandledErrors].
    rewrite remove_last_match_snoc.
    + unfold modify, set_unhandledErrors. cbn. destruct st; reflexivity.
    + unfold same_reason. cbn [promises set_unhandledErrors]. rewrite Hp.
      apply strict_eq_refl. exact Hnan.
Qed.


(** ** Promises that follow another promise *)

(** Of the promises pending in [st], those settled in [st'] are settled
    with the outcome [(s, v)]. *)
Definition only_outcome (s : bool) (v : Value) (st st' : State) : Prop :=
  forall d r r',
    promises st !! d = Some r -> _state r = None ->
    promises st' !! d = Some r' ->
    _state r' = None \/ (_state r' = Some s /\ _value r' = v).

(** The unhandled list along the settlements with the value [v] that one
    call triggers, for a [v] that is [===] to itself (any but NaN): the list
    stays as it is, or it gets one promise rejected with [v], when no entry
    had that reason. *)
Definition listing (v : Value) (st st' : State) : Prop :=
  strict_eq v v = true -> listed_settled st ->
  listed_settled st' /\
  (unhandledErrors st' = unhandledErrors st \/
   exists p r, unhandledErrors st' = unhandledErrors st ++ [p] /\
               existsb (same_reason st v) (unhandledErrors st) = false /\
               promises st' !! p = Some r /\ _state r = Some false /\ _value r = v).

Lemma listed_settled_stable st st' :
  settled_stable st st' -> unhandledErrors st' = unhandledErrors st ->
  listed_settled st -> listed_settled st'.
Proof.
  intros Hst E H. unfold listed_settled in *. rewrite E.
  eapply Forall_impl; [exact H|]. intros q (r & Hr & Hs). cbn.
  destruct (Hst q r Hr Hs) as (r' & Hr' & Hs' & _). exists r'. split; congruence.
Qed.

Lemma same_reason_stable st st' v l :
  settled_stable st st' ->
  Forall (fun q => exists r, promises st !! q = Some r /\ _state r <> None) l ->
  existsb (same_reason st' v) l = existsb (same_reason st v) l.
Proof.
  intros Hst. induction 1 as [|q l (r & Hr & Hs) _ IH]; [reflexivity|].
  cbn. rewrite IH. f_equal. unfold same_reason.
  destruct (Hst q r Hr Hs) as (r' & Hr' & _ & Hv'). rewrite Hr, Hr', Hv'. reflexivity.
Qed.

Lemma listing_same v st st' :
  settled_stable st st' -> unhandledErrors st' = unhandledErrors st -> listing v st st'.
Proof.
  intros Hst E _ H. split; [eapply listed_settled_stable; eauto|left; exact E].
Qed.

Lemma listing_trans v a b c :
  settled_stable a b -> settled_stable b c ->
  listing v a b -> listing v b c -> listing v a c.
Proof.
  intros Sab Sbc Lab Lbc Hv La.
  destruct (Lab Hv La) as [Lb Cab]. destruct (Lbc Hv Lb) as [Lc Cbc].
  split; [exact Lc|].
  destruct Cab as [Eab|(p & r & Eab & Nab & Hp & Hs & Hval)];
    destruct Cbc as [Ebc|(p' & r' & Ebc & Nbc & Hp' & Hs' & Hval')].
  - left. congruence.
  - right. exists p', r'. rewrite Ebc, Eab. conjs; auto.
    rewrite <- Nbc, Eab. symmetry. apply same_reason_stable; assumption.
  - right. destruct (Sbc p r Hp) as (r2 & Hp2 & Hs2 & Hv2); [congruence|].
    exists p, r2. rewrite Ebc, Eab. conjs; auto; congruence.
  - exfalso. rewrite Eab, existsb_app in Nbc. apply orb_false_iff in Nbc as [_ Nbc].
    cbn in Nbc. unfold same_reason in Nbc. rewrite Hp, Hval, Hv in Nbc. discriminate.
Qed.

Record follows (s : bool) (v : Value) (st st' : State) : Prop := {
  f_cascade : cascade st st';
  f_only : only_outcome s v st st';
  f_listing : listing v st st'
}.

Lemma follows_frame s v st st' :
  wf st' -> heap_ok st -> promises st' = promises st -> callLog st' = callLog st ->
  length (zones st') = length (zones st) ->
  unhandledErrors st' = unhandledErrors st -> follows s v st st'.
Proof.
  intros Hwf Hh Ep Ec Ez Eu. split; [apply cascade_frame; auto| |].
  - intros d r r' Hd Hs Hd'. rewrite Ep in Hd'. left. congruence.
  - apply listing_same; [apply settled_stable_frame; exact Ep|exact Eu].
Qed.

Lemma follows_refl s v st : wf st -> heap_ok st -> follows s v st st.
Proof. intros. apply follows_frame; auto. Qed.

Lemma follows_trans s v a b c : follows s v a b -> follows s v b c -> follows s v a c.
Proof.
  intros [Hab Oab Lab] [Hbc Obc Lbc]. split; [eapply cascade_trans; eauto| |].
  - intros d r r' Hd Hs Hd'.
    destruct (lookup_lt_is_Some_2 (promises b) d) as (rb & Hb).
    { rewrite (c_length _ _ Hab). eapply lookup_lt_Some; eauto. }
    destruct (Oab d r rb Hd Hs Hb) as [Hpend|[Hsb Hvb]].
    + eapply Obc; eauto.
    + right. destruct (c_stable _ _ Hbc d rb Hb) as (r2 & H2 & Hs2 & Hv2); [congruence|].
      assert (r2 = r') by congruence. subst r2. split; congruence.
  - eapply listing_trans; eauto; apply c_stable; assumption.
Qed.

Lemma follows_of_cascade_same s v st st' :
  cascade st st' ->
  (forall d r r', promises st !! d = Some r -> promises st' !! d = Some r' ->
                  _state r' = _state r \/ (_state r' = Some s /\ _value r' = v)) ->
  unhandledErrors st' = unhandledErrors st ->
  follows s v st st'.
Proof.
  intros Hc H Eu. split; [exact Hc| |].
  - intros d r r' Hd Hs Hd'. destruct (H d r r' Hd Hd') as [E|E]; [left; congruence|auto].
  - apply listing_same; [apply (c_stable _ _ Hc)|exact Eu].
Qed.

(** A listener without a handler for the outcome [s] hands the outcome to
    the promise [d]. *)
Definition forwards (s : bool) (l : Listener) (d : nat) : Prop :=
  (if s then l_onFulfilled l else l_onRejected l) = VNull /\
  (if s then l_resolve l else l_reject l) = VFn (if s then FResolve d else FReject d).

Definition settles_followers (ufun : nat -> list Value -> list Value -> Prog) (k : nat)
  : Prop :=
  forall n st q (s : bool) v,
    wf st -> heap_ok st -> (pending (promises st) <= k)%nat ->
    (q < length (promises st))%nat ->
    (s = true -> is_thenable v = false) ->
    (k + length (zones st) <= n)%nat ->
    exists st',
      call ufun (S n) (if s then FResolve q else FReject q) [v] st
      = Some (Normal VUndefined, st') /\
      follows s v st st' /\
      (forall r, promises st !! q = Some r -> _state r = None ->
                 (exists r', promises st' !! q = Some r' /\
                             _state r' = Some s /\ _value r' = v) /\
                 (forall l d, l ∈ _listeners r -> forwards s l d ->
                              exists rd, promises st' !! d = Some rd /\
                                         _state rd <> None)).

Lemma settled_stays st st' d rd :
  cascade st st' -> promises st !! d = Some rd -> _state rd <> None ->
  exists rd', promises st' !! d = Some rd' /\ _state rd' <> None.
Proof.
  intros Hc Hd Hs. destruct (c_stable _ _ Hc d rd Hd Hs) as (r' & H1 & H2 & _).
  exists r'. split; [exact H1|congruence].
Qed.

Lemma followers_forEach ufun k n q (s : bool) v :
  settles_followers ufun k ->
  (s = true -> is_thenable v = false) ->
  forall ls st,
    (forall l, l ∈ ls -> listener_ok (length (promises st)) l) ->
    wf st -> heap_ok st -> (pending (promises st) <= k)%nat ->
    (exists r, promises st !! q = Some r /\ _state r = Some s /\ _value r = v) ->
    (S k + length (zones st) <= n)%nat ->
    exists st',
      forEach ls (fun l => propagateToListener (call ufun n) q l ;;; ret tt) st
      = Some (Normal tt, st') /\
      follows s v st st' /\
      (forall l d, l ∈ ls -> forwards s l d ->
                   exists rd, promises st' !! d = Some rd /\ _state rd <> None).
Proof.
  intros IH Hv. induction ls as [|l ls IHls]; intros st Hls Hwf Hh Hk Hq Hn.
  - exists st. split; [reflexivity|]. split; [apply follows_refl; auto|].
    intros l d Hl. inversion Hl.
  - destruct Hq as (r & Hq & Hs & Hval).
    assert (Hstep : exists st1,
               propagateToListener (call ufun n) q l st = Some (Normal VUndefined, st1) /\
               follows s v st st1 /\
               (forall d, forwards s l d ->
                          exists rd, promises st1 !! d = Some rd /\ _state rd <> None)).
    { destruct (strict_eq (if s then l_onFulfilled l else l_onRejected l) VNull) eqn:Ecb.
      - unfold propagateToListener.
        rewrite (run_bind _ _ _ _ _ (run_getPromise _ _ _ Hq)). rewrite Hs, Ecb, Hval.
        destruct (Hls l ltac:(left)) as (d0 & d0' & Hr1 & Hr2 & Hd & Hd').
        rewrite Hr1, Hr2. destruct n as [|n]; [lia|].
        assert (Hdd : (((if s then d0 else d0') < length (promises st))%nat))
          by (destruct s; auto).
        destruct (IH n st (if s then d0 else d0') s v Hwf Hh Hk Hdd Hv)
          as (st1 & Hrun & Hf & Hset); [lia|].
        exists st1. split; [|split; [exact Hf|]].
        + cbn [callValue]. destruct s; exact Hrun.
        + intros d [_ Hcap].
          assert (d = if s then d0 else d0').
          { destruct s; [rewrite Hr1 in Hcap|rewrite Hr2 in Hcap]; congruence. }
          subst d.
          destruct (lookup_lt_is_Some_2 _ _ Hdd) as (rd & Hrd).
          destruct (_state rd) as [sd|] eqn:Esd.
          * eapply settled_stays; [apply Hf|exact Hrd|congruence].
          * destruct (Hset rd Hrd Esd) as ((r' & Hr' & Hs' & _) & _).
            exists r'. split; [exact Hr'|congruence].
      - rewrite (run_propagateToListener_schedule _ st q l r s Hwf Hq Hs Ecb).
        eexists. split; [reflexivity|].
        destruct (same_asap_state FCallListener
                    [if s then l_onFulfilled l else l_onRejected l; VPromise q; VListener l]
                    (set_numScheduledCalls Z.succ
                       (update_zone (l_psd l) (with_ref Z.succ) st))) as (E1 & E2 & E3).
        split.
        + apply follows_frame; auto.
          * apply wf_schedule. exact Hwf.
          * rewrite E3. cbn. apply length_update_zone.
          * rewrite unhandled_asap_state. reflexivity.
        + intros d [Hnull _]. rewrite Hnull in Ecb.
          destruct s; discriminate. }
    destruct Hstep as (st1 & Hrun1 & Hf1 & Hfw1).
    pose proof (f_cascade _ _ _ _ Hf1) as Hc1.
    destruct (IHls st1) as (st' & Hrun' & Hf' & Hfw').
    + intros l' Hl'. rewrite (c_length _ _ Hc1). apply Hls. right. exact Hl'.
    + apply Hc1.
    + apply Hc1.
    + pose proof (c_pending _ _ Hc1). lia.
    + destruct (c_stable _ _ Hc1 q r Hq) as (r' & Hq' & Hs' & Hv'); [congruence|].
      exists r'. conjs; congruence.
    + rewrite (c_zones _ _ Hc1). exact Hn.
    + exists st'. split; [|split; [eapply follows_trans; eauto|]].
      * cbn [forEach]. erewrite run_bind; [exact Hrun'|].
        rewrite (run_bind _ _ _ _ _ Hrun1). reflexivity.
      * intros l0 d Hl0 Hfw. apply elem_of_cons in Hl0 as [->|Hl0].
        -- destruct (Hfw1 d Hfw) as (rd & Hrd & Hsd).
           eapply settled_stays; [apply Hf'|exact Hrd|exact Hsd].
        -- eapply Hfw'; eauto.
Qed.

Lemma follows_update_promise s v st q f r :
  wf st -> heap_ok st -> promises st !! q = Some r ->
  _PSD (f r) = _PSD r -> _lib (f r) = _lib r ->
  (forall l, l ∈ _listeners (f r) -> l ∈ _listeners r) ->
  (_state (f r) = _state r /\ _value (f r) = _value r \/
   _state r = None /\ _state (f r) = Some s /\ _value (f r) = v) ->
  (_state (f r) = Some true -> is_thenable (_value (f r)) = false) ->
  follows s v st (update_promise q f st).
Proof.
  intros Hwf Hh Hq Hpsd Hlib Hls Hst Hval.
  apply follows_of_cascade_same.
  - apply (cascade_update_promise st q f r); auto.
    + destruct Hst as [[H1 H2]|[H1 _]]; auto.
    + intros Hp. unfold is_pending in *.
      destruct Hst as [[H1 H2]|[H1 [H2 _]]]; [rewrite <- H1; exact Hp|].
      rewrite H2 in Hp. discriminate.
  - intros d rd rd' Hd Hd'. rewrite lookup_update_promise in Hd'.
    destruct (decide (q = d)) as [->|]; [|left; congruence].
    rewrite Hd in Hd'. cbn in Hd'. assert (rd = r) by congruence. subst rd.
    inversion Hd'; subst.
    destruct Hst as [[H1 H2]|[H1 [H2 H3]]]; [left; exact H1|right; auto].
  - reflexivity.
Qed.

(** addPossiblyUnhandledError, as a function of the state. *)
Definition listed_state (q : nat) (v : Value) (st : State) : State :=
  if existsb (same_reason st v) (unhandledErrors st) then st
  else set_unhandledErrors (fun l => l ++ [q]) st.

Lemma run_addPossiblyUnhandledError_state st q r :
  promises st !! q = Some r ->
  addPossiblyUnhandledError q st = Some (Normal tt, listed_state q (_value r) st).
Proof.
  intros Hq. unfold addPossiblyUnhandledError, listed_state.
  rewrite (run_bind _ _ _ _ _ (run_getPromise _ _ _ Hq)). rewrite run_gets. cbv [id].
  destruct (existsb _ _); reflexivity.
Qed.

Lemma follows_listed_state s st q r :
  wf st -> heap_ok st -> promises st !! q = Some r -> _state r = Some false ->
  follows s (_value r) st (listed_state q (_value r) st).
Proof.
  intros Hwf Hh Hq Hs.
  destruct (run_addPossiblyUnhandledError st q r Hwf Hq)
    as (st2 & Hrun2 & Hwf2 & Hp2 & Hcl2 & Hz2).
  rewrite (run_addPossiblyUnhandledError_state st q r Hq) in Hrun2.
  injection Hrun2 as <-.
  split.
  - apply cascade_frame; auto. rewrite Hz2. reflexivity.
  - intros d rd rd' Hd Hsd Hd'. rewrite Hp2 in Hd'. left. congruence.
  - intros Hv Hls. unfold listed_state in *.
    destruct (existsb _ _) eqn:E.
    + split; [exact Hls|left; reflexivity].
    + split.
      * unfold listed_settled. cbn. apply Forall_app. split; [exact Hls|].
        constructor; [|constructor]. exists r. split; [exact Hq|congruence].
      * right. exists q, r. cbn. conjs; auto.
Qed.

Lemma followers_propagateAll ufun k n q r (s : bool) v :
  settles_followers ufun k ->
  forall st,
    wf st -> heap_ok st -> (pending (promises st) <= k)%nat ->
    promises st !! q = Some r -> _state r = Some s -> _value r = v ->
    (S k + length (zones st) <= n)%nat ->
    exists st',
      propagateAllListeners (call ufun n) q st = Some (Normal tt, st') /\
      follows s v st st' /\
      (forall l d, l ∈ _listeners r -> forwards s l d ->
                   exists rd, promises st' !! d = Some rd /\ _state rd <> None).
Proof.
  intros IH st Hwf Hh Hk Hq Hs Hval Hn. unfold propagateAllListeners.
  rewrite (run_bind _ _ _ _ _ (run_getPromise _ _ _ Hq)). rewrite run_modify.
  set (st1 := update_promise q (with_listeners []) st).
  assert (Hf1 : follows s v st st1).
  { apply (follows_update_promise s v st q _ r); auto.
    - intros l Hl. inversion Hl.
    - intros Hs'. apply (ok_value _ _ (Hh q r Hq)). exact Hs'. }
  pose proof (f_cascade _ _ _ _ Hf1) as Hc1.
  assert (Hq1 : promises st1 !! q = Some (with_listeners [] r))
    by (apply lookup_update_promise_eq; exact Hq).
  destruct (followers_forEach ufun k n q s v IH) with (ls := _listeners r) (st := st1)
    as (st2 & Hrun2 & Hf2 & Hfw2).
  - intros ->. subst v. apply (ok_value _ _ (Hh q r Hq)). exact Hs.
  - intros l Hl. rewrite (c_length _ _ Hc1). apply (ok_listeners _ _ (Hh q r Hq)). exact Hl.
  - apply Hc1.
  - apply Hc1.
  - pose proof (c_pending _ _ Hc1). lia.
  - exists (with_listeners [] r). conjs; auto.
  - rewrite (c_zones _ _ Hc1). exact Hn.
  - rewrite (run_bind _ _ _ _ _ Hrun2).
    assert (Hf12 : follows s v st st2) by (eapply follows_trans; eauto).
    pose proof (f_cascade _ _ _ _ Hf12) as Hc12.
    pose proof (f_cascade _ _ _ _ Hf2) as Hc2.
    assert (Hwf2 : wf st2) by apply Hc2.
    assert (Hlt : (_PSD r < length (zones st2))%nat).
    { rewrite (c_zones _ _ Hc12). eapply (wf_psd _ Hwf); eauto. }
    destruct (lookup_lt_is_Some_2 (zones st2) (_PSD r) Hlt) as (zr & Hz).
    destruct (release_spec ufun n (_PSD r) st2 zr Hwf2 Hz)
      as (zs' & chain & h & Hrun & Hv & _).
    { rewrite (c_zones _ _ Hc12) in Hlt. lia. }
    rewrite (run_bind _ _ _ _ _ Hrun). rewrite run_gets.
    set (st3 := zone_step zs' (finalizeLog st2 ++ chain) h st2).
    assert (Hwf3 : wf st3) by (apply wf_zone_step; auto).
    assert (Hlen : length zs' = length (zones st2)).
    { rewrite <- (length_map zone_view zs'), Hv. apply length_map. }
    assert (Hf3 : follows s v st2 st3).
    { apply follows_frame; auto. apply Hc2. }
    assert (Hfinal : forall st4, follows s v st3 st4 ->
               follows s v st st4 /\
               (forall l d, l ∈ _listeners r -> forwards s l d ->
                            exists rd, promises st4 !! d = Some rd /\ _state rd <> None)).
    { intros st4 Hf4. split.
      - eapply follows_trans; [exact Hf12|]. eapply follows_trans; eauto.
      - intros l d Hl Hfw. destruct (Hfw2 l d Hl Hfw) as (rd & Hrd & Hsd).
        eapply settled_stays; [|exact Hrd|exact Hsd].
        eapply cascade_trans; [apply Hf3|apply Hf4]. }
    destruct (numScheduledCalls st3 =? 0); unfold when.
    + rewrite run_modify.
      assert (Hwf4 : wf (set_numScheduledCalls Z.succ st3))
        by (destruct Hwf3; constructor; auto).
      rewrite (run_asap _ _ _ Hwf4). eexists. split; [reflexivity|].
      apply Hfinal.
      destruct (same_asap_state FTickDec [] (set_numScheduledCalls Z.succ st3))
        as (E1 & E2 & E3).
      apply follows_frame; auto.
      * apply wf_asap. exact Hwf4.
      * apply (f_cascade _ _ _ _ Hf3).
      * rewrite E3. reflexivity.
      * rewrite unhandled_asap_state. reflexivity.
    + exists st3. split; [reflexivity|]. apply Hfinal. apply follows_refl; auto.
      apply (f_cascade _ _ _ _ Hf3).
Qed.

Lemma followers_settle_step ufun k :
  (forall k', k = S k' -> settles_followers ufun k') -> settles_followers ufun k.
Proof.
  intros IH n st q s v Hwf Hh Hk Hq Hv Hn.
  destruct (lookup_lt_is_Some_2 _ _ Hq) as (r & Hr).
  destruct (_state r) as [s0|] eqn:Es.
  - (* settled already *)
    destruct s.
    + exists st. split; [|split].
      * rewrite call_S. cbn [dispatch]. rewrite arg_0. unfold resolveFn.
        rewrite (run_bind _ _ _ _ _ (run_getPromise _ _ _ Hr)). rewrite Es. reflexivity.
      * apply follows_refl; auto.
      * intros r0 Hr0 Hs0. congruence.
    + exists (set_rejectingErrors (fun l => l ++ [v]) st). split; [|split].
      * rewrite call_S. cbn [dispatch]. rewrite arg_0.
        erewrite run_bind; [reflexivity|].
        unfold handleRejection. rewrite run_modify.
        erewrite run_bind; [|apply run_getPromise; exact Hr]. rewrite Es. reflexivity.
      * apply follows_frame; auto. destruct Hwf; constructor; auto.
      * intros r0 Hr0 Hs0. cbn in Hr0. congruence.
  - (* pending *)
    destruct k as [|k]; [pose proof (pending_pos _ _ _ Hr Es); lia|].
    specialize (IH k eq_refl).
    assert (Hlib : _lib r = false) by apply (ok_lib _ _ (Hh q r Hr)).
    assert (Hsettle : forall st0,
               wf st0 -> heap_ok st0 -> promises st0 = promises st ->
               callLog st0 = callLog st -> zones st0 = zones st ->
               unhandledErrors st0 = unhandledErrors st ->
               follows s v st (update_promise q (with_settled s v) st0) /\
               (pending (promises (update_promise q (with_settled s v) st0)) <= k)%nat).
    { intros st0 Hwf0 Hh0 Ep Ec Ez Eu.
      assert (Hr0 : promises st0 !! q = Some r) by (rewrite Ep; exact Hr).
      assert (Hc0 : follows s v st st0)
        by (apply follows_frame; auto; rewrite Ez; reflexivity).
      assert (Hc : follows s v st0 (update_promise q (with_settled s v) st0)).
      { apply (follows_update_promise s v st0 q _ r); auto.
        cbn. intros [= ->]. auto. }
      split; [eapply follows_trans; eauto|].
      pose proof (pending_update_promise st0 q (with_settled s v) r Hr0) as He.
      unfold is_pending in He. rewrite Es in He. cbn [_state with_settled] in He.
      rewrite <- Ep in Hk. lia. }
    assert (Hdone : forall st1 st',
               follows s v st st1 ->
               promises st1 !! q = Some (with_settled s v r) ->
               follows s v st1 st' ->
               (forall l d, l ∈ _listeners r -> forwards s l d ->
                            exists rd, promises st' !! d = Some rd /\ _state rd <> None) ->
               follows s v st st' /\
               (forall r0, promises st !! q = Some r0 -> _state r0 = None ->
                 (exists r', promises st' !! q = Some r' /\
                             _state r' = Some s /\ _value r' = v) /\
                 (forall l d, l ∈ _listeners r0 -> forwards s l d ->
                              exists rd, promises st' !! d = Some rd /\
                                         _state rd <> None))).
    { intros st1 st' Hf1 Hq1 Hf' Hfw. split; [eapply follows_trans; eauto|].
      intros r0 Hr0 _. assert (r0 = r) by congruence. subst r0. split; [|exact Hfw].
      destruct (c_stable _ _ (f_cascade _ _ _ _ Hf') q _ Hq1) as (r' & Hq' & Hs' & Hv');
        [discriminate|].
      exists r'. conjs; auto. }
    destruct s.
    + destruct (Hsettle st Hwf Hh eq_refl eq_refl eq_refl eq_refl) as (Hf1 & Hk1).
      set (st1 := update_promise q (with_settled true v) st) in *.
      pose proof (f_cascade _ _ _ _ Hf1) as Hc1.
      assert (Hq1 : promises st1 !! q = Some (with_settled true v r))
        by (apply lookup_update_promise_eq; exact Hr).
      destruct (followers_propagateAll ufun k n q (with_settled true v r) true v IH st1)
        as (st' & Hrun & Hf' & Hfw);
        [apply Hc1 | apply Hc1 | exact Hk1 | exact Hq1 | reflexivity | reflexivity
        | rewrite (c_zones _ _ Hc1); exact Hn |].
      exists st'. split; [|apply (Hdone st1 st' Hf1 Hq1 Hf' Hfw)].
      rewrite call_S. cbn [dispatch]. rewrite arg_0. unfold resolveFn.
      rewrite (run_bind _ _ _ _ _ (run_getPromise _ _ _ Hr)). rewrite Es, Hlib, (Hv eq_refl).
      replace (strict_eq v (VPromise q)) with false
        by (destruct v; try reflexivity; specialize (Hv eq_refl); discriminate).
      rewrite run_ret.
      erewrite run_bind; [reflexivity|].
      rewrite run_modify. fold st1. rewrite Hrun. reflexivity.
    + set (st0 := set_rejectingErrors (fun l => l ++ [v]) st).
      assert (Hwf0 : wf st0) by (destruct Hwf; constructor; auto).
      destruct (Hsettle st0 Hwf0 Hh eq_refl eq_refl eq_refl eq_refl) as (Hf1 & Hk1).
      set (st1 := update_promise q (with_settled false v) st0) in *.
      pose proof (f_cascade _ _ _ _ Hf1) as Hc1.
      assert (Hq1 : promises st1 !! q = Some (with_settled false v r))
        by (apply lookup_update_promise_eq; exact Hr).
      destruct (run_addPossiblyUnhandledError st1 q _ (c_wf _ _ Hc1) Hq1)
        as (st2 & Hrun2 & Hwf2 & Hp2 & Hcl2 & Hz2).
      assert (Hf2 : follows false v st1 st2).
      { rewrite (run_addPossiblyUnhandledError_state st1 q _ Hq1) in Hrun2.
        injection Hrun2 as <-.
        apply (follows_listed_state false st1 q (with_settled false v r));
          [apply Hc1 | apply Hc1 | exact Hq1 | reflexivity]. }
      pose proof (f_cascade _ _ _ _ Hf2) as Hc2.
      destruct (followers_propagateAll ufun k n q (with_settled false v r) false v IH st2)
        as (st' & Hrun & Hf' & Hfw);
        [apply Hc2 | apply Hc2 | rewrite Hp2; exact Hk1 | rewrite Hp2; exact Hq1
        | reflexivity | reflexivity
        | rewrite (c_zones _ _ Hc2), (c_zones _ _ Hc1); exact Hn |].
      exists st'. split; [|apply (Hdone st1 st' Hf1 Hq1 (follows_trans _ _ _ _ _ Hf2 Hf') Hfw)].
      rewrite call_S. cbn [dispatch]. rewrite arg_0.
      erewrite run_bind; [reflexivity|].
      unfold handleRejection. rewrite run_modify. fold st0.
      rewrite (run_bind _ _ st0 _ _ (run_getPromise q st0 r Hr)). rewrite Es, Hlib.
      rewrite run_ret. unfold rejectionMapper, mirror. rewrite run_modify. fold st1.
      rewrite (run_bind _ _ _ _ _ Hrun2). rewrite (run_bind _ _ _ _ _ Hrun).
      reflexivity.
Qed.

Lemma followers_settle ufun k : settles_followers ufun k.
Proof.
  induction k as [|k IH]; apply followers_settle_step; intros k' E.
  - discriminate.
  - injection E as <-. exact IH.
Qed.

(** X9.  Resolving a pending promise with another pending core promise: the
    promise stays pending, and a listener without handlers, holding its
    capabilities, goes to the end of the other promise's list. *)
Theorem resolve_with_pending_promise_waits ufun n st p rp q rq :
  promises st !! p = Some rp -> _state rp = None -> _lib rp = false ->
  promises st !! q = Some rq -> _state rq = None -> p <> q ->
  let l := mkListener VNull VNull (VFn (FResolve p)) (VFn (FReject p)) (PSD st) in
  let st' := update_promise q (fun r => with_listeners (_listeners r ++ [l]) r) st in
  call ufun (S (S n)) (FResolve p) [VPromise q] st = Some (Normal VUndefined, st') /\
  promises st' !! p = Some rp /\
  promises st' !! q = Some (with_listeners (_listeners rq ++ [l]) rq) /\
  forwards true l p /\ forwards false l p.
Proof.
  intros Hp Hsp Hlib Hq Hsq Hne. cbv zeta. split; [|split; [|split]].
  - rewrite call_S. cbn [dispatch]. rewrite arg_0. unfold resolveFn.
    rewrite (run_bind _ _ _ _ _ (run_getPromise _ _ _ Hp)). rewrite Hsp, Hlib.
    cbn [strict_eq same_value is_thenable].
    replace (Nat.eqb q p) with false by (symmetry; apply Nat.eqb_neq; congruence).
    rewrite run_ret.
    erewrite run_bind; [reflexivity|].
    unfold executePromiseTask. apply run_try_catch_normal.
    erewrite run_bind; [reflexivity|].
    unfold callValue. rewrite call_S. cbn [dispatch]. rewrite arg_0, arg_1.
    unfold adopt. erewrite run_bind; [reflexivity|].
    unfold _then. rewrite run_gets. unfold propagateToListener.
    rewrite (run_bind _ _ _ _ _ (run_getPromise _ _ _ Hq)). rewrite Hsq.
    rewrite run_modify. reflexivity.
  - rewrite lookup_update_promise_ne by congruence. exact Hp.
  - rewrite (lookup_update_promise_eq _ _ _ rq Hq). reflexivity.
  - split; split; reflexivity.
Qed.

(** X10.  When a pending promise is settled, every promise that waits for it
    through a listener without a handler for that outcome (the promise
    returned by [then] without that handler, or a promise resolved with the
    pending one) takes the same outcome in the same call, and no function
    of the application is called. *)
Theorem followers_take_the_outcome ufun n st q rq (s : bool) v l d rd :
  wfb st = true -> heap_okb st = true ->
  promises st !! q = Some rq -> _state rq = None ->
  (s = true -> is_thenable v = false) ->
  l ∈ _listeners rq -> forwards s l d ->
  promises st !! d = Some rd -> _state rd = None ->
  (length (promises st) + length (zones st) <= n)%nat ->
  exists st' rq' rd',
    call ufun (S n) (if s then FResolve q else FReject q) [v] st
    = Some (Normal VUndefined, st') /\
    promises st' !! q = Some rq' /\ _state rq' = Some s /\ _value rq' = v /\
    promises st' !! d = Some rd' /\ _state rd' = Some s /\ _value rd' = v /\
    callLog st' = callLog st.
Proof.
  intros Hwf Hh Hq Hsq Hv Hl Hfw Hd Hsd Hn.
  apply wfb_sound in Hwf. apply heap_okb_sound in Hh.
  destruct (followers_settle ufun (length (promises st)) n st q s v)
    as (st' & Hrun & Hf & Hset); auto.
  { apply pending_le_length. }
  { eapply lookup_lt_Some; eauto. }
  destruct (Hset rq Hq Hsq) as ((rq' & Hq' & Hs' & Hv') & Hfws).
  destruct (Hfws l d Hl Hfw) as (rd' & Hd' & Hsd').
  exists st', rq', rd'. conjs; auto.
  - destruct (f_only _ _ _ _ Hf d rd rd' Hd Hsd Hd') as [E|[E _]]; congruence.
  - destruct (f_only _ _ _ _ Hf d rd rd' Hd Hsd Hd') as [E|[_ E]]; congruence.
  - apply (c_callLog _ _ (f_cascade _ _ _ _ Hf)).
Qed.

(** ** The unhandled list after a rejection *)







(** ** Settling a promise whose listeners have handlers *)

(** The entry of the microtask queue for listener [l] of promise [q]. *)
Definition listener_call (s : bool) (q : nat) (l : Listener) : Fn * list Value :=
  (FCallListener,
   [if s then l_onFulfilled l else l_onRejected l; VPromise q; VListener l]).

(** What queueing leaves alone. *)
Record queued (st st' : State) : Prop := {
  qd_wf : wf st';
  qd_promises : promises st' = promises st;
  qd_unhandled : unhandledErrors st' = unhandledErrors st;
  qd_callLog : callLog st' = callLog st;
  qd_zones : length (zones st') = length (zones st)
}.

Lemma queued_trans a b c : queued a b -> queued b c -> queued a c.
Proof. intros [] []. constructor; auto; congruence. Qed.

Lemma queued_asap st cb args : wf st -> queued st (asap_state cb args st).
Proof.
  intros Hwf. pose proof (wf_asap st cb args Hwf).
  unfold asap_state in *. destruct (needsNewPhysicalTick st); constructor; auto.
Qed.

Lemma microtickQueue_asap st cb args :
  microtickQueue (asap_state cb args st) = microtickQueue st ++ [(cb, args)] /\
  numScheduledCalls (asap_state cb args st) = numScheduledCalls st.
Proof. unfold asap_state. destruct (needsNewPhysicalTick st); auto. Qed.

Lemma run_forEach_schedule call q r (s : bool) : forall ls st,
    wf st -> promises st !! q = Some r -> _state r = Some s ->
    (forall l, l ∈ ls ->
               is_function (if s then l_onFulfilled l else l_onRejected l) = true) ->
    exists st',
      forEach ls (fun l => propagateToListener call q l ;;; ret tt) st
      = Some (Normal tt, st') /\
      queued st st' /\
      microtickQueue st' = microtickQueue st ++ map (listener_call s q) ls /\
      numScheduledCalls st' = numScheduledCalls st + Z.of_nat (length ls).
Proof.
  induction ls as [|l ls IH]; intros st Hwf Hq Hs Hls.
  - exists st. split; [reflexivity|]. split; [constructor; auto|].
    cbn. rewrite app_nil_r. split; [reflexivity|lia].
  - set (st1 := asap_state FCallListener
                  [if s then l_onFulfilled l else l_onRejected l; VPromise q; VListener l]
                  (set_numScheduledCalls Z.succ
                     (update_zone (l_psd l) (with_ref Z.succ) st))).
    assert (Hrun1 : propagateToListener call q l st = Some (Normal VUndefined, st1)).
    { apply (run_propagateToListener_handler call st q l r s Hwf Hq Hs).
      apply Hls. left. }
    assert (Hwf0 : wf (set_numScheduledCalls Z.succ
                         (update_zone (l_psd l) (with_ref Z.succ) st))).
    { pose proof (wf_update_ref st (l_psd l) Z.succ Hwf) as H.
      destruct H; constructor; auto. }
    assert (Hq1 : queued st st1).
    { eapply queued_trans; [|apply queued_asap; exact Hwf0].
      constructor; auto. cbn. apply length_update_zone. }
    destruct (microtickQueue_asap
                (set_numScheduledCalls Z.succ (update_zone (l_psd l) (with_ref Z.succ) st))
                FCallListener
                [if s then l_onFulfilled l else l_onRejected l; VPromise q; VListener l])
      as (Hmq & Hnum).
    fold st1 in Hmq, Hnum.
    destruct (IH st1) as (st' & Hrun' & Hq' & Hmq' & Hnum').
    + apply Hq1.
    + rewrite (qd_promises _ _ Hq1). exact Hq.
    + exact Hs.
    + intros l' Hl'. apply Hls. right. exact Hl'.
    + exists st'. split; [|split; [eapply queued_trans; eauto|split]].
      * cbn [forEach]. erewrite run_bind; [exact Hrun'|].
        rewrite (run_bind _ _ _ _ _ Hrun1). reflexivity.
      * rewrite Hmq', Hmq. cbn. rewrite <- app_assoc. reflexivity.
      * rewrite Hnum', Hnum. cbn [numScheduledCalls set_numScheduledCalls length].
        change (numScheduledCalls (update_zone (l_psd l) (with_ref Z.succ) st))
          with (numScheduledCalls st). lia.
Qed.

(** The entry that ends the tick's accounting, queued when no listener
    call is outstanding. *)
Definition tick_end (n : Z) : list (Fn * list Value) :=
  if n =? 0 then [(FTickDec, [])] else [].

Lemma run_propagateAll_schedule ufun n st q r (s : bool) :
  wf st -> promises st !! q = Some r -> _state r = Some s ->
  (forall l, l ∈ _listeners r ->
             is_function (if s then l_onFulfilled l else l_onRejected l) = true) ->
  (_PSD r < n)%nat ->
  exists st',
    propagateAllListeners (call ufun n) q st = Some (Normal tt, st') /\
    wf st' /\
    promises st' = <[q := with_listeners [] r]> (promises st) /\
    unhandledErrors st' = unhandledErrors st /\
    callLog st' = callLog st /\
    microtickQueue st' =
      microtickQueue st ++ map (listener_call s q) (_listeners r)
      ++ tick_end (numScheduledCalls st + Z.of_nat (length (_listeners r))) /\
    numScheduledCalls st' =
      (if numScheduledCalls st + Z.of_nat (length (_listeners r)) =? 0 then 1
       else numScheduledCalls st + Z.of_nat (length (_listeners r))).
Proof.
  intros Hwf Hq Hs Hls Hn. unfold propagateAllListeners.
  rewrite (run_bind _ _ _ _ _ (run_getPromise _ _ _ Hq)). rewrite run_modify.
  set (st1 := update_promise q (with_listeners []) st).
  assert (Hwf1 : wf st1) by (apply wf_update_promise; auto).
  assert (Hq1 : promises st1 !! q = Some (with_listeners [] r))
    by (apply lookup_update_promise_eq; exact Hq).
  assert (Hp1 : promises st1 = <[q := with_listeners [] r]> (promises st)).
  { unfold st1, update_promise. cbn. rewrite Hq. reflexivity. }
  destruct (run_forEach_schedule (call ufun n) q (with_listeners [] r) s (_listeners r) st1
              Hwf1 Hq1 Hs Hls) as (st2 & Hrun2 & Hqd2 & Hmq2 & Hnum2).
  rewrite (run_bind _ _ _ _ _ Hrun2).
  pose proof (qd_wf _ _ Hqd2) as Hwf2.
  assert (Hlt : (_PSD r < length (zones st2))%nat).
  { rewrite (qd_zones _ _ Hqd2). change (zones st1) with (zones st).
    eapply (wf_psd _ Hwf); eauto. }
  destruct (lookup_lt_is_Some_2 (zones st2) (_PSD r) Hlt) as (zr & Hz).
  destruct (release_spec ufun n (_PSD r) st2 zr Hwf2 Hz Hn)
    as (zs' & chain & h & Hrun & Hv & _).
  rewrite (run_bind _ _ _ _ _ Hrun). rewrite run_gets.
  set (st3 := zone_step zs' (finalizeLog st2 ++ chain) h st2).
  assert (Hwf3 : wf st3) by (apply wf_zone_step; auto).
  change (numScheduledCalls st3) with (numScheduledCalls st2).
  rewrite Hnum2. change (numScheduledCalls st1) with (numScheduledCalls st).
  unfold tick_end.
  destruct (numScheduledCalls st + Z.of_nat (length (_listeners r)) =? 0) eqn:E0;
    unfold when.
  - apply Z.eqb_eq in E0. rewrite run_modify.
    assert (Hwf4 : wf (set_numScheduledCalls Z.succ st3))
      by (destruct Hwf3; constructor; auto).
    rewrite (run_asap _ _ _ Hwf4). eexists. split; [reflexivity|].
    destruct (microtickQueue_asap (set_numScheduledCalls Z.succ st3) FTickDec [])
      as (Hmq & Hnum).
    pose proof (queued_asap _ FTickDec [] Hwf4) as Hqd.
    conjs.
    + apply Hqd.
    + rewrite (qd_promises _ _ Hqd). cbn. rewrite (qd_promises _ _ Hqd2). exact Hp1.
    + rewrite (qd_unhandled _ _ Hqd). cbn. apply (qd_unhandled _ _ Hqd2).
    + rewrite (qd_callLog _ _ Hqd). cbn. apply (qd_callLog _ _ Hqd2).
    + rewrite Hmq. cbn. rewrite Hmq2. rewrite <- app_assoc. reflexivity.
    + rewrite Hnum. cbn. rewrite Hnum2. change (numScheduledCalls st1) with (numScheduledCalls st).
      lia.
  - exists st3. split; [reflexivity|]. conjs; auto.
    + cbn. rewrite (qd_promises _ _ Hqd2). exact Hp1.
    + cbn. apply (qd_unhandled _ _ Hqd2).
    + cbn. apply (qd_callLog _ _ Hqd2).
    + cbn. rewrite Hmq2, app_nil_r. reflexivity.
Qed.

(** A capability of a pending promise whose listeners all have a handler
    for the outcome. *)
Lemma run_settle_schedule ufun n st q rq (s : bool) v :
  wf st -> promises st !! q = Some rq -> _state rq = None -> _lib rq = false ->
  (s = true -> is_thenable v = false) ->
  (forall l, l ∈ _listeners rq ->
             is_function (if s then l_onFulfilled l else l_onRejected l) = true) ->
  (length (zones st) <= n)%nat ->
  let st_s := update_promise q (with_settled s v) st in
  exists st',
    call ufun (S n) (if s then FResolve q else FReject q) [v] st
    = Some (Normal VUndefined, st') /\
    wf st' /\
    promises st' = <[q := with_listeners [] (with_settled s v rq)]> (promises st) /\
    callLog st' = callLog st /\
    microtickQueue st' =
      microtickQueue st ++ map (listener_call s q) (_listeners rq)
      ++ tick_end (numScheduledCalls st + Z.of_nat (length (_listeners rq))) /\
    numScheduledCalls st' =
      (if numScheduledCalls st + Z.of_nat (length (_listeners rq)) =? 0 then 1
       else numScheduledCalls st + Z.of_nat (length (_listeners rq))) /\
    unhandledErrors st' =
      (if s || existsb (same_reason st_s v) (unhandledErrors st)
       then unhandledErrors st else unhandledErrors st ++ [q]).
Proof.
  intros Hwf Hq Hs Hlib Hv Hls Hn. cbv zeta.
  assert (Hpsd : (_PSD rq < n)%nat).
  { pose proof (wf_psd _ Hwf _ _ Hq). lia. }
  assert (Hins : forall st0, promises st0 = promises st ->
             promises (update_promise q (with_settled s v) st0)
             = <[q := with_settled s v rq]> (promises st)).
  { intros st0 E. unfold update_promise. cbn. rewrite E, Hq. reflexivity. }
  assert (Hins2 : <[q := with_listeners [] (with_settled s v rq)]>
                    (<[q := with_settled s v rq]> (promises st))
                  = <[q := with_listeners [] (with_settled s v rq)]> (promises st))
    by apply list_insert_insert_eq.
  destruct s.
  - set (st1 := update_promise q (with_settled true v) st).
    assert (Hwf1 : wf st1) by (apply wf_update_promise; auto).
    assert (Hq1 : promises st1 !! q = Some (with_settled true v rq))
      by (apply lookup_update_promise_eq; exact Hq).
    destruct (run_propagateAll_schedule ufun n st1 q _ true Hwf1 Hq1 eq_refl Hls Hpsd)
      as (st' & Hrun & Hwf' & Hp' & Hu' & Hc' & Hmq' & Hnum').
    exists st'. conjs; auto.
    + rewrite call_S. cbn [dispatch]. rewrite arg_0. unfold resolveFn.
      rewrite (run_bind _ _ _ _ _ (run_getPromise _ _ _ Hq)). rewrite Hs, Hlib, (Hv eq_refl).
      replace (strict_eq v (VPromise q)) with false
        by (destruct v; try reflexivity; specialize (Hv eq_refl); discriminate).
      rewrite run_ret.
      erewrite run_bind; [reflexivity|].
      rewrite run_modify. fold st1. rewrite Hrun. reflexivity.
    + rewrite Hp'. unfold st1. rewrite (Hins st eq_refl). exact Hins2.
  - set (st0 := set_rejectingErrors (fun l => l ++ [v]) st).
    assert (Hwf0 : wf st0) by (destruct Hwf; constructor; auto).
    set (st1 := update_promise q (with_settled false v) st0).
    assert (Hwf1 : wf st1) by (apply wf_update_promise; auto).
    assert (Hq1 : promises st1 !! q = Some (with_settled false v rq))
      by (apply lookup_update_promise_eq; exact Hq).
    set (b := existsb (same_reason (update_promise q (with_settled false v) st) v)
                      (unhandledErrors st)).
    set (st2 := if b then st1 else set_unhandledErrors (fun l => l ++ [q]) st1).
    assert (Hadd : addPossiblyUnhandledError q st1 = Some (Normal tt, st2)).
    { unfold addPossiblyUnhandledError.
      rewrite (run_bind _ _ _ _ _ (run_getPromise _ _ _ Hq1)). rewrite run_gets. cbv [id].
      change (existsb (same_reason st1 (_value (with_settled false v rq)))
                      (unhandledErrors st1)) with b.
      unfold st2. destruct b; reflexivity. }
    assert (Hwf2 : wf st2).
    { unfold st2. destruct b; [exact Hwf1|].
      apply (wf_frame st1); auto.
      - intros x Hx. cbn in Hx. apply elem_of_app in Hx as [Hx|Hx].
        + apply (wf_unh _ Hwf1). exact Hx.
        + apply list_elem_of_singleton in Hx. subst x. eapply lookup_lt_Some; eauto.
      - apply (wf_psd _ Hwf1). }
    assert (Hq2 : promises st2 !! q = Some (with_settled false v rq))
      by (unfold st2; destruct b; exact Hq1).
    destruct (run_propagateAll_schedule ufun n st2 q _ false Hwf2 Hq2 eq_refl Hls Hpsd)
      as (st' & Hrun & Hwf' & Hp' & Hu' & Hc' & Hmq' & Hnum').
    exists st'. conjs; auto.
    + rewrite call_S. cbn [dispatch]. rewrite arg_0.
      erewrite run_bind; [reflexivity|].
      unfold handleRejection. rewrite run_modify. fold st0.
      rewrite (run_bind _ _ st0 _ _ (run_getPromise q st0 rq Hq)). rewrite Hs, Hlib.
      rewrite run_ret. unfold rejectionMapper, mirror. rewrite run_modify. fold st1.
      rewrite (run_bind _ _ _ _ _ Hadd). rewrite (run_bind _ _ _ _ _ Hrun).
      reflexivity.
    + rewrite Hp'. replace (promises st2) with (promises st1)
        by (unfold st2; destruct b; reflexivity).
      unfold st1. rewrite (Hins st0 eq_refl). exact Hins2.
    + rewrite Hc'. unfold st2. destruct b; reflexivity.
    + rewrite Hmq'. unfold st2. destruct b; reflexivity.
    + rewrite Hnum'. unfold st2. destruct b; reflexivity.
    + rewrite Hu'. cbn [orb]. fold b. unfold st2. destruct b; reflexivity.
Qed.

(** X11.  Settling a pending promise (one without the _lib flag) through its
    capabilities, fulfilled with a value that is no thenable or rejected,
    when its listeners all have a handler for the outcome: one call per
    listener is appended to the microtask queue, in the order in which the
    listeners were registered, and after them the entry that ends the tick
    exactly when numScheduledCalls, which was raised by one per listener,
    is 0 at that point (numScheduledCalls before the call plus the number
    of listeners is 0; with a count that was not negative: the promise has
    no listener and no listener call was scheduled); no handler is called
    yet, and the promise keeps no listener. *)
Theorem settling_queues_listeners_in_order ufun n st q rq (s : bool) v :
  wfb st = true ->
  promises st !! q = Some rq -> _state rq = None -> _lib rq = false ->
  (s = true -> is_thenable v = false) ->
  (forall l, l ∈ _listeners rq ->
             is_function (if s then l_onFulfilled l else l_onRejected l) = true) ->
  (length (zones st) <= n)%nat ->
  exists st',
    call ufun (S n) (if s then FResolve q else FReject q) [v] st
    = Some (Normal VUndefined, st') /\
    promises st' !! q = Some (with_listeners [] (with_settled s v rq)) /\
    microtickQueue st' =
      microtickQueue st ++ map (listener_call s q) (_listeners rq)
      ++ tick_end (numScheduledCalls st + Z.of_nat (length (_listeners rq))) /\
    callLog st' = callLog st.
Proof.
  intros Hwf Hq Hs Hlib Hv Hls Hn. apply wfb_sound in Hwf.
  destruct (run_settle_schedule ufun n st q rq s v Hwf Hq Hs Hlib Hv Hls Hn)
    as (st' & Hrun & _ & Hp & Hc & Hmq & _).
  exists st'. conjs; auto.
  rewrite Hp. apply list_lookup_insert_eq. eapply lookup_lt_Some; eauto.
Qed.

(** X12.  A rejection that nobody listens to, through the reject capability of a
    pending promise (one without the _lib flag) that has no listener, while
    no listener call is scheduled (numScheduledCalls is 0), the promise is
    not on the unhandled list and no promise of the list has a reason
    [===] to the new one: the promise goes to the end of the unhandled list
    and the entry that ends the tick is queued; when that entry is run in
    that state, the host is given one event per promise of the list, the
    new one last, and the list is emptied. *)
Theorem unhandled_rejection_is_reported ufun n st q rq e :
  wfb st = true ->
  promises st !! q = Some rq -> _state rq = None -> _lib rq = false ->
  _listeners rq = [] -> numScheduledCalls st = 0 ->
  Forall (fun x => x <> q /\ same_reason st e x = false) (unhandledErrors st) ->
  (length (zones st) <= n)%nat ->
  exists st1 st2,
    call ufun (S n) (FReject q) [e] st = Some (Normal VUndefined, st1) /\
    unhandledErrors st1 = unhandledErrors st ++ [q] /\
    microtickQueue st1 = microtickQueue st ++ [(FTickDec, [])] /\
    call ufun (S n) FTickDec [] st1 = Some (Normal VUndefined, st2) /\
    unhandledErrors st2 = [] /\
    hostEvents st2 =
      hostEvents st1 ++ map (fun x => (reason_at st x, x)) (unhandledErrors st) ++ [(e, q)].
Proof.
  intros Hwf Hq Hs Hlib Hl Hnum Hall Hn. apply wfb_sound in Hwf.
  destruct (run_settle_schedule ufun n st q rq false e Hwf Hq Hs Hlib)
    as (st1 & Hrun & Hwf1 & Hp1 & Hc1 & Hmq1 & Hnum1 & Hu1); auto.
  { discriminate. }
  { intros l Hin. rewrite Hl in Hin. inversion Hin. }
  rewrite Hl, Hnum in Hmq1, Hnum1. cbn in Hmq1, Hnum1.
  assert (Hno : existsb (same_reason (update_promise q (with_settled false e) st) e)
                        (unhandledErrors st) = false).
  { clear -Hall. induction Hall as [|x l [Hx Hsr] _ IH]; [reflexivity|].
    cbn. rewrite IH, orb_false_r. unfold same_reason in *.
    rewrite lookup_update_promise_ne by congruence. exact Hsr. }
  cbn [orb] in Hu1. rewrite Hno in Hu1.
  assert (Hfin : finalizePhysicalTick (call ufun n) (set_numScheduledCalls Z.pred st1)
                 = Some (Normal tt,
                         set_hostEvents
                           (fun h => h ++ map (fun x => (reason_at st1 x, x))
                                              (unhandledErrors st1))
                           (set_unhandledErrors (fun _ => [])
                              (set_numScheduledCalls Z.pred st1)))).
  { unfold finalizePhysicalTick. rewrite run_gets, run_modify.
    erewrite run_bind; [|apply run_forEach_report; apply (wf_unh _ Hwf1)].
    rewrite run_gets. cbn [tickFinalizers set_hostEvents set_unhandledErrors
                           set_numScheduledCalls].
    rewrite (wf_fin _ Hwf1). reflexivity. }
  eexists st1, _. conjs; try exact Hrun; try exact Hu1; try exact Hmq1.
  - rewrite call_S. cbn [dispatch]. unfold tickDec. rewrite run_modify, run_gets.
    cbn [numScheduledCalls set_numScheduledCalls]. rewrite Hnum1. cbn [Z.pred Z.add Z.eqb when].
    change (Z.pos_sub 1 1 =? 0) with true. cbn [when].
    rewrite (run_bind _ _ _ _ _ Hfin). reflexivity.
  - reflexivity.
  - cbn [hostEvents set_hostEvents set_unhandledErrors set_numScheduledCalls].
    f_equal. rewrite Hu1, map_app. cbn [map]. f_equal.
    + apply map_ext_Forall. eapply Forall_impl; [exact Hall|].
      intros x [Hx _]. cbn. f_equal. unfold reason_at. rewrite Hp1.
      rewrite list_lookup_insert_ne by congruence. reflexivity.
    + f_equal. f_equal. unfold reason_at. rewrite Hp1.
      rewrite list_lookup_insert_eq by (eapply lookup_lt_Some; eauto). reflexivity.
Qed.


(** ** Zones *)

Lemma PSD_zone_switch st z :
  (z < length (zones st))%nat -> PSD (zone_switch z st) = z.
Proof.
  intros Hz. destruct (lookup_lt_is_Some_2 _ _ Hz) as (r & Hr).
  unfold zone_switch. rewrite Hr. reflexivity.
Qed.

(** X13.  usePSD(psd, fn, ...): fn runs with [psd] as the active zone; its
    completion, a value or an exception, is the completion of usePSD, and
    the zone that was active before the call is active again after it. *)
Theorem usePSD_restores_zone call psd fn args st o st1 :
  wfb st = true -> (psd < length (zones st))%nat ->
  callValue call fn args (zone_switch psd st) = Some (o, st1) ->
  wfb st1 = true -> (PSD st < length (zones st1))%nat ->
  usePSD call psd fn args st = Some (o, zone_switch (PSD st) st1) /\
  PSD (zone_switch psd st) = psd /\
  PSD (zone_switch (PSD st) st1) = PSD st /\
  promises (zone_switch (PSD st) st1) = promises st1.
Proof.
  intros Hwf Hpsd Hcall Hwf1 Hout.
  apply wfb_sound in Hwf. apply wfb_sound in Hwf1.
  split; [|split; [apply PSD_zone_switch; exact Hpsd|split]].
  - unfold usePSD. rewrite run_gets.
    eapply run_try_finally.
    + rewrite (run_bind _ _ _ _ _ (run_switchToZone_lt _ _ Hwf Hpsd)). exact Hcall.
    + apply run_switchToZone_lt; auto.
  - apply PSD_zone_switch. exact Hout.
  - apply (same_heap_zone_switch st1 (PSD st)).
Qed.

(** The state in which newScope calls fn: a new zone, whose parent is the
    zone of the caller and whose count is 0, is the active one, and the
    parent's count has been incremented. *)
Definition scope_entry (st : State) : State :=
  let psd := length (zones st) in
  let dthen0 := match zones st !! 0%nat with
                | Some z0 => env_dthen z0
                | None => ThenOrig
                end in
  zone_switch psd
    (update_zone (PSD st) (with_ref Z.succ)
       (set_zones (fun zs => zs ++ [mkZone (Some (PSD st)) 0 false (ThenPatched dthen0 psd)])
                  st)).

Lemma wf_allocZone st z :
  wf st ->
  (exists q, parent z = Some q /\ (q < length (zones st))%nat) ->
  env_dthen z = ThenOrig \/ env_dthen z = ThenPatched ThenOrig (length (zones st)) ->
  wf (set_zones (fun zs => zs ++ [z]) st).
Proof.
  intros [H1 H2 H3 He H4 H5 H6] (q & Hq & Hlt) Henv. constructor; cbn.
  - destruct H1 as (r & Hr). exists r. rewrite lookup_app_l; [exact Hr|].
    eapply lookup_lt_Some; eauto.
  - destruct H2 as (r & Hr & Hp). exists r. split; [|exact Hp].
    rewrite lookup_app_l; [exact Hr|]. eapply lookup_lt_Some; eauto.
  - intros y r Hy. destruct (decide (y < length (zones st))%nat).
    + rewrite lookup_app_l in Hy by auto. eauto.
    + rewrite lookup_app_r in Hy by lia.
      destruct (y - length (zones st))%nat eqn:E; [|discriminate].
      inversion Hy; subst. right. exists q. split; [exact Hq|lia].
  - intros y r Hy. destruct (decide (y < length (zones st))%nat).
    + rewrite lookup_app_l in Hy by auto. eauto.
    + rewrite lookup_app_r in Hy by lia.
      destruct (y - length (zones st))%nat eqn:E; [|discriminate].
      inversion Hy; subst. replace y with (length (zones st)) by lia. exact Henv.
  - exact H4.
  - exact H5.
  - intros p r Hp. rewrite length_app. specialize (H6 p r Hp). lia.
Qed.

Lemma run_newScope_enter call fn a1 a2 st z0 :
  wf st -> zones st !! 0%nat = Some z0 -> env_dthen z0 = ThenOrig ->
  let psd := length (zones st) in
  wf (scope_entry st) /\
  PSD (scope_entry st) = psd /\
  newScope call fn a1 a2 st =
  (rv <- try_finally (callValue call fn [a1; a2; VUndefined]) (switchToZone (PSD st)) ;;
   z <- getZone psd ;;
   when (ref z =? 0) (callValue call (VFn (FFinalize psd)) [] ;;; ret tt) ;;;
   ret rv) (scope_entry st).
Proof.
  intros Hwf Hz0 Hd0. cbv zeta.
  set (psd := length (zones st)).
  set (st1 := set_zones (fun zs => zs ++ [mkZone (Some (PSD st)) 0 false
                                                 (ThenPatched (env_dthen z0) psd)]) st).
  assert (Hwf1 : wf st1).
  { apply wf_allocZone; [exact Hwf| |].
    - exists (PSD st). split; [reflexivity|]. apply wf_PSD_lt, Hwf.
    - right. cbn. rewrite Hd0. reflexivity. }
  set (st2 := update_zone (PSD st) (with_ref Z.succ) st1).
  assert (Hwf2 : wf st2) by (apply wf_update_ref; exact Hwf1).
  assert (Hlt2 : (psd < length (zones st2))%nat).
  { unfold st2. rewrite length_update_zone. cbn. rewrite length_app. cbn. lia. }
  assert (Hentry : scope_entry st = zone_switch psd st2).
  { unfold scope_entry. rewrite Hz0. reflexivity. }
  rewrite Hentry. split; [apply wf_zone_switch; exact Hwf2|].
  split; [apply PSD_zone_switch; exact Hlt2|].
  assert (Huse : usePSD call psd fn [a1; a2; VUndefined] st2
                 = try_finally (callValue call fn [a1; a2; VUndefined])
                               (switchToZone (PSD st)) (zone_switch psd st2)).
  { unfold usePSD. rewrite run_gets. unfold try_finally.
    rewrite (run_bind _ _ _ _ _ (run_switchToZone_lt _ _ Hwf2 Hlt2)). reflexivity. }
  unfold newScope. rewrite run_gets.
  rewrite (run_bind _ _ _ _ _ (run_getZone _ _ _ Hz0)). rewrite run_gets. cbv [id].
  fold psd. unfold allocZone at 1. unfold bind at 1. fold psd. fold st1.
  unfold incRef. rewrite run_modify. fold st2.
  unfold bind at 1. rewrite Huse. reflexivity.
Qed.

Lemma zones_scope_entry st z0 :
  wf st -> zones st !! 0%nat = Some z0 -> env_dthen z0 = ThenOrig ->
  zones (scope_entry st) !! length (zones st)
  = Some (mkZone (Some (PSD st)) 0 false (ThenPatched ThenOrig (length (zones st)))) /\
  (forall zp, zones st !! PSD st = Some zp ->
              zones (scope_entry st) !! PSD st = Some (with_ref Z.succ zp)).
Proof.
  intros Hwf Hz0 Hd0. pose proof (wf_PSD_lt _ Hwf) as Hlt.
  unfold scope_entry. rewrite Hz0, Hd0.
  set (new := mkZone (Some (PSD st)) 0 false (ThenPatched ThenOrig (length (zones st)))).
  set (st2 := update_zone (PSD st) (with_ref Z.succ) (set_zones (fun zs => zs ++ [new]) st)).
  assert (Hz : zones (zone_switch (length (zones st)) st2) = zones st2).
  { unfold zone_switch. destruct (zones st2 !! length (zones st)); reflexivity. }
  rewrite Hz. unfold st2. split.
  - rewrite lookup_update_zone, decide_False by lia. cbn.
    apply list_lookup_middle. reflexivity.
  - intros zp Hzp. rewrite lookup_update_zone, decide_True by reflexivity. cbn.
    rewrite lookup_app_l by exact Hlt. rewrite Hzp. reflexivity.
Qed.

(** X14.  newScope(fn, ...) for an fn that throws: fn ran in a new zone, child of
    the caller's zone, for which the caller's zone was given one more
    reference; the exception leaves newScope, with the caller's zone active
    again, and neither is the new zone finalized nor the reference given
    back: the zones are as fn left them. *)
Theorem newScope_throw_keeps_parent_pinned call fn a1 a2 st z0 e st1 :
  wfb st = true -> zones st !! 0%nat = Some z0 -> env_dthen z0 = ThenOrig ->
  callValue call fn [a1; a2; VUndefined] (scope_entry st) = Some (Throws e, st1) ->
  wfb st1 = true -> (PSD st < length (zones st1))%nat ->
  let st' := zone_switch (PSD st) st1 in
  newScope call fn a1 a2 st = Some (Throws e, st') /\
  PSD (scope_entry st) = length (zones st) /\
  zones (scope_entry st) !! length (zones st)
  = Some (mkZone (Some (PSD st)) 0 false (ThenPatched ThenOrig (length (zones st)))) /\
  (forall zp, zones st !! PSD st = Some zp ->
              zones (scope_entry st) !! PSD st = Some (with_ref Z.succ zp)) /\
  PSD st' = PSD st /\ zones st' = zones st1 /\ finalizeLog st' = finalizeLog st1.
Proof.
  intros Hwf Hz0 Hd0 Hcall Hwf1 Hout. cbv zeta.
  apply wfb_sound in Hwf. apply wfb_sound in Hwf1.
  destruct (run_newScope_enter call fn a1 a2 st z0 Hwf Hz0 Hd0) as (_ & Hpsd & Hrun).
  destruct (zones_scope_entry st z0 Hwf Hz0 Hd0) as (Hnew & Hpar).
  split; [|split; [exact Hpsd|split; [exact Hnew|split; [exact Hpar|]]]].
  - rewrite Hrun. apply run_bind_throws.
    eapply run_try_finally; [exact Hcall|]. apply run_switchToZone_lt; auto.
  - split; [apply PSD_zone_switch; exact Hout|].
    unfold zone_switch. destruct (zones st1 !! PSD st); split; reflexivity.
Qed.

(** newScope(fn, ...) for an fn that returns. *)
Lemma run_newScope_returns ufun m fn a1 a2 st z0 rv st1 z :
  wfb st = true -> zones st !! 0%nat = Some z0 -> env_dthen z0 = ThenOrig ->
  callValue (call ufun (S m)) fn [a1; a2; VUndefined] (scope_entry st)
  = Some (Normal rv, st1) ->
  wfb st1 = true ->
  zones st1 !! length (zones st) = Some z ->
  global z = false -> parent z = Some (PSD st) -> (PSD st < m)%nat ->
  let st2 := zone_switch (PSD st) st1 in
  (ref z <> 0 -> newScope (call ufun (S m)) fn a1 a2 st = Some (Normal rv, st2)) /\
  (ref z = 0 ->
   forall zp, zones st1 !! PSD st = Some zp ->
   exists zs' chain h,
     newScope (call ufun (S m)) fn a1 a2 st
     = Some (Normal rv,
             zone_step zs' (finalizeLog st1 ++ length (zones st) :: chain) h st2) /\
     zs' !! PSD st = Some (with_ref Z.pred zp) /\
     (forall y, (PSD st < y)%nat -> zs' !! y = zones st1 !! y) /\
     (ref zp <> 1 -> chain = [])).
Proof.
  intros Hwf Hz0 Hd0 Hcall Hwf1 Hz Hg Hpar Hm. cbv zeta.
  apply wfb_sound in Hwf. apply wfb_sound in Hwf1.
  destruct (run_newScope_enter (call ufun (S m)) fn a1 a2 st z0 Hwf Hz0 Hd0)
    as (_ & _ & Hrun).
  assert (Hout : (PSD st < length (zones st1))%nat).
  { destruct (wf_parents _ Hwf1 _ _ Hz) as [Hg'|(q & Hq & Hlt)]; [congruence|].
    apply lookup_lt_Some in Hz. assert (q = PSD st) by congruence. subst q. lia. }
  set (st2 := zone_switch (PSD st) st1).
  assert (Hwf2 : wf st2) by (apply wf_zone_switch; exact Hwf1).
  assert (Hzs2 : zones st2 = zones st1).
  { unfold st2, zone_switch. destruct (zones st1 !! PSD st); reflexivity. }
  assert (Hbody : try_finally (callValue (call ufun (S m)) fn [a1; a2; VUndefined])
                              (switchToZone (PSD st)) (scope_entry st)
                  = Some (Normal rv, st2)).
  { eapply run_try_finally; [exact Hcall|]. apply run_switchToZone_lt; auto. }
  assert (Hz2 : zones st2 !! length (zones st) = Some z) by (rewrite Hzs2; exact Hz).
  split.
  - intros Hne. rewrite Hrun.
    rewrite (run_bind _ _ _ _ _ Hbody). rewrite (run_bind _ _ _ _ _ (run_getZone _ _ _ Hz2)).
    replace (ref z =? 0) with false by (symmetry; apply Z.eqb_neq; exact Hne).
    reflexivity.
  - intros Hr zp Hzp.
    set (st3 := set_finalizeLog (fun l => l ++ [length (zones st)]) st2).
    assert (Hwf3 : wf st3) by (destruct Hwf2; constructor; auto).
    assert (Hzp3 : zones st3 !! PSD st = Some zp) by (cbn; rewrite Hzs2; exact Hzp).
    destruct (release_spec ufun m (PSD st) st3 zp Hwf3 Hzp3 Hm)
      as (zs' & chain & h & Hrel & Hv & Hq & Hy & Hchain).
    exists zs', chain, h. split; [|split; [exact Hq|split]].
    + rewrite Hrun.
      rewrite (run_bind _ _ _ _ _ Hbody).
      rewrite (run_bind _ _ _ _ _ (run_getZone _ _ _ Hz2)).
      rewrite Hr. cbn [Z.eqb when].
      erewrite run_bind; [reflexivity|].
      erewrite run_bind; [reflexivity|].
      unfold callValue. rewrite call_S. cbn [dispatch]. unfold zoneFinalize.
      rewrite run_modify. fold st3.
      erewrite run_bind; [|apply run_getZone; cbn; rewrite Hzs2; exact Hz].
      rewrite Hg, Hpar.
      rewrite (run_bind _ _ _ _ _ Hrel). unfold ret. f_equal. f_equal.
      assert (Hl2 : finalizeLog st2 = finalizeLog st1).
      { unfold st2, zone_switch. destruct (zones st1 !! PSD st); reflexivity. }
      unfold zone_step, st3. cbn [finalizeLog set_finalizeLog].
      rewrite Hl2, <- app_assoc. reflexivity.
    + intros y Hy'. rewrite (Hy y Hy'). cbn. rewrite Hzs2. reflexivity.
    + intros Hne. replace (ref zp =? 1) with false in Hchain
        by (symmetry; apply Z.eqb_neq; exact Hne).
      exact Hchain.
Qed.

(** X15.  newScope(fn, ...) for an fn that returns: the value is returned with
    the caller's zone active again.  When the new zone holds no reference
    at that point (fn left no pending promise and no listener call in it),
    the zone is finalized at once, which gives the caller's zone its
    reference back (and finalizes it in turn if that was its last one);
    otherwise nothing is finalized by newScope. *)
Theorem newScope_finalizes_idle_zone ufun m fn a1 a2 st z0 rv st1 z :
  wfb st = true -> zones st !! 0%nat = Some z0 -> env_dthen z0 = ThenOrig ->
  callValue (call ufun (S m)) fn [a1; a2; VUndefined] (scope_entry st)
  = Some (Normal rv, st1) ->
  wfb st1 = true ->
  zones st1 !! length (zones st) = Some z ->
  global z = false -> parent z = Some (PSD st) -> (PSD st < m)%nat ->
  let st2 := zone_switch (PSD st) st1 in
  (ref z <> 0 -> newScope (call ufun (S m)) fn a1 a2 st = Some (Normal rv, st2)) /\
  (ref z = 0 ->
   forall zp, zones st1 !! PSD st = Some zp ->
   exists zs' chain h,
     newScope (call ufun (S m)) fn a1 a2 st
     = Some (Normal rv,
             zone_step zs' (finalizeLog st1 ++ length (zones st) :: chain) h st2) /\
     zs' !! PSD st = Some (with_ref Z.pred zp) /\
     (forall y, (PSD st < y)%nat -> zs' !! y = zones st1 !! y) /\
     (ref zp <> 1 -> chain = [])).
Proof. apply run_newScope_returns. Qed.



(** X16.  wrap(fn, errorCatcher) remembers the zone in which it is called; the
    function it returns calls fn in that zone, as part of a tick, and when
    fn returns it returns fn's value after its finally block: the caller's
    zone is active again and, when the call was not made from inside a
    tick, the microtask queue has been run.  Inside a tick the queue is left
    alone. *)
Theorem wrapped_runs_in_captured_zone call fuel fn errorCatcher psd args st rv st1 :
  wfb st = true -> (psd < length (zones st))%nat ->
  callValue call fn args (zone_switch psd (tick_scope st)) = Some (Normal rv, st1) ->
  wfb st1 = true -> (PSD st < length (zones st1))%nat ->
  wrap fn errorCatcher st = Some (Normal (VFn (FWrapped fn errorCatcher (PSD st))), st) /\
  PSD (zone_switch psd (tick_scope st)) = psd /\
  wrapped call fuel fn errorCatcher psd args st
  = (when (isOutsideMicroTick st) (endMicroTickScope call fuel) ;;; ret rv)
      (zone_switch (PSD st) st1) /\
  (isOutsideMicroTick st = false ->
   wrapped call fuel fn errorCatcher psd args st
   = Some (Normal rv, zone_switch (PSD st) st1)).
Proof.
  intros Hwf Hpsd Hcall Hwf1 Hout.
  apply wfb_sound in Hwf. apply wfb_sound in Hwf1.
  assert (Hwft : wf (tick_scope st)) by (destruct Hwf; constructor; auto).
  assert (Hmain : wrapped call fuel fn errorCatcher psd args st
                  = (when (isOutsideMicroTick st) (endMicroTickScope call fuel) ;;; ret rv)
                      (zone_switch (PSD st) st1)).
  { unfold wrapped, beginMicroTickScope.
    erewrite run_bind; [|rewrite run_gets, !run_modify; reflexivity].
    fold (tick_scope st). rewrite run_gets.
    change (PSD (tick_scope st)) with (PSD st).
    erewrite try_finally_normal.
    2:{ apply run_try_catch_normal.
        rewrite (run_bind _ _ _ _ _ (run_switchToZone_lt _ _ Hwft Hpsd)). exact Hcall. }
    unfold bind at 1. unfold bind at 1.
    rewrite (run_switchToZone_lt _ _ Hwf1 Hout). reflexivity. }
  split; [reflexivity|]. split; [apply PSD_zone_switch; exact Hpsd|].
  split; [exact Hmain|].
  intros Hin. rewrite Hmain, Hin. reflexivity.
Qed.

(** X17.  nativeAwaitCompatibleWrap(fn, zone, possibleAwait): anything but a
    function is returned as it is.  The function made for a function fn
    calls fn with [zone] as the active zone and hands on its completion, a
    value or an exception, with the caller's zone active again.  With
    possibleAwait it also gives the zone one more reference and hands the
    host two jobs, one before and one after the call of fn. *)
Theorem zone_wrapper_runs_handler_in_zone call st h zone pa args o st1 :
  wfb st = true -> (zone < length (zones st))%nat ->
  callValue call h args (zone_enter zone pa st) = Some (o, st1) ->
  wfb st1 = true -> (PSD st < length (zones st1))%nat ->
  let st' := zone_leave (PSD st) zone pa st1 in
  (forall v, is_function v = false -> nativeAwaitCompatibleWrap v zone pa = v) /\
  zoneWrapped call h zone pa args st = Some (o, st') /\
  PSD (zone_enter zone pa st) = zone /\
  PSD st' = PSD st /\
  nativeMicrotasks (zone_enter zone pa st)
  = nativeMicrotasks st ++ (if pa then [FNativeEnter zone] else []) /\
  nativeMicrotasks st'
  = nativeMicrotasks st1 ++ (if pa then [FNativeLeave zone] else []) /\
  (forall zr, zones st !! zone = Some zr ->
              zones (zone_enter zone pa st) !! zone
              = Some (if pa then with_ref Z.succ zr else zr)).
Proof.
  intros Hwf Hz Hcall Hwf1 Hout. cbv zeta.
  apply wfb_sound in Hwf. apply wfb_sound in Hwf1.
  destruct (lookup_lt_is_Some_2 _ _ Hz) as (zr0 & Hzr0).
  destruct (lookup_lt_is_Some_2 _ _ Hout) as (zo & Hzo).
  conjs.
  - intros v Hv. unfold nativeAwaitCompatibleWrap. rewrite Hv. reflexivity.
  - apply run_zoneWrap; auto.
  - unfold zone_enter, zone_switch. rewrite Hzr0. destruct pa; reflexivity.
  - apply PSD_zone_leave. exact Hout.
  - unfold zone_enter, zone_switch. rewrite Hzr0. destruct pa; cbn.
    + reflexivity.
    + rewrite app_nil_r. reflexivity.
  - unfold zone_leave, zone_switch. rewrite Hzo. destruct pa; cbn.
    + reflexivity.
    + rewrite app_nil_r. reflexivity.
  - intros zr Hzr. unfold zone_enter, zone_switch. rewrite Hzr. destruct pa.
    + cbn [zones set_nativeMicrotasks]. rewrite lookup_update_zone, decide_True by reflexivity.
      cbn. rewrite Hzr. reflexivity.
    + cbn. exact Hzr.
Qed.


(** ** Ticks *)

(** X18.  asap(callback, args): the entry goes to the end of the microtask queue;
    the host is asked for a physical tick only when one is needed, and then
    none is needed any more, so of two calls in a row the second never asks;
    and although the request is made from the global zone, the active zone
    and Promise.prototype.then are as before. *)
Theorem asap_requests_one_tick cb args cb2 args2 st :
  wfb st = true ->
  exists st' st'',
    asap cb args st = Some (Normal tt, st') /\
    microtickQueue st' = microtickQueue st ++ [(cb, args)] /\
    physicalTicksRequested st' =
      (if needsNewPhysicalTick st then S (physicalTicksRequested st)
       else physicalTicksRequested st) /\
    needsNewPhysicalTick st' = false /\
    PSD st' = PSD st /\ protoThen st' = protoThen st /\ zones st' = zones st /\
    asap cb2 args2 st' = Some (Normal tt, st'') /\
    microtickQueue st'' = microtickQueue st ++ [(cb, args); (cb2, args2)] /\
    physicalTicksRequested st'' = physicalTicksRequested st'.
Proof.
  intros Hwf. apply wfb_sound in Hwf.
  pose proof (wf_asap st cb args Hwf) as Hwf'.
  exists (asap_state cb args st), (asap_state cb2 args2 (asap_state cb args st)).
  assert (Hneed : needsNewPhysicalTick (asap_state cb args st) = false).
  { unfold asap_state. destruct (needsNewPhysicalTick st) eqn:E; [reflexivity|exact E]. }
  conjs; try (apply run_asap; assumption); try exact Hneed;
    try (unfold asap_state; destruct (needsNewPhysicalTick st); reflexivity).
  - unfold asap_state at 1. rewrite Hneed. cbn.
    unfold asap_state. destruct (needsNewPhysicalTick st); cbn;
      rewrite <- app_assoc; reflexivity.
  - unfold asap_state at 1. rewrite Hneed. reflexivity.
Qed.

Lemma drain_returns_empty call : forall k st st',
    drain call k st = Some (Normal tt, st') -> microtickQueue st' = [].
Proof.
  induction k as [|k IH]; intros st st' H; [discriminate|].
  cbn [drain] in H. rewrite run_gets in H.
  destruct (microtickQueue st) as [|c cs] eqn:E.
  - inversion H; subst. exact E.
  - rewrite run_modify in H.
    apply bind_inv in H as [(a & st1 & H1 & H2)|(e & _ & He)]; [|discriminate].
    eapply IH; eauto.
Qed.

(** X19.  physicalTick().  Called while a tick is running, it does nothing
    (but note that no new physical tick is needed).  Called from the
    outside, it runs the microtask queue, oldest entry first, and whenever
    it returns the queue is empty, entries queued meanwhile included, and
    the engine is outside of ticks again.  An entry that throws ends the
    tick at once: the exception leaves physicalTick, the entries after it
    are not called and are no longer queued, and the state is as the entry
    left it, so the engine still counts as inside a tick. *)
Theorem physical_tick_drains_queue call fuel st :
  (isOutsideMicroTick st = false ->
   physicalTick call fuel st
   = Some (Normal VUndefined, set_needsNewPhysicalTick (fun _ => false) st)) /\
  (forall v st',
      isOutsideMicroTick st = true ->
      physicalTick call fuel st = Some (Normal v, st') ->
      microtickQueue st' = [] /\ isOutsideMicroTick st' = true /\
      needsNewPhysicalTick st' = true) /\
  (forall f args rest e st1,
      isOutsideMicroTick st = true ->
      microtickQueue st = (f, args) :: rest ->
      call f args (set_microtickQueue (fun _ => []) (tick_scope st)) = Some (Throws e, st1) ->
      (0 < fuel)%nat ->
      physicalTick call fuel st = Some (Throws e, st1)).
Proof.
  split; [|split].
  - intros Hin. unfold physicalTick, beginMicroTickScope.
    erewrite run_bind; [|rewrite run_gets, !run_modify; reflexivity].
    rewrite Hin. cbn [when]. unfold bind, ret. f_equal. f_equal.
    unfold set_isOutsideMicroTick, set_needsNewPhysicalTick. cbn. rewrite <- Hin.
    destruct st; reflexivity.
  - intros v st' Hout Hrun. unfold physicalTick, beginMicroTickScope in Hrun.
    erewrite run_bind in Hrun; [|rewrite run_gets, !run_modify; reflexivity].
    rewrite Hout in Hrun. cbn [when] in Hrun. fold (tick_scope st) in Hrun.
    apply bind_inv in Hrun as [(a & st1 & H1 & H2)|(e & _ & He)]; [|discriminate].
    inversion H2; subst. unfold endMicroTickScope in H1.
    apply bind_inv in H1 as [([] & st2 & H1 & H3)|(e & _ & He)]; [|discriminate].
    rewrite !run_modify in H3. inversion H3; subst.
    apply drain_returns_empty in H1. cbn. auto.
  - intros f args rest e st1 Hout Hq Hcall Hfuel.
    destruct fuel as [|fuel]; [lia|].
    unfold physicalTick, beginMicroTickScope.
    erewrite run_bind; [|rewrite run_gets, !run_modify; reflexivity].
    rewrite Hout. cbn [when]. fold (tick_scope st).
    apply run_bind_throws. unfold endMicroTickScope. apply run_bind_throws.
    cbn [drain]. rewrite run_gets.
    change (microtickQueue (tick_scope st)) with (microtickQueue st). rewrite Hq.
    rewrite run_modify. apply run_bind_throws. cbn [forEach fst snd].
    apply run_bind_throws. apply run_bind_throws. exact Hcall.
Qed.

(** X20.  Promise.reject(reason): the new promise is rejected with the reason,
    and the reason is noted as a rejection in progress; but the promise is
    not put on the unhandled list, nothing is queued and no zone counts it,
    because handleRejection returns at once for a promise that the private
    constructor has already marked as rejected.  So the tick's finalizer
    reports the promises that were listed before, and not this one. *)
Theorem promise_reject_is_not_listed call fuel reason st :
  wfb st = true ->
  let p := length (promises st) in
  let st1 := reject_state reason st in
  PromiseReject call fuel reason st = Some (Normal (VPromise p), st1) /\
  promises st1 !! p = Some (mkPromise [] false (PSD st) (Some false) reason) /\
  rejectingErrors st1 = rejectingErrors st ++ [reason] /\
  unhandledErrors st1 = unhandledErrors st /\
  microtickQueue st1 = microtickQueue st /\
  numScheduledCalls st1 = numScheduledCalls st /\
  zones st1 = zones st /\
  exists st2,
    finalizePhysicalTick call st1 = Some (Normal tt, st2) /\
    hostEvents st2 =
      hostEvents st ++ map (fun q => (reason_at st q, q)) (unhandledErrors st).
Proof.
  intros Hwf. apply wfb_sound in Hwf. cbv zeta.
  split; [apply run_PromiseReject|].
  split; [cbn; apply list_lookup_middle; reflexivity|].
  conjs; try reflexivity.
  pose proof (wf_reject_state reason st Hwf) as Hwf1.
  eexists. split.
  - unfold finalizePhysicalTick. rewrite run_gets, run_modify.
    erewrite run_bind; [|apply run_forEach_report; apply (wf_unh _ Hwf1)].
    rewrite run_gets. cbn [tickFinalizers set_hostEvents set_unhandledErrors reject_state
                           set_rejectingErrors set_promises].
    rewrite (wf_fin _ Hwf). reflexivity.
  - cbn [hostEvents set_hostEvents set_unhandledErrors reject_state
         set_rejectingErrors set_promises unhandledErrors].
    f_equal. apply map_ext_Forall. apply Forall_forall. intros q Hq.
    cbn beta. f_equal. unfold reason_at.
    change (promises (set_unhandledErrors (fun _ => []) (reject_state reason st)))
      with (promises st ++ [mkPromise [] false (PSD st) (Some false) reason]).
    rewrite lookup_app_l; [reflexivity|]. apply (wf_unh _ Hwf). exact Hq.
Qed.

(** ** Promise.race on pending promises *)

(** A promise that is still pending. *)
Definition waiting (st : State) (q : nat) : Prop :=
  exists r, promises st !! q = Some r /\ _state r = None.

(** The state after  q.then(resolve, reject)  on a pending promise [q]. *)
Definition race_wait (resolve reject : Value) (st : State) (q : nat) : State :=
  update_promise q
    (fun r => with_listeners (_listeners r ++ [then_listener resolve reject st]) r)
    (constructed st).

Lemma waiting_race_wait resolve reject st q q' :
  waiting st q' -> waiting (race_wait resolve reject st q) q'.
Proof.
  intros (r & Hr & Hs). unfold waiting, race_wait.
  rewrite lookup_update_promise.
  rewrite (lookup_constructed_old _ _ _ Hr).
  destruct (decide (q = q')); eexists; (split; [reflexivity|exact Hs]).
Qed.

Lemma run_raceExec_pending ufun n fuel resolve reject : forall qs st,
    Forall (waiting st) qs ->
    forEach (map VPromise qs)
            (fun value => p <- PromiseResolve (call ufun (S n)) fuel value ;;
                          methodThen (call ufun (S n)) fuel p resolve reject ;;; ret tt) st
    = Some (Normal tt, fold_left (race_wait resolve reject) qs st).
Proof.
  induction qs as [|q qs IH]; intros st Hqs; [reflexivity|].
  inversion Hqs as [|? ? (r & Hr & Hs) Hrest]; subst.
  cbn [map forEach fold_left].
  erewrite run_bind.
  2:{ unfold PromiseResolve. cbn [is_promise]. rewrite run_ret. cbn [methodThen].
      erewrite run_bind; [reflexivity|]. eapply run_then_pending; eassumption. }
  apply IH. eapply Forall_impl; [exact Hrest|].
  intros q'. apply waiting_race_wait.
Qed.

(** What the registrations leave as it was. *)
Record grown (st st' : State) : Prop := {
  g_PSD : PSD st' = PSD st;
  g_protoThen : protoThen st' = protoThen st;
  g_native : nativePromiseThen st' = nativePromiseThen st;
  g_queue : microtickQueue st' = microtickQueue st;
  g_callLog : callLog st' = callLog st;
  g_unhandled : unhandledErrors st' = unhandledErrors st;
  g_length : (length (promises st) <= length (promises st'))%nat;
  g_grow : forall p r, promises st !! p = Some r ->
                       exists r', promises st' !! p = Some r' /\
                                  _state r' = _state r /\ _value r' = _value r /\
                                  (forall l, l ∈ _listeners r -> l ∈ _listeners r')
}.

Lemma grown_refl st : grown st st.
Proof. constructor; auto. intros p r Hr. exists r. auto. Qed.

Lemma grown_trans a b c : grown a b -> grown b c -> grown a c.
Proof.
  intros H1 H2. constructor.
  - rewrite (g_PSD _ _ H2). apply H1.
  - rewrite (g_protoThen _ _ H2). apply H1.
  - rewrite (g_native _ _ H2). apply H1.
  - rewrite (g_queue _ _ H2). apply H1.
  - rewrite (g_callLog _ _ H2). apply H1.
  - rewrite (g_unhandled _ _ H2). apply H1.
  - pose proof (g_length _ _ H1). pose proof (g_length _ _ H2). lia.
  - intros p r Hr.
    destruct (g_grow _ _ H1 p r Hr) as (r1 & Hr1 & Hs1 & Hv1 & Hl1).
    destruct (g_grow _ _ H2 p r1 Hr1) as (r2 & Hr2 & Hs2 & Hv2 & Hl2).
    exists r2. split; [exact Hr2|]. split; [congruence|]. split; [congruence|].
    auto.
Qed.

Lemma grown_race_wait resolve reject st q :
  grown st (race_wait resolve reject st q).
Proof.
  constructor; try reflexivity.
  - unfold race_wait. rewrite length_update_promise. cbn. rewrite length_app. lia.
  - intros p r Hr. unfold race_wait. rewrite lookup_update_promise.
    rewrite (lookup_constructed_old _ _ _ Hr).
    destruct (decide (q = p)); eexists; (split; [reflexivity|]); cbn; auto.
    split; [reflexivity|]. split; [reflexivity|].
    intros l Hl. apply elem_of_app. auto.
Qed.

Lemma grown_fold resolve reject : forall qs st,
    grown st (fold_left (race_wait resolve reject) qs st).
Proof.
  induction qs as [|q qs IH]; intros st; [apply grown_refl|].
  cbn [fold_left]. eapply grown_trans; [apply grown_race_wait|apply IH].
Qed.

(** A promise that is not among the inputs keeps its record. *)
Lemma fold_race_wait_other resolve reject p : forall qs st,
    p ∉ qs -> (p < length (promises st))%nat ->
    promises (fold_left (race_wait resolve reject) qs st) !! p = promises st !! p.
Proof.
  induction qs as [|q qs IH]; intros st Hp Hlt; [reflexivity|].
  cbn [fold_left]. apply not_elem_of_cons in Hp as [Hne Hp].
  rewrite IH; [|exact Hp|].
  - unfold race_wait. rewrite lookup_update_promise_ne by auto.
    cbn. apply lookup_app_l. exact Hlt.
  - pose proof (g_length _ _ (grown_race_wait resolve reject st q)). lia.
Qed.

(** Every input has a listener with the two handlers. *)
Lemma fold_race_wait_listener resolve reject : forall qs st q,
    Forall (waiting st) qs -> q ∈ qs ->
    is_function resolve = true -> is_function reject = true ->
    exists r' l,
      promises (fold_left (race_wait resolve reject) qs st) !! q = Some r' /\
      _state r' = None /\ l ∈ _listeners r' /\
      l_onFulfilled l = wrapHandler (protoThen st) (PSD st) (nativePromiseThen st) resolve /\
      l_onRejected l = wrapHandler (protoThen st) (PSD st) (nativePromiseThen st) reject.
Proof.
  induction qs as [|q0 qs IH]; intros st q Hqs Hq Hres Hrej; [inversion Hq|].
  inversion Hqs as [|? ? (r & Hr & Hs) Hrest]; subst.
  cbn [fold_left].
  pose proof (grown_race_wait resolve reject st q0) as Hg.
  assert (Hrest' : Forall (waiting (race_wait resolve reject st q0)) qs).
  { eapply Forall_impl; [exact Hrest|]. intros q'. apply waiting_race_wait. }
  destruct (decide (q ∈ qs)) as [Hin|Hnin].
  - destruct (IH _ q Hrest' Hin Hres Hrej) as (r' & l & H1 & H2 & H3 & H4 & H5).
    exists r', l. rewrite (g_protoThen _ _ Hg), (g_PSD _ _ Hg), (g_native _ _ Hg) in H4, H5.
    auto 6.
  - apply elem_of_cons in Hq as [->|Hq]; [|contradiction].
    assert (Hq0 : promises (race_wait resolve reject st q0) !! q0
                  = Some (with_listeners
                            (_listeners r ++ [then_listener resolve reject st]) r)).
    { unfold race_wait.
      rewrite (lookup_update_promise_eq _ _ _ r (lookup_constructed_old _ _ _ Hr)).
      reflexivity. }
    destruct (g_grow _ _ (grown_fold resolve reject qs _) q0 _ Hq0)
      as (r' & Hr' & Hs' & _ & Hl').
    exists r', (then_listener resolve reject st).
    split; [exact Hr'|]. split; [rewrite Hs'; exact Hs|].
    split; [apply Hl'; cbn; apply elem_of_app; right; apply list_elem_of_here|].
    unfold then_listener, newListener. cbn [l_onFulfilled l_onRejected].
    rewrite !is_function_wrapHandler, Hres, Hrej. auto.
Qed.

(** X21.  Promise.race on promises that are all pending returns a pending
    promise, and [then] has been called on every input with the two
    capabilities of that promise as handlers: each input has a listener
    for it and is still pending; nothing is queued and no function of the
    application is called. *)
Theorem race_waits_for_pending_inputs ufun n fuel st qs :
  Forall (waiting st) qs ->
  let rp := length (promises st) in
  let st' := fold_left (race_wait (VFn (FResolve rp)) (VFn (FReject rp))) qs
                       (constructed st) in
  race (call ufun (S (S n))) fuel (map VPromise qs) st = Some (Normal (VPromise rp), st') /\
  promises st' !! rp = Some (mkPromise [] false (PSD st) None VNull) /\
  (forall q, q ∈ qs ->
     exists r' l,
       promises st' !! q = Some r' /\ _state r' = None /\ l ∈ _listeners r' /\
       l_onFulfilled l
       = wrapHandler (protoThen st) (PSD st) (nativePromiseThen st) (VFn (FResolve rp)) /\
       l_onRejected l
       = wrapHandler (protoThen st) (PSD st) (nativePromiseThen st) (VFn (FReject rp))) /\
  microtickQueue st' = microtickQueue st /\
  callLog st' = callLog st /\
  unhandledErrors st' = unhandledErrors st.
Proof.
  intros Hqs. cbv zeta.
  set (rp := length (promises st)).
  assert (Hqs' : Forall (waiting (constructed st)) qs).
  { eapply Forall_impl; [exact Hqs|]. intros q (r & Hr & Hs).
    exists r. split; [apply lookup_constructed_old; exact Hr|exact Hs]. }
  pose proof (grown_fold (VFn (FResolve rp)) (VFn (FReject rp)) qs (constructed st))
    as Hg.
  conjs.
  - unfold race. erewrite run_bind; [reflexivity|].
    eapply run_newPromise_returns; [reflexivity|].
    unfold callValue. rewrite call_S. cbn [dispatch]. rewrite arg_0, arg_1.
    unfold raceExec. fold rp.
    rewrite (run_bind _ _ _ _ _
               (run_raceExec_pending ufun n (S n) (VFn (FResolve rp)) (VFn (FReject rp))
                  qs (constructed st) Hqs')).
    reflexivity.
  - rewrite fold_race_wait_other.
    + apply lookup_constructed_new.
    + intros Hin. rewrite Forall_forall in Hqs.
      destruct (Hqs _ Hin) as (r & Hr & _). apply lookup_lt_Some in Hr. unfold rp in Hr. lia.
    + cbn. rewrite length_app. cbn. unfold rp. lia.
  - intros q Hq.
    destruct (fold_race_wait_listener (VFn (FResolve rp)) (VFn (FReject rp)) qs
                (constructed st) q Hqs' Hq eq_refl eq_refl)
      as (r' & l & H1 & H2 & H3 & H4 & H5).
    exists r', l. auto 6.
  - apply (g_queue _ _ Hg).
  - apply (g_callLog _ _ Hg).
  - apply (g_unhandled _ _ Hg).
Qed.

(** X22.  a listener call whose handler is a capability of a pending
    promise [t], as [race] and the adoption of a thenable register them:
    the call returns, [t] has taken the outcome of the promise listened to,
    no function of the application is called, and every promise that was
    settled before keeps its outcome. *)
Theorem capability_handler_hands_outcome_on
        ufun n st q rq (s : bool) t rt rv z a b :
  wfb st = true -> heap_okb st = true ->
  promises st !! q = Some rq -> _state rq = Some s ->
  promises st !! t = Some rt -> _state rt = None ->
  (rv < length (promises st))%nat -> (z < length (zones st))%nat ->
  (length (promises st) + length (zones st) + 3 <= n)%nat ->
  exists st' rt',
    callListener (call ufun n) (VFn (if s then FResolve t else FReject t)) q
      (mkListener a b (VFn (FResolve rv)) (VFn (FReject rv)) z) st
    = Some (Normal tt, st') /\
    promises st' !! t = Some rt' /\ _state rt' = Some s /\ _value rt' = _value rq /\
    callLog st' = callLog st /\
    settled_stable st st'.
Proof.
  intros Hwf Hh Hq Hsq Ht Hst Hrv Hz Hn.
  apply wfb_sound in Hwf. apply heap_okb_sound in Hh.
  set (v := _value rq).
  set (cb := VFn (if s then FResolve t else FReject t)).
  set (st0 := handler_entry q (Some s) st).
  assert (Hwf0 : wf st0).
  { unfold st0. destruct s; cbn; destruct Hwf; constructor; auto. }
  assert (Hp0 : promises st0 = promises st) by (unfold st0; destruct s; reflexivity).
  assert (Hc0 : callLog st0 = callLog st) by (unfold st0; destruct s; reflexivity).
  assert (Hz0 : zones st0 = zones st) by (unfold st0; destruct s; reflexivity).
  assert (Hh0 : heap_ok st0) by (eapply heap_ok_frame; eauto).
  assert (Hv : s = true -> is_thenable v = false).
  { intros ->. apply (ok_value _ _ (Hh q rq Hq)). exact Hsq. }
  destruct n as [|n]; [lia|].
  (* the handler *)
  destruct (cascade_settle ufun (length (promises st0)) n st0 t s v)
    as (st1 & Hcb & Hc1 & Hset1); auto.
  { apply pending_le_length. }
  { rewrite Hp0. eapply lookup_lt_Some; eauto. }
  { rewrite Hp0, Hz0. lia. }
  destruct (Hset1 rt) as (rt1 & Ht1 & Hst1 & Hvt1); [rewrite Hp0; exact Ht|exact Hst|].
  assert (Hq1 : (q < length (promises st1))%nat).
  { rewrite (c_length _ _ Hc1), Hp0. eapply lookup_lt_Some; eauto. }
  assert (Hmatch : exists st1',
             match Some s with
             | Some true => callValue (call ufun (S n)) cb [v]
             | _ =>
                 modify (set_rejectingErrors (fun _ => [])) ;;;
                 ret_ <- callValue (call ufun (S n)) cb [v] ;;
                 rejecting <- gets rejectingErrors ;;
                 when (not_in_values v rejecting) (markErrorAsHandled q) ;;;
                 ret ret_
             end (set_currentFulfiller (fun _ => Some q) st)
             = Some (Normal VUndefined, st1') /\
             promises st1' = promises st1 /\ callLog st1' = callLog st1 /\
             wf st1' /\ zones st1' = zones st1).
  { unfold st0 in Hcb. destruct s; cbn [handler_entry] in Hcb.
    - exists st1. conjs; auto. apply (c_wf _ _ Hc1).
    - rewrite run_modify. unfold cb. cbn [callValue].
      rewrite (run_bind _ _ _ _ _ Hcb), run_gets.
      destruct (not_in_values _ _); cbn [when].
      + destruct (wf_markErrorAsHandled st1 q (c_wf _ _ Hc1) Hq1)
          as (st1' & Hrun & H1 & H2 & H3 & H4).
        exists st1'. rewrite (run_bind _ _ _ _ _ Hrun). conjs; auto.
      + exists st1. conjs; auto. apply (c_wf _ _ Hc1). }
  destruct Hmatch as (st1' & Hm & Hp1 & Hcl1 & Hwf1' & Hz1).
  (* the promise that then returned *)
  destruct (cascade_settle ufun (length (promises st1')) n st1' rv true VUndefined)
    as (st2 & Hset & Hc2 & _); auto.
  { eapply heap_ok_frame; [exact Hp1|apply (c_heap _ _ Hc1)]. }
  { apply pending_le_length. }
  { rewrite Hp1, (c_length _ _ Hc1), Hp0. exact Hrv. }
  { rewrite Hp1, (c_length _ _ Hc1), Hp0, Hz1, (c_zones _ _ Hc1), Hz0. lia. }
  (* the epilogue *)
  destruct (run_listenerEpilogue ufun (S n) st2 z (c_wf _ _ Hc2)) as (st' & Hep & Hp3 & Hc3 & _).
  { rewrite (c_zones _ _ Hc2), Hz1, (c_zones _ _ Hc1), Hz0. exact Hz. }
  { lia. }
  assert (Hstable1 : settled_stable st st1').
  { eapply settled_stable_trans; [apply settled_stable_frame; exact Hp0|].
    eapply settled_stable_trans; [apply (c_stable _ _ Hc1)|].
    apply settled_stable_frame. exact Hp1. }
  assert (Hstable : settled_stable st1' st').
  { eapply settled_stable_trans; [apply (c_stable _ _ Hc2)|].
    apply settled_stable_frame. exact Hp3. }
  destruct (Hstable t rt1) as (rt' & Ht' & Hst' & Hvt');
    [rewrite Hp1; exact Ht1 | rewrite Hst1; discriminate |].
  exists st', rt'. conjs.
  - rewrite callListener_unfold. cbn [l_resolve l_reject l_psd].
    eapply run_try_finally; [|exact Hep].
    apply run_try_catch_normal. rewrite run_modify.
    rewrite (run_bind _ _ _ _ _
               (run_getPromise q (set_currentFulfiller (fun _ => Some q) st) rq Hq)).
    cbv zeta. rewrite Hsq. fold v.
    rewrite (run_bind _ _ _ _ _ Hm). cbn [callValue].
    rewrite (run_bind _ _ _ _ _ Hset). reflexivity.
  - exact Ht'.
  - congruence.
  - congruence.
  - rewrite Hc3, (c_callLog _ _ Hc2), Hcl1, (c_callLog _ _ Hc1). exact Hc0.
  - eapply settled_stable_trans; eauto.
Qed.

(** ** Fulfilled promises hold plain values

    The resolving function follows a thenable instead of storing it, and
    Promise.resolve builds a settled promise from a value that is no
    thenable only: whatever the application does, no promise is ever
    fulfilled with a promise or another thenable. *)

Definition fulfilled_plain (r : PromiseRec) : Prop :=
  _state r = Some true -> is_thenable (_value r) = false.

Definition plain_values (st : State) : Prop :=
  Forall fulfilled_plain (promises st).

Lemma plain_values_update st p f :
  (forall r, fulfilled_plain r -> fulfilled_plain (f r)) ->
  plain_values st -> plain_values (update_promise p f st).
Proof.
  intros Hf H. unfold plain_values, update_promise in *. cbn.
  destruct (promises st !! p) as [r|] eqn:E; [|exact H].
  apply Forall_insert; [exact H|]. apply Hf.
  eapply Forall_lookup_1; eauto.
Qed.

(** X23.  no call, whatever the application code does, leaves a promise
    fulfilled with a promise or a thenable, if none was before. *)
Theorem fulfilled_values_are_plain ufun n f args st o st' :
  plain_values st ->
  call ufun n f args st = Some (o, st') ->
  plain_values st'.
Proof.
  intros H Hcall. revert H.
  refine (pres_call_plain (fun a b => plain_values a -> plain_values b)
            _ _ _ _ _ _ _ _ _ ufun n f args st o st' Hcall).
  - auto.
  - auto.
  - intros a b Hp _ H. unfold plain_values in *. rewrite Hp. exact H.
  - intros a r Hr H. unfold plain_values in *. cbn.
    apply Forall_app. split; [exact H|]. constructor; [exact Hr|constructor].
  - intros a p g Hg H. apply plain_values_update; [|exact H].
    intros r Hr. unfold fulfilled_plain in *. destruct (Hg r) as [-> ->]. exact Hr.
  - intros a p r s v _ _ Hv H. apply plain_values_update; [|exact H].
    intros r0 _ Hs. cbn in Hs |- *. apply Hv. congruence.
  - intros a p r _ _ _ H. exact H.
  - intros a g l _ H. exact H.
  - intros a H. exact H.
Qed.

(** ** The further properties at concrete inputs *)

Lemma then_on_pending_registers_witness :
  exists st',
    invokeThen (call no_ufun 1) 0 2 VNull VNull st_adopt
    = Some (Normal (VPromise 3), st') /\
    microtickQueue st' = [] /\ callLog st' = [].
Proof.
  destruct (then_on_pending_registers no_ufun 0 0 st_adopt 2
              (mkPromise [] false 0 None VNull) VNull VNull eq_refl eq_refl)
    as (H1 & _ & _ & H2 & H3).
  eexists. split; [exact H1|]. split; [exact H2|exact H3].
Defined.

Lemma then_without_handler_passes_outcome_witness :
  exists st' rv,
    invokeThen (call no_ufun 5) 5 0 VNull VNull st_fulfilled
    = Some (Normal (VPromise 1), st') /\
    promises st' !! 1%nat = Some rv /\
    _state rv = Some true /\ _value rv = VNum 1 /\
    callLog st' = [].
Proof.
  apply (then_without_handler_passes_outcome no_ufun 5 5 st_fulfilled 0
           (mkPromise [] false 0 (Some true) (VNum 1)) true VNull VNull);
    try reflexivity; try (cbn; lia).
Defined.

(** The listener of  Promise.resolve(1).finally(fn)  is called with a
    handler that throws "boom". *)
Definition st_boom : State :=
  set_callLog (fun l => l ++ [(0%nat, [], [VNum 1])]) (handler_entry 0 (Some true) st_finally).

Lemma handler_completion_settles_downstream_witness :
  exists st' rrv',
    callListener (call finally_app 6) (VFn (FUser 0 [])) 0
      (mkListener VNull VNull (VFn (FResolve 1)) (VFn (FReject 1)) 0) st_finally
    = Some (Normal tt, st') /\
    promises st' !! 1%nat = Some rrv' /\
    _state rrv' = Some false /\ _value rrv' = VStr "boom" /\
    callLog st' = callLog st_boom.
Proof.
  apply (handler_completion_settles_downstream finally_app 6 st_finally
           (VFn (FUser 0 [])) 0 (mkPromise [] false 0 (Some true) (VNum 1))
           1 (mkPromise [] false 0 None VNull) 0 VNull VNull
           (Throws (VStr "boom")) st_boom false (VStr "boom"));
    try reflexivity; try (split; reflexivity); try (cbn; lia).
Defined.

(** new Promise(fn) in the initial state, when fn throws "boom". *)
Definition st_executor_thrown : State :=
  set_callLog (fun l => l ++ [(0%nat, [], [VFn (FResolve 0); VFn (FReject 0)])])
              (constructed initial).

Lemma executor_throw_rejects_witness :
  exists st' r',
    newPromise (call finally_app 3) 3 (VFn (FUser 0 [])) initial = Some (Normal 0%nat, st') /\
    promises st' !! 0%nat = Some r' /\
    _state r' = Some false /\ _value r' = VStr "boom".
Proof.
  apply (executor_throw_rejects finally_app 2 initial (VFn (FUser 0 [])) (VStr "boom")
           st_executor_thrown (mkPromise [] false 0 None VNull));
    try reflexivity; try (cbn; lia).
Defined.

Lemma constructor_rejects_non_function_witness :
  exists st',
    newPromise (call no_ufun 0) 0 (VNum 1) initial
    = Some (Throws (VObj 0 (Some ETypeError) None "Not a function"), st') /\
    zones st' = zones initial.
Proof.
  destruct (constructor_rejects_non_function (call no_ufun 0) 0 (VNum 1) initial eq_refl)
    as (st' & H1 & H2 & _).
  exists st'. split; [exact H1|exact H2].
Defined.

Lemma resolve_with_thenable_calls_then_witness :
  exists st' r',
    call finally_app 5 (FResolve 0) [VThenable 7 (FUser 0 [])] (constructed initial)
    = Some (Normal VUndefined, st') /\
    promises st' !! 0%nat = Some r' /\
    (_state r' = Some false /\ _value r' = VStr "boom") /\
    callLog st' = callLog st_executor_thrown.
Proof.
  apply (resolve_with_thenable_calls_then finally_app 3 (constructed initial) 0
           (mkPromise [] false 0 None VNull) 7 (FUser 0 []) (Throws (VStr "boom"))
           st_executor_thrown (mkPromise [] false 0 None VNull));
    try reflexivity; try (cbn; lia).
Defined.

Lemma finalize_reports_each_unhandled_once_witness :
  exists st',
    finalizePhysicalTick (call no_ufun 0) st_rejected = Some (Normal tt, st') /\
    hostEvents st' = [(VStr "e", 0%nat)] /\ unhandledErrors st' = [] /\
    finalizePhysicalTick (call no_ufun 0) st' = Some (Normal tt, st').
Proof.
  destruct (finalize_reports_each_unhandled_once (call no_ufun 0) st_rejected eq_refl)
    as (H1 & H2).
  eexists. split; [exact H1|]. split; [reflexivity|]. split; [reflexivity|exact H2].
Defined.

(** Promise 0 is rejected with "e" and listed; promise 1 is rejected with
    "f" and not listed. *)
Definition st_two_rejected : State :=
  set_promises (fun _ => [mkPromise [] false 0 (Some false) (VStr "e");
                          mkPromise [] false 0 (Some false) (VStr "f")])
               st_rejected.

Lemma mark_handled_removes_the_reason_witness :
  (* the entry for "e" is taken off, and none with that reason is left *)
  (exists st',
      markErrorAsHandled 0 st_two_rejected = Some (Normal tt, st') /\
      promises st' = promises st_two_rejected /\
      existsb (same_reason st' (VStr "e")) (unhandledErrors st') = false) /\
  (* "f" is not listed: adding and marking promise 1 changes nothing *)
  (addPossiblyUnhandledError 1 ;;; markErrorAsHandled 1) st_two_rejected
  = Some (Normal tt, st_two_rejected).
Proof.
  destruct mark_handled_removes_the_reason as (H1 & H2 & H3). split.
  - destruct (H1 st_two_rejected 0%nat (mkPromise [] false 0 (Some false) (VStr "e"))
                eq_refl eq_refl) as (st' & Hrun & Hp & _).
    exists st'. split; [exact Hrun|]. split; [exact Hp|].
    apply (H2 st_two_rejected 0%nat (mkPromise [] false 0 (Some false) (VStr "e"))
              (Normal tt) st' eq_refl eq_refl); [|exact Hrun].
    split; cbn; repeat constructor. eexists. split; [reflexivity|discriminate].
  - apply (H3 st_two_rejected 1%nat (mkPromise [] false 0 (Some false) (VStr "f")));
      try reflexivity; discriminate.
Defined.

Lemma resolve_with_pending_promise_waits_witness :
  exists st',
    call no_ufun 2 (FResolve 2) [VPromise 1] st_adopt = Some (Normal VUndefined, st') /\
    promises st' !! 2%nat = Some (mkPromise [] false 0 None VNull).
Proof.
  destruct (resolve_with_pending_promise_waits no_ufun 0 st_adopt 2
              (mkPromise [] false 0 None VNull) 1
              (mkPromise [mkListener VNull VNull (VFn (FResolve 2)) (VFn (FReject 2)) 0]
                         false 0 None VNull)
              eq_refl eq_refl eq_refl eq_refl eq_refl ltac:(discriminate))
    as (H1 & H2 & _).
  eexists. split; [exact H1|exact H2].
Defined.

Lemma followers_take_the_outcome_witness :
  exists st' rq' rd',
    call no_ufun 5 (FResolve 1) [VNum 5] st_adopt = Some (Normal VUndefined, st') /\
    promises st' !! 1%nat = Some rq' /\ _state rq' = Some true /\ _value rq' = VNum 5 /\
    promises st' !! 2%nat = Some rd' /\ _state rd' = Some true /\ _value rd' = VNum 5 /\
    callLog st' = [].
Proof.
  apply (followers_take_the_outcome no_ufun 4 st_adopt 1
           (mkPromise [mkListener VNull VNull (VFn (FResolve 2)) (VFn (FReject 2)) 0]
                      false 0 None VNull)
           true (VNum 5)
           (mkListener VNull VNull (VFn (FResolve 2)) (VFn (FReject 2)) 0) 2
           (mkPromise [] false 0 None VNull));
    try reflexivity; try (split; reflexivity); try (cbn; lia);
    try (cbn; apply list_elem_of_here).
Defined.

(** Promise 0 is pending and has two listeners with handlers; promises 1
    and 2 are the ones [then] returned. *)
Definition st_waiting : State :=
  set_zones (fun _ => [mkZone None 3 true ThenOrig])
    (set_promises
       (fun _ => [mkPromise [mkListener (VFn (FUser 0 [])) VNull
                                        (VFn (FResolve 1)) (VFn (FReject 1)) 0;
                             mkListener (VFn (FUser 1 [])) VNull
                                        (VFn (FResolve 2)) (VFn (FReject 2)) 0]
                            false 0 None VNull;
                  mkPromise [] false 0 None VNull;
                  mkPromise [] false 0 None VNull])
       initial).

Lemma settling_queues_listeners_in_order_witness :
  exists st',
    call no_ufun 2 (FResolve 0) [VNum 7] st_waiting = Some (Normal VUndefined, st') /\
    microtickQueue st' =
      [(FCallListener,
        [VFn (FUser 0 []); VPromise 0;
         VListener (mkListener (VFn (FUser 0 [])) VNull
                               (VFn (FResolve 1)) (VFn (FReject 1)) 0)]);
       (FCallListener,
        [VFn (FUser 1 []); VPromise 0;
         VListener (mkListener (VFn (FUser 1 [])) VNull
                               (VFn (FResolve 2)) (VFn (FReject 2)) 0)])] /\
    callLog st' = [].
Proof.
  destruct (settling_queues_listeners_in_order no_ufun 1 st_waiting 0
              (mkPromise [mkListener (VFn (FUser 0 [])) VNull
                                     (VFn (FResolve 1)) (VFn (FReject 1)) 0;
                          mkListener (VFn (FUser 1 [])) VNull
                                     (VFn (FResolve 2)) (VFn (FReject 2)) 0]
                         false 0 None VNull)
              true (VNum 7) eq_refl eq_refl eq_refl eq_refl ltac:(reflexivity))
    as (st' & H1 & _ & H2 & H3).
  - intros l Hl. cbn in Hl.
    apply elem_of_cons in Hl as [->|Hl]; [reflexivity|].
    apply list_elem_of_singleton in Hl. subst l. reflexivity.
  - cbn. lia.
  - exists st'. split; [exact H1|]. split; [exact H2|exact H3].
Defined.

Lemma unhandled_rejection_is_reported_witness :
  exists st1 st2,
    call no_ufun 2 (FReject 0) [VStr "e"] (constructed initial)
    = Some (Normal VUndefined, st1) /\
    unhandledErrors st1 = [0%nat] /\
    microtickQueue st1 = [(FTickDec, [])] /\
    call no_ufun 2 FTickDec [] st1 = Some (Normal VUndefined, st2) /\
    unhandledErrors st2 = [] /\
    hostEvents st2 = hostEvents st1 ++ [(VStr "e", 0%nat)].
Proof.
  apply (unhandled_rejection_is_reported no_ufun 1 (constructed initial) 0
           (mkPromise [] false 0 None VNull) (VStr "e"));
    try reflexivity; try (cbn; lia); try constructor.
Defined.

Lemma usePSD_restores_zone_witness :
  usePSD (call no_ufun 1) 0 (VFn (FUser 0 [])) [] initial
  = Some (Normal VUndefined,
          zone_switch 0 (set_callLog (fun l => l ++ [(0%nat, [], [])]) initial)).
Proof.
  apply (usePSD_restores_zone (call no_ufun 1) 0 (VFn (FUser 0 [])) [] initial
           (Normal VUndefined) (set_callLog (fun l => l ++ [(0%nat, [], [])]) initial));
    try reflexivity; try (cbn; lia).
Defined.

(** fn, called by newScope in the initial state. *)
Definition st_scope_called : State :=
  set_callLog (fun l => l ++ [(0%nat, [], [VUndefined; VUndefined; VUndefined])])
              (scope_entry initial).

Lemma newScope_throw_keeps_parent_pinned_witness :
  newScope (call finally_app 1) (VFn (FUser 0 [])) VUndefined VUndefined initial
  = Some (Throws (VStr "boom"), zone_switch 0 st_scope_called) /\
  zones (zone_switch 0 st_scope_called)
  = [mkZone None 1 true ThenOrig;
     mkZone (Some 0%nat) 0 false (ThenPatched ThenOrig 1)].
Proof.
  destruct (newScope_throw_keeps_parent_pinned (call finally_app 1) (VFn (FUser 0 []))
              VUndefined VUndefined initial globalPSD (VStr "boom") st_scope_called
              eq_refl eq_refl eq_refl eq_refl eq_refl ltac:(cbn; lia))
    as (H1 & _).
  split; [exact H1|reflexivity].
Defined.

Lemma newScope_finalizes_idle_zone_witness :
  exists zs' chain h,
    newScope (call no_ufun 2) (VFn (FUser 0 [])) VUndefined VUndefined initial
    = Some (Normal VUndefined,
            zone_step zs' (1%nat :: chain) h (zone_switch 0 st_scope_called)) /\
    zs' !! 0%nat = Some (mkZone None 0 true ThenOrig).
Proof.
  destruct (proj2 (newScope_finalizes_idle_zone no_ufun 1 (VFn (FUser 0 []))
                     VUndefined VUndefined initial globalPSD VUndefined st_scope_called
                     (mkZone (Some 0%nat) 0 false (ThenPatched ThenOrig 1))
                     eq_refl eq_refl eq_refl eq_refl eq_refl eq_refl eq_refl eq_refl
                     ltac:(cbn; lia))
              eq_refl (mkZone None 1 true ThenOrig) eq_refl)
    as (zs' & chain & h & H1 & H2 & _).
  exists zs', chain, h. split; [exact H1|exact H2].
Defined.

Lemma wrapped_runs_in_captured_zone_witness :
  wrapped (call no_ufun 1) 1 (VFn (FUser 0 [])) VUndefined 0 [] (tick_scope initial)
  = Some (Normal VUndefined,
          zone_switch 0 (set_callLog (fun l => l ++ [(0%nat, [], [])])
                                     (tick_scope initial))).
Proof.
  apply (proj2 (proj2 (proj2
           (wrapped_runs_in_captured_zone (call no_ufun 1) 1 (VFn (FUser 0 [])) VUndefined
              0 [] (tick_scope initial) VUndefined
              (set_callLog (fun l => l ++ [(0%nat, [], [])]) (tick_scope initial))
              eq_refl ltac:(cbn; lia) eq_refl eq_refl ltac:(cbn; lia)))));
    reflexivity.
Defined.

Lemma zone_wrapper_runs_handler_in_zone_witness :
  zoneWrapped (call no_ufun 1) (VFn (FUser 0 [])) 0 true [] initial
  = Some (Normal VUndefined,
          zone_leave 0 0 true
            (set_callLog (fun l => l ++ [(0%nat, [], [])]) (zone_enter 0 true initial))).
Proof.
  apply (zone_wrapper_runs_handler_in_zone (call no_ufun 1) initial (VFn (FUser 0 [])) 0 true
           [] (Normal VUndefined)
           (set_callLog (fun l => l ++ [(0%nat, [], [])]) (zone_enter 0 true initial)));
    try reflexivity; try (cbn; lia).
Defined.

Lemma asap_requests_one_tick_witness :
  exists st' st'',
    asap FTickDec [] initial = Some (Normal tt, st') /\
    physicalTicksRequested st' = 1%nat /\
    asap FTickDec [] st' = Some (Normal tt, st'') /\
    microtickQueue st'' = [(FTickDec, []); (FTickDec, [])] /\
    physicalTicksRequested st'' = 1%nat.
Proof.
  destruct (asap_requests_one_tick FTickDec [] FTickDec [] initial eq_refl)
    as (st' & st'' & H1 & _ & Ht & _ & _ & _ & _ & H2 & Hq & Ht2).
  exists st', st''. conjs; [exact H1|exact Ht|exact H2|exact Hq|].
  rewrite Ht2. exact Ht.
Defined.

(** A queue whose first entry throws "boom". *)
Definition st_queue_boom : State :=
  set_microtickQueue (fun _ => [(FUser 0 [], []); (FTickDec, [])]) initial.

Lemma physical_tick_drains_queue_witness :
  physicalTick (call no_ufun 0) 0 (tick_scope initial)
  = Some (Normal VUndefined,
          set_needsNewPhysicalTick (fun _ => false) (tick_scope initial)) /\
  physicalTick (call finally_app 1) 1 st_queue_boom
  = Some (Throws (VStr "boom"),
          set_callLog (fun l => l ++ [(0%nat, [], [])])
            (set_microtickQueue (fun _ => []) (tick_scope st_queue_boom))).
Proof.
  split.
  - apply (proj1 (physical_tick_drains_queue (call no_ufun 0) 0 (tick_scope initial))).
    reflexivity.
  - apply (proj2 (proj2 (physical_tick_drains_queue (call finally_app 1) 1 st_queue_boom))
             (FUser 0 []) [] [(FTickDec, [])]);
      try reflexivity. lia.
Defined.

Lemma promise_reject_is_not_listed_witness :
  PromiseReject (call no_ufun 0) 0 (VStr "e") st_rejected
  = Some (Normal (VPromise 2), reject_state (VStr "e") st_rejected) /\
  unhandledErrors (reject_state (VStr "e") st_rejected) = [0%nat].
Proof.
  destruct (promise_reject_is_not_listed (call no_ufun 0) 0 (VStr "e") st_rejected eq_refl)
    as (H1 & _ & _ & H2 & _).
  split; [exact H1|exact H2].
Defined.

(** The state after promise 1 of [st_adopt] is resolved with the fulfilled
    promise 0. *)
Definition st_adopted : State :=
  match call no_ufun 7 (FResolve 1) [VPromise 0] st_adopt with
  | Some (_, st) => st
  | None => st_adopt
  end.

Lemma fulfilled_values_are_plain_witness :
  map _value (promises st_adopted) = [VNum 1; VNum 1; VNum 1] /\
  plain_values st_adopted.
Proof.
  split; [reflexivity|].
  apply (fulfilled_values_are_plain no_ufun 7 (FResolve 1) [VPromise 0] st_adopt
           (Normal VUndefined) st_adopted); [|vm_compute; reflexivity].
  repeat (constructor; [intros _; reflexivity|]). constructor.
Defined.

Lemma race_waits_for_pending_inputs_witness :
  race (call no_ufun 2) 0 [VPromise 1; VPromise 2] st_adopt
  = Some (Normal (VPromise 3),
          fold_left (race_wait (VFn (FResolve 3)) (VFn (FReject 3))) [1%nat; 2%nat]
                    (constructed st_adopt)).
Proof.
  apply (proj1 (race_waits_for_pending_inputs no_ufun 0 0 st_adopt [1%nat; 2%nat]
                  ltac:(repeat constructor; eexists; split; reflexivity))).
Defined.

Lemma capability_handler_hands_outcome_on_witness :
  exists st' rt',
    callListener (call no_ufun 7) (VFn (FResolve 1)) 0
      (mkListener VNull VNull (VFn (FResolve 2)) (VFn (FReject 2)) 0) st_adopt
    = Some (Normal tt, st') /\
    promises st' !! 1%nat = Some rt' /\ _state rt' = Some true /\ _value rt' = VNum 1 /\
    callLog st' = [] /\
    settled_stable st_adopt st'.
Proof.
  apply (capability_handler_hands_outcome_on no_ufun 7 st_adopt 0
           (mkPromise [] false 0 (Some true) (VNum 1)) true 1
           (mkPromise [mkListener VNull VNull (VFn (FResolve 2)) (VFn (FReject 2)) 0]
                      false 0 None VNull)
           2 0 VNull VNull);
    try reflexivity; cbn; lia.
Defined.
